(** * Remhos: the monotonicity / flux-correction engine of the remap mini-app

    A shallow embedding of [remhos.cpp]: the topology precomputation of
    [DofInfo], the face-flux assembly of [Assembly], the discrete upwinding
    matrix, and the low-order / FCT right-hand-side evaluators of
    [FE_Evolution].

    Conventions of the embedding.
    - A C++ [double] is an exact rational ([Q]): no operation rounds.  The
      only non-finite doubles the code creates on purpose, the
      [numeric_limits<double>::infinity()] seeds of running minima and
      maxima, are carried by the type [ext].  Where a non-finite value would
      enter an arithmetic expression the model answers [None] (or
      [NotFinite]) instead of a number.
    - Where a property depends on the rounding (the bounds and the
      conservation of the limiter, the denominators of the residual
      distribution), the code is written again over an abstract arithmetic
      in the last part of the file, [Arith] and after, and run both in exact
      arithmetic with the special values of IEEE 754 and in binary64.
    - [std::max(a,b)] is [(a < b) ? b : a] and [std::min(a,b)] is
      [(b < a) ? b : a]; these are exactly [Qmax] and [Qmin].
    - An [mfem::Vector], [Array<int>], [DenseMatrix] or [DenseTensor] is a raw
      buffer with unchecked [operator()]; it is a total function from indices
      to values, the sizes being the ones the callers fixed with [SetSize].
    - [int] arithmetic on dof and element numbers is done in [Z] / [nat]
      (signed overflow is undefined in C++ and does not occur for meshes that
      fit in memory).
    - [mfem_error] aborts the run: it is the [Fatal] result. *)

From Stdlib Require Import ZArith QArith Qminmax Qabs List Lia Lqa Bool String.
From Stdlib Require Import Floats.
From stdpp Require Import base gmap.
Import ListNotations.

(** ** Fatal errors *)

Inductive result (A : Type) : Type :=
| Ok (a : A)
| Fatal (msg : string).
Arguments Ok {A} a.
Arguments Fatal {A} msg.

#[global] Instance result_ret : MRet result := fun _ a => Ok a.
#[global] Instance result_bind : MBind result := fun _ _ f r =>
  match r with
  | Ok a => f a
  | Fatal msg => Fatal msg
  end.

Definition mfem_error {A : Type} (msg : string) : result A := Fatal msg.

(** [for (i = 0; i < n; i++)] with an [int] counter *)
Definition zrange (n : nat) : list Z := map Z.of_nat (seq 0 n).

Lemma in_zrange (n : nat) (z : Z) :
  In z (zrange n) <-> (0 <= z < Z.of_nat n)%Z.
Proof.
  unfold zrange. rewrite in_map_iff. split.
  - intros (i & <- & Hi). apply in_seq in Hi. lia.
  - intros Hz. exists (Z.to_nat z). split; [lia|]. apply in_seq. lia.
Qed.

Lemma NoDup_zrange (n : nat) : List.NoDup (zrange n).
Proof.
  unfold zrange. generalize 0%nat as a.
  induction n as [|n IH]; intros a; cbn [seq map]; constructor.
  - rewrite in_map_iff. intros (t & Ht & Hin). apply in_seq in Hin. lia.
  - apply IH.
Qed.

(** ** Doubles that may be infinite: running minima and maxima *)

Inductive ext : Type :=
| MInf
| Fin (q : Q)
| PInf.

Definition ext_ltb (a b : ext) : bool :=
  match a, b with
  | MInf, MInf => false
  | MInf, _ => true
  | Fin _, MInf => false
  | Fin x, Fin y => match Qcompare x y with Lt => true | _ => false end
  | Fin _, PInf => true
  | PInf, _ => false
  end.

Definition ext_leb (a b : ext) : bool := negb (ext_ltb b a).
Definition ext_le (a b : ext) : Prop := ext_leb a b = true.

(** [std::max] and [std::min] on doubles *)
Definition emax (a b : ext) : ext := if ext_ltb a b then b else a.
Definition emin (a b : ext) : ext := if ext_ltb b a then b else a.

Definition fin (a : ext) : option Q :=
  match a with
  | Fin q => Some q
  | _ => None
  end.

Lemma ext_ltb_irrefl a : ext_ltb a a = false.
Proof.
  destruct a as [|q|]; simpl; try reflexivity.
  assert (H : (q ?= q)%Q = Eq) by (apply Qeq_alt; reflexivity).
  now rewrite H.
Qed.

Lemma ext_le_refl a : ext_le a a.
Proof. unfold ext_le, ext_leb. now rewrite ext_ltb_irrefl. Qed.

Lemma ext_le_fin (x y : Q) : ext_le (Fin x) (Fin y) <-> (x <= y)%Q.
Proof.
  unfold ext_le, ext_leb. simpl. destruct (Qcompare y x) eqn:E; simpl.
  - apply Qeq_alt in E. split; [intros _; lra | reflexivity].
  - apply Qlt_alt in E. split; [discriminate | lra].
  - apply Qgt_alt in E. split; [intros _; lra | reflexivity].
Qed.

Lemma ext_ltb_fin (x y : Q) : ext_ltb (Fin x) (Fin y) = true <-> (x < y)%Q.
Proof.
  simpl. destruct (Qcompare x y) eqn:E.
  - apply Qeq_alt in E. split; [discriminate | lra].
  - apply Qlt_alt in E. tauto.
  - apply Qgt_alt in E. split; [discriminate | lra].
Qed.

Lemma ext_ltb_trans a b c :
  ext_ltb a b = true -> ext_ltb b c = true -> ext_ltb a c = true.
Proof.
  destruct a as [|x|], b as [|y|], c as [|z|]; simpl; try congruence.
  intros H1 H2.
  apply (proj1 (ext_ltb_fin x y)) in H1. apply (proj1 (ext_ltb_fin y z)) in H2.
  apply ext_ltb_fin. lra.
Qed.

Lemma ext_ltb_asym a b : ext_ltb a b = true -> ext_ltb b a = false.
Proof.
  intros H. destruct (ext_ltb b a) eqn:E; [|reflexivity].
  pose proof (ext_ltb_trans _ _ _ H E) as H1.
  now rewrite ext_ltb_irrefl in H1.
Qed.

Lemma ext_lt_le a b : ext_ltb a b = true -> ext_le a b.
Proof. intros H. unfold ext_le, ext_leb. now rewrite (ext_ltb_asym _ _ H). Qed.

Lemma ext_le_trans a b c : ext_le a b -> ext_le b c -> ext_le a c.
Proof.
  unfold ext_le, ext_leb.
  destruct a as [|x|], b as [|y|], c as [|z|]; simpl; try congruence; try reflexivity.
  intros H1 H2.
  apply (proj1 (ext_le_fin x y)) in H1. apply (proj1 (ext_le_fin y z)) in H2.
  apply ext_le_fin. lra.
Qed.

Lemma emin_le_l a b : ext_le (emin a b) a.
Proof.
  unfold emin. destruct (ext_ltb b a) eqn:E.
  - now apply ext_lt_le.
  - apply ext_le_refl.
Qed.

Lemma emin_le_r a b : ext_le (emin a b) b.
Proof.
  unfold emin. destruct (ext_ltb b a) eqn:E.
  - apply ext_le_refl.
  - unfold ext_le, ext_leb. now rewrite E.
Qed.

Lemma emax_ge_l a b : ext_le a (emax a b).
Proof.
  unfold emax. destruct (ext_ltb a b) eqn:E.
  - now apply ext_lt_le.
  - apply ext_le_refl.
Qed.

Lemma emax_ge_r a b : ext_le b (emax a b).
Proof.
  unfold emax. destruct (ext_ltb a b) eqn:E.
  - apply ext_le_refl.
  - unfold ext_le, ext_leb. now rewrite E.
Qed.

Lemma emax_fin (x y : Q) : emax (Fin x) (Fin y) = Fin (Qmax x y).
Proof.
  unfold emax, Qmax, GenericMinMax.gmax. simpl.
  now destruct (Qcompare x y).
Qed.

Lemma emin_fin (x y : Q) : emin (Fin x) (Fin y) = Fin (Qmin x y).
Proof.
  unfold emin, Qmin, GenericMinMax.gmin. simpl.
  rewrite <- (Qcompare_antisym x y).
  now destruct (Qcompare x y).
Qed.

(** ** Mesh topology adapter (external collaborator)

    What [DofInfo] asks of [mfem::Mesh]: the dimension, the element count,
    the boundary entities (vertices, edges or faces) of an element, and the
    two elements of a face.  An exterior face has [Elem2No < 0]. *)

Record FaceElementTransformations : Type := {
  Elem1No : Z;
  Elem2No : Z
}.

Record Mesh : Type := {
  Dimension : Z;
  GetNE : nat;
  GetElementVertices : Z -> list Z;
  GetElementEdges : Z -> list Z;
  GetElementFaces : Z -> list Z;
  GetFaceElementTransformations : Z -> FaceElementTransformations
}.

Module DofInfo.

Local Open Scope Z_scope.
Local Coercion Z.of_nat : nat >-> Z.

(** [map_for_bounds[dofInd]]: [std::map::operator[]] creates an empty vector
    for a key that is not there yet. *)
Definition bounds_of (m : gmap Z (list Z)) (dofInd : Z) : list Z :=
  default [] (m !! dofInd).

(** [map_for_bounds[dofInd].push_back(e)] *)
Definition push_back (m : gmap Z (list Z)) (dofInd e : Z) : gmap Z (list Z) :=
  <[dofInd := bounds_of m dofInd ++ [e]]> m.

(** [if (nbr >= 0) { map_for_bounds[dofInd].push_back(nbr); }] *)
Definition push_if_nbr (nbr : Z) (m : gmap Z (list Z)) (dofInd : Z)
  : gmap Z (list Z) :=
  if 0 <=? nbr then push_back m dofInd nbr else m.

(** [ComputeVertexBounds(x, dofInd)]: the new [xi_min(dofInd)] and
    [xi_max(dofInd)], from the seeds [+infinity] and [-infinity]. *)
Definition vertex_bounds_loop (xe_min xe_max : Z -> ext) (contrib : list Z)
  (seed : ext * ext) : ext * ext :=
  fold_left (fun b e => (emin (fst b) (xe_min e), emax (snd b) (xe_max e)))
            contrib seed.

Definition ComputeVertexBounds (map_for_bounds : gmap Z (list Z))
  (xe_min xe_max : Z -> ext) (dofInd : Z) : ext * ext :=
  vertex_bounds_loop xe_min xe_max (bounds_of map_for_bounds dofInd) (PInf, MInf).

Section Topology.

Variable mesh : Mesh.
(** [BdrDofs(j, slot)], extracted once from the reference element *)
Variable BdrDofs : Z -> Z -> Z.
(** [numBdrs = BdrDofs.Width()], [numDofs = BdrDofs.Height()] *)
Variables numBdrs numDofs : nat.
(** [dummy.GetDof()] and [dummy.GetOrder()] of the first element *)
Variables nd p : nat.

Definition dim : Z := Dimension mesh.
Definition ne : nat := GetNE mesh.

(** The boundary entities of an element, chosen by the dimension; in another
    dimension the array stays empty. *)
Definition element_bdrs (el : Z) : list Z :=
  if dim =? 1 then GetElementVertices mesh el
  else if dim =? 2 then GetElementEdges mesh el
  else if dim =? 3 then GetElementFaces mesh el
  else [].

(** [bdrs[i]] *)
Definition at_ (a : list Z) (i : Z) : Z := nth (Z.to_nat i) a 0.

(** [Trans->Elem1No != el ? Trans->Elem1No : Trans->Elem2No] *)
Definition nbr_not (el face : Z) : Z :=
  let Trans := GetFaceElementTransformations mesh face in
  if negb (Elem1No Trans =? el) then Elem1No Trans else Elem2No Trans.

(** [Trans->Elem1No == k ? Trans->Elem2No : Trans->Elem1No] *)
Definition nbr_across (k face : Z) : Z :=
  let Trans := GetFaceElementTransformations mesh face in
  if Elem1No Trans =? k then Elem2No Trans else Elem1No Trans.

(** *** GetCommonElem *)

(** The body of the double loop: [found] and [CmnNbr] are one [option]. *)
Definition common_body (el a b : Z) (found : option Z) : result (option Z) :=
  if (a =? b) && negb (a =? el) then
    match found with
    | None => Ok (Some a)
    | Some _ => mfem_error "Found multiple common neighbor elements."
    end
  else Ok found.

Fixpoint common_inner (el a : Z) (NbrEl2 : list Z) (found : option Z)
  : result (option Z) :=
  match NbrEl2 with
  | [] => Ok found
  | b :: rest =>
      if b <? 0 then common_inner el a rest found
      else found' ← common_body el a b found; common_inner el a rest found'
  end.

Fixpoint common_outer (el : Z) (NbrEl1 NbrEl2 : list Z) (found : option Z)
  : result (option Z) :=
  match NbrEl1 with
  | [] => Ok found
  | a :: rest =>
      if a <? 0 then common_outer el rest NbrEl2 found
      else found' ← common_inner el a NbrEl2 found;
           common_outer el rest NbrEl2 found'
  end.

(** The lists of all neighbours of [el1] and [el2] *)
Definition NbrEl (el : Z) : list Z :=
  map (fun i => nbr_not el (at_ (element_bdrs el) i)) (zrange numBdrs).

Definition GetCommonElem (el el1 el2 : Z) : result Z :=
  if Z.min el1 el2 <? 0 then Ok (-1)
  else
    found ← common_outer el (NbrEl el1) (NbrEl el2) None;
    match found with
    | Some CmnNbr => Ok CmnNbr
    | None => Ok (-1)
    end.

(** *** GetVertexBoundsMap *)

(** include the current element for all dofs of the element *)
Definition include_own (k : Z) (m : gmap Z (list Z)) : gmap Z (list Z) :=
  fold_left (fun m i => push_back m (k * nd + i) k) (zrange nd) m.

(** [NbrElem[i]] after the loop over the boundary slots of element [k] *)
Definition NbrElem (k : Z) : list Z :=
  map (fun i => nbr_across k (at_ (element_bdrs k) i)) (zrange numBdrs).

(** Include neighbors sharing a face with element k for face dofs. *)
Definition include_face_nbrs (k : Z) (m : gmap Z (list Z)) : gmap Z (list Z) :=
  fold_left
    (fun m i =>
       let nbr := at_ (NbrElem k) i in
       if nbr <? 0 then m
       else fold_left (fun m j => push_back m (k * nd + BdrDofs j i) nbr)
                      (zrange numDofs) m)
    (zrange numBdrs) m.

(** dim == 2: neighbor elements for the four vertices *)
Definition include_corners_2D (k : Z) (m : gmap Z (list Z))
  : result (gmap Z (list Z)) :=
  let N := at_ (NbrElem k) in
  nbr ← GetCommonElem k (N 3) (N 0);
  let m := push_if_nbr nbr m (k * nd) in
  nbr ← GetCommonElem k (N 0) (N 1);
  let m := push_if_nbr nbr m (k * nd + p) in
  nbr ← GetCommonElem k (N 1) (N 2);
  let m := push_if_nbr nbr m ((k + 1) * nd - 1) in
  nbr ← GetCommonElem k (N 2) (N 3);
  let m := push_if_nbr nbr m (k * nd + p * (p + 1)) in
  Ok m.

(** dim == 3: the twelve edge neighbours *)
Definition EdgeNbrs (k : Z) : result (list Z) :=
  let N := at_ (NbrElem k) in
  e0 ← GetCommonElem k (N 0) (N 1);
  e1 ← GetCommonElem k (N 0) (N 2);
  e2 ← GetCommonElem k (N 0) (N 3);
  e3 ← GetCommonElem k (N 0) (N 4);
  e4 ← GetCommonElem k (N 5) (N 1);
  e5 ← GetCommonElem k (N 5) (N 2);
  e6 ← GetCommonElem k (N 5) (N 3);
  e7 ← GetCommonElem k (N 5) (N 4);
  e8 ← GetCommonElem k (N 4) (N 1);
  e9 ← GetCommonElem k (N 1) (N 2);
  e10 ← GetCommonElem k (N 2) (N 3);
  e11 ← GetCommonElem k (N 3) (N 4);
  Ok [e0; e1; e2; e3; e4; e5; e6; e7; e8; e9; e10; e11].

(** include neighbor elements for the twelve edges: one pass of the loop over
    [j = 0 .. p] *)
Definition include_edges_3D_body (k : Z) (E : list Z) (m : gmap Z (list Z))
  (j : Z) : gmap Z (list Z) :=
  let m := push_if_nbr (at_ E 0) m (k*nd + j) in
  let m := push_if_nbr (at_ E 1) m (k*nd + (j+1)*(p+1) - 1) in
  let m := push_if_nbr (at_ E 2) m (k*nd + p*(p+1) + j) in
  let m := push_if_nbr (at_ E 3) m (k*nd + j*(p+1)) in
  let m := push_if_nbr (at_ E 4) m (k*nd + (p+1)*(p+1)*p + j) in
  let m := push_if_nbr (at_ E 5) m (k*nd + (p+1)*(p+1)*p + (j+1)*(p+1) - 1) in
  let m := push_if_nbr (at_ E 6) m (k*nd + (p+1)*(p+1)*p + p*(p+1) + j) in
  let m := push_if_nbr (at_ E 7) m (k*nd + (p+1)*(p+1)*p + j*(p+1)) in
  let m := push_if_nbr (at_ E 8) m (k*nd + j*(p+1)*(p+1)) in
  let m := push_if_nbr (at_ E 9) m (k*nd + p + j*(p+1)*(p+1)) in
  let m := push_if_nbr (at_ E 10) m (k*nd + (j+1)*(p+1)*(p+1) - 1) in
  let m := push_if_nbr (at_ E 11) m (k*nd + p*(p+1) + j*(p+1)*(p+1)) in
  m.

(** include neighbor elements for the 8 vertices *)
Definition include_corners_3D (k : Z) (E : list Z) (m : gmap Z (list Z))
  : result (gmap Z (list Z)) :=
  let N := at_ (NbrElem k) in
  nbr ← GetCommonElem (N 0) (at_ E 0) (at_ E 3);
  let m := push_if_nbr nbr m (k*nd) in
  nbr ← GetCommonElem (N 0) (at_ E 0) (at_ E 1);
  let m := push_if_nbr nbr m (k*nd + p) in
  nbr ← GetCommonElem (N 0) (at_ E 2) (at_ E 3);
  let m := push_if_nbr nbr m (k*nd + p*(p+1)) in
  nbr ← GetCommonElem (N 0) (at_ E 1) (at_ E 2);
  let m := push_if_nbr nbr m (k*nd + (p+1)*(p+1) - 1) in
  nbr ← GetCommonElem (N 5) (at_ E 4) (at_ E 7);
  let m := push_if_nbr nbr m (k*nd + (p+1)*(p+1)*p) in
  nbr ← GetCommonElem (N 5) (at_ E 4) (at_ E 5);
  let m := push_if_nbr nbr m (k*nd + (p+1)*(p+1)*p + p) in
  nbr ← GetCommonElem (N 5) (at_ E 6) (at_ E 7);
  let m := push_if_nbr nbr m (k*nd + (p+1)*(p+1)*p + (p+1)*p) in
  nbr ← GetCommonElem (N 5) (at_ E 5) (at_ E 6);
  let m := push_if_nbr nbr m (k*nd + (p+1)*(p+1)*(p+1) - 1) in
  Ok m.

(** One pass of the loop over the elements *)
Definition bounds_map_element (m : gmap Z (list Z)) (k : Z)
  : result (gmap Z (list Z)) :=
  let m := include_own k m in
  let m := include_face_nbrs k m in
  if dim =? 2 then include_corners_2D k m
  else if dim =? 3 then
    E ← EdgeNbrs k;
    let m := fold_left (include_edges_3D_body k E) (zrange (S p)) m in
    include_corners_3D k E m
  else Ok m.

Fixpoint bounds_map_loop (ks : list Z) (m : gmap Z (list Z))
  : result (gmap Z (list Z)) :=
  match ks with
  | [] => Ok m
  | k :: rest => m' ← bounds_map_element m k; bounds_map_loop rest m'
  end.

(** [map_for_bounds] starts empty when [DofInfo] is constructed. *)
Definition GetVertexBoundsMap : result (gmap Z (list Z)) :=
  bounds_map_loop (zrange ne) ∅.

(** *** FillNeighborDofs *)

(** [NbrDof(k, i, j)], stored in a [DenseTensor] of doubles holding integers *)
Definition Tensor : Type := Z -> Z -> Z -> Z.

Definition tset (T : Tensor) (k i j v : Z) : Tensor :=
  fun k' i' j' => if (k' =? k) && (i' =? i) && (j' =? j) then v else T k' i' j'.

(** Find the local index ind in nbr of the common face:
    [for (ind = 0; ind < numBdrs; ind++) if (NbrBdrs[ind] == face) break;] *)
Fixpoint find_ind (NbrBdrs : list Z) (face : Z) (inds : list Z) : Z :=
  match inds with
  | [] => numBdrs
  | ind :: rest =>
      if at_ NbrBdrs ind =? face then ind else find_ind NbrBdrs face rest
  end.

Definition fill_1D (k : Z) (T : Tensor) : Tensor :=
  let bdrs := GetElementVertices mesh k in
  fold_left
    (fun T i =>
       let nbr := nbr_across k (at_ bdrs i) in
       tset T k i 0 (nbr * nd + BdrDofs 0 ((i + 1) mod 2)))
    (zrange numBdrs) T.

Definition fill_2D (k : Z) (T : Tensor) : Tensor :=
  let bdrs := GetElementEdges mesh k in
  fold_left
    (fun T i =>
       let nbr := nbr_across k (at_ bdrs i) in
       fold_left
         (fun T j =>
            if 0 <=? nbr then
              let NbrBdrs := GetElementEdges mesh nbr in
              let ind := find_ind NbrBdrs (at_ bdrs i) (zrange numBdrs) in
              tset T k i j (nbr * nd + BdrDofs (numDofs - 1 - j) ind)
            else tset T k i j (-1))
         (zrange numDofs) T)
    (zrange numBdrs) T.

Definition fill_3D (k : Z) (T : Tensor) : Tensor :=
  let bdrs := GetElementFaces mesh k in
  fold_left
    (fun T j =>
       let nbr := nbr_across k (at_ bdrs 0) in
       let T := tset T k 0 j (nbr*nd + (p+1)*(p+1)*p + j) in
       let nbr := nbr_across k (at_ bdrs 1) in
       let T := tset T k 1 j
                  (nbr*nd + (j / (p+1))*(p+1)*(p+1) + (p+1)*p + (j mod (p+1))) in
       let nbr := nbr_across k (at_ bdrs 2) in
       let T := tset T k 2 j (nbr*nd + j*(p+1)) in
       let nbr := nbr_across k (at_ bdrs 3) in
       let T := tset T k 3 j
                  (nbr*nd + (j / (p+1))*(p+1)*(p+1) + (j mod (p+1))) in
       let nbr := nbr_across k (at_ bdrs 4) in
       let T := tset T k 4 j (nbr*nd + (j+1)*(p+1) - 1) in
       let nbr := nbr_across k (at_ bdrs 5) in
       let T := tset T k 5 j (nbr*nd + j) in
       T)
    (zrange numDofs) T.

Definition fill_element (T : Tensor) (k : Z) : Tensor :=
  if dim =? 1 then fill_1D k T
  else if dim =? 2 then fill_2D k T
  else if dim =? 3 then fill_3D k T
  else T.

(** [NbrDof0] is the freshly sized (uninitialised) tensor. *)
Definition FillNeighborDofs (NbrDof0 : Tensor) : Tensor :=
  fold_left fill_element (zrange ne) NbrDof0.

End Topology.

End DofInfo.

(** ** GetCommonElem: the common neighbour of two face neighbours *)

Module CommonElem.
Import DofInfo.
Local Open Scope Z_scope.

(** A slot pair of the double loop is a match when both slots have a
    neighbour, the neighbours are the same element, and it is not [el]. *)
Definition is_match (el : Z) (ab : Z * Z) : bool :=
  (0 <=? fst ab) && (0 <=? snd ab) && (fst ab =? snd ab) && negb (fst ab =? el).

(** The matching slot pairs, in the order the double loop visits them; a pair
    of slots [(i, j)] is listed by the neighbours [(NbrEl1[i], NbrEl2[j])]. *)
Definition matching_slots (el : Z) (NbrEl1 NbrEl2 : list Z) : list (Z * Z) :=
  List.filter (is_match el) (list_prod NbrEl1 NbrEl2).

(** [e] is an element across one of the boundary slots of [el1]. *)
Definition face_adjacent (mesh : Mesh) (numBdrs : nat) (e el1 : Z) : Prop :=
  0 <= e /\ In e (NbrEl mesh numBdrs el1).

(** What the loop does with the matches it meets, one after the other *)
Fixpoint settle (found : option Z) (L : list (Z * Z)) : result (option Z) :=
  match L with
  | [] => Ok found
  | c :: L' =>
      match found with
      | None => settle (Some (fst c)) L'
      | Some _ => Fatal "Found multiple common neighbor elements."
      end
  end.

Lemma settle_app found L1 L2 :
  settle found (L1 ++ L2) = (found' ← settle found L1; settle found' L2).
Proof.
  revert found. induction L1 as [|c L1 IH]; intros found; simpl.
  - reflexivity.
  - destruct found; [reflexivity | apply IH].
Qed.

Lemma is_match_pair el a b :
  is_match el (a, b)
  = (0 <=? a) && (0 <=? b) && (a =? b) && negb (a =? el).
Proof. reflexivity. Qed.

Lemma common_inner_settle el a N2 found :
  0 <= a ->
  common_inner el a N2 found
  = settle found (List.filter (is_match el) (map (fun b => (a, b)) N2)).
Proof.
  intros Ha. revert found.
  induction N2 as [|b N2 IH]; intros found; [reflexivity|].
  cbn [map List.filter common_inner]. rewrite is_match_pair.
  destruct (Z.leb_spec 0 a) as [_|Ha']; [|lia].
  destruct (Z.ltb_spec b 0) as [Hb|Hb], (Z.leb_spec 0 b) as [Hb'|Hb'];
    try lia; cbn [andb].
  - apply IH.
  - unfold common_body.
    destruct ((a =? b) && negb (a =? el)); cbn [settle fst].
    + destruct found; [reflexivity | apply IH].
    + apply IH.
Qed.

Lemma filter_no_slot el a N2 :
  a < 0 -> List.filter (is_match el) (map (fun b => (a, b)) N2) = [].
Proof.
  intros Ha. induction N2 as [|b N2 IH]; [reflexivity|].
  cbn [map List.filter]. rewrite is_match_pair.
  destruct (Z.leb_spec 0 a) as [Ha'|_]; [lia|]. cbn [andb]. apply IH.
Qed.

Lemma common_outer_settle el N1 N2 found :
  common_outer el N1 N2 found = settle found (matching_slots el N1 N2).
Proof.
  unfold matching_slots. revert found.
  induction N1 as [|a N1 IH]; intros found; simpl; [reflexivity|].
  rewrite List.filter_app, settle_app.
  destruct (Z.ltb_spec a 0) as [Ha|Ha].
  - rewrite (filter_no_slot el a N2 Ha). simpl. apply IH.
  - rewrite (common_inner_settle el a N2 found Ha).
    destruct (settle found _); simpl; [apply IH | reflexivity].
Qed.

Lemma matching_slots_nil_iff el N1 N2 :
  matching_slots el N1 N2 = []
  <-> (forall e, ~ (e <> el /\ (0 <= e /\ In e N1) /\ (0 <= e /\ In e N2))).
Proof.
  unfold matching_slots. split.
  - intros Hnil e (Hne & (He & H1) & (_ & H2)).
    assert (Hin : In (e, e) (List.filter (is_match el) (list_prod N1 N2))).
    { apply List.filter_In. split; [now apply in_prod|].
      unfold is_match. simpl.
      rewrite (proj2 (Z.leb_le 0 e) He), Z.eqb_refl.
      now rewrite (proj2 (Z.eqb_neq e el) Hne). }
    rewrite Hnil in Hin. destruct Hin.
  - intros Hno.
    destruct (List.filter (is_match el) (list_prod N1 N2)) as [|[a b] L] eqn:E;
      [reflexivity|].
    assert (Hin : In (a, b) (List.filter (is_match el) (list_prod N1 N2)))
      by (rewrite E; now left).
    apply List.filter_In in Hin. destruct Hin as [Hin Hm].
    apply in_prod_iff in Hin. destruct Hin as [H1 H2].
    unfold is_match in Hm. simpl in Hm.
    apply andb_prop in Hm. destruct Hm as [Hm Hel].
    apply andb_prop in Hm. destruct Hm as [Hm Hab].
    apply andb_prop in Hm. destruct Hm as [Ha Hb].
    apply Z.leb_le in Ha. apply Z.eqb_eq in Hab. subst b.
    apply negb_true_iff, Z.eqb_neq in Hel.
    exfalso. apply (Hno a). tauto.
Qed.

(** C8. [GetCommonElem(el, el1, el2)] returns [-1] when [el1] or [el2] is
    negative; otherwise its result is decided by the slot pairs of the double
    loop that match (same non-negative neighbour on both sides, different
    from [el]): no match gives [-1], exactly one match gives that element,
    and a second match after the first is the fatal error "Found multiple
    common neighbor elements.".  There is no match exactly when no element
    other than [el] is face-adjacent to both [el1] and [el2]. *)
Theorem GetCommonElem_spec (mesh : Mesh) (numBdrs : nat) (el el1 el2 : Z) :
  let common :=
    matching_slots el (NbrEl mesh numBdrs el1) (NbrEl mesh numBdrs el2) in
  GetCommonElem mesh numBdrs el el1 el2
  = (if Z.min el1 el2 <? 0 then Ok (-1)
     else match common with
          | [] => Ok (-1)
          | [c] => Ok (fst c)
          | _ :: _ :: _ => Fatal "Found multiple common neighbor elements."
          end)
  /\ (common = []
      <-> forall e, ~ (e <> el /\ face_adjacent mesh numBdrs e el1
                               /\ face_adjacent mesh numBdrs e el2)).
Proof.
  intros common. split.
  - unfold GetCommonElem. destruct (Z.min el1 el2 <? 0); [reflexivity|].
    rewrite common_outer_settle. fold common.
    destruct common as [|c [|c' L]]; reflexivity.
  - apply matching_slots_nil_iff.
Qed.

End CommonElem.

(** ** Vertex bounds: the contributor map and the bounds query *)

Module VertexBounds.
Import DofInfo.
Local Open Scope Z_scope.
Local Coercion Z.of_nat : nat >-> Z.

(** *** The bounds query on a list of contributors *)

Lemma vertex_bounds_loop_app xe_min xe_max l1 l2 seed :
  vertex_bounds_loop xe_min xe_max (l1 ++ l2) seed
  = vertex_bounds_loop xe_min xe_max l2
      (vertex_bounds_loop xe_min xe_max l1 seed).
Proof. unfold vertex_bounds_loop. apply fold_left_app. Qed.

Lemma vertex_bounds_loop_bounds xe_min xe_max contrib seed :
  let b := vertex_bounds_loop xe_min xe_max contrib seed in
  (ext_le (fst b) (fst seed) /\ ext_le (snd seed) (snd b))
  /\ forall e, In e contrib ->
       ext_le (fst b) (xe_min e) /\ ext_le (xe_max e) (snd b).
Proof.
  revert seed. induction contrib as [|e0 l IH]; intros seed; cbn zeta.
  - split; [split; apply ext_le_refl | intros e []].
  - cbn [vertex_bounds_loop fold_left].
    specialize (IH (emin (fst seed) (xe_min e0), emax (snd seed) (xe_max e0))).
    cbn zeta in IH. unfold vertex_bounds_loop in IH. cbn [fst snd] in IH.
    destruct IH as [[Hlo Hhi] Hall]. split; [split|].
    + eapply ext_le_trans; [exact Hlo | apply emin_le_l].
    + eapply ext_le_trans; [apply emax_ge_l | exact Hhi].
    + intros e [<-|He].
      * split.
        -- eapply ext_le_trans; [exact Hlo | apply emin_le_r].
        -- eapply ext_le_trans; [apply emax_ge_r | exact Hhi].
      * now apply Hall.
Qed.

Lemma vertex_bounds_loop_attained xe_min xe_max contrib seed :
  let b := vertex_bounds_loop xe_min xe_max contrib seed in
  (fst b = fst seed \/ exists e, In e contrib /\ fst b = xe_min e)
  /\ (snd b = snd seed \/ exists e, In e contrib /\ snd b = xe_max e).
Proof.
  revert seed. induction contrib as [|e0 l IH]; intros seed; cbn zeta.
  - split; now left.
  - cbn [vertex_bounds_loop fold_left].
    specialize (IH (emin (fst seed) (xe_min e0), emax (snd seed) (xe_max e0))).
    cbn zeta in IH. unfold vertex_bounds_loop in IH. cbn [fst snd] in IH.
    destruct IH as [Hmin Hmax]. split.
    + destruct Hmin as [Hmin|(e & He & Hmin)].
      * rewrite Hmin. unfold emin.
        destruct (ext_ltb (xe_min e0) (fst seed));
          [right; exists e0; split; [now left | reflexivity] | now left].
      * right. exists e. split; [now right | exact Hmin].
    + destruct Hmax as [Hmax|(e & He & Hmax)].
      * rewrite Hmax. unfold emax.
        destruct (ext_ltb (snd seed) (xe_max e0));
          [right; exists e0; split; [now left | reflexivity] | now left].
      * right. exists e. split; [now right | exact Hmax].
Qed.

Lemma ext_le_PInf_inv a : ext_le PInf a -> a = PInf.
Proof. destruct a; unfold ext_le, ext_leb; simpl; congruence. Qed.

Lemma ext_le_MInf_inv a : ext_le a MInf -> a = MInf.
Proof. destruct a; unfold ext_le, ext_leb; simpl; congruence. Qed.

(** *** Pushing only adds contributors *)

Definition grows (m m' : gmap Z (list Z)) : Prop :=
  forall d e, In e (bounds_of m d) -> In e (bounds_of m' d).

Lemma grows_refl m : grows m m.
Proof. intros d e H. exact H. Qed.

Lemma grows_trans m1 m2 m3 : grows m1 m2 -> grows m2 m3 -> grows m1 m3.
Proof. intros H1 H2 d e H. apply H2, H1, H. Qed.

Lemma bounds_of_push_back_eq (m : gmap Z (list Z)) (d e : Z) :
  bounds_of (push_back m d e) d = bounds_of m d ++ [e].
Proof. unfold bounds_of at 1, push_back. now rewrite lookup_insert_eq. Qed.

Lemma bounds_of_push_back_ne (m : gmap Z (list Z)) (d d' e : Z) :
  d <> d' -> bounds_of (push_back m d e) d' = bounds_of m d'.
Proof.
  intros Hne. unfold bounds_of at 1, push_back.
  now rewrite lookup_insert_ne.
Qed.

Lemma grows_push_back m d e : grows m (push_back m d e).
Proof.
  intros d' e' H. destruct (Z.eq_dec d d') as [<-|Hne].
  - rewrite bounds_of_push_back_eq. apply in_or_app. now left.
  - now rewrite bounds_of_push_back_ne.
Qed.

Lemma in_push_back m d e : In e (bounds_of (push_back m d e) d).
Proof. rewrite bounds_of_push_back_eq. apply in_or_app. right. now left. Qed.

Lemma grows_push_if_nbr nbr m d : grows m (push_if_nbr nbr m d).
Proof.
  unfold push_if_nbr. destruct (0 <=? nbr);
    [apply grows_push_back | apply grows_refl].
Qed.

Lemma grows_fold_left {A : Type} (f : gmap Z (list Z) -> A -> gmap Z (list Z))
  (l : list A) (m : gmap Z (list Z)) :
  (forall m a, grows m (f m a)) -> grows m (fold_left f l m).
Proof.
  intros Hf. revert m. induction l as [|a l IH]; intros m; simpl.
  - apply grows_refl.
  - eapply grows_trans; [apply Hf | apply IH].
Qed.

Section Construction.

Variable mesh : Mesh.
Variable BdrDofs : Z -> Z -> Z.
Variables numBdrs numDofs nd p : nat.

Lemma include_own_grows k m : grows m (include_own nd k m).
Proof. apply grows_fold_left. intros; apply grows_push_back. Qed.

Lemma include_own_has k (l : list Z) m i :
  In i l ->
  In k (bounds_of (fold_left (fun m i => push_back m (k * nd + i) k) l m)
                  (k * nd + i)).
Proof.
  revert m. induction l as [|a l IH]; intros m Hin; [destruct Hin|].
  cbn [fold_left]. destruct Hin as [->|Hin].
  - eapply (grows_fold_left (fun m i => push_back m (k * nd + i) k)).
    + intros; apply grows_push_back.
    + apply in_push_back.
  - now apply IH.
Qed.

Lemma include_face_nbrs_grows k m :
  grows m (include_face_nbrs mesh BdrDofs numBdrs numDofs nd k m).
Proof.
  apply grows_fold_left. intros m' i. cbn zeta.
  destruct (_ <? 0); [apply grows_refl|].
  apply grows_fold_left. intros; apply grows_push_back.
Qed.

Ltac next_call H :=
  match type of H with
  | context [GetCommonElem ?a ?b ?c ?d ?e] =>
      destruct (GetCommonElem a b c d e); cbn [mbind result_bind] in H;
      [|discriminate H]
  end.

Lemma include_corners_2D_grows k m m' :
  include_corners_2D mesh numBdrs nd p k m = Ok m' -> grows m m'.
Proof.
  unfold include_corners_2D. intros H. cbv zeta in H. unfold mbind in H.
  do 4 next_call H. injection H as <-.
  repeat (eapply grows_trans; [|apply grows_push_if_nbr]). apply grows_refl.
Qed.

Lemma include_edges_3D_body_grows k E m j :
  grows m (include_edges_3D_body nd p k E m j).
Proof.
  unfold include_edges_3D_body. cbv zeta.
  repeat (eapply grows_trans; [|apply grows_push_if_nbr]). apply grows_refl.
Qed.

Lemma include_corners_3D_grows k E m m' :
  include_corners_3D mesh numBdrs nd p k E m = Ok m' -> grows m m'.
Proof.
  unfold include_corners_3D. intros H. cbv zeta in H. unfold mbind in H.
  do 8 next_call H. injection H as <-.
  repeat (eapply grows_trans; [|apply grows_push_if_nbr]). apply grows_refl.
Qed.

Lemma bounds_map_element_spec m k m' :
  bounds_map_element mesh BdrDofs numBdrs numDofs nd p m k = Ok m' ->
  grows m m'
  /\ forall i, 0 <= i < nd -> In k (bounds_of m' (k * nd + i)).
Proof.
  unfold bounds_map_element. cbv zeta. intros H.
  set (m1 := include_own nd k m) in *.
  set (m2 := include_face_nbrs mesh BdrDofs numBdrs numDofs nd k m1) in *.
  assert (H01 : grows m m1) by apply include_own_grows.
  assert (H12 : grows m1 m2) by apply include_face_nbrs_grows.
  assert (Hown : forall i, 0 <= i < nd -> In k (bounds_of m1 (k * nd + i))).
  { intros i Hi. apply include_own_has. now apply in_zrange. }
  assert (H2' : grows m2 m').
  { destruct (dim mesh =? 2).
    - eapply include_corners_2D_grows; exact H.
    - destruct (dim mesh =? 3).
      + unfold mbind in H.
        destruct (EdgeNbrs mesh numBdrs k) as [E|]; cbn [result_bind] in H;
          [|discriminate H].
        apply include_corners_3D_grows in H.
        eapply grows_trans; [|exact H].
        apply grows_fold_left. intros; apply include_edges_3D_body_grows.
      + injection H as <-. apply grows_refl. }
  split.
  - eapply grows_trans; [exact H01|]. eapply grows_trans; eassumption.
  - intros i Hi. apply H2', H12, Hown, Hi.
Qed.

Lemma bounds_map_loop_spec ks m m' :
  bounds_map_loop mesh BdrDofs numBdrs numDofs nd p ks m = Ok m' ->
  grows m m'
  /\ forall k i, In k ks -> 0 <= i < nd -> In k (bounds_of m' (k * nd + i)).
Proof.
  revert m. induction ks as [|k ks IH]; intros m H; cbn [bounds_map_loop] in H.
  - injection H as <-. split; [apply grows_refl | intros k i []].
  - unfold mbind in H.
    destruct (bounds_map_element mesh BdrDofs numBdrs numDofs nd p m k)
      as [m1|] eqn:E; cbn [result_bind] in H; [|discriminate H].
    apply bounds_map_element_spec in E. destruct E as [Hg Hk].
    apply IH in H. destruct H as [Hg' Hks]. split.
    + eapply grows_trans; eassumption.
    + intros k' i [<-|Hin] Hi; [apply Hg', Hk, Hi | now apply Hks].
Qed.

(** In one dimension no common neighbour is looked up, so the construction
    cannot fail. *)
Lemma GetVertexBoundsMap_1D_total :
  dim mesh = 1 ->
  exists m, GetVertexBoundsMap mesh BdrDofs numBdrs numDofs nd p = Ok m.
Proof.
  intros Hdim. unfold GetVertexBoundsMap.
  generalize (∅ : gmap Z (list Z)).
  induction (zrange (ne mesh)) as [|k ks IH]; intros m; cbn [bounds_map_loop].
  - now exists m.
  - unfold bounds_map_element. rewrite Hdim. cbn. apply IH.
Qed.

End Construction.

(** C4. After [ComputeVertexBounds(x, d)] for a dof [d = k*nd + i] of the
    mesh, [xi_min(d)] is the minimum of [xe_min(e)] and [xi_max(d)] the
    maximum of [xe_max(e)] over the elements [e] of [map_for_bounds[d]]: they
    bound every contributor and are attained by one.  The owning element [k]
    is among the contributors of the constructed map, and when every
    contributor has [xe_min(e) <= xe_max(e)] then [xi_min(d) <= xi_max(d)]. *)
Theorem ComputeVertexBounds_spec (mesh : Mesh) (BdrDofs : Z -> Z -> Z)
  (numBdrs numDofs nd p : nat) (m : gmap Z (list Z))
  (xe_min xe_max : Z -> ext) (k i : Z) :
  GetVertexBoundsMap mesh BdrDofs numBdrs numDofs nd p = Ok m ->
  0 <= k < GetNE mesh ->
  0 <= i < nd ->
  let d := k * nd + i in
  let contrib := bounds_of m d in
  let xi_min := fst (ComputeVertexBounds m xe_min xe_max d) in
  let xi_max := snd (ComputeVertexBounds m xe_min xe_max d) in
  In k contrib
  /\ (forall e, In e contrib ->
        ext_le xi_min (xe_min e) /\ ext_le (xe_max e) xi_max)
  /\ (exists e, In e contrib /\ xi_min = xe_min e)
  /\ (exists e, In e contrib /\ xi_max = xe_max e)
  /\ ((forall e, In e contrib -> ext_le (xe_min e) (xe_max e)) ->
      ext_le xi_min xi_max).
Proof.
  intros Hmap Hk Hi d contrib xi_min xi_max.
  unfold GetVertexBoundsMap in Hmap.
  pose proof (bounds_map_loop_spec mesh BdrDofs numBdrs numDofs nd p
                (zrange (ne mesh)) ∅ m Hmap) as [_ Hown].
  assert (Hin : In k contrib).
  { apply Hown; [|exact Hi]. apply in_zrange. exact Hk. }
  subst xi_min xi_max. unfold ComputeVertexBounds. fold d. fold contrib.
  pose proof (vertex_bounds_loop_bounds xe_min xe_max contrib (PInf, MInf))
    as [_ Hb].
  pose proof (vertex_bounds_loop_attained xe_min xe_max contrib (PInf, MInf))
    as [Hmin Hmax].
  cbv zeta in Hb, Hmin, Hmax.
  set (b := vertex_bounds_loop xe_min xe_max contrib (PInf, MInf)) in *.
  change (fst (PInf, MInf)) with PInf in Hmin.
  change (snd (PInf, MInf)) with MInf in Hmax.
  set (xi_min := fst b) in *. set (xi_max := snd b) in *.
  split; [exact Hin|]. split; [exact Hb|].
  assert (Hamin : exists e, In e contrib /\ xi_min = xe_min e).
  { destruct Hmin as [Hmin|Hmin]; [|exact Hmin].
    exists k. split; [exact Hin|]. rewrite Hmin. symmetry.
    apply ext_le_PInf_inv. rewrite <- Hmin. apply (Hb k Hin). }
  assert (Hamax : exists e, In e contrib /\ xi_max = xe_max e).
  { destruct Hmax as [Hmax|Hmax]; [|exact Hmax].
    exists k. split; [exact Hin|]. rewrite Hmax. symmetry.
    apply ext_le_MInf_inv. rewrite <- Hmax. apply (Hb k Hin). }
  split; [exact Hamin|]. split; [exact Hamax|].
  intros Hle. destruct (Hb k Hin) as [H1 H2].
  eapply ext_le_trans; [exact H1|]. eapply ext_le_trans; [apply (Hle k Hin)|].
  exact H2.
Qed.

(** A segment mesh of two elements: vertices [0, 1, 2], element [e] between
    the vertices [e] and [e+1]; linear elements, two dofs each. *)
Definition segment2 : Mesh := {|
  Dimension := 1;
  GetNE := 2;
  GetElementVertices := fun el => [el; el + 1];
  GetElementEdges := fun _ => [];
  GetElementFaces := fun _ => [];
  GetFaceElementTransformations := fun v =>
    if v =? 0 then {| Elem1No := 0; Elem2No := -1 |}
    else if v =? 1 then {| Elem1No := 0; Elem2No := 1 |}
    else {| Elem1No := 1; Elem2No := -1 |}
|}.

(** [BdrDofs] of a segment of order [p]: the left vertex is local dof [0],
    the right vertex local dof [p]. *)
Definition BdrDofs_segment (p : Z) : Z -> Z -> Z :=
  fun _ slot => if slot =? 0 then 0 else p.

Definition segment2_map : gmap Z (list Z) :=
  match GetVertexBoundsMap segment2 (BdrDofs_segment 1) 2 1 2 1 with
  | Ok m => m
  | Fatal _ => ∅
  end.

Example segment2_map_dof1 : bounds_of segment2_map 1 = [0; 1].
Proof. vm_compute. reflexivity. Qed.

Example segment2_map_dof3 : bounds_of segment2_map 3 = [1].
Proof. vm_compute. reflexivity. Qed.

Lemma ComputeVertexBounds_spec_witness :
  let xe_min := fun e : Z => Fin (inject_Z e) in
  let xe_max := fun e : Z => Fin (inject_Z e + 1) in
  let b := ComputeVertexBounds segment2_map xe_min xe_max (0 * 2%nat + 1) in
  In 0 (bounds_of segment2_map (0 * 2%nat + 1))
  /\ (forall e, In e (bounds_of segment2_map (0 * 2%nat + 1)) ->
        ext_le (fst b) (xe_min e) /\ ext_le (xe_max e) (snd b))
  /\ (exists e, In e (bounds_of segment2_map (0 * 2%nat + 1))
                /\ fst b = xe_min e)
  /\ (exists e, In e (bounds_of segment2_map (0 * 2%nat + 1))
                /\ snd b = xe_max e)
  /\ ((forall e, In e (bounds_of segment2_map (0 * 2%nat + 1)) ->
         ext_le (xe_min e) (xe_max e)) ->
      ext_le (fst b) (snd b)).
Proof.
  apply (ComputeVertexBounds_spec segment2 (BdrDofs_segment 1) 2 1 2 1
           segment2_map
           (fun e : Z => Fin (inject_Z e))
           (fun e : Z => Fin (inject_Z e + 1)) 0 1).
  - vm_compute. reflexivity.
  - simpl. lia.
  - simpl. lia.
Defined.

End VertexBounds.

(** ** FillNeighborDofs: the neighbour-dof table *)

Module NeighborDofs.
Import DofInfo.
Local Open Scope Z_scope.
Local Coercion Z.of_nat : nat >-> Z.

(** Slot [i] of element [k] is exterior: the face has no second element. *)
Definition exterior (mesh : Mesh) (k i : Z) : Prop :=
  nbr_across mesh k (at_ (element_bdrs mesh k) i) < 0.

Lemma tset_eq T k i j v : tset T k i j v k i j = v.
Proof. unfold tset. now rewrite !Z.eqb_refl. Qed.

(** A loop whose pass [a] either writes the value [v] at the entry
    [(k, i, j)] or leaves that entry alone. *)
Lemma fold_left_entry {A : Type} (f : Tensor -> A -> Tensor) (g : A -> bool)
  (v : Z) (l : list A) (T : Tensor) (k i j : Z) :
  (forall T a, f T a k i j = if g a then v else T k i j) ->
  fold_left f l T k i j = if existsb g l then v else T k i j.
Proof.
  intros Hf. revert T. induction l as [|a l IH]; intros T; cbn [fold_left existsb].
  - reflexivity.
  - rewrite IH, Hf. destruct (g a), (existsb g l); reflexivity.
Qed.

Lemma existsb_never {A : Type} (l : list A) :
  existsb (fun _ => false) l = false.
Proof. induction l as [|a l IH]; [reflexivity | exact IH]. Qed.

Lemma existsb_zrange (n : nat) (z : Z) :
  0 <= z < n -> existsb (Z.eqb z) (zrange n) = true.
Proof.
  intros Hz. apply existsb_exists. exists z. split.
  - now apply in_zrange.
  - apply Z.eqb_refl.
Qed.

Section Fill.

Variable mesh : Mesh.
Variable BdrDofs : Z -> Z -> Z.
Variables numBdrs numDofs nd p : nat.

(** The entry the two-dimensional branch stores for slot [i], dof [j]. *)
Definition entry_2D (k i j : Z) : Z :=
  let bdrs := GetElementEdges mesh k in
  let nbr := nbr_across mesh k (at_ bdrs i) in
  if 0 <=? nbr then
    nbr * nd
    + BdrDofs (numDofs - 1 - j)
        (find_ind numBdrs (GetElementEdges mesh nbr) (at_ bdrs i)
           (zrange numBdrs))
  else -1.

Lemma fill_2D_entry (T : Tensor) (k0 k i j : Z) :
  fill_2D mesh BdrDofs numBdrs numDofs nd k0 T k i j
  = if existsb (fun i0 => existsb (fun j0 =>
         (k =? k0) && (i =? i0) && (j =? j0)) (zrange numDofs))
         (zrange numBdrs)
    then entry_2D k i j else T k i j.
Proof.
  unfold fill_2D. cbv zeta. apply fold_left_entry. intros T1 i0.
  apply fold_left_entry. intros T2 j0. unfold entry_2D. cbv zeta.
  destruct (0 <=? nbr_across mesh k0 (at_ (GetElementEdges mesh k0) i0)) eqn:E;
    unfold tset;
    destruct (Z.eqb_spec k k0) as [->|], (Z.eqb_spec i i0) as [->|],
             (Z.eqb_spec j j0) as [->|]; cbn [andb]; try reflexivity;
    now rewrite E.
Qed.

Lemma fill_2D_entry_in (T : Tensor) (k i j : Z) :
  0 <= i < numBdrs -> 0 <= j < numDofs ->
  fill_2D mesh BdrDofs numBdrs numDofs nd k T k i j = entry_2D k i j.
Proof.
  intros Hi Hj. rewrite fill_2D_entry.
  replace (existsb _ (zrange numBdrs)) with true; [reflexivity|].
  symmetry. apply existsb_exists. exists i. split; [now apply in_zrange|].
  apply existsb_exists. exists j. split; [now apply in_zrange|].
  now rewrite !Z.eqb_refl.
Qed.

Lemma fill_2D_entry_other (T : Tensor) (k0 k i j : Z) :
  k <> k0 -> fill_2D mesh BdrDofs numBdrs numDofs nd k0 T k i j = T k i j.
Proof.
  intros Hne. rewrite fill_2D_entry.
  replace (existsb _ (zrange numBdrs)) with false; [reflexivity|].
  symmetry. apply not_true_is_false. intros H.
  apply existsb_exists in H. destruct H as (i0 & _ & H).
  apply existsb_exists in H. destruct H as (j0 & _ & H).
  destruct (Z.eqb_spec k k0); [contradiction | discriminate H].
Qed.

Lemma fill_element_other (T : Tensor) (k0 k i j : Z) :
  k <> k0 ->
  fill_element mesh BdrDofs numBdrs numDofs nd p T k0 k i j = T k i j.
Proof.
  intros Hne. unfold fill_element.
  destruct (dim mesh =? 1); [|destruct (dim mesh =? 2);
    [now apply fill_2D_entry_other | destruct (dim mesh =? 3); [|reflexivity]]].
  - unfold fill_1D. cbv zeta.
    rewrite (fold_left_entry _ (fun _ => false) 0 _ T k i j).
    + now rewrite existsb_never.
    + intros T1 i0. unfold tset.
      destruct (Z.eqb_spec k k0); [contradiction | reflexivity].
  - unfold fill_3D. cbv zeta.
    rewrite (fold_left_entry _ (fun _ => false) 0 _ T k i j).
    + now rewrite existsb_never.
    + intros T1 j0. unfold tset.
      destruct (Z.eqb_spec k k0); [contradiction | reflexivity].
Qed.

Lemma fill_loop_other (ks : list Z) (T : Tensor) (k i j : Z) :
  ~ In k ks ->
  fold_left (fill_element mesh BdrDofs numBdrs numDofs nd p) ks T k i j
  = T k i j.
Proof.
  revert T. induction ks as [|k0 ks IH]; intros T Hnin; cbn [fold_left].
  - reflexivity.
  - rewrite IH by (intros H; apply Hnin; now right).
    apply fill_element_other. intros ->. apply Hnin. now left.
Qed.

(** In two dimensions every in-range entry of the table is [entry_2D]. *)
Lemma FillNeighborDofs_2D (NbrDof0 : Tensor) (k i j : Z) :
  dim mesh = 2 ->
  0 <= k < ne mesh -> 0 <= i < numBdrs -> 0 <= j < numDofs ->
  FillNeighborDofs mesh BdrDofs numBdrs numDofs nd p NbrDof0 k i j
  = entry_2D k i j.
Proof.
  intros Hdim Hk Hi Hj. unfold FillNeighborDofs.
  assert (Hks : In k (zrange (ne mesh))) by now apply in_zrange.
  revert NbrDof0 Hks. induction (zrange (ne mesh)) as [|k0 ks IH];
    intros T Hks; [destruct Hks|].
  cbn [fold_left].
  destruct (in_dec Z.eq_dec k ks) as [Hin|Hnin]; [now apply IH|].
  destruct Hks as [->|Hks]; [|contradiction].
  rewrite fill_loop_other by exact Hnin.
  unfold fill_element. rewrite Hdim. cbn.
  now apply fill_2D_entry_in.
Qed.

(** The two-dimensional branch marks an exterior slot with [-1]. *)
Lemma FillNeighborDofs_exterior_2D (NbrDof0 : Tensor) (k i j : Z) :
  dim mesh = 2 ->
  0 <= k < ne mesh -> 0 <= i < numBdrs -> 0 <= j < numDofs ->
  exterior mesh k i ->
  FillNeighborDofs mesh BdrDofs numBdrs numDofs nd p NbrDof0 k i j = -1.
Proof.
  intros Hdim Hk Hi Hj Hext. rewrite FillNeighborDofs_2D by assumption.
  unfold exterior, element_bdrs in Hext. fold (dim mesh) in Hext.
  rewrite Hdim in Hext. cbn [Z.eqb Pos.eqb] in Hext.
  unfold entry_2D. cbv zeta.
  destruct (Z.leb_spec 0 (nbr_across mesh k (at_ (GetElementEdges mesh k) i)));
    [lia | reflexivity].
Qed.

End Fill.

(** One hexahedron of order 1 (eight dofs, four per face): all six faces are
    exterior. *)
Definition hex1 : Mesh := {|
  Dimension := 3;
  GetNE := 1;
  GetElementVertices := fun _ => [];
  GetElementEdges := fun _ => [];
  GetElementFaces := fun _ => [0; 1; 2; 3; 4; 5];
  GetFaceElementTransformations := fun _ => {| Elem1No := 0; Elem2No := -1 |}
|}.

(** C7 (the code departs from the specification). In three dimensions the
    table entry of an exterior slot is [nbr*nd + offset] with [nbr = -1]: for
    the single hexahedron of order 1, slot 0 is exterior and
    [NbrDof(0, 0, 0)] is [-4], not [-1]. *)
Theorem FillNeighborDofs_exterior_3D_value (BdrDofs : Z -> Z -> Z)
  (NbrDof0 : Tensor) :
  exterior hex1 0 0
  /\ FillNeighborDofs hex1 BdrDofs 6 4 8 1 NbrDof0 0 0 0 = -4.
Proof. split; [unfold exterior; vm_compute; reflexivity | reflexivity]. Qed.

(** On slot 0 of the hexahedron only the last face dof gets [-1]. *)
Example FillNeighborDofs_exterior_3D_slot0 (BdrDofs : Z -> Z -> Z)
  (NbrDof0 : Tensor) :
  map (FillNeighborDofs hex1 BdrDofs 6 4 8 1 NbrDof0 0 0) [0; 1; 2; 3]
  = [-4; -3; -2; -1].
Proof. reflexivity. Qed.

(** The same in one dimension: the right end of the two-element segment is
    exterior and its entry is [-nd + BdrDofs(0,0) = -2]. *)
Example FillNeighborDofs_exterior_1D_value (NbrDof0 : Tensor) :
  exterior VertexBounds.segment2 1 1
  /\ FillNeighborDofs VertexBounds.segment2 (VertexBounds.BdrDofs_segment 1)
       2 1 2 1 NbrDof0 1 1 0 = -2.
Proof. split; [unfold exterior; vm_compute; reflexivity | reflexivity]. Qed.

End NeighborDofs.

(** ** Vectors and tensors of doubles *)

Local Open Scope Q_scope.

(** An [mfem::Vector]: [x(i)] *)
Definition Vector : Type := Z -> Q.

(** [x(i) = v] *)
Definition vset (x : Vector) (i : Z) (v : Q) : Vector :=
  fun i' => if (i' =? i)%Z then v else x i'.

(** A [DenseTensor] of doubles: [T(k, i, j)] *)
Definition DTensor : Type := Z -> Z -> Z -> Q.

Definition dtset (T : DTensor) (k i j : Z) (v : Q) : DTensor :=
  fun k' i' j' =>
    if ((k' =? k) && (i' =? i) && (j' =? j))%Z then v else T k' i' j'.

(** [Σ_{i in l} f i] *)
Definition qsum {A : Type} (f : A -> Q) (l : list A) : Q :=
  fold_left (fun acc a => acc + f a) l 0.

Lemma vset_eq x i v : vset x i v i = v.
Proof. unfold vset. now rewrite Z.eqb_refl. Qed.

Lemma vset_ne x i i' v : i' <> i -> vset x i v i' = x i'.
Proof. intros H. unfold vset. now destruct (Z.eqb_spec i' i). Qed.

(** The monotonicity treatment chosen on the command line *)
Inductive MONOTYPE : Type :=
| None_
| DiscUpw
| DiscUpw_FCT
| ResDist
| ResDist_FCT.

Definition MONOTYPE_eqb (a b : MONOTYPE) : bool :=
  match a, b with
  | None_, None_ | DiscUpw, DiscUpw | DiscUpw_FCT, DiscUpw_FCT
  | ResDist, ResDist | ResDist_FCT, ResDist_FCT => true
  | _, _ => false
  end.

(** [NeedBdr = lom.OptScheme || (MonoType != DiscUpw && MonoType != DiscUpw_FCT)] *)
Definition NeedBdr (MonoType : MONOTYPE) (OptScheme : bool) : bool :=
  OptScheme
  || (negb (MONOTYPE_eqb MonoType DiscUpw)
      && negb (MONOTYPE_eqb MonoType DiscUpw_FCT)).

(** ** Assembly: the face-flux stencil [bdrInt] *)

Module Assembly.

(** What one face quadrature point evaluates to in [ComputeFluxTerms]: the
    quadrature weight [ip.weight], the face transformation weight
    [Trans->Face->Weight()], the shape functions of the element at the point
    ([el.CalcShape]), and [vval * nor] for the normalised outward normal.
    These come from the finite element library. *)
Record FacePoint : Type := {
  weight : Q;
  face_weight : Q;
  shape : Z -> Q;
  v_dot_n : Q
}.

Section FluxTerms.

(** [exec_mode]: 0 is transport, otherwise remap *)
Variable exec_mode : Z.
Variable BdrDofs : Z -> Z -> Z.
Variables ne numBdrs numDofs : nat.
(** the quadrature points of [lom.irF] on boundary slot [i] of element [k] *)
Variable points : Z -> Z -> list FacePoint.

Definition normal_velocity (pt : FacePoint) : Q :=
  if (exec_mode =? 0)%Z then Qmin 0 (v_dot_n pt)
  else Qmax 0 (v_dot_n pt) * - (1).

(** the loops over [i] and [j] for one quadrature point *)
Definition flux_point (k BdrID : Z) (bdrInt : DTensor) (pt : FacePoint)
  : DTensor :=
  let vn := normal_velocity pt in
  fold_left
    (fun T i =>
       let aux := weight pt * face_weight pt * shape pt (BdrDofs i BdrID) * vn in
       fold_left
         (fun T j =>
            let idx := (i * Z.of_nat numDofs + j)%Z in
            dtset T k BdrID idx
              (T k BdrID idx - aux * shape pt (BdrDofs j BdrID)))
         (zrange numDofs) T)
    (zrange numDofs) bdrInt.

Definition ComputeFluxTerms (k BdrID : Z) (bdrInt : DTensor) : DTensor :=
  fold_left (flux_point k BdrID) (points k BdrID) bdrInt.

(** the loops over the elements and their boundary slots *)
Definition flux_loops (bdrInt : DTensor) : DTensor :=
  fold_left
    (fun T k =>
       fold_left (fun T i => ComputeFluxTerms k i T) (zrange numBdrs) T)
    (zrange ne) bdrInt.

(** [bdrInt = 0.] *)
Definition zero_tensor : DTensor := fun _ _ _ => 0.

(** [bdrInt] when the constructor of [Assembly] returns *)
Definition Assembly_bdrInt (MonoType : MONOTYPE) (OptScheme : bool) : DTensor :=
  if NeedBdr MonoType OptScheme then
    if (exec_mode =? 0)%Z then flux_loops zero_tensor else zero_tensor
  else zero_tensor.

(** [bdrInt] after the reassembly at the start of [Mult] in remap mode *)
Definition Mult_bdrInt (MonoType : MONOTYPE) (OptScheme : bool)
  (bdrInt : DTensor) : DTensor :=
  if (exec_mode =? 1)%Z && NeedBdr MonoType OptScheme
  then flux_loops zero_tensor
  else bdrInt.

Definition nonneg_tensor (T : DTensor) : Prop := forall k i idx, 0 <= T k i idx.

Definition nonneg_point (pt : FacePoint) : Prop :=
  0 <= weight pt /\ 0 <= face_weight pt /\ forall d, 0 <= shape pt d.

Lemma normal_velocity_nonpos pt : normal_velocity pt <= 0.
Proof.
  unfold normal_velocity. destruct (exec_mode =? 0)%Z.
  - apply Q.le_min_l.
  - pose proof (Q.le_max_l 0 (v_dot_n pt)). lra.
Qed.

Lemma fold_left_invariant {A B : Type} (P : A -> Prop) (f : A -> B -> A)
  (l : list B) (a : A) :
  P a -> (forall a b, In b l -> P a -> P (f a b)) -> P (fold_left f l a).
Proof.
  revert a. induction l as [|b l IH]; intros a Ha Hf; cbn [fold_left].
  - exact Ha.
  - apply IH; [apply Hf; [now left | exact Ha]|].
    intros a' b' Hin. apply Hf. now right.
Qed.

Lemma flux_point_nonneg k BdrID T pt :
  nonneg_point pt -> nonneg_tensor T -> nonneg_tensor (flux_point k BdrID T pt).
Proof.
  intros (Hw & Hfw & Hs) HT. unfold flux_point. cbv zeta.
  apply fold_left_invariant; [exact HT|]. intros T1 i _ HT1.
  apply fold_left_invariant; [exact HT1|]. intros T2 j _ HT2.
  intros k' i' idx'. unfold dtset.
  destruct ((k' =? k) && (i' =? BdrID) && (idx' =? i * Z.of_nat numDofs + j))%Z;
    [|apply HT2].
  pose proof (normal_velocity_nonpos pt) as Hvn.
  pose proof (HT2 k BdrID (i * Z.of_nat numDofs + j)%Z) as H0.
  pose proof (Hs (BdrDofs i BdrID)) as Hsi.
  pose proof (Hs (BdrDofs j BdrID)) as Hsj.
  assert (H1 : 0 <= weight pt * face_weight pt) by now apply Qmult_le_0_compat.
  assert (H2 : 0 <= weight pt * face_weight pt * shape pt (BdrDofs i BdrID))
    by now apply Qmult_le_0_compat.
  assert (H3 : 0 <= weight pt * face_weight pt * shape pt (BdrDofs i BdrID)
                    * shape pt (BdrDofs j BdrID))
    by now apply Qmult_le_0_compat.
  assert (H4 : 0 <= (weight pt * face_weight pt * shape pt (BdrDofs i BdrID)
                    * shape pt (BdrDofs j BdrID)) * - normal_velocity pt)
    by (apply Qmult_le_0_compat; [exact H3 | lra]).
  lra.
Qed.

Lemma flux_loops_nonneg T :
  (forall k i pt, In pt (points k i) -> nonneg_point pt) ->
  nonneg_tensor T -> nonneg_tensor (flux_loops T).
Proof.
  intros Hpts HT. unfold flux_loops.
  apply fold_left_invariant; [exact HT|]. intros T1 k _ HT1.
  apply fold_left_invariant; [exact HT1|]. intros T2 i _ HT2.
  unfold ComputeFluxTerms.
  apply fold_left_invariant; [exact HT2|]. intros T3 pt Hin HT3.
  apply flux_point_nonneg; [now apply (Hpts k i) | exact HT3].
Qed.

Lemma zero_tensor_nonneg : nonneg_tensor zero_tensor.
Proof. intros k i idx. unfold zero_tensor. lra. Qed.

End FluxTerms.

(** C10. Every entry of [bdrInt] is non-negative after the assembly in the
    constructor and after every reassembly in [Mult], in transport and in
    remap mode, when the quadrature weights, the face weights and the shape
    function values are non-negative. *)
Theorem bdrInt_nonneg (exec_mode : Z) (BdrDofs : Z -> Z -> Z)
  (ne numBdrs numDofs : nat) (points : Z -> Z -> list FacePoint)
  (MonoType : MONOTYPE) (OptScheme : bool) :
  (forall k i pt, In pt (points k i) -> nonneg_point pt) ->
  let bdrInt0 :=
    Assembly_bdrInt exec_mode BdrDofs ne numBdrs numDofs points
      MonoType OptScheme in
  nonneg_tensor bdrInt0
  /\ forall bdrInt, nonneg_tensor bdrInt ->
       nonneg_tensor (Mult_bdrInt exec_mode BdrDofs ne numBdrs numDofs points
                        MonoType OptScheme bdrInt).
Proof.
  intros Hpts bdrInt0. split.
  - unfold bdrInt0, Assembly_bdrInt.
    destruct (NeedBdr MonoType OptScheme); [|apply zero_tensor_nonneg].
    destruct (exec_mode =? 0)%Z; [|apply zero_tensor_nonneg].
    apply flux_loops_nonneg; [exact Hpts | apply zero_tensor_nonneg].
  - intros bdrInt Hb. unfold Mult_bdrInt.
    destruct ((exec_mode =? 1)%Z && NeedBdr MonoType OptScheme);
      [|exact Hb].
    apply flux_loops_nonneg; [exact Hpts | apply zero_tensor_nonneg].
Qed.

(** The face points of a segment of length [h] under the constant velocity
    [v], linear elements: one quadrature point of weight 1 at the vertex, the
    shape function of the vertex is 1 there and the other 0, and the outward
    normal is [-1] at the left vertex and [+1] at the right one. *)
Definition segment_points (v : Q) : Z -> Z -> list FacePoint :=
  fun _ slot =>
    [{| weight := 1;
        face_weight := 1;
        shape := fun d => if (d =? slot)%Z then 1 else 0;
        v_dot_n := if (slot =? 0)%Z then - v else v |}].

Lemma segment_points_nonneg v k i pt :
  In pt (segment_points v k i) -> nonneg_point pt.
Proof.
  intros [<-|[]]. unfold nonneg_point. cbn.
  split; [lra|]. split; [lra|]. intros d. destruct (d =? i)%Z; lra.
Qed.

Example segment_bdrInt_inflow :
  Assembly_bdrInt 0 (VertexBounds.BdrDofs_segment 1) 2 2 1 (segment_points 1)
    ResDist false 0%Z 0%Z 0%Z == 1.
Proof. vm_compute. reflexivity. Qed.

Example segment_bdrInt_outflow :
  Assembly_bdrInt 0 (VertexBounds.BdrDofs_segment 1) 2 2 1 (segment_points 1)
    ResDist false 0%Z 1%Z 0%Z == 0.
Proof. vm_compute. reflexivity. Qed.

Lemma bdrInt_nonneg_witness :
  nonneg_tensor
    (Assembly_bdrInt 0 (VertexBounds.BdrDofs_segment 1) 2 2 1 (segment_points 1)
       ResDist false)
  /\ forall bdrInt, nonneg_tensor bdrInt ->
       nonneg_tensor (Mult_bdrInt 0 (VertexBounds.BdrDofs_segment 1) 2 2 1
                        (segment_points 1) ResDist false bdrInt).
Proof.
  apply (bdrInt_nonneg 0 (VertexBounds.BdrDofs_segment 1) 2 2 1 (segment_points 1)
           ResDist false).
  intros k i pt [<-|[]]. unfold nonneg_point. cbn.
  split; [lra|]. split; [lra|]. intros d. destruct (d =? i)%Z; lra.
Defined.

End Assembly.

(** ** Sparse matrices in CSR form and the discrete upwinding matrix *)

Module Sparse.

(** A finalized [mfem::SparseMatrix]: [Size()], [GetI()], [GetJ()],
    [GetData()]. *)
Record SparseMatrix : Type := {
  Size : nat;
  I : Z -> Z;
  J : Z -> Z;
  A : Z -> Q
}.

(** The offsets [k, k+1, ..., end-1] visited by
    [for (; k < end; k++)]. *)
Definition positions (k end_ : Z) : list Z :=
  map (fun t => (k + Z.of_nat t)%Z) (seq 0 (Z.to_nat (end_ - k))).

(** The loop shape shared by [SparseMatrix_Build_smap] and
    [ComputeDiscreteUpwindingMatrix]:
    [for (i = 0, k = 0; i < n; i++) { for (end = I[i+1]; k < end; k++) ... }]
    with the offset [k] running on from one row to the next. *)
Fixpoint walk {S : Type} (Ip : Z -> Z)
  (row_body : Z -> list Z -> S -> result S)
  (rows : list Z) (k : Z) (s : S) : result S :=
  match rows with
  | [] => Ok s
  | i :: rest =>
      let end_ := Ip (i + 1)%Z in
      s' ← row_body i (positions k end_) s;
      walk Ip row_body rest (Z.max k end_) s'
  end.

(** *** SparseMatrix_Build_smap *)

(** Find the offset, [_j], of the [(col,row)] entry:
    [for (_j = I[col], _end = I[col+1]; true; _j++)] *)
Fixpoint find_sym (Jp : Z -> Z) (row : Z) (candidates : list Z) : result Z :=
  match candidates with
  | [] => mfem_error "SparseMatrix_Build_smap"
  | _j :: rest => if (Jp _j =? row)%Z then Ok _j else find_sym Jp row rest
  end.

Fixpoint smap_row (M : SparseMatrix) (row : Z) (js : list Z) (smap : Z -> Z)
  : result (Z -> Z) :=
  match js with
  | [] => Ok smap
  | j :: rest =>
      let col := J M j in
      _j ← find_sym (J M) row (positions (I M col) (I M (col + 1)%Z));
      smap_row M row rest (fun j' => if (j' =? j)%Z then _j else smap j')
  end.

(** [smap0] is the freshly sized array. *)
Definition SparseMatrix_Build_smap (M : SparseMatrix) (smap0 : Z -> Z)
  : result (Z -> Z) :=
  walk (I M) (smap_row M) (zrange (Size M)) 0%Z smap0.

(** *** Element access and product, as the sparse matrix library defines
    them for a finalized matrix *)

Fixpoint find_col (Jp : Z -> Z) (j : Z) (candidates : list Z) : option Z :=
  match candidates with
  | [] => None
  | k :: rest => if (Jp k =? j)%Z then Some k else find_col Jp j rest
  end.

(** the offset of the stored entry [(i, j)], if there is one *)
Definition entry_pos (M : SparseMatrix) (i j : Z) : option Z :=
  find_col (J M) j (positions (I M i) (I M (i + 1)%Z)).

(** [K(i,j)] on a [const SparseMatrix]: the stored entry, or zero *)
Definition get (M : SparseMatrix) (i j : Z) : Q :=
  match entry_pos M i j with
  | Some k => A M k
  | None => 0
  end.

(** [D(i,j) = v] on a finalized matrix: the entry has to be stored *)
Definition set (M : SparseMatrix) (data : Vector) (i j : Z) (v : Q)
  : result Vector :=
  match entry_pos M i j with
  | Some k => Ok (vset data k v)
  | None => mfem_error "Did not find i, j in matrix."
  end.

(** [M.Mult(x, y)]: [y(i) = Σ_k A[k] * x(J[k])] over the offsets of row [i] *)
Definition Mult (M : SparseMatrix) (x : Vector) : Vector :=
  fun i => qsum (fun k => A M k * x (J M k)) (positions (I M i) (I M (i + 1)%Z)).

(** *** ComputeDiscreteUpwindingMatrix *)

(** the artificial diffusion [dij = fmax(fmax(0.0,-kij),-kji)] of offset [k] *)
Definition dij (K : SparseMatrix) (smap : Z -> Z) (k : Z) : Q :=
  Qmax (Qmax 0 (- A K k)) (- A K (smap k)).

(** the body of the loop over the offsets of row [i] *)
Definition upwind_entry (K : SparseMatrix) (smap : Z -> Z) (i : Z)
  (st : Vector * Q) (k : Z) : Vector * Q :=
  let Dp := fst st in
  let rowsum := snd st in
  let j := J K k in
  let kij := A K k in
  let kji := A K (smap k) in
  let dij := Qmax (Qmax 0 (- kij)) (- kji) in
  let Dp := vset Dp k (kij + dij) in
  let Dp := vset Dp (smap k) (kji + dij) in
  (Dp, if negb (i =? j)%Z then rowsum + dij else rowsum).

(** one row: the entries, then [D(i,i) = K(i,i) - rowsum] *)
Definition upwind_row (K D : SparseMatrix) (smap : Z -> Z) (i : Z)
  (ks : list Z) (Dp : Vector) : result Vector :=
  let st := fold_left (upwind_entry K smap i) ks (Dp, 0) in
  set D (fst st) i i (get K i i - snd st).

(** The new data array of [D]; [D] keeps its sparsity pattern. *)
Definition ComputeDiscreteUpwindingMatrix (K : SparseMatrix) (smap : Z -> Z)
  (D : SparseMatrix) : result SparseMatrix :=
  Dp ← walk (I K) (upwind_row K D smap) (zrange (Size K)) 0%Z (A D);
  Ok {| Size := Size D; I := I D; J := J D; A := Dp |}.

(** A matrix from its rows of [(column, value)] pairs *)
Definition csr_of_rows (rows : list (list (Z * Q))) : SparseMatrix :=
  let entries := concat rows in
  let offsets :=
    fold_left (fun acc r => acc ++ [(List.last acc 0 + Z.of_nat (length r))%Z])
              rows [0%Z] in
  {| Size := length rows;
     I := fun i => nth (Z.to_nat i) offsets 0%Z;
     J := fun k => fst (nth (Z.to_nat k) entries (0%Z, 0));
     A := fun k => snd (nth (Z.to_nat k) entries (0%Z, 0)) |}.

End Sparse.

(** ** Sums of doubles *)

Lemma qsum_acc {A : Type} (f : A -> Q) (l : list A) (x : Q) :
  fold_left (fun acc a => acc + f a) l x == x + qsum f l.
Proof.
  unfold qsum. revert x. induction l as [|a l IH]; intros x; cbn [fold_left].
  - lra.
  - rewrite (IH (x + f a)), (IH (0 + f a)). lra.
Qed.

Lemma qsum_nil {A : Type} (f : A -> Q) : qsum f [] == 0.
Proof. unfold qsum. cbn. lra. Qed.

Lemma qsum_cons {A : Type} (f : A -> Q) (a : A) (l : list A) :
  qsum f (a :: l) == f a + qsum f l.
Proof. unfold qsum at 1. cbn [fold_left]. rewrite qsum_acc. lra. Qed.

Lemma qsum_app {A : Type} (f : A -> Q) (l1 l2 : list A) :
  qsum f (l1 ++ l2) == qsum f l1 + qsum f l2.
Proof.
  induction l1 as [|a l1 IH]; cbn [app].
  - rewrite qsum_nil. lra.
  - rewrite !qsum_cons, IH. lra.
Qed.

Lemma qsum_ext {A : Type} (f g : A -> Q) (l : list A) :
  (forall a, In a l -> f a == g a) -> qsum f l == qsum g l.
Proof.
  induction l as [|a l IH]; intros H.
  - rewrite !qsum_nil. lra.
  - rewrite !qsum_cons.
    assert (H1 : f a == g a) by (apply H; now left).
    assert (H2 : qsum f l == qsum g l)
      by (apply IH; intros; apply H; now right).
    lra.
Qed.

Lemma qsum_plus {A : Type} (f g : A -> Q) (l : list A) :
  qsum (fun a => f a + g a) l == qsum f l + qsum g l.
Proof.
  induction l as [|a l IH].
  - rewrite !qsum_nil. lra.
  - rewrite !qsum_cons, IH. lra.
Qed.

Lemma qsum_scale {A : Type} (c : Q) (f : A -> Q) (l : list A) :
  qsum (fun a => f a * c) l == qsum f l * c.
Proof.
  induction l as [|a l IH].
  - rewrite !qsum_nil. lra.
  - rewrite !qsum_cons, IH. lra.
Qed.

Lemma qsum_zero {A : Type} (f : A -> Q) (l : list A) :
  (forall a, In a l -> f a == 0) -> qsum f l == 0.
Proof.
  induction l as [|a l IH]; intros H.
  - apply qsum_nil.
  - rewrite qsum_cons.
    assert (H1 : f a == 0) by (apply H; now left).
    assert (H2 : qsum f l == 0) by (apply IH; intros; apply H; now right).
    lra.
Qed.

Lemma qsum_nonneg {A : Type} (f : A -> Q) (l : list A) :
  (forall a, In a l -> 0 <= f a) -> 0 <= qsum f l.
Proof.
  induction l as [|a l IH]; intros H.
  - rewrite qsum_nil. lra.
  - rewrite qsum_cons.
    assert (0 <= f a) by (apply H; now left).
    assert (0 <= qsum f l) by (apply IH; intros; apply H; now right).
    lra.
Qed.

(** Case analysis on every [Qmax] and [Qmin] of the goal, innermost first *)
Ltac qminmax :=
  repeat match goal with
  | |- context [Qmax ?a ?b] =>
      lazymatch a with context [Qmax _ _] => fail | context [Qmin _ _] => fail
      | _ => lazymatch b with context [Qmax _ _] => fail
             | context [Qmin _ _] => fail
             | _ => let H := fresh "Hmax" in
                    let m := fresh "m" in
                    destruct (Q.max_spec a b) as [[? H]|[? H]];
                    revert H; generalize (Qmax a b); intros m H
             end
      end
  | |- context [Qmin ?a ?b] =>
      lazymatch a with context [Qmax _ _] => fail | context [Qmin _ _] => fail
      | _ => lazymatch b with context [Qmax _ _] => fail
             | context [Qmin _ _] => fail
             | _ => let H := fresh "Hmin" in
                    let m := fresh "m" in
                    destruct (Q.min_spec a b) as [[? H]|[? H]];
                    revert H; generalize (Qmin a b); intros m H
             end
      end
  end.

Module SparseFacts.
Import Sparse.

Lemma in_positions (k e q : Z) : In q (positions k e) <-> (k <= q < e)%Z.
Proof.
  unfold positions. rewrite in_map_iff. split.
  - intros (t & <- & Ht). apply in_seq in Ht. lia.
  - intros Hq. exists (Z.to_nat (q - k)). split; [lia|]. apply in_seq. lia.
Qed.

Lemma NoDup_positions (k e : Z) : List.NoDup (positions k e).
Proof.
  unfold positions. generalize (Z.to_nat (e - k)) as len.
  assert (H : forall len a, List.NoDup (map (fun t => (k + Z.of_nat t)%Z) (seq a len))).
  { induction len as [|len IH]; intros a; cbn [seq map]; constructor.
    - rewrite in_map_iff. intros (t & Ht & Hin). apply in_seq in Hin. lia.
    - apply IH. }
  intros len. apply H.
Qed.

Lemma qsum_pick (f : Z -> Q) (kd : Z) (l : list Z) :
  List.NoDup l -> In kd l ->
  qsum f l == f kd + qsum (fun k => if (k =? kd)%Z then 0 else f k) l.
Proof.
  induction l as [|a l IH]; intros Hnd Hin; [destruct Hin|].
  apply List.NoDup_cons_iff in Hnd. destruct Hnd as [Hnin Hnd].
  rewrite !qsum_cons. destruct Hin as [->|Hin].
  - rewrite Z.eqb_refl.
    assert (H : qsum (fun k => if (k =? kd)%Z then 0 else f k) l == qsum f l).
    { apply qsum_ext. intros k Hk.
      destruct (Z.eqb_spec k kd) as [->|]; [contradiction | reflexivity]. }
    lra.
  - destruct (Z.eqb_spec a kd) as [->|]; [contradiction|].
    specialize (IH Hnd Hin). lra.
Qed.

Section Pattern.

Variable M : SparseMatrix.
Local Abbreviation n := (Z.of_nat (Size M)).

(** offset [k] lies in row [i] *)
Definition in_row (i k : Z) : Prop := (I M i <= k < I M (i + 1))%Z.

(** A finalized matrix: the row offsets start at 0 and do not decrease, the
    columns are in range, and a row stores a column at most once. *)
Record finalized : Prop := {
  fin_I0 : I M 0 = 0%Z;
  fin_mono : forall i, (0 <= i < n)%Z -> (I M i <= I M (i + 1))%Z;
  fin_cols : forall i k, (0 <= i < n)%Z -> in_row i k -> (0 <= J M k < n)%Z;
  fin_distinct : forall i k k', (0 <= i < n)%Z ->
      in_row i k -> in_row i k' -> J M k = J M k' -> k = k'
}.

(** [smap[k]] is the offset of the transposed entry. *)
Definition symmetric_map (smap : Z -> Z) : Prop :=
  forall i k, (0 <= i < n)%Z -> in_row i k ->
    in_row (J M k) (smap k) /\ J M (smap k) = i.

(** every row stores its diagonal entry *)
Definition diag_stored : Prop :=
  forall i, (0 <= i < n)%Z -> exists k, in_row i k /\ J M k = i.

Hypothesis Hfin : finalized.

Lemma I_mono (a b : Z) : (0 <= a <= b)%Z -> (b <= n)%Z -> (I M a <= I M b)%Z.
Proof.
  intros Hab Hb.
  replace b with (a + Z.of_nat (Z.to_nat (b - a)))%Z in * by lia.
  induction (Z.to_nat (b - a)) as [|d IH].
  - replace (a + Z.of_nat 0)%Z with a by lia. lia.
  - etransitivity; [apply IH; lia|].
    replace (a + Z.of_nat (S d))%Z with (a + Z.of_nat d + 1)%Z by lia.
    apply (fin_mono Hfin). lia.
Qed.

Lemma in_row_unique (a b k : Z) :
  (0 <= a < n)%Z -> (0 <= b < n)%Z -> in_row a k -> in_row b k -> a = b.
Proof.
  unfold in_row. intros Ha Hb Hka Hkb.
  destruct (Z.lt_trichotomy a b) as [Hlt|[->|Hlt]]; [|reflexivity|].
  - pose proof (I_mono (a + 1) b ltac:(lia) ltac:(lia)). lia.
  - pose proof (I_mono (b + 1) a ltac:(lia) ltac:(lia)). lia.
Qed.

Lemma in_row_lt (a b k : Z) :
  (0 <= a < b)%Z -> (b <= n)%Z -> in_row a k -> (k < I M b)%Z.
Proof.
  unfold in_row. intros Hab Hb Hk.
  pose proof (I_mono (a + 1) b ltac:(lia) ltac:(lia)). lia.
Qed.

(** The running offset is the row start: under [finalized] the walk visits,
    for the row [r], exactly the offsets of this row. *)
Lemma walk_total {St : Type} (P : Z -> St -> Prop)
  (body : Z -> list Z -> St -> result St) (s0 : St) :
  P 0%Z s0 ->
  (forall r s, (0 <= r < n)%Z -> P r s ->
     exists s', body r (positions (I M r) (I M (r + 1))) s = Ok s'
                /\ P (r + 1)%Z s') ->
  exists s', walk (I M) body (zrange (Size M)) 0%Z s0 = Ok s' /\ P n s'.
Proof.
  intros H0 Hstep. unfold zrange.
  assert (Hgen : forall len a s, (a + len = Size M)%nat ->
            P (Z.of_nat a) s ->
            exists s', walk (I M) body (map Z.of_nat (seq a len))
                         (I M (Z.of_nat a)) s = Ok s' /\ P n s').
  { induction len as [|len IH]; intros a s Hlen Hs; cbn [seq map walk].
    - exists s. split; [reflexivity|].
      replace n with (Z.of_nat a) by lia. exact Hs.
    - destruct (Hstep (Z.of_nat a) s ltac:(lia) Hs) as (s1 & Hb & Hs1).
      cbv zeta. rewrite Hb. cbn [mbind result_bind].
      rewrite Z.max_r by (apply (fin_mono Hfin); lia).
      replace (Z.of_nat a + 1)%Z with (Z.of_nat (S a)) in * by lia.
      apply IH; [lia | exact Hs1]. }
  rewrite <- (fin_I0 Hfin). apply (Hgen (Size M) 0%nat s0); [lia | exact H0].
Qed.

Lemma walk_ok {St : Type} (P : Z -> St -> Prop)
  (body : Z -> list Z -> St -> result St) (s0 s' : St) :
  P 0%Z s0 ->
  (forall r s s1, (0 <= r < n)%Z -> P r s ->
     body r (positions (I M r) (I M (r + 1))) s = Ok s1 -> P (r + 1)%Z s1) ->
  walk (I M) body (zrange (Size M)) 0%Z s0 = Ok s' -> P n s'.
Proof.
  intros H0 Hstep. unfold zrange.
  assert (Hgen : forall len a s, (a + len = Size M)%nat ->
            P (Z.of_nat a) s ->
            walk (I M) body (map Z.of_nat (seq a len))
              (I M (Z.of_nat a)) s = Ok s' -> P n s').
  { induction len as [|len IH]; intros a s Hlen Hs; cbn [seq map walk].
    - intros [= <-]. replace n with (Z.of_nat a) by lia. exact Hs.
    - cbv zeta.
      destruct (body (Z.of_nat a) _ s) as [s1|] eqn:Hb;
        cbn [mbind result_bind]; [|discriminate].
      rewrite Z.max_r by (apply (fin_mono Hfin); lia).
      pose proof (Hstep (Z.of_nat a) s s1 ltac:(lia) Hs Hb) as Hs1.
      replace (Z.of_nat a + 1)%Z with (Z.of_nat (S a)) in * by lia.
      apply IH; [lia | exact Hs1]. }
  rewrite <- (fin_I0 Hfin). apply (Hgen (Size M) 0%nat s0); [lia | exact H0].
Qed.

(** *** What [SparseMatrix_Build_smap] returns *)

Lemma find_sym_ok (row : Z) (cands : list Z) (_j : Z) :
  find_sym (J M) row cands = Ok _j -> In _j cands /\ J M _j = row.
Proof.
  induction cands as [|c cands IH]; cbn [find_sym]; [discriminate|].
  destruct (Z.eqb_spec (J M c) row) as [Heq|Hne].
  - intros [= <-]. split; [now left | exact Heq].
  - intros H. destruct (IH H) as [Hin Hj]. split; [now right | exact Hj].
Qed.

Lemma smap_row_ok (row : Z) (js : list Z) (smap smap' : Z -> Z) :
  smap_row M row js smap = Ok smap' ->
  (forall q, ~ In q js -> smap' q = smap q)
  /\ (forall q, In q js -> in_row (J M q) (smap' q) /\ J M (smap' q) = row).
Proof.
  revert smap. induction js as [|j js IH]; intros smap; cbn [smap_row].
  - intros [= <-]. split; [reflexivity | intros q []].
  - cbv zeta.
    destruct (find_sym (J M) row _) as [_j|] eqn:Hf;
      cbn [mbind result_bind]; [|discriminate].
    intros H. destruct (IH _ H) as [Hout Hin].
    apply find_sym_ok in Hf. destruct Hf as [Hpos Hcol].
    apply in_positions in Hpos. split.
    + intros q Hq. rewrite Hout by (intros Hq'; apply Hq; now right).
      destruct (Z.eqb_spec q j) as [->|]; [|reflexivity].
      exfalso. apply Hq. now left.
    + intros q Hq. destruct (in_dec Z.eq_dec q js) as [Hjs|Hjs];
        [now apply Hin|].
      destruct Hq as [<-|Hq]; [|contradiction].
      rewrite Hout by exact Hjs. rewrite Z.eqb_refl. split; assumption.
Qed.

Lemma Build_smap_symmetric (smap0 smap : Z -> Z) :
  SparseMatrix_Build_smap M smap0 = Ok smap -> symmetric_map smap.
Proof.
  unfold SparseMatrix_Build_smap. intros H.
  pose (P := fun (r : Z) (sm : Z -> Z) =>
    forall i k, (0 <= i < r)%Z -> in_row i k ->
      in_row (J M k) (sm k) /\ J M (sm k) = i).
  assert (HP : P n smap).
  { apply (walk_ok P (smap_row M) smap0 smap); [|
      |exact H].
    - intros i k Hi. lia.
    - intros r s s1 Hr Hs Hbody i k Hi Hk.
      apply smap_row_ok in Hbody. destruct Hbody as [Hout Hin].
      destruct (Z.eq_dec i r) as [->|Hne].
      + apply Hin. apply in_positions. exact Hk.
      + rewrite Hout.
        * apply Hs; [lia | exact Hk].
        * intros Hq. apply in_positions in Hq.
          pose proof (in_row_lt i r k ltac:(lia) ltac:(lia) Hk). lia. }
  intros i k Hi Hk. now apply HP.
Qed.

Section Symmetric.

Variable smap : Z -> Z.
Hypothesis Hsym : symmetric_map smap.

Lemma smap_involutive i k :
  (0 <= i < n)%Z -> in_row i k -> smap (smap k) = k.
Proof.
  intros Hi Hk. destruct (Hsym i k Hi Hk) as [Hrow Hcol].
  pose proof (fin_cols Hfin i k Hi Hk) as Hj.
  destruct (Hsym (J M k) (smap k) Hj Hrow) as [Hrow' Hcol'].
  rewrite Hcol in Hrow'.
  apply (fin_distinct Hfin i); [exact Hi | exact Hrow' | exact Hk | exact Hcol'].
Qed.

Lemma smap_diag i k :
  (0 <= i < n)%Z -> in_row i k -> J M k = i -> smap k = k.
Proof.
  intros Hi Hk Hj. destruct (Hsym i k Hi Hk) as [Hrow Hcol].
  rewrite Hj in Hrow.
  apply (fin_distinct Hfin i); [exact Hi | exact Hrow | exact Hk | congruence].
Qed.

End Symmetric.

Lemma find_col_some (j : Z) (cands : list Z) (k : Z) :
  find_col (J M) j cands = Some k -> In k cands /\ J M k = j.
Proof.
  induction cands as [|c cands IH]; cbn [find_col]; [discriminate|].
  destruct (Z.eqb_spec (J M c) j) as [Heq|Hne].
  - intros [= <-]. split; [now left | exact Heq].
  - intros H. destruct (IH H) as [Hin Hj]. split; [now right | exact Hj].
Qed.

Lemma find_col_stored (j : Z) (cands : list Z) (k : Z) :
  In k cands -> J M k = j -> exists k', find_col (J M) j cands = Some k'.
Proof.
  induction cands as [|c cands IH]; intros Hin Hj; [destruct Hin|].
  cbn [find_col]. destruct (Z.eqb_spec (J M c) j) as [Heq|Hne].
  - now exists c.
  - destruct Hin as [->|Hin]; [contradiction | now apply IH].
Qed.

(** With the diagonal stored, [entry_pos i i] is the diagonal offset. *)
Lemma entry_pos_diag i k :
  (0 <= i < n)%Z -> in_row i k -> J M k = i -> entry_pos M i i = Some k.
Proof.
  intros Hi Hk Hj. unfold entry_pos.
  destruct (find_col_stored i (positions (I M i) (I M (i + 1))) k)
    as [k' Hk']; [now apply in_positions | exact Hj |].
  rewrite Hk'. f_equal. apply find_col_some in Hk'. destruct Hk' as [Hin Hj'].
  apply in_positions in Hin.
  apply (fin_distinct Hfin i); [exact Hi | exact Hin | exact Hk | congruence].
Qed.

End Pattern.

End SparseFacts.

(** ** The discrete upwinding matrix *)

Module Upwinding.
Import Sparse SparseFacts.

(** [D] was initialised with the sparsity of [K] ([lom.D = k.SpMat()]). *)
Definition same_pattern (K D : SparseMatrix) : Prop :=
  Size D = Size K
  /\ (forall i, (0 <= i <= Z.of_nat (Size K))%Z -> I D i = I K i)
  /\ (forall k, (0 <= k < I K (Z.of_nat (Size K)))%Z -> J D k = J K k).

(** the sum of the stored entries of row [i] *)
Definition row_sum (M : SparseMatrix) (i : Z) : Q :=
  qsum (A M) (positions (I M i) (I M (i + 1)%Z)).

(** the diffusion taken off the diagonal of row [i]: what [rowsum] holds when
    the inner loop is done *)
Definition off_diffusion (K : SparseMatrix) (smap : Z -> Z) (i : Z) : Q :=
  qsum (fun k => if negb (i =? J K k)%Z then dij K smap k else 0)
       (positions (I K i) (I K (i + 1)%Z)).

Lemma dij_nonneg K smap k : 0 <= A K k + dij K smap k.
Proof. unfold dij. qminmax; lra. Qed.

Lemma find_col_ext (J1 J2 : Z -> Z) (j : Z) (cands : list Z) :
  (forall k, In k cands -> J1 k = J2 k) ->
  find_col J1 j cands = find_col J2 j cands.
Proof.
  induction cands as [|c cands IH]; intros H; cbn [find_col]; [reflexivity|].
  rewrite (H c) by now left.
  destruct (J2 c =? j)%Z; [reflexivity|].
  apply IH. intros k Hk. apply H. now right.
Qed.

Section Upwind.

Variables K D : SparseMatrix.
Variable smap : Z -> Z.
Local Abbreviation n := (Z.of_nat (Size K)).

Hypothesis Hfin : finalized K.
Hypothesis Hsym : symmetric_map K smap.
Hypothesis Hdiag : diag_stored K.
Hypothesis Hpat : same_pattern K D.

Local Abbreviation val := (fun k => A K k + dij K smap k).

Lemma dij_sym i k :
  (0 <= i < n)%Z -> in_row K i k -> dij K smap (smap k) == dij K smap k.
Proof.
  intros Hi Hk. unfold dij.
  rewrite (smap_involutive K Hfin smap Hsym i k Hi Hk).
  qminmax; lra.
Qed.

Lemma row_in_range i k :
  (0 <= i < n)%Z -> in_row K i k -> (0 <= k < I K n)%Z.
Proof.
  intros Hi Hk. unfold in_row in Hk.
  pose proof (I_mono K Hfin 0 i ltac:(lia) ltac:(lia)) as H1.
  pose proof (I_mono K Hfin (i + 1) n ltac:(lia) ltac:(lia)) as H2.
  rewrite (fin_I0 K Hfin) in H1. lia.
Qed.

Lemma entry_pos_same i :
  (0 <= i < n)%Z -> entry_pos D i i = entry_pos K i i.
Proof.
  intros Hi. destruct Hpat as (_ & HI & HJ). unfold entry_pos.
  rewrite (HI i), (HI (i + 1)%Z) by lia.
  apply find_col_ext. intros k Hk. apply HJ.
  apply in_positions in Hk. now apply (row_in_range i).
Qed.

(** The inner loop over (part of) the offsets of row [r] *)
Lemma upwind_entries_spec r (ks : list Z) (Dp : Vector) (rs : Q) :
  (0 <= r < n)%Z ->
  (forall k, In k ks -> in_row K r k) ->
  let st := fold_left (upwind_entry K smap r) ks (Dp, rs) in
  snd st
  == rs + qsum (fun k => if negb (r =? J K k)%Z then dij K smap k else 0) ks
  /\ (forall q, ~ In q ks -> ~ In (smap q) ks -> fst st q = Dp q)
  /\ (forall k, In k ks -> J K k <> r ->
        fst st k == val k /\ fst st (smap k) == val (smap k)).
Proof.
  intros Hr. revert Dp rs.
  induction ks as [|k ks IH]; intros Dp rs Hks; cbn [fold_left].
  - cbv zeta. cbn [fst snd]. rewrite qsum_nil.
    split; [lra|]. split; [reflexivity | intros k []].
  - assert (Hk : in_row K r k) by (apply Hks; now left).
    assert (Hrest : forall k', In k' ks -> in_row K r k')
      by (intros; apply Hks; now right).
    unfold upwind_entry at 2. cbv zeta. cbn [fst snd].
    match goal with
    | |- context [fold_left _ ks (?d, ?s)] =>
        specialize (IH d s Hrest); set (Dp1 := d) in *; set (rs1 := s) in *
    end.
    cbv zeta in IH. destruct IH as (Hsum & Hout & Hin).
    split; [|split].
    + rewrite Hsum, qsum_cons. subst rs1. fold (dij K smap k).
      destruct (negb (r =? J K k)%Z); lra.
    + intros q Hq Hsq. rewrite Hout
        by (intros H; (apply Hq + apply Hsq); now right).
      subst Dp1. unfold vset.
      destruct (Z.eqb_spec q (smap k)) as [->|_].
      * exfalso. apply Hsq. left.
        symmetry. apply (smap_involutive K Hfin smap Hsym r k Hr Hk).
      * destruct (Z.eqb_spec q k) as [->|_]; [|reflexivity].
        exfalso. apply Hq. now left.
    + intros k' Hk' Hoff.
      destruct (in_dec Z.eq_dec k' ks) as [Hin'|Hnin]; [now apply Hin|].
      destruct Hk' as [<-|Hk']; [|contradiction].
      destruct (Hsym r k Hr Hk) as [Hsrow Hscol].
      pose proof (fin_cols K Hfin r k Hr Hk) as Hj.
      assert (Hsk_nin : ~ In (smap k) ks).
      { intros H. apply Hoff.
        apply (in_row_unique K Hfin (J K k) r (smap k)); auto. }
      assert (Hinv : smap (smap k) = k)
        by apply (smap_involutive K Hfin smap Hsym r k Hr Hk).
      assert (Hne : smap k <> k).
      { intros H. apply Hoff.
        apply (in_row_unique K Hfin (J K k) r k); auto. now rewrite <- H at 2. }
      split.
      * rewrite Hout by assumption. subst Dp1. unfold vset.
        destruct (Z.eqb_spec k (smap k)); [congruence|].
        rewrite Z.eqb_refl. fold (dij K smap k). reflexivity.
      * rewrite Hout by (rewrite ?Hinv; assumption).
        subst Dp1. unfold vset. rewrite Z.eqb_refl.
        fold (dij K smap k). rewrite (dij_sym r k Hr Hk). reflexivity.
Qed.

(** the state of [Dp] when the rows below [r] are done *)
Definition rows_done (r : Z) (Dp : Vector) : Prop :=
  (forall i q, (0 <= i < n)%Z -> in_row K i q -> J K q <> i ->
     (q < I K r \/ smap q < I K r)%Z -> Dp q == val q)
  /\ (forall i q, (0 <= i < r)%Z -> in_row K i q -> J K q = i ->
        Dp q == A K q - off_diffusion K smap i).

Lemma upwind_row_step r Dp :
  (0 <= r < n)%Z -> rows_done r Dp ->
  exists Dp', upwind_row K D smap r (positions (I K r) (I K (r + 1))) Dp = Ok Dp'
              /\ rows_done (r + 1) Dp'.
Proof.
  intros Hr [Hoff Hdg].
  destruct (Hdiag r Hr) as (kd & Hkd & Hjd).
  pose proof (entry_pos_diag K Hfin r kd Hr Hkd Hjd) as Hpos.
  unfold upwind_row. cbv zeta. unfold set, get.
  rewrite (entry_pos_same r Hr), Hpos.
  eexists. split; [reflexivity|].
  pose proof (upwind_entries_spec r (positions (I K r) (I K (r + 1))) Dp 0 Hr
                ltac:(intros k Hk; now apply in_positions in Hk))
    as (Hsum & Hout & Hin).
  cbv zeta in Hsum, Hout, Hin.
  set (st := fold_left (upwind_entry K smap r)
               (positions (I K r) (I K (r + 1))) (Dp, 0)) in *.
  split.
  - intros i q Hi Hq Hqoff Hlt.
    assert (Hqd : q <> kd).
    { intros ->. apply Hqoff.
      rewrite Hjd. apply (in_row_unique K Hfin r i kd); auto. }
    rewrite vset_ne by exact Hqd.
    destruct (Hsym i q Hi Hq) as [Hsrow Hscol].
    pose proof (fin_cols K Hfin i q Hi Hq) as Hj.
    destruct (in_dec Z.eq_dec q (positions (I K r) (I K (r + 1))))
      as [Hqr|Hqr].
    + apply Hin; [exact Hqr|].
      apply in_positions in Hqr.
      rewrite (in_row_unique K Hfin i r q Hi Hr Hq Hqr) in Hqoff. exact Hqoff.
    + destruct (in_dec Z.eq_dec (smap q) (positions (I K r) (I K (r + 1))))
        as [Hsr|Hsr].
      * pose proof Hsr as Hsr'. apply in_positions in Hsr'.
        assert (Hjr : J K q = r)
          by apply (in_row_unique K Hfin (J K q) r (smap q) Hj Hr Hsrow Hsr').
        destruct (Hin (smap q) Hsr) as [_ H2].
        -- rewrite Hscol. intros ->. apply Hqr. now apply in_positions.
        -- now rewrite (smap_involutive K Hfin smap Hsym i q Hi Hq) in H2.
      * rewrite Hout by assumption.
        apply (Hoff i q Hi Hq Hqoff).
        rewrite in_positions in Hqr, Hsr. lia.
  - intros i q Hi Hq Hqd.
    destruct (Z.eq_dec i r) as [->|Hne].
    + assert (q = kd)
        by (apply (fin_distinct K Hfin r); auto; congruence).
      subst q. rewrite vset_eq. unfold off_diffusion.
      rewrite Hsum. lra.
    + assert (Hqkd : q <> kd).
      { intros ->. apply Hne. apply (in_row_unique K Hfin i r kd); auto. lia. }
      rewrite vset_ne by exact Hqkd.
      rewrite Hout.
      * apply Hdg; [lia | exact Hq | exact Hqd].
      * intros H. apply in_positions in H. apply Hne.
        apply (in_row_unique K Hfin i r q); auto. lia.
      * intros H. apply in_positions in H.
        destruct (Hsym i q ltac:(lia) Hq) as [Hsrow Hscol].
        apply Hne. rewrite <- Hqd.
        apply (in_row_unique K Hfin (J K q) r (smap q)); auto.
        rewrite Hqd. lia.
Qed.

Lemma upwind_walk :
  exists Dp', walk (I K) (upwind_row K D smap) (zrange (Size K)) 0%Z (A D)
              = Ok Dp'
              /\ rows_done n Dp'.
Proof.
  apply (walk_total K Hfin rows_done (upwind_row K D smap) (A D)).
  - split.
    + intros i q Hi Hq _ Hlt. exfalso.
      destruct (Hsym i q Hi Hq) as [Hsrow _].
      pose proof (fin_cols K Hfin i q Hi Hq) as Hj.
      pose proof (row_in_range i q Hi Hq).
      pose proof (row_in_range (J K q) (smap q) Hj Hsrow).
      rewrite (fin_I0 K Hfin) in Hlt. lia.
    + intros i q Hi. lia.
  - intros r s Hr Hs. now apply upwind_row_step.
Qed.

(** the row sum of the result *)
Lemma rows_done_row_sum Dp i :
  rows_done n Dp -> (0 <= i < n)%Z ->
  qsum Dp (positions (I K i) (I K (i + 1))) == row_sum K i.
Proof.
  intros [Hoff Hdg] Hi. unfold row_sum.
  destruct (Hdiag i Hi) as (kd & Hkd & Hjd).
  set (L := positions (I K i) (I K (i + 1))).
  assert (HkdL : In kd L) by now apply in_positions.
  rewrite (qsum_ext Dp
             (fun k => A K k + (if (k =? kd)%Z then - off_diffusion K smap i
                                else dij K smap k)) L).
  - rewrite qsum_plus.
    rewrite (qsum_pick (fun k => if (k =? kd)%Z then - off_diffusion K smap i
                                 else dij K smap k)
               kd L (NoDup_positions _ _) HkdL).
    rewrite Z.eqb_refl.
    assert (H : qsum (fun k => if (k =? kd)%Z then 0
                               else if (k =? kd)%Z then - off_diffusion K smap i
                                    else dij K smap k) L
                == off_diffusion K smap i).
    { unfold off_diffusion. fold L. apply qsum_ext. intros k Hk.
      apply in_positions in Hk.
      destruct (Z.eqb_spec k kd) as [->|Hne].
      - rewrite Hjd, Z.eqb_refl. reflexivity.
      - destruct (Z.eqb_spec i (J K k)) as [Heq|_]; [|reflexivity].
        exfalso. apply Hne.
        apply (fin_distinct K Hfin i); auto. congruence. }
    rewrite H. lra.
  - intros k Hk. apply in_positions in Hk.
    destruct (Z.eqb_spec k kd) as [->|Hne].
    + rewrite (Hdg i kd Hi Hkd Hjd). lra.
    + apply (Hoff i k Hi Hk).
      * intros Heq. apply Hne.
        apply (fin_distinct K Hfin i); auto. congruence.
      * left. pose proof (row_in_range i k Hi Hk). lia.
Qed.

End Upwind.

(** The entry [(i, j)] of a matrix is stored at offset [k]. *)
Definition stored_at (M : SparseMatrix) (i j k : Z) : Prop :=
  in_row M i k /\ J M k = j.

(** A matrix that maps the constant vectors of size [n] to zero *)
Definition annihilates_constants (M : SparseMatrix) (n : Z) : Prop :=
  forall (x : Vector) (c : Q),
    (forall j, (0 <= j < n)%Z -> x j == c) ->
    forall i, (0 <= i < n)%Z -> Mult M x i == 0.

Lemma zero_rows_annihilate (M : SparseMatrix) :
  finalized M ->
  (forall i, (0 <= i < Z.of_nat (Size M))%Z -> row_sum M i == 0) ->
  annihilates_constants M (Z.of_nat (Size M)).
Proof.
  intros Hfin Hzero x c Hx i Hi. unfold Mult.
  rewrite (qsum_ext _ (fun k => A M k * c)).
  - rewrite qsum_scale. fold (row_sum M i). rewrite (Hzero i Hi). lra.
  - intros k Hk. apply in_positions in Hk.
    rewrite (Hx (J M k)) by (apply (fin_cols M Hfin i k Hi Hk)).
    reflexivity.
Qed.

(** The upwinded matrix of a source with zero row sums maps constants to
    zero. *)
Lemma upwind_annihilates (K D : SparseMatrix) (smap : Z -> Z) :
  finalized K -> symmetric_map K smap -> diag_stored K -> same_pattern K D ->
  (forall i, (0 <= i < Z.of_nat (Size K))%Z -> row_sum K i == 0) ->
  exists D', ComputeDiscreteUpwindingMatrix K smap D = Ok D'
             /\ annihilates_constants D' (Z.of_nat (Size K)).
Proof.
  intros Hfin Hsym Hdiag Hpat Hzero.
  destruct (upwind_walk K D smap Hfin Hsym Hdiag Hpat) as (Dp & Hwalk & Hdone).
  unfold ComputeDiscreteUpwindingMatrix. rewrite Hwalk.
  cbn [mbind result_bind]. eexists. split; [reflexivity|].
  destruct Hpat as (HS & HI & HJ).
  intros x c Hx i Hi. unfold Mult. cbn [A I J].
  rewrite (qsum_ext _ (fun k => Dp k * c)).
  - rewrite qsum_scale, (HI i), (HI (i + 1)%Z) by lia.
    rewrite (rows_done_row_sum K smap Hfin Hdiag Dp i Hdone Hi).
    rewrite (Hzero i Hi). lra.
  - intros k Hk. apply in_positions in Hk.
    rewrite (HI i), (HI (i + 1)%Z) in Hk by lia.
    rewrite HJ by (apply (row_in_range K Hfin i k Hi Hk)).
    rewrite (Hx (J K k)) by (apply (fin_cols K Hfin i k Hi Hk)).
    reflexivity.
Qed.

(** C3 (as amended). For a finalized [K] with a symmetric sparsity pattern
    (so that [SparseMatrix_Build_smap] succeeds) and stored diagonal entries,
    [ComputeDiscreteUpwindingMatrix] succeeds, and the matrix [D] it leaves
    has: every off-diagonal entry [D_ij = K_ij + max(0, -K_ij, -K_ji) >= 0];
    the diagonal [D_ii = K_ii - Σ_{j≠i} max(0, -K_ij, -K_ji)]; each row of
    [D] sums to the row sum of [K]; and for a [K] with zero row sums a
    constant input gives [D·x = 0]. *)
Theorem ComputeDiscreteUpwindingMatrix_spec (K D : SparseMatrix)
  (smap0 smap : Z -> Z) :
  finalized K ->
  diag_stored K ->
  same_pattern K D ->
  SparseMatrix_Build_smap K smap0 = Ok smap ->
  let n := Z.of_nat (Size K) in
  exists D', ComputeDiscreteUpwindingMatrix K smap D = Ok D'
    /\ (forall i j k, (0 <= i < n)%Z -> stored_at K i j k -> j <> i ->
          stored_at K j i (smap k)
          /\ A D' k == A K k + Qmax (Qmax 0 (- A K k)) (- A K (smap k))
          /\ 0 <= A D' k)
    /\ (forall i k, (0 <= i < n)%Z -> stored_at K i i k ->
          A D' k == A K k - off_diffusion K smap i)
    /\ (forall i, (0 <= i < n)%Z -> row_sum D' i == row_sum K i)
    /\ (forall (x : Vector) (c : Q),
          (forall i, (0 <= i < n)%Z -> row_sum K i == 0) ->
          (forall j, (0 <= j < n)%Z -> x j == c) ->
          forall i, (0 <= i < n)%Z -> Mult D' x i == 0).
Proof.
  intros Hfin Hdiag Hpat Hsmap n.
  pose proof (Build_smap_symmetric K Hfin smap0 smap Hsmap) as Hsym.
  destruct (upwind_walk K D smap Hfin Hsym Hdiag Hpat) as (Dp & Hwalk & Hdone).
  unfold ComputeDiscreteUpwindingMatrix. rewrite Hwalk.
  cbn [mbind result_bind]. eexists. split; [reflexivity|].
  pose proof Hdone as [Hoff Hdg]. destruct Hpat as (HS & HI & HJ).
  assert (Hrow : forall i, (0 <= i < n)%Z ->
            qsum Dp (positions (I D i) (I D (i + 1))) == row_sum K i).
  { intros i Hi. rewrite (HI i), (HI (i + 1)%Z) by (fold n; lia).
    apply (rows_done_row_sum K smap Hfin Hdiag Dp i Hdone Hi). }
  cbn [A I J Size]. split; [|split; [|split]].
  - intros i j k Hi [Hk Hj] Hne. subst j.
    destruct (Hsym i k Hi Hk) as [Hsrow Hscol].
    split; [split; assumption|].
    assert (Hv : Dp k == A K k + dij K smap k).
    { apply (Hoff i k Hi Hk Hne). left.
      pose proof (row_in_range K Hfin i k Hi Hk). lia. }
    split; [exact Hv|]. rewrite Hv. apply dij_nonneg.
  - intros i k Hi [Hk Hj]. apply (Hdg i k Hi Hk Hj).
  - intros i Hi. unfold row_sum at 1. cbn [A I]. now apply Hrow.
  - intros x c Hzero Hx i Hi. unfold Mult. cbn [A I J].
    rewrite (qsum_ext _ (fun k => Dp k * c)).
    + rewrite qsum_scale, (Hrow i Hi), (Hzero i Hi). lra.
    + intros k Hk. apply in_positions in Hk.
      rewrite (HI i), (HI (i + 1)%Z) in Hk by (fold n; lia).
      rewrite HJ by (apply (row_in_range K Hfin i k Hi Hk)).
      rewrite (Hx (J K k)) by (apply (fin_cols K Hfin i k Hi Hk)).
      reflexivity.
Qed.

(** *** Checking the hypotheses on a concrete matrix *)

Definition finalizedb (M : SparseMatrix) : bool :=
  let n := Z.of_nat (Size M) in
  let row i := positions (I M i) (I M (i + 1)%Z) in
  (I M 0 =? 0)%Z
  && forallb (fun i => (I M i <=? I M (i + 1))%Z) (zrange (Size M))
  && forallb (fun i =>
       forallb (fun k =>
         (0 <=? J M k)%Z && (J M k <? n)%Z
         && forallb (fun k' => implb (J M k =? J M k')%Z (k =? k')%Z) (row i))
         (row i))
       (zrange (Size M)).

Definition diag_storedb (M : SparseMatrix) : bool :=
  forallb (fun i => existsb (fun k => (J M k =? i)%Z)
                      (positions (I M i) (I M (i + 1)%Z)))
          (zrange (Size M)).

Lemma finalizedb_sound M : finalizedb M = true -> finalized M.
Proof.
  unfold finalizedb. cbv zeta. intros H.
  apply andb_prop in H. destruct H as [H H3].
  apply andb_prop in H. destruct H as [H1 H2].
  rewrite forallb_forall in H2, H3.
  assert (Hrow : forall i k, (0 <= i < Z.of_nat (Size M))%Z -> in_row M i k ->
    ((0 <=? J M k)%Z && (J M k <? Z.of_nat (Size M))%Z
     && forallb (fun k' => implb (J M k =? J M k')%Z (k =? k')%Z)
          (positions (I M i) (I M (i + 1)))) = true).
  { intros i k Hi Hk. specialize (H3 i (proj2 (in_zrange _ _) Hi)).
    rewrite forallb_forall in H3. apply H3. now apply in_positions. }
  constructor.
  - now apply Z.eqb_eq.
  - intros i Hi. apply Z.leb_le, H2, in_zrange, Hi.
  - intros i k Hi Hk. specialize (Hrow i k Hi Hk).
    apply andb_prop in Hrow. destruct Hrow as [Hrow _].
    apply andb_prop in Hrow. destruct Hrow as [Ha Hb].
    apply Z.leb_le in Ha. apply Z.ltb_lt in Hb. lia.
  - intros i k k' Hi Hk Hk' Hj. specialize (Hrow i k Hi Hk).
    apply andb_prop in Hrow. destruct Hrow as [_ Hrow].
    rewrite forallb_forall in Hrow.
    specialize (Hrow k' (proj2 (in_positions _ _ _) Hk')).
    rewrite (proj2 (Z.eqb_eq _ _) Hj) in Hrow. now apply Z.eqb_eq in Hrow.
Qed.

Lemma diag_storedb_sound M : diag_storedb M = true -> diag_stored M.
Proof.
  unfold diag_storedb. rewrite forallb_forall. intros H i Hi.
  specialize (H i (proj2 (in_zrange _ _) Hi)).
  apply existsb_exists in H. destruct H as (k & Hk & Hj).
  exists k. split; [now apply in_positions | now apply Z.eqb_eq].
Qed.

Lemma same_pattern_refl K : same_pattern K K.
Proof. repeat split. Qed.

(** the offset map of a matrix whose pattern is symmetric *)
Definition smap_of (M : SparseMatrix) : Z -> Z :=
  match SparseMatrix_Build_smap M (fun _ => 0%Z) with
  | Ok smap => smap
  | Fatal _ => fun _ => 0%Z
  end.

(** [[ 1  2 ]
     [ 3  4 ]] *)
Definition K_pos : SparseMatrix :=
  csr_of_rows [[(0%Z, 1); (1%Z, 2)]; [(0%Z, 3); (1%Z, 4)]].

(** [[ 1 -2 ]
     [ 3  4 ]] *)
Definition K_neg : SparseMatrix :=
  csr_of_rows [[(0%Z, 1); (1%Z, -2 # 1)]; [(0%Z, 3); (1%Z, 4)]].

Example upwind_K_neg :
  match ComputeDiscreteUpwindingMatrix K_neg (smap_of K_neg) K_neg with
  | Ok D' => map (A D') [0; 1; 2; 3]%Z
  | Fatal _ => []
  end = [-1 # 1; 0; 5; 2].
Proof. vm_compute. reflexivity. Qed.

Lemma ComputeDiscreteUpwindingMatrix_spec_witness :
  exists D', ComputeDiscreteUpwindingMatrix K_neg (smap_of K_neg) K_neg = Ok D'
    /\ (forall i, (0 <= i < 2)%Z -> row_sum D' i == row_sum K_neg i).
Proof.
  destruct (ComputeDiscreteUpwindingMatrix_spec K_neg K_neg (fun _ => 0%Z)
              (smap_of K_neg)) as (D' & HD & _ & _ & Hrow & _).
  - apply finalizedb_sound. vm_compute. reflexivity.
  - apply diag_storedb_sound. vm_compute. reflexivity.
  - apply same_pattern_refl.
  - vm_compute. reflexivity.
  - exists D'. split; [exact HD | exact Hrow].
Defined.

(** C3 as stated fails: with [D_ii = K_ii - Σ_{j≠i} D_ij] the first diagonal
    entry for [K_pos] would be [1 - 2]; the code leaves [D = K_pos], whose
    first diagonal entry is [1]. *)
Lemma upwind_diagonal_counterexample :
  exists D', ComputeDiscreteUpwindingMatrix K_pos (smap_of K_pos) K_pos = Ok D'
    /\ stored_at K_pos 0 1 1
    /\ ~ (get D' 0 0 == get K_pos 0 0 - get D' 0 1).
Proof.
  eexists. split; [reflexivity|]. split.
  - unfold stored_at, in_row.
    split; [split; [vm_compute; discriminate | vm_compute; reflexivity]
           | reflexivity].
  - vm_compute. discriminate.
Qed.

End Upwinding.

(** ** Comparisons of doubles *)

(** [a < b] *)
Definition Qltb (a b : Q) : bool := negb (Qle_bool b a).

Lemma Qltb_lt a b : Qltb a b = true <-> a < b.
Proof.
  unfold Qltb. rewrite negb_true_iff. split.
  - intros H. apply Qnot_le_lt. intros Hle.
    apply Qle_bool_iff in Hle. congruence.
  - intros H. apply not_true_is_false. intros Hle.
    apply Qle_bool_iff in Hle. lra.
Qed.

Lemma Qltb_ge a b : Qltb a b = false <-> b <= a.
Proof.
  unfold Qltb. rewrite negb_false_iff. apply Qle_bool_iff.
Qed.

(** ** NeumannSolve: the mass solve *)

Module Neumann.
Import Sparse.

(** [abs_tol = 1.e-4], [max_iter = 20] *)
Definition abs_tol : Q := 1 # 10000.
Definition max_iter : nat := 20.

Section Solve.

(** the mass matrix, the lumped mass vector, and [n = f.Size()] *)
Variable M : SparseMatrix.
Variable lumpedM : Vector.
Variable n : nat.
Variable f : Vector.

(** [M.Mult(x, y); y -= f;] *)
Definition residual (x : Vector) : Vector := fun i => Mult M x i - f i.

(** The square of [y.Norml2()].  The norm is the square root of this sum,
    and [abs_tol] is positive, so [y.Norml2() <= abs_tol] is the comparison
    of the squares. *)
Definition Norml2_sq (y : Vector) : Q := qsum (fun i => y i * y i) (zrange n).

(** [resid <= abs_tol] *)
Definition converged (y : Vector) : bool :=
  Qle_bool (Norml2_sq y) (abs_tol * abs_tol).

(** [for (i = 0; i < n; i++) x(i) -= y(i) / lumpedM(i);] *)
Definition update (x y : Vector) : Vector :=
  fold_left (fun x i => vset x i (x i - y i / lumpedM i)) (zrange n) x.

(** The loop [for (iter = 1; iter <= max_iter; iter++)]; [remaining] counts
    the passes that are left.  The result is the value of [iter] on exit
    together with [x]. *)
Fixpoint neumann_loop (remaining : nat) (iter : Z) (x : Vector) : Z * Vector :=
  match remaining with
  | O => (iter, x)
  | S remaining' =>
      let y := residual x in
      if converged y then (iter, x)
      else neumann_loop remaining' (iter + 1)%Z (update x y)
  end.

(** [x = 0.] and the loop *)
Definition NeumannSolve : Z * Vector :=
  neumann_loop max_iter 1%Z (fun _ => 0).

(** one Richardson/Jacobi step and the iterates from [x = 0] *)
Definition jacobi (x : Vector) : Vector := update x (residual x).
Definition iterate (m : nat) : Vector := Nat.iter m jacobi (fun _ => 0).

Lemma update_entry (x y : Vector) (i : Z) :
  (0 <= i < Z.of_nat n)%Z -> update x y i = x i - y i / lumpedM i.
Proof.
  intros Hi. unfold update.
  assert (Hout : forall l x0, ~ In i l ->
    fold_left (fun x i => vset x i (x i - y i / lumpedM i)) l x0 i = x0 i).
  { induction l as [|a l IH]; intros x0 Hnin; cbn [fold_left]; [reflexivity|].
    rewrite IH by (intros H; apply Hnin; now right).
    apply vset_ne. intros ->. apply Hnin. now left. }
  assert (Hone : forall l x0, List.NoDup l -> In i l ->
    fold_left (fun x i => vset x i (x i - y i / lumpedM i)) l x0 i
    = x0 i - y i / lumpedM i).
  { induction l as [|a l IH]; intros x0 Hnd Hin; [destruct Hin|].
    apply List.NoDup_cons_iff in Hnd. destruct Hnd as [Hnin Hnd].
    cbn [fold_left]. destruct Hin as [->|Hin].
    - rewrite Hout by exact Hnin. apply vset_eq.
    - rewrite (IH _ Hnd Hin). rewrite vset_ne; [reflexivity|].
      intros ->. contradiction. }
  apply Hone; [apply NoDup_zrange | now apply in_zrange].
Qed.

Lemma neumann_loop_spec (remaining : nat) (iter : Z) (x : Vector) :
  exists m : nat,
    (m <= remaining)%nat
    /\ neumann_loop remaining iter x = ((iter + Z.of_nat m)%Z, Nat.iter m jacobi x)
    /\ (forall j, (j < m)%nat ->
          converged (residual (Nat.iter j jacobi x)) = false)
    /\ ((m < remaining)%nat ->
          converged (residual (Nat.iter m jacobi x)) = true).
Proof.
  revert iter x. induction remaining as [|r IH]; intros iter x.
  - exists 0%nat. cbn. split; [lia|]. split; [f_equal; lia|].
    split; intros; lia.
  - cbn [neumann_loop]. cbv zeta.
    destruct (converged (residual x)) eqn:E.
    + exists 0%nat. cbn. split; [lia|]. split; [f_equal; lia|].
      split; [intros; lia | intros _; exact E].
    + destruct (IH (iter + 1)%Z (update x (residual x)))
        as (m & Hm & Hloop & Hbefore & Hat).
      fold (jacobi x) in Hloop, Hbefore, Hat |- *.
      exists (S m). split; [lia|].
      split; [rewrite Hloop, Nat.iter_succ_r; f_equal; lia|].
      split.
      * intros [|j] Hj; [exact E|].
        rewrite Nat.iter_succ_r. apply Hbefore. lia.
      * intros Hlt. rewrite Nat.iter_succ_r. apply Hat. lia.
Qed.

End Solve.

(** C5. [NeumannSolve(f, x)] always returns: it starts from [x = 0], makes at
    most 20 passes, and returns the iterate [x_m] of the first pass
    [m + 1 <= 20] whose residual norm [||M x_m - f||] is at most [1e-4]; if
    none of the 20 passes meets the tolerance it returns the 20th iterate,
    and nothing else (no error) comes out.  One pass replaces [x(i)] by
    [x(i) - (M x - f)(i) / lumpedM(i)] for every [i < n]. *)
Theorem NeumannSolve_spec (M : SparseMatrix) (lumpedM : Vector) (n : nat)
  (f : Vector) :
  exists m : nat,
    (m <= 20)%nat
    /\ NeumannSolve M lumpedM n f
       = (Z.of_nat (S m), iterate M lumpedM n f m)
    /\ (forall j, (j < m)%nat ->
          ~ Norml2_sq n (residual M f (iterate M lumpedM n f j))
            <= abs_tol * abs_tol)
    /\ ((m < 20)%nat ->
          Norml2_sq n (residual M f (iterate M lumpedM n f m))
          <= abs_tol * abs_tol)
    /\ (forall i, iterate M lumpedM n f 0 i = 0)
    /\ (forall j i, (0 <= i < Z.of_nat n)%Z ->
          iterate M lumpedM n f (S j) i
          = iterate M lumpedM n f j i
            - residual M f (iterate M lumpedM n f j) i / lumpedM i).
Proof.
  destruct (neumann_loop_spec M lumpedM n f max_iter 1%Z (fun _ => 0))
    as (m & Hm & Hloop & Hbefore & Hat).
  exists m. split; [exact Hm|]. split.
  - unfold NeumannSolve. rewrite Hloop. f_equal. lia.
  - split; [|split; [|split]].
    + intros j Hj Hle. specialize (Hbefore j Hj).
      unfold converged in Hbefore. apply Qle_bool_iff in Hle.
      unfold iterate in Hle. congruence.
    + intros Hlt. specialize (Hat Hlt). unfold converged in Hat.
      now apply Qle_bool_iff in Hat.
    + reflexivity.
    + intros j i Hi. unfold iterate. cbn [Nat.iter]. unfold jacobi at 1.
      now apply update_entry.
Qed.

End Neumann.

(** ** Loops that stop when a value is not finite *)

Fixpoint ofold {S A : Type} (f : S -> A -> option S) (l : list A) (s : S)
  : option S :=
  match l with
  | [] => Some s
  | a :: rest =>
      match f s a with
      | Some s' => ofold f rest s'
      | None => None
      end
  end.

(** [v(i) = a] for a vector of any content *)
Definition aset {A : Type} (v : Z -> A) (i : Z) (a : A) : Z -> A :=
  fun i' => if (i' =? i)%Z then a else v i'.

(** [eps = 1.E-15] *)
Definition eps : Q := 1 # 1000000000000000.

Lemma eps_pos : 0 < eps.
Proof. reflexivity. Qed.

(** ** ComputeFCTSolution: the flux-corrected blend

    The limiter over the rationals, for runs in which every clipped value
    is finite.  [FCTNum] has the same code over any arithmetic, and
    [FCTRational.rational_model_exact] shows that the rates returned here
    are the ones of the exact arithmetic. *)

Module FCT.
Import DofInfo.

Section Blend.

Variable map_for_bounds : gmap Z (list Z).
(** the element bounds the low-order pass left in [dofs] *)
Variables xe_min xe_max : Z -> ext.
Variable lumpedM : Vector.
Variable dt : Q.
(** the number of elements and the dofs per element ([el->GetDof()], the
    same for every element of the mesh) *)
Variables ne nd : nat.
Variables x yH yL : Vector.

(** [dofs.xi_min], [dofs.xi_max] and [y]: what the call reads and writes *)
Record state : Type := {
  xi_min : Z -> ext;
  xi_max : Z -> ext;
  y : Vector
}.

(** the locals of one pass of the loop over the elements *)
Record locals : Type := {
  bounds : (Z -> ext) * (Z -> ext);
  fClipped : Vector;
  sumPos : Q;
  sumNeg : Q
}.

(** [uClipped(j) = min(xi_max(dofInd), max(x(dofInd) + dt*yH(dofInd),
    xi_min(dofInd)))], a finite double or not *)
Definition uClipped_of (dofInd : Z) : option Q :=
  let b := ComputeVertexBounds map_for_bounds xe_min xe_max dofInd in
  fin (emin (snd b) (emax (Fin (x dofInd + dt * yH dofInd)) (fst b))).

(** the body of the first loop over [j] *)
Definition clip_dof (k : Z) (l : locals) (j : Z) : option locals :=
  let dofInd := (k * Z.of_nat nd + j)%Z in
  let b := ComputeVertexBounds map_for_bounds xe_min xe_max dofInd in
  match uClipped_of dofInd with
  | Some uClipped =>
      let f := lumpedM dofInd / dt
               * (uClipped - (x dofInd + dt * yL dofInd)) in
      Some {| bounds := (aset (fst (bounds l)) dofInd (fst b),
                         aset (snd (bounds l)) dofInd (snd b));
              fClipped := vset (fClipped l) j f;
              sumPos := sumPos l + Qmax f 0;
              sumNeg := sumNeg l + Qmin f 0 |}
  | None => None
  end.

(** the two rescaling tests of the second loop *)
Definition rescale (sumPos sumNeg f : Q) : Q :=
  let f := if Qltb eps (sumPos + sumNeg) && Qltb eps f
           then f * (- sumNeg / sumPos) else f in
  let f := if Qltb (sumPos + sumNeg) (- eps) && Qltb f (- eps)
           then f * (- sumPos / sumNeg) else f in
  f.

(** the body of the second loop over [j] *)
Definition limit_dof (k : Z) (sumPos sumNeg : Q) (st : Vector * Vector)
  (j : Z) : Vector * Vector :=
  let fC := fst st in
  let y := snd st in
  let f := rescale sumPos sumNeg (fC j) in
  let dofInd := (k * Z.of_nat nd + j)%Z in
  (vset fC j f, vset y dofInd (yL dofInd + f / lumpedM dofInd)).

(** One pass of the loop over the elements: the new state, and the locals
    [fClipped] (rescaled), [sumPos], [sumNeg] as they are at its end. *)
Definition fct_element (k : Z) (st : state) : option (state * locals) :=
  match ofold (clip_dof k) (zrange nd)
          {| bounds := (xi_min st, xi_max st);
             fClipped := fun _ => 0; sumPos := 0; sumNeg := 0 |} with
  | Some l =>
      let r := fold_left (limit_dof k (sumPos l) (sumNeg l)) (zrange nd)
                 (fClipped l, y st) in
      Some ({| xi_min := fst (bounds l); xi_max := snd (bounds l);
               y := snd r |},
            {| bounds := bounds l; fClipped := fst r;
               sumPos := sumPos l; sumNeg := sumNeg l |})
  | None => None
  end.

Definition ComputeFCTSolution (st : state) : option state :=
  ofold (fun st k => option_map fst (fct_element k st)) (zrange ne) st.

(** *** The two loops over the dofs of one element *)

(** the antidiffusive flux of a dof before the rescaling *)
Definition flux (dofInd : Z) : Q :=
  match uClipped_of dofInd with
  | Some uClipped =>
      lumpedM dofInd / dt * (uClipped - (x dofInd + dt * yL dofInd))
  | None => 0
  end.

Definition finite_clip (dofInd : Z) : Prop :=
  exists u, uClipped_of dofInd = Some u.

Local Abbreviation CVB :=
  (ComputeVertexBounds map_for_bounds xe_min xe_max).
Local Abbreviation dof k j := (k * Z.of_nat nd + j)%Z.

Lemma clip_loop_spec (k : Z) (js : list Z) (l0 : locals) :
  (forall j, In j js -> finite_clip (dof k j)) ->
  exists l1, ofold (clip_dof k) js l0 = Some l1
    /\ (forall j, In j js -> fClipped l1 j = flux (dof k j))
    /\ (forall j, ~ In j js -> fClipped l1 j = fClipped l0 j)
    /\ sumPos l1 == sumPos l0 + qsum (fun j => Qmax (flux (dof k j)) 0) js
    /\ sumNeg l1 == sumNeg l0 + qsum (fun j => Qmin (flux (dof k j)) 0) js
    /\ (forall j, In j js ->
          fst (bounds l1) (dof k j) = fst (CVB (dof k j))
          /\ snd (bounds l1) (dof k j) = snd (CVB (dof k j)))
    /\ (forall d, (forall j, In j js -> d <> dof k j) ->
          fst (bounds l1) d = fst (bounds l0) d
          /\ snd (bounds l1) d = snd (bounds l0) d).
Proof.
  revert l0. induction js as [|j0 js IH]; intros l0 Hfin; cbn [ofold].
  - exists l0. split; [reflexivity|]. rewrite !qsum_nil.
    repeat split; try reflexivity; try lra;
      try (intros ? []);
      try match goal with H : In _ [] |- _ => destruct H end.
  - destruct (Hfin j0 (or_introl eq_refl)) as [u Hu].
    unfold clip_dof at 1. cbv zeta. rewrite Hu.
    match goal with
    | |- context [ofold _ js ?l] => set (l' := l)
    end.
    destruct (IH l' (fun j Hj => Hfin j (or_intror Hj)))
      as (l1 & Hfold & Hf & Hfout & HP & HN & Hb & Hbout).
    exists l1. split; [exact Hfold|].
    assert (Hflux : flux (dof k j0)
                    = lumpedM (dof k j0) / dt
                      * (u - (x (dof k j0) + dt * yL (dof k j0))))
      by (unfold flux; now rewrite Hu).
    split; [|split; [|split; [|split; [|split]]]].
    + intros j Hj. destruct (in_dec Z.eq_dec j js) as [Hin|Hnin];
        [now apply Hf|].
      destruct Hj as [<-|Hj]; [|contradiction].
      rewrite Hfout by exact Hnin. subst l'. cbn [fClipped].
      rewrite vset_eq. now rewrite Hflux.
    + intros j Hj. rewrite Hfout by (intros H; apply Hj; now right).
      subst l'. cbn [fClipped]. apply vset_ne. intros ->. apply Hj. now left.
    + rewrite HP, qsum_cons. subst l'. cbn [sumPos]. rewrite Hflux. lra.
    + rewrite HN, qsum_cons. subst l'. cbn [sumNeg]. rewrite Hflux. lra.
    + intros j Hj. destruct (in_dec Z.eq_dec j js) as [Hin|Hnin];
        [now apply Hb|].
      destruct Hj as [<-|Hj]; [|contradiction].
      destruct (Hbout (dof k j0)) as [H1 H2].
      { intros j Hj Heq. apply Hnin. replace j0 with j by lia. exact Hj. }
      rewrite H1, H2. subst l'. cbn [bounds fst snd]. unfold aset.
      now rewrite Z.eqb_refl.
    + intros d Hd. destruct (Hbout d) as [H1 H2].
      { intros j Hj. apply Hd. now right. }
      rewrite H1, H2. subst l'. cbn [bounds fst snd]. unfold aset.
      destruct (Z.eqb_spec d (dof k j0)) as [Heq|_]; [|split; reflexivity].
      exfalso. apply (Hd j0); [now left | exact Heq].
Qed.

Lemma limit_dof_pair (k : Z) (sP sN : Q) (fC y0 : Vector) (j : Z) :
  limit_dof k sP sN (fC, y0) j
  = (vset fC j (rescale sP sN (fC j)),
     vset y0 (dof k j)
       (yL (dof k j) + rescale sP sN (fC j) / lumpedM (dof k j))).
Proof. reflexivity. Qed.

Lemma limit_loop_spec (k : Z) (sP sN : Q) (js : list Z) (fC y0 : Vector) :
  List.NoDup js ->
  let r := fold_left (limit_dof k sP sN) js (fC, y0) in
  (forall j, In j js -> fst r j = rescale sP sN (fC j))
  /\ (forall j, ~ In j js -> fst r j = fC j)
  /\ (forall j, In j js ->
        snd r (dof k j)
        = yL (dof k j) + rescale sP sN (fC j) / lumpedM (dof k j))
  /\ (forall d, (forall j, In j js -> d <> dof k j) -> snd r d = y0 d).
Proof.
  revert fC y0. induction js as [|j0 js IH]; intros fC y0 Hnd; cbn [fold_left].
  - cbv zeta. cbn [fst snd].
    repeat split; try reflexivity; try (intros ? []);
      try match goal with H : In _ [] |- _ => destruct H end.
  - apply List.NoDup_cons_iff in Hnd. destruct Hnd as [Hnin Hnd].
    rewrite limit_dof_pair.
    match goal with
    | |- context [fold_left _ js (?a, ?b)] =>
        destruct (IH a b Hnd) as (Hf & Hfout & Hy & Hyout)
    end.
    cbv zeta. split; [|split; [|split]].
    + intros j [<-|Hj].
      * rewrite Hfout by exact Hnin. apply vset_eq.
      * rewrite (Hf j Hj). rewrite vset_ne; [reflexivity|].
        intros ->. contradiction.
    + intros j Hj. rewrite Hfout by (intros H; apply Hj; now right).
      apply vset_ne. intros ->. apply Hj. now left.
    + intros j [<-|Hj].
      * rewrite Hyout.
        -- apply vset_eq.
        -- intros j Hj Heq. apply Hnin. replace j0 with j by lia. exact Hj.
      * rewrite (Hy j Hj). rewrite vset_ne; [reflexivity|].
        intros ->. contradiction.
    + intros d Hd. rewrite Hyout by (intros j Hj; apply Hd; now right).
      apply vset_ne. apply Hd. now left.
Qed.

(** what one pass of the element loop leaves behind *)
Lemma fct_element_spec (k : Z) (st : state) :
  (forall j, (0 <= j < Z.of_nat nd)%Z -> finite_clip (dof k j)) ->
  exists st' loc, fct_element k st = Some (st', loc)
    /\ sumPos loc == qsum (fun j => Qmax (flux (dof k j)) 0) (zrange nd)
    /\ sumNeg loc == qsum (fun j => Qmin (flux (dof k j)) 0) (zrange nd)
    /\ (forall j, (0 <= j < Z.of_nat nd)%Z ->
          fClipped loc j = rescale (sumPos loc) (sumNeg loc) (flux (dof k j))
          /\ y st' (dof k j)
             = yL (dof k j) + fClipped loc j / lumpedM (dof k j)
          /\ xi_min st' (dof k j) = fst (CVB (dof k j))
          /\ xi_max st' (dof k j) = snd (CVB (dof k j)))
    /\ (forall d, (forall j, (0 <= j < Z.of_nat nd)%Z -> d <> dof k j) ->
          y st' d = y st d /\ xi_min st' d = xi_min st d
          /\ xi_max st' d = xi_max st d).
Proof.
  intros Hfin. unfold fct_element.
  destruct (clip_loop_spec k (zrange nd)
              {| bounds := (xi_min st, xi_max st);
                 fClipped := fun _ => 0; sumPos := 0; sumNeg := 0 |})
    as (l1 & Hfold & Hf & _ & HP & HN & Hb & Hbout).
  { intros j Hj. apply Hfin. now apply in_zrange. }
  rewrite Hfold. cbv zeta.
  destruct (limit_loop_spec k (sumPos l1) (sumNeg l1) (zrange nd)
              (fClipped l1) (y st) (NoDup_zrange nd))
    as (Hr & _ & Hy & Hyout).
  eexists. eexists. split; [reflexivity|].
  cbn [sumPos sumNeg fClipped y xi_min xi_max]. cbn [sumPos sumNeg] in HP, HN.
  split; [rewrite HP; lra|]. split; [rewrite HN; lra|]. split.
  - intros j Hj. apply in_zrange in Hj.
    rewrite (Hr j Hj), (Hy j Hj), (Hf j Hj).
    destruct (Hb j Hj) as [H1 H2]. repeat split; assumption.
  - intros d Hd.
    assert (Hd' : forall j, In j (zrange nd) -> d <> dof k j)
      by (intros j Hj; apply Hd; now apply in_zrange).
    destruct (Hbout d Hd') as [H1 H2]. cbn [bounds fst snd] in H1, H2.
    rewrite (Hyout d Hd'). repeat split; assumption.
Qed.

Lemma dof_block_disjoint (k k' j j' : Z) :
  (0 <= j < Z.of_nat nd)%Z -> (0 <= j' < Z.of_nat nd)%Z ->
  dof k j = dof k' j' -> k = k' /\ j = j'.
Proof. intros Hj Hj' Heq. assert (k = k') by nia. subst k'. split; lia. Qed.

(** the state after the loop over the elements [ks] *)
Definition written (k : Z) (st' : state) : Prop :=
  exists sP sN,
    sP == qsum (fun j => Qmax (flux (dof k j)) 0) (zrange nd)
    /\ sN == qsum (fun j => Qmin (flux (dof k j)) 0) (zrange nd)
    /\ forall j, (0 <= j < Z.of_nat nd)%Z ->
         y st' (dof k j)
         = yL (dof k j) + rescale sP sN (flux (dof k j)) / lumpedM (dof k j)
         /\ xi_min st' (dof k j) = fst (CVB (dof k j))
         /\ xi_max st' (dof k j) = snd (CVB (dof k j)).

Lemma fct_loop_spec (ks : list Z) (st : state) :
  (forall k j, In k ks -> (0 <= j < Z.of_nat nd)%Z -> finite_clip (dof k j)) ->
  exists st',
    ofold (fun st k => option_map fst (fct_element k st)) ks st = Some st'
    /\ (forall k, In k ks -> written k st')
    /\ (forall d, (forall k j, In k ks -> (0 <= j < Z.of_nat nd)%Z ->
                     d <> dof k j) ->
          y st' d = y st d /\ xi_min st' d = xi_min st d
          /\ xi_max st' d = xi_max st d).
Proof.
  revert st. induction ks as [|k0 ks IH]; intros st Hfin; cbn [ofold].
  - exists st. split; [reflexivity|]. split; [intros k []|].
    intros d _. repeat split.
  - destruct (fct_element_spec k0 st) as (st1 & loc & Hel & HP & HN & Hin & Hout).
    { intros j Hj. apply Hfin; [now left | exact Hj]. }
    rewrite Hel. cbn [option_map fst].
    destruct (IH st1) as (st' & Hfold & Hw & Hother).
    { intros k j Hk Hj. apply Hfin; [now right | exact Hj]. }
    exists st'. split; [exact Hfold|]. split.
    + intros k Hk. destruct (in_dec Z.eq_dec k ks) as [Hks|Hks];
        [now apply Hw|].
      destruct Hk as [<-|Hk]; [|contradiction].
      exists (sumPos loc), (sumNeg loc). split; [exact HP|].
      split; [exact HN|]. intros j Hj.
      destruct (Hother (dof k0 j)) as (Hy1 & Hmin1 & Hmax1).
      { intros k j' Hk Hj' Heq.
        apply dof_block_disjoint in Heq; [|exact Hj|exact Hj'].
        destruct Heq as [-> _]. contradiction. }
      destruct (Hin j Hj) as (HfC & Hy & Hmin & Hmax).
      rewrite Hy1, Hmin1, Hmax1, Hy, HfC. repeat split; assumption.
    + intros d Hd. destruct (Hother d) as (Hy1 & Hmin1 & Hmax1).
      { intros k j Hk Hj. apply Hd; [now right | exact Hj]. }
      destruct (Hout d) as (Hy0 & Hmin0 & Hmax0).
      { intros j Hj. apply Hd; [now left | exact Hj]. }
      rewrite Hy1, Hmin1, Hmax1. repeat split; assumption.
Qed.

Lemma clip_loop_finite (k : Z) (js : list Z) (l0 l1 : locals) :
  ofold (clip_dof k) js l0 = Some l1 ->
  forall j, In j js -> finite_clip (dof k j).
Proof.
  revert l0. induction js as [|j0 js IH]; intros l0 H j Hj; [destruct Hj|].
  cbn [ofold] in H. unfold clip_dof at 1 in H. cbv zeta in H.
  destruct (uClipped_of (dof k j0)) as [u|] eqn:Hu; [|discriminate H].
  destruct Hj as [<-|Hj]; [now exists u|].
  eapply IH; eassumption.
Qed.

Lemma fct_element_finite (k : Z) (st st' : state) (loc : locals) :
  fct_element k st = Some (st', loc) ->
  forall j, (0 <= j < Z.of_nat nd)%Z -> finite_clip (dof k j).
Proof.
  unfold fct_element. intros H j Hj.
  destruct (ofold (clip_dof k) (zrange nd) _) as [l1|] eqn:E; [|discriminate H].
  eapply clip_loop_finite; [exact E | now apply in_zrange].
Qed.

End Blend.

(** *** The rescaling factor *)

Lemma rescale_cases (sP sN f : Q) :
  (eps < sP + sN /\ eps < f /\ rescale sP sN f = f * (- sN / sP))
  \/ (sP + sN < - eps /\ f < - eps /\ rescale sP sN f = f * (- sP / sN))
  \/ ((sP + sN <= eps \/ f <= eps) /\ (- eps <= sP + sN \/ - eps <= f)
      /\ rescale sP sN f = f).
Proof.
  pose proof eps_pos as He. unfold rescale. cbv zeta.
  repeat match goal with
  | |- context [Qltb ?a ?b] =>
      let E := fresh "E" in
      destruct (Qltb a b) eqn:E;
      [apply Qltb_lt in E | apply Qltb_ge in E]; cbn [andb] in *
  end;
  first
    [ lra
    | solve [left; repeat split; first [assumption | reflexivity | lra]]
    | solve [right; left; repeat split; first [assumption | reflexivity | lra]]
    | solve [right; right; split; [|split];
             first [reflexivity | (left; lra) | (right; lra)]] ].
Qed.

Lemma ratio_unit (a b : Q) : 0 <= a -> a <= b -> 0 < b -> 0 <= a / b <= 1.
Proof.
  intros Ha Hab Hb. split.
  - apply Qle_shift_div_l; [exact Hb | lra].
  - apply Qle_shift_div_r; [exact Hb | lra].
Qed.

(** The rescaling multiplies a flux by a factor between 0 and 1. *)
Lemma rescale_factor (sP sN f : Q) :
  0 <= sP -> sN <= 0 ->
  exists c, 0 <= c <= 1 /\ rescale sP sN f == c * f.
Proof.
  intros HP HN. pose proof eps_pos as He.
  destruct (rescale_cases sP sN f)
    as [(H1 & H2 & ->)|[(H1 & H2 & ->)|(_ & _ & ->)]].
  - exists (- sN / sP). split; [apply ratio_unit; lra | lra].
  - exists (sP / - sN). split; [apply ratio_unit; lra|].
    assert (Hn : ~ sN == 0) by lra.
    field. exact Hn.
  - exists 1. split; [lra | lra].
Qed.

Lemma qsum_bounds {A : Type} (f : A -> Q) (lo hi : Q) (l : list A) :
  (forall a, In a l -> lo <= f a <= hi) ->
  inject_Z (Z.of_nat (length l)) * lo <= qsum f l
  /\ qsum f l <= inject_Z (Z.of_nat (length l)) * hi.
Proof.
  induction l as [|a l IH]; intros H.
  - rewrite qsum_nil. cbn [length].
    change (inject_Z (Z.of_nat 0)) with 0. split; lra.
  - rewrite qsum_cons.
    destruct (H a (or_introl eq_refl)) as [H1 H2].
    destruct (IH (fun a Ha => H a (or_intror Ha))) as [H3 H4].
    cbn [length]. rewrite Nat2Z.inj_succ, <- Z.add_1_r, inject_Z_plus.
    change (inject_Z 1) with 1. split; lra.
Qed.

Lemma qsum_min_nonpos {A : Type} (f : A -> Q) (l : list A) :
  qsum (fun a => Qmin (f a) 0) l <= 0.
Proof.
  induction l as [|a l IH].
  - rewrite qsum_nil. lra.
  - rewrite qsum_cons. pose proof (Q.le_min_r (f a) 0). lra.
Qed.

Lemma length_zrange (n : nat) : length (zrange n) = n.
Proof. unfold zrange. now rewrite length_map, length_seq. Qed.

(** An element's rescaled fluxes: what is left over after the positive and
    the negative part have been balanced is the part of the small fluxes
    that the tests against [eps] leave unscaled. *)
Lemma rescale_residue (sP sN f : Q) :
  0 <= sP -> sN <= 0 ->
  (eps < sP + sN ->
     0 <= rescale sP sN f - (- sN / sP * Qmax f 0 + Qmin f 0) <= eps)
  /\ (sP + sN < - eps ->
      - eps <= rescale sP sN f - (Qmax f 0 + - sP / sN * Qmin f 0) <= 0).
Proof.
  intros HP HN. pose proof eps_pos as He. split; intros Hsum.
  - destruct (ratio_unit (- sN) sP) as [Hc0 Hc1]; try lra.
    set (c := - sN / sP) in *.
    destruct (rescale_cases sP sN f)
      as [(H1 & H2 & ->)|[(H1 & H2 & ->)|([H1|H1] & _ & ->)]]; try lra.
    + fold c. qminmax; nra.
    + qminmax; nra.
  - assert (Hn : ~ sN == 0) by lra.
    assert (Hn' : ~ - sN == 0) by lra.
    assert (Heq : - sP / sN == sP / - sN) by (field; exact Hn).
    destruct (ratio_unit sP (- sN)) as [Hc0 Hc1]; try lra.
    rewrite <- Heq in Hc0, Hc1.
    set (c := - sP / sN) in *.
    destruct (rescale_cases sP sN f)
      as [(H1 & H2 & ->)|[(H1 & H2 & ->)|(_ & [H1|H1] & ->)]]; try lra.
    + fold c. qminmax; nra.
    + qminmax; nra.
Qed.

(** *** Clipping keeps a value between the bounds *)

Lemma ext_between (lo hi : ext) (a b w : Q) :
  ext_le lo (Fin a) -> ext_le lo (Fin b) ->
  ext_le (Fin a) hi -> ext_le (Fin b) hi ->
  (a <= w <= b \/ b <= w <= a) ->
  ext_le lo (Fin w) /\ ext_le (Fin w) hi.
Proof.
  intros Hla Hlb Hah Hbh Hw. split.
  - destruct lo as [|l|]; [reflexivity| |discriminate Hla].
    apply ext_le_fin in Hla, Hlb. apply ext_le_fin. lra.
  - destruct hi as [|h|]; [discriminate Hah| |reflexivity].
    apply ext_le_fin in Hah, Hbh. apply ext_le_fin. lra.
Qed.

Lemma clip_within (lo hi : ext) (uL uH : Q) :
  ext_le lo (Fin uL) -> ext_le (Fin uL) hi ->
  exists u, fin (emin hi (emax (Fin uH) lo)) = Some u
            /\ ext_le lo (Fin u) /\ ext_le (Fin u) hi.
Proof.
  intros Hlo Hhi.
  destruct lo as [|l|]; [| |discriminate Hlo];
    (destruct hi as [|h|]; [discriminate Hhi| |]).
  - exists (Qmin h uH). change (emax (Fin uH) MInf) with (Fin uH).
    rewrite emin_fin. split; [reflexivity|]. split; [reflexivity|].
    apply ext_le_fin. apply Q.le_min_l.
  - exists uH. split; [reflexivity|]. split; reflexivity.
  - exists (Qmin h (Qmax uH l)). rewrite emax_fin, emin_fin.
    apply ext_le_fin in Hlo, Hhi.
    split; [reflexivity|]. split; apply ext_le_fin.
    + apply Q.min_glb; [lra | apply Q.le_max_r].
    + apply Q.le_min_l.
  - exists (Qmax uH l). rewrite emax_fin.
    split; [reflexivity|]. split; [|reflexivity].
    apply ext_le_fin. apply Q.le_max_r.
Qed.

(** A low-order value within the bounds makes the clipped value finite. *)
Lemma within_finite_clip map_for_bounds xe_min xe_max dt x yH yL d :
  let b := ComputeVertexBounds map_for_bounds xe_min xe_max d in
  ext_le (fst b) (Fin (x d + dt * yL d)) ->
  ext_le (Fin (x d + dt * yL d)) (snd b) ->
  finite_clip map_for_bounds xe_min xe_max dt x yH d.
Proof.
  intros b Hlo Hhi. unfold finite_clip, uClipped_of. cbv zeta. fold b.
  destruct (clip_within (fst b) (snd b) (x d + dt * yL d) (x d + dt * yH d)
              Hlo Hhi) as (u & Hu & _).
  now exists u.
Qed.

(** *** A bump on the two-element segment *)

Definition vector_of (l : list Q) : Vector := fun i => nth (Z.to_nat i) l 0.

Definition bump_x : Vector := vector_of [1; 1; 2; 1].
Definition bump_yH : Vector := vector_of [0; 5; - (5); 0].
Definition bump_yL : Vector := fun _ => 0.
Definition bump_lumpedM : Vector := fun _ => 1 # 4.
Definition bump_dt : Q := 1 # 10.
(** the element bounds of [bump_x] *)
Definition bump_xe_min : Z -> ext := fun _ => Fin 1.
Definition bump_xe_max : Z -> ext := fun e => if (e =? 0)%Z then Fin 1 else Fin 2.
Definition bump_state : state :=
  {| xi_min := fun _ => PInf; xi_max := fun _ => MInf; y := fun _ => 0 |}.

Definition bump_element0 : option (state * locals) :=
  fct_element VertexBounds.segment2_map bump_xe_min bump_xe_max bump_lumpedM
    bump_dt 2 bump_x bump_yH bump_yL 0 bump_state.

Definition bump_locals0 : locals :=
  match bump_element0 with
  | Some (_, loc) => loc
  | None => {| bounds := (fun _ => PInf, fun _ => MInf);
               fClipped := fun _ => 0; sumPos := 0; sumNeg := 0 |}
  end.

Definition bump_state0 : state :=
  match bump_element0 with
  | Some (st, _) => st
  | None => bump_state
  end.

Example bump_sums : sumPos bump_locals0 == 5 # 4 /\ sumNeg bump_locals0 == 0.
Proof. split; vm_compute; reflexivity. Qed.

End FCT.

(** ** ComputeLowOrderSolution: the low-order update *)

(** How a run of the evolution operator can end: with a value, with a fatal
    error of the library, or with a non-finite double in an arithmetic
    expression (which the model does not carry). *)
Inductive outcome (A : Type) : Type :=
| Value (a : A)
| Aborted (msg : string)
| NotFinite.
Arguments Value {A} a.
Arguments Aborted {A} msg.
Arguments NotFinite {A}.

Definition of_result {A : Type} (r : result A) : outcome A :=
  match r with
  | Ok a => Value a
  | Fatal msg => Aborted msg
  end.

Definition of_option {A : Type} (o : option A) : outcome A :=
  match o with
  | Some a => Value a
  | None => NotFinite
  end.

(** A loop invariant that knows the part of the list already visited *)
Lemma fold_left_prefix {A B : Type} (P : list B -> A -> Prop)
  (f : A -> B -> A) (l : list B) (a : A) :
  P [] a ->
  (forall pre b a, P pre a -> P (pre ++ [b]) (f a b)) ->
  P l (fold_left f l a).
Proof.
  intros H0 Hstep.
  assert (H : forall l pre a, P pre a -> P (pre ++ l) (fold_left f l a)).
  { clear l a H0. induction l as [|b l IH]; intros pre a Ha; cbn [fold_left].
    - now rewrite app_nil_r.
    - replace (pre ++ b :: l) with ((pre ++ [b]) ++ l)
        by (rewrite <- app_assoc; reflexivity).
      apply IH, Hstep, Ha. }
  apply (H l [] a H0).
Qed.

(** The running maximum, minimum and sum of the values visited so far: from
    the seeds [-infinity], [+infinity], [0], they are finite as soon as one
    value has been visited, and then
    [count*max - sum >= 0 >= count*min - sum]. *)
Definition run_inv (vals : list Q) (mx mn : ext) (sm : Q) : Prop :=
  match vals with
  | [] => mx = MInf /\ mn = PInf /\ sm == 0
  | _ :: _ =>
      exists M m, mx = Fin M /\ mn = Fin m
        /\ 0 <= inject_Z (Z.of_nat (length vals)) * M - sm
        /\ inject_Z (Z.of_nat (length vals)) * m - sm <= 0
        /\ forall v, In v vals -> m <= v <= M
  end.

Lemma run_inv_step (vals : list Q) (mx mn : ext) (sm v : Q) :
  run_inv vals mx mn sm ->
  run_inv (vals ++ [v]) (emax mx (Fin v)) (emin mn (Fin v)) (sm + v).
Proof.
  destruct vals as [|v0 vals]; cbn [run_inv app].
  - intros (-> & -> & Hs). exists v, v. cbn [length].
    change (inject_Z (Z.of_nat 1)) with 1.
    split; [reflexivity|]. split; [reflexivity|].
    split; [lra|]. split; [lra|].
    intros v' [<-|[]]. split; lra.
  - intros (M & m & -> & -> & HM & Hm & Hall).
    exists (Qmax M v), (Qmin m v). rewrite emax_fin, emin_fin.
    split; [reflexivity|]. split; [reflexivity|].
    change (v0 :: vals ++ [v]) with ((v0 :: vals) ++ [v]).
    rewrite length_app. cbn [length Nat.add] in *.
    rewrite Nat.add_1_r, Nat2Z.inj_succ, <- Z.add_1_r, inject_Z_plus.
    change (inject_Z 1) with 1.
    assert (Hc : 0 <= inject_Z (Z.of_nat (S (length vals)))).
    { change 0 with (inject_Z 0). rewrite <- Zle_Qle. lia. }
    revert HM Hm Hc. generalize (inject_Z (Z.of_nat (S (length vals)))).
    intros c HM Hm Hc.
    assert (HmM : m <= M) by (specialize (Hall v0 (or_introl eq_refl)); lra).
    pose proof (Q.le_max_l M v). pose proof (Q.le_max_r M v).
    pose proof (Q.le_min_l m v). pose proof (Q.le_min_r m v).
    split; [nra|]. split; [nra|].
    intros v' Hv. apply in_app_or in Hv. destruct Hv as [Hv|[<-|[]]].
    + specialize (Hall v' Hv). lra.
    + lra.
Qed.

Module LowOrder.
Import Sparse.

(** [gamma = 10.] *)
Definition gamma : Q := 10.

(** What the call leaves behind: the rate [y], the element bounds
    [dofs.xe_min], [dofs.xe_max], and the upwinding matrix [lom.D]. *)
Record low_order : Type := {
  y : Vector;
  xe_min : Z -> ext;
  xe_max : Z -> ext;
  D : SparseMatrix
}.

(** the running values of the loop over the dofs of an element *)
Record elem_stats : Type := {
  e_max : ext;
  e_min : ext;
  xSum : Q;
  rhoP : Q;
  rhoN : Q
}.

(** the running values of the loop over the dofs of a subcell *)
Record subcell_stats : Type := {
  fluct : Q;
  s_max : ext;
  s_min : ext;
  s_sum : Q
}.

(** the subcell vectors and sums of one element *)
Record subcells : Type := {
  xMaxSubcell : Vector;
  xMinSubcell : Vector;
  sumWeightsSubcellP : Vector;
  sumWeightsSubcellN : Vector;
  fluctSubcellP : Vector;
  fluctSubcellN : Vector;
  sumFluctSubcellP : Q;
  sumFluctSubcellN : Q
}.

(** [sumWeightsP = nd*xe_max(k) - xSum + eps] and
    [sumWeightsN = nd*xe_min(k) - xSum - eps]; the same expressions give the
    subcell denominators. *)
Definition sumWeightsP_of (n : nat) (xmax xsum : Q) : Q :=
  inject_Z (Z.of_nat n) * xmax - xsum + eps.
Definition sumWeightsN_of (n : nat) (xmin xsum : Q) : Q :=
  inject_Z (Z.of_nat n) * xmin - xsum - eps.

Section Evaluate.

(** [exec_mode], [lom.MonoType], [lom.OptScheme] *)
Variable exec_mode : Z.
Variable MonoType : MONOTYPE.
Variable OptScheme : bool.
(** [lom.fes->GetNE()], [dummy->GetDof()] and the sizes kept in [dofs] *)
Variables ne nd numBdrs numDofs numSubcells numDofsSubcell : nat.
(** the tables of [dofs] *)
Variable BdrDofs : Z -> Z -> Z.
Variable NbrDof : Z -> Z -> Z -> Z.
Variable Sub2Ind : Z -> Z -> Z.
(** [asmbl.bdrInt] and [asmbl.SubcellWeights] (in remap mode the values
    [ComputeSubcellWeights] has just stored) *)
Variable bdrInt : DTensor.
Variable SubcellWeights : DTensor.
(** the advection matrix [K], the matrix [lom.pk->SpMat()] of the optimized
    scheme (reassembled by the library in remap mode), [lom.smap], and
    [lom.D] as the call finds it *)
Variables K pk : SparseMatrix.
Variable smap : Z -> Z.
Variable D0 : SparseMatrix.
Variables lumpedM b : Vector.

Local Abbreviation dof k j := (k * Z.of_nat nd + j)%Z.

(** *** LinearFluxLumping *)

(** [xDiff(j)]: the jump to the neighbour value, 0 standing in for the
    neighbour across an exterior slot *)
Definition xDiff (k BdrID : Z) (x : Vector) (j : Z) : Q :=
  let dofInd := dof k (BdrDofs j BdrID) in
  let idx := NbrDof k BdrID j in
  let xNeighbor := if (idx <? 0)%Z then 0 else x idx in
  xNeighbor - x dofInd.

Definition LinearFluxLumping (k BdrID : Z) (x y alpha : Vector) : Vector :=
  fold_left
    (fun y i =>
       let dofInd := dof k (BdrDofs i BdrID) in
       fold_left
         (fun y j =>
            vset y dofInd
              (y dofInd
               + bdrInt k BdrID (i * Z.of_nat numDofs + j)%Z
                 * (xDiff k BdrID x i
                    + (xDiff k BdrID x j - xDiff k BdrID x i)
                      * alpha (BdrDofs i BdrID) * alpha (BdrDofs j BdrID))))
         (zrange numDofs) y)
    (zrange numDofs) y.

(** [alpha = 0.] *)
Definition alpha0 : Vector := fun _ => 0.

(** the loop over the boundary slots of element [k] *)
Definition lump_boundaries (k : Z) (x y : Vector) : Vector :=
  fold_left (fun y i => LinearFluxLumping k i x y alpha0) (zrange numBdrs) y.

(** *** The discrete upwinding branch *)

(** the matrix the upwinding is built from *)
Definition upwind_source : SparseMatrix := if OptScheme then pk else K.

(** Reassemble on the new mesh: only in remap mode *)
Definition upwind_matrix : result SparseMatrix :=
  if (exec_mode =? 1)%Z
  then ComputeDiscreteUpwindingMatrix upwind_source smap D0
  else Ok D0.

Definition du_dof (x : Vector) (k : Z) (st : ext * ext * Vector) (j : Z)
  : ext * ext * Vector :=
  let '(mx, mn, y) := st in
  let dofInd := dof k j in
  (emax mx (Fin (x dofInd)), emin mn (Fin (x dofInd)),
   vset y dofInd (y dofInd / lumpedM dofInd)).

Definition du_element (x : Vector) (st : low_order) (k : Z) : low_order :=
  let y1 := if OptScheme then lump_boundaries k x (y st) else y st in
  let '(mx, mn, y2) := fold_left (du_dof x k) (zrange nd) (MInf, PInf, y1) in
  {| y := y2; xe_min := aset (xe_min st) k mn; xe_max := aset (xe_max st) k mx;
     D := D st |}.

Definition LowOrder_DiscUpw (x : Vector) (xe_min0 xe_max0 : Z -> ext)
  : result low_order :=
  D' ← upwind_matrix;
  Ok (fold_left (du_element x) (zrange ne)
        {| y := fun i => Mult D' x i + b i;
           xe_min := xe_min0; xe_max := xe_max0; D := D' |}).

(** *** The residual distribution branch *)

Definition rd_stats_dof (x z : Vector) (k : Z) (s : elem_stats) (j : Z)
  : elem_stats :=
  let dofInd := dof k j in
  {| e_max := emax (e_max s) (Fin (x dofInd));
     e_min := emin (e_min s) (Fin (x dofInd));
     xSum := xSum s + x dofInd;
     rhoP := if OptScheme then rhoP s + Qmax 0 (z dofInd) else rhoP s;
     rhoN := if OptScheme then rhoN s + Qmin 0 (z dofInd) else rhoN s |}.

Definition rd_stats (x z : Vector) (k : Z) : elem_stats :=
  fold_left (rd_stats_dof x z k) (zrange nd)
    {| e_max := MInf; e_min := PInf; xSum := 0; rhoP := 0; rhoN := 0 |}.

Definition subcell_dof (x : Vector) (k m : Z) (s : subcell_stats) (i : Z)
  : subcell_stats :=
  let dofInd := dof k (Sub2Ind m i) in
  {| fluct := fluct s + SubcellWeights k m i * x dofInd;
     s_max := emax (s_max s) (Fin (x dofInd));
     s_min := emin (s_min s) (Fin (x dofInd));
     s_sum := s_sum s + x dofInd |}.

Definition subcell (x : Vector) (k m : Z) : subcell_stats :=
  fold_left (subcell_dof x k m) (zrange numDofsSubcell)
    {| fluct := 0; s_max := MInf; s_min := PInf; s_sum := 0 |}.

(** one pass of the first loop over the subcells *)
Definition subcell_pass (x : Vector) (k : Z) (sc : subcells) (m : Z)
  : option subcells :=
  let s := subcell x k m in
  match fin (s_max s), fin (s_min s) with
  | Some xmax, Some xmin =>
      Some {| xMaxSubcell := vset (xMaxSubcell sc) m xmax;
              xMinSubcell := vset (xMinSubcell sc) m xmin;
              sumWeightsSubcellP :=
                vset (sumWeightsSubcellP sc) m
                  (sumWeightsP_of numDofsSubcell xmax (s_sum s));
              sumWeightsSubcellN :=
                vset (sumWeightsSubcellN sc) m
                  (sumWeightsN_of numDofsSubcell xmin (s_sum s));
              fluctSubcellP := vset (fluctSubcellP sc) m (Qmax 0 (fluct s));
              fluctSubcellN := vset (fluctSubcellN sc) m (Qmin 0 (fluct s));
              sumFluctSubcellP := sumFluctSubcellP sc + Qmax 0 (fluct s);
              sumFluctSubcellN := sumFluctSubcellN sc + Qmin 0 (fluct s) |}
  | _, _ => None
  end.

Definition no_subcells : subcells :=
  {| xMaxSubcell := fun _ => 0; xMinSubcell := fun _ => 0;
     sumWeightsSubcellP := fun _ => 0; sumWeightsSubcellN := fun _ => 0;
     fluctSubcellP := fun _ => 0; fluctSubcellN := fun _ => 0;
     sumFluctSubcellP := 0; sumFluctSubcellN := 0 |}.

Definition subcell_loop (x : Vector) (k : Z) : option subcells :=
  ofold (subcell_pass x k) (zrange numSubcells) no_subcells.

(** the second loop over the subcells: the nodal correction terms,
    eq. (10) and (11) *)
Definition nodal_dof (x : Vector) (k : Z) (sc : subcells) (m : Z)
  (nw : Vector * Vector) (i : Z) : Vector * Vector :=
  let loc := Sub2Ind m i in
  let dofInd := dof k loc in
  (vset (fst nw) loc
     (fst nw loc
      + fluctSubcellP sc m
        * ((xMaxSubcell sc m - x dofInd) / sumWeightsSubcellP sc m)),
   vset (snd nw) loc
     (snd nw loc
      + fluctSubcellN sc m
        * ((xMinSubcell sc m - x dofInd) / sumWeightsSubcellN sc m))).

Definition nodal_loop (x : Vector) (k : Z) (sc : subcells) : Vector * Vector :=
  fold_left
    (fun nw m => fold_left (nodal_dof x k sc m) (zrange numDofsSubcell) nw)
    (zrange numSubcells) (fun _ => 0, fun _ => 0).

(** [weightP] and [weightN] of the dof [i] *)
Definition rd_weights (x : Vector) (k : Z) (xmax xmin : Q) (s : elem_stats)
  (sc : subcells) (nw : Vector * Vector) (i : Z) : Q * Q :=
  let dofInd := dof k i in
  let sumWeightsP := sumWeightsP_of nd xmax (xSum s) in
  let sumWeightsN := sumWeightsN_of nd xmin (xSum s) in
  let weightP := (xmax - x dofInd) / sumWeightsP in
  let weightN := (xmin - x dofInd) / sumWeightsN in
  if OptScheme then
    let aux := gamma / (rhoP s + eps) in
    let weightP := weightP * (1 - Qmin (aux * sumFluctSubcellP sc) 1) in
    let weightP :=
      weightP + Qmin aux (1 / (sumFluctSubcellP sc + eps)) * fst nw i in
    let aux := gamma / (rhoN s - eps) in
    let weightN := weightN * (1 - Qmin (aux * sumFluctSubcellN sc) 1) in
    let weightN :=
      weightN + Qmax aux (1 / (sumFluctSubcellN sc - eps)) * snd nw i in
    (weightP, weightN)
  else (weightP, weightN).

(** the loop over [j] that distributes the residuals to the dof [i] *)
Definition rd_distribute (z : Vector) (k : Z) (weightP weightN : Q)
  (dofInd : Z) (y : Vector) : Vector :=
  fold_left
    (fun y j =>
       let dofInd2 := dof k j in
       if Qltb eps (z dofInd2)
       then vset y dofInd (y dofInd + weightP * z dofInd2)
       else if Qltb (z dofInd2) (- eps)
            then vset y dofInd (y dofInd + weightN * z dofInd2)
            else y)
    (zrange nd) y.

Definition rd_dof (x z : Vector) (k : Z) (xmax xmin : Q) (s : elem_stats)
  (sc : subcells) (nw : Vector * Vector) (y : Vector) (i : Z) : Vector :=
  let dofInd := dof k i in
  let w := rd_weights x k xmax xmin s sc nw i in
  let y := rd_distribute z k (fst w) (snd w) dofInd y in
  vset y dofInd (y dofInd / lumpedM dofInd).

Definition rd_element (x z : Vector) (st : low_order) (k : Z)
  : option low_order :=
  let y1 := lump_boundaries k x (y st) in
  let s := rd_stats x z k in
  match fin (e_max s), fin (e_min s) with
  | Some xmax, Some xmin =>
      match (if OptScheme then subcell_loop x k else Some no_subcells) with
      | Some sc =>
          let nw := if OptScheme then nodal_loop x k sc
                    else (fun _ => 0, fun _ => 0) in
          Some {| y := fold_left (rd_dof x z k xmax xmin s sc nw)
                         (zrange nd) y1;
                  xe_min := aset (xe_min st) k (e_min s);
                  xe_max := aset (xe_max st) k (e_max s);
                  D := D st |}
      | None => None
      end
  | _, _ => None
  end.

(** [y = b; K.Mult(x, z);] and the loop over the elements *)
Definition LowOrder_ResDist (x : Vector) (xe_min0 xe_max0 : Z -> ext)
  : option low_order :=
  ofold (rd_element x (Mult K x)) (zrange ne)
    {| y := b; xe_min := xe_min0; xe_max := xe_max0; D := D0 |}.

Definition ComputeLowOrderSolution (x : Vector) (xe_min0 xe_max0 : Z -> ext)
  : outcome low_order :=
  if MONOTYPE_eqb MonoType DiscUpw || MONOTYPE_eqb MonoType DiscUpw_FCT
  then of_result (LowOrder_DiscUpw x xe_min0 xe_max0)
  else of_option (LowOrder_ResDist x xe_min0 xe_max0).

(** *** The denominators of the residual distribution *)

Lemma run_inv_denominators (vals : list Q) (mx mn : ext) (sm : Q) :
  vals <> [] -> run_inv vals mx mn sm ->
  exists M m, mx = Fin M /\ mn = Fin m
    /\ (forall v, In v vals -> m <= v <= M)
    /\ eps <= sumWeightsP_of (length vals) M sm
    /\ sumWeightsN_of (length vals) m sm <= - eps.
Proof.
  intros Hne Hrun. destruct vals as [|v0 vals]; [contradiction|].
  destruct Hrun as (M & m & HM & Hm & H1 & H2 & Hall).
  exists M, m. unfold sumWeightsP_of, sumWeightsN_of.
  repeat (split; [assumption|]). split; lra.
Qed.

Lemma zrange_values_nonempty {A : Type} (f : Z -> A) (n : nat) :
  (1 <= n)%nat -> map f (zrange n) <> [].
Proof. destruct n as [|n]; [lia|]. intros _. discriminate. Qed.

Lemma rd_stats_inv (x z : Vector) (k : Z) :
  let s := rd_stats x z k in
  run_inv (map (fun j => x (dof k j)) (zrange nd)) (e_max s) (e_min s) (xSum s)
  /\ 0 <= rhoP s /\ rhoN s <= 0.
Proof.
  cbv zeta. unfold rd_stats.
  apply (fold_left_prefix
           (fun pre s =>
              run_inv (map (fun j => x (dof k j)) pre)
                (e_max s) (e_min s) (xSum s)
              /\ 0 <= rhoP s /\ rhoN s <= 0)).
  - cbn. repeat split; try reflexivity; lra.
  - intros pre j s (Hrun & HP & HN). rewrite map_app. cbn [map].
    unfold rd_stats_dof. cbn [e_max e_min xSum rhoP rhoN].
    split; [now apply run_inv_step|].
    pose proof (Q.le_max_l 0 (z (dof k j))).
    pose proof (Q.le_min_l 0 (z (dof k j))).
    destruct OptScheme; split; lra.
Qed.

Lemma subcell_inv (x : Vector) (k m : Z) :
  let s := subcell x k m in
  run_inv (map (fun i => x (dof k (Sub2Ind m i))) (zrange numDofsSubcell))
    (s_max s) (s_min s) (s_sum s).
Proof.
  cbv zeta. unfold subcell.
  apply (fold_left_prefix
           (fun pre s =>
              run_inv (map (fun i => x (dof k (Sub2Ind m i))) pre)
                (s_max s) (s_min s) (s_sum s))).
  - cbn. repeat split; reflexivity.
  - intros pre i s Hrun. rewrite map_app. cbn [map].
    unfold subcell_dof. cbn [s_max s_min s_sum]. now apply run_inv_step.
Qed.

Lemma ofold_total {St A : Type} (P : list A -> St -> Prop)
  (f : St -> A -> option St) (l : list A) (s : St) :
  P [] s ->
  (forall pre a s, P pre s -> exists s', f s a = Some s' /\ P (pre ++ [a]) s') ->
  exists s', ofold f l s = Some s' /\ P l s'.
Proof.
  intros H0 Hstep.
  assert (H : forall l pre s, P pre s ->
            exists s', ofold f l s = Some s' /\ P (pre ++ l) s').
  { clear l s H0. induction l as [|a l IH]; intros pre s Hs; cbn [ofold].
    - exists s. rewrite app_nil_r. now split.
    - destruct (Hstep pre a s Hs) as (s1 & -> & Hs1).
      replace (pre ++ a :: l) with ((pre ++ [a]) ++ l)
        by (rewrite <- app_assoc; reflexivity).
      now apply IH. }
  apply (H l [] s H0).
Qed.

(** the subcell denominators and sums after the first loop over the subcells *)
Definition subcells_ok (ms : list Z) (sc : subcells) : Prop :=
  0 <= sumFluctSubcellP sc /\ sumFluctSubcellN sc <= 0
  /\ forall m, In m ms ->
       eps <= sumWeightsSubcellP sc m /\ sumWeightsSubcellN sc m <= - eps.

Lemma subcell_loop_ok (x : Vector) (k : Z) :
  (1 <= numDofsSubcell)%nat ->
  exists sc, subcell_loop x k = Some sc /\ subcells_ok (zrange numSubcells) sc.
Proof.
  intros Hn. unfold subcell_loop. apply ofold_total.
  - unfold subcells_ok. cbn [no_subcells sumFluctSubcellP sumFluctSubcellN].
    split; [lra|]. split; [lra|]. intros m [].
  - intros pre m sc (HP & HN & Hall).
    pose proof (subcell_inv x k m) as Hrun. cbv zeta in Hrun.
    apply run_inv_denominators in Hrun;
      [|now apply zrange_values_nonempty].
    destruct Hrun as (M & mn & HM & Hm & _ & HdP & HdN).
    rewrite length_map, FCT.length_zrange in HdP, HdN.
    unfold subcell_pass. cbv zeta. rewrite HM, Hm. cbn [fin].
    eexists. split; [reflexivity|].
    unfold subcells_ok.
    cbn [sumFluctSubcellP sumFluctSubcellN sumWeightsSubcellP
         sumWeightsSubcellN].
    pose proof (Q.le_max_l 0 (fluct (subcell x k m))).
    pose proof (Q.le_min_l 0 (fluct (subcell x k m))).
    split; [lra|]. split; [lra|].
    intros m' Hm'. unfold vset.
    destruct (Z.eqb_spec m' m) as [->|Hne]; [split; assumption|].
    apply Hall. apply in_app_or in Hm'.
    destruct Hm' as [Hm'|[Heq|[]]]; [exact Hm' | congruence].
Qed.

Lemma rd_element_total (x z : Vector) (st : low_order) (k : Z) :
  (1 <= nd)%nat -> (1 <= numDofsSubcell)%nat ->
  exists st', rd_element x z st k = Some st'.
Proof.
  intros Hnd Hsub. unfold rd_element. cbv zeta.
  destruct (rd_stats_inv x z k) as (Hrun & _ & _).
  apply run_inv_denominators in Hrun; [|now apply zrange_values_nonempty].
  destruct Hrun as (M & m & -> & -> & _). cbn [fin].
  destruct OptScheme.
  - destruct (subcell_loop_ok x k Hsub) as (sc & -> & _). now eexists.
  - now eexists.
Qed.

Lemma LowOrder_ResDist_total (x : Vector) (xe_min0 xe_max0 : Z -> ext) :
  (1 <= nd)%nat -> (1 <= numDofsSubcell)%nat ->
  exists r, LowOrder_ResDist x xe_min0 xe_max0 = Some r.
Proof.
  intros Hnd Hsub. unfold LowOrder_ResDist.
  destruct (ofold_total (fun _ _ => True) (rd_element x (Mult K x))
              (zrange ne)
              {| y := b; xe_min := xe_min0; xe_max := xe_max0; D := D0 |}
              Logic.I)
    as (r & Hr & _).
  - intros pre k st _.
    destruct (rd_element_total x (Mult K x) st k Hnd Hsub) as (st' & Hst').
    exists st'. now split.
  - now exists r.
Qed.

(** *** A uniform state on a mesh without exterior slots *)

(** the number of dofs *)
Definition ndofs : Z := (Z.of_nat ne * Z.of_nat nd)%Z.

(** the rate vanishes on the dofs of the mesh *)
Definition zero_rate (y : Vector) : Prop :=
  forall d, (0 <= d < ndofs)%Z -> y d == 0.

(** every boundary dof is a dof of the element, and every boundary slot has
    a neighbour dof in the mesh: no slot is exterior *)
Definition BdrDofs_in_range : Prop :=
  forall i j, (0 <= i < Z.of_nat numBdrs)%Z -> (0 <= j < Z.of_nat numDofs)%Z ->
    (0 <= BdrDofs j i < Z.of_nat nd)%Z.

Definition no_exterior_slot : Prop :=
  forall k i j, (0 <= k < Z.of_nat ne)%Z -> (0 <= i < Z.of_nat numBdrs)%Z ->
    (0 <= j < Z.of_nat numDofs)%Z -> (0 <= NbrDof k i j < ndofs)%Z.

Lemma dof_in_range (k j : Z) :
  (0 <= k < Z.of_nat ne)%Z -> (0 <= j < Z.of_nat nd)%Z ->
  (0 <= dof k j < ndofs)%Z.
Proof. unfold ndofs. intros Hk Hj. nia. Qed.

Section Uniform.

Variable x : Vector.
Variable c : Q.
Hypothesis Hx : forall d, (0 <= d < ndofs)%Z -> x d == c.
Hypothesis HBdr : BdrDofs_in_range.
Hypothesis HNbr : no_exterior_slot.

Lemma xDiff_zero (k i j : Z) :
  (0 <= k < Z.of_nat ne)%Z -> (0 <= i < Z.of_nat numBdrs)%Z ->
  (0 <= j < Z.of_nat numDofs)%Z -> xDiff k i x j == 0.
Proof.
  intros Hk Hi Hj. unfold xDiff. cbv zeta.
  pose proof (HNbr k i j Hk Hi Hj) as Hn.
  destruct (Z.ltb_spec (NbrDof k i j) 0); [lia|].
  rewrite (Hx (NbrDof k i j) Hn).
  rewrite (Hx (dof k (BdrDofs j i)))
    by (apply dof_in_range; [exact Hk | now apply HBdr]).
  lra.
Qed.

Lemma LinearFluxLumping_same (k i : Z) (y0 : Vector) :
  (0 <= k < Z.of_nat ne)%Z -> (0 <= i < Z.of_nat numBdrs)%Z ->
  forall d, LinearFluxLumping k i x y0 alpha0 d == y0 d.
Proof.
  intros Hk Hi. unfold LinearFluxLumping.
  apply (Assembly.fold_left_invariant (fun y => forall d, y d == y0 d));
    [reflexivity|].
  intros y1 i0 Hi0 Hy1. cbv zeta.
  apply (Assembly.fold_left_invariant (fun y => forall d, y d == y0 d));
    [exact Hy1|].
  intros y2 j0 Hj0 Hy2 d. unfold vset.
  destruct (Z.eqb_spec d (dof k (BdrDofs i0 i))) as [->|_]; [|apply Hy2].
  apply in_zrange in Hi0.
  pose proof (xDiff_zero k i i0 Hk Hi Hi0) as E.
  pose proof (Hy2 (dof k (BdrDofs i0 i))) as E2.
  unfold alpha0.
  set (Xi := xDiff k i x i0) in *. set (Xj := xDiff k i x j0) in *.
  set (B := bdrInt k i (i0 * Z.of_nat numDofs + j0)%Z).
  rewrite E2, E. ring.
Qed.

Lemma lump_boundaries_same (k : Z) (y0 : Vector) :
  (0 <= k < Z.of_nat ne)%Z -> forall d, lump_boundaries k x y0 d == y0 d.
Proof.
  intros Hk. unfold lump_boundaries.
  apply (Assembly.fold_left_invariant (fun y => forall d, y d == y0 d));
    [reflexivity|].
  intros y1 i Hi Hy1 d. apply in_zrange in Hi.
  rewrite (LinearFluxLumping_same k i y1 Hk Hi d). apply Hy1.
Qed.

Lemma divide_zero (y0 : Vector) (d0 : Z) :
  zero_rate y0 -> zero_rate (vset y0 d0 (y0 d0 / lumpedM d0)).
Proof.
  intros Hy d Hd. unfold vset.
  destruct (Z.eqb_spec d d0) as [->|_]; [|now apply Hy].
  unfold Qdiv. rewrite (Hy d0 Hd). ring.
Qed.

(** the discrete upwinding branch *)

Lemma du_dofs_zero (k : Z) (l : list Z) (st : ext * ext * Vector) :
  zero_rate (snd st) -> zero_rate (snd (fold_left (du_dof x k) l st)).
Proof.
  intros Hst.
  apply (Assembly.fold_left_invariant
           (fun st : ext * ext * Vector => zero_rate (snd st))); [exact Hst|].
  intros [[mx mn] y1] j _ Hy. cbn [du_dof snd] in *. now apply divide_zero.
Qed.

Lemma du_element_zero (st : low_order) (k : Z) :
  (0 <= k < Z.of_nat ne)%Z ->
  zero_rate (y st) -> zero_rate (y (du_element x st k)).
Proof.
  intros Hk Hy. unfold du_element. cbv zeta.
  set (y1 := if OptScheme then lump_boundaries k x (y st) else y st).
  assert (Hy1 : zero_rate y1).
  { unfold y1. destruct OptScheme; [|exact Hy].
    intros d Hd. rewrite (lump_boundaries_same k (y st) Hk d). now apply Hy. }
  pose proof (du_dofs_zero k (zrange nd) (MInf, PInf, y1) Hy1) as H.
  destruct (fold_left (du_dof x k) (zrange nd) (MInf, PInf, y1))
    as [[mx mn] y2]. exact H.
Qed.

Lemma LowOrder_DiscUpw_zero (xe_min0 xe_max0 : Z -> ext) (D' : SparseMatrix) :
  upwind_matrix = Ok D' ->
  Upwinding.annihilates_constants D' ndofs ->
  zero_rate b ->
  exists r, LowOrder_DiscUpw x xe_min0 xe_max0 = Ok r /\ zero_rate (y r).
Proof.
  intros HD Hann Hb. unfold LowOrder_DiscUpw. rewrite HD.
  cbn [mbind result_bind]. eexists. split; [reflexivity|].
  apply (Assembly.fold_left_invariant (fun st => zero_rate (y st))).
  - intros d Hd. cbn [y]. rewrite (Hann x c Hx d Hd), (Hb d Hd). lra.
  - intros st k Hk Hst. apply in_zrange in Hk. now apply du_element_zero.
Qed.

(** the residual distribution branch *)

Lemma rd_distribute_same (z : Vector) (k : Z) (wP wN : Q) (d : Z) (y0 : Vector) :
  (0 <= k < Z.of_nat ne)%Z -> zero_rate z ->
  rd_distribute z k wP wN d y0 = y0.
Proof.
  intros Hk Hz. unfold rd_distribute.
  apply (Assembly.fold_left_invariant (fun y => y = y0)); [reflexivity|].
  intros y1 j Hj ->. apply in_zrange in Hj. cbv zeta.
  pose proof (Hz (dof k j) (dof_in_range k j Hk Hj)) as E.
  pose proof eps_pos as He.
  destruct (Qltb eps (z (dof k j))) eqn:E1; [apply Qltb_lt in E1; lra|].
  destruct (Qltb (z (dof k j)) (- eps)) eqn:E2; [apply Qltb_lt in E2; lra|].
  reflexivity.
Qed.

Lemma rd_element_zero (z : Vector) (st : low_order) (k : Z) :
  (1 <= nd)%nat -> (1 <= numDofsSubcell)%nat ->
  (0 <= k < Z.of_nat ne)%Z -> zero_rate z -> zero_rate (y st) ->
  exists st', rd_element x z st k = Some st' /\ zero_rate (y st').
Proof.
  intros Hnd Hsub Hk Hz Hy. unfold rd_element. cbv zeta.
  destruct (rd_stats_inv x z k) as (Hrun & _ & _).
  apply run_inv_denominators in Hrun; [|now apply zrange_values_nonempty].
  destruct Hrun as (M & m & -> & -> & _). cbn [fin].
  assert (Hsc : exists sc,
            (if OptScheme then subcell_loop x k else Some no_subcells)
            = Some sc).
  { destruct OptScheme; [|now eexists].
    destruct (subcell_loop_ok x k Hsub) as (sc & -> & _). now eexists. }
  destruct Hsc as (sc & ->). eexists. split; [reflexivity|]. cbn [y].
  apply (Assembly.fold_left_invariant zero_rate).
  - intros d Hd. rewrite (lump_boundaries_same k (y st) Hk d). now apply Hy.
  - intros y1 i _ Hy1. unfold rd_dof. cbv zeta.
    rewrite rd_distribute_same by assumption. now apply divide_zero.
Qed.

Lemma LowOrder_ResDist_zero (xe_min0 xe_max0 : Z -> ext) :
  (1 <= nd)%nat -> (1 <= numDofsSubcell)%nat ->
  Upwinding.annihilates_constants K ndofs ->
  zero_rate b ->
  exists r, LowOrder_ResDist x xe_min0 xe_max0 = Some r /\ zero_rate (y r).
Proof.
  intros Hnd Hsub Hann Hb. unfold LowOrder_ResDist.
  assert (Hz : zero_rate (Mult K x)) by (intros d Hd; now apply (Hann x c)).
  destruct (ofold_total
              (fun pre st => (forall k, In k pre -> In k (zrange ne))
                             -> zero_rate (y st))
              (rd_element x (Mult K x)) (zrange ne)
              {| y := b; xe_min := xe_min0; xe_max := xe_max0; D := D0 |})
    as (r & Hr & HP).
  - intros _. exact Hb.
  - intros pre k st Hst.
    destruct (in_dec Z.eq_dec k (zrange ne)) as [Hin|Hnin].
    + destruct (rd_element_total x (Mult K x) st k Hnd Hsub) as (st' & Hst').
      exists st'. split; [exact Hst'|]. intros Hpre.
      assert (Hy : zero_rate (y st)).
      { apply Hst. intros k' Hk'. apply Hpre. apply in_or_app. now left. }
      apply in_zrange in Hin.
      destruct (rd_element_zero (Mult K x) st k Hnd Hsub Hin Hz Hy)
        as (st2 & Hst2 & Hy2).
      rewrite Hst' in Hst2. injection Hst2 as <-. exact Hy2.
    + destruct (rd_element_total x (Mult K x) st k Hnd Hsub) as (st' & Hst').
      exists st'. split; [exact Hst'|]. intros Hpre. exfalso.
      apply Hnin, Hpre, in_or_app. right. now left.
  - exists r. split; [exact Hr|]. apply HP. auto.
Qed.

End Uniform.

Definition is_DiscUpw : bool :=
  MONOTYPE_eqb MonoType DiscUpw || MONOTYPE_eqb MonoType DiscUpw_FCT.

(** a finalized matrix on the dofs of the mesh whose rows sum to zero *)
Definition zero_row_sums (M : SparseMatrix) : Prop :=
  Size M = (ne * nd)%nat
  /\ SparseFacts.finalized M
  /\ forall i, (0 <= i < Z.of_nat (Size M))%Z -> Upwinding.row_sum M i == 0.

(** [lom.smap] and [lom.D] are what [main] prepared: the offset map of the
    upwinding source and, in transport mode, its upwinded matrix (in remap
    mode the call computes it itself). *)
Definition lom_prepared : Prop :=
  SparseFacts.diag_stored upwind_source
  /\ (exists smap0, SparseMatrix_Build_smap upwind_source smap0 = Ok smap)
  /\ ((exec_mode = 1%Z /\ Upwinding.same_pattern upwind_source D0)
      \/ (exec_mode <> 1%Z
          /\ exists Din, Upwinding.same_pattern upwind_source Din
               /\ ComputeDiscreteUpwindingMatrix upwind_source smap Din
                  = Ok D0)).

(** C9 (as amended). On a mesh without exterior boundary slots (a periodic
    mesh), for a uniform state, zero boundary load and a matrix with zero
    row sums, the low-order rate is zero on every dof, in the discrete
    upwinding branch and in the residual distribution branch. *)
Theorem uniform_state_fixed_point (x : Vector) (c : Q)
  (xe_min0 xe_max0 : Z -> ext) :
  (1 <= nd)%nat -> (1 <= numDofsSubcell)%nat ->
  (forall d, (0 <= d < ndofs)%Z -> x d == c) ->
  zero_rate b ->
  BdrDofs_in_range ->
  no_exterior_slot ->
  (is_DiscUpw = false -> zero_row_sums K) ->
  (is_DiscUpw = true -> zero_row_sums upwind_source /\ lom_prepared) ->
  exists r, ComputeLowOrderSolution x xe_min0 xe_max0 = Value r
            /\ zero_rate (y r).
Proof.
  intros Hnd Hsub Hx Hb HBdr HNbr HRD HDU.
  unfold ComputeLowOrderSolution. fold is_DiscUpw.
  destruct is_DiscUpw.
  - destruct (HDU eq_refl)
      as ((HS & Hfin & Hzero) & Hdiag & (smap0 & Hsmap) & HD).
    pose proof (SparseFacts.Build_smap_symmetric upwind_source Hfin smap0 smap
                  Hsmap) as Hsym.
    assert (Hn : Z.of_nat (Size upwind_source) = ndofs)
      by (rewrite HS; unfold ndofs; lia).
    assert (HD' : exists D', upwind_matrix = Ok D'
                    /\ Upwinding.annihilates_constants D' ndofs).
    { unfold upwind_matrix. rewrite <- Hn.
      destruct HD as [(Hmode & Hpat)|(Hmode & Din & Hpat & HDin)].
      - rewrite Hmode. cbn [Z.eqb Pos.eqb].
        apply (Upwinding.upwind_annihilates upwind_source D0 smap
                 Hfin Hsym Hdiag Hpat Hzero).
      - destruct (Z.eqb_spec exec_mode 1) as [|_]; [contradiction|].
        destruct (Upwinding.upwind_annihilates upwind_source Din smap
                    Hfin Hsym Hdiag Hpat Hzero) as (D' & HD' & Hann).
        rewrite HDin in HD'. injection HD' as <-.
        exists D0. now split. }
    destruct HD' as (D' & HD' & Hann).
    destruct (LowOrder_DiscUpw_zero x c Hx HBdr HNbr xe_min0 xe_max0 D'
                HD' Hann Hb) as (r & Hr & Hy).
    exists r. rewrite Hr. now split.
  - destruct (HRD eq_refl) as (HS & Hfin & Hzero).
    assert (Hn : Z.of_nat (Size K) = ndofs)
      by (rewrite HS; unfold ndofs; lia).
    pose proof (Upwinding.zero_rows_annihilate K Hfin Hzero) as Hann.
    rewrite Hn in Hann.
    destruct (LowOrder_ResDist_zero x c Hx HBdr HNbr xe_min0 xe_max0
                Hnd Hsub Hann Hb) as (r & Hr & Hy).
    exists r. rewrite Hr. now split.
Qed.

End Evaluate.

(** *** The two-element segment, linear elements, unit velocity *)

(** the advection matrix of the constant velocity 1:
    [[ 1/2 -1/2 ] [ 1/2 -1/2 ]] on each element *)
Definition K_segment : SparseMatrix :=
  csr_of_rows [[(0%Z, 1 # 2); (1%Z, - (1 # 2))];
               [(0%Z, 1 # 2); (1%Z, - (1 # 2))];
               [(2%Z, 1 # 2); (3%Z, - (1 # 2))];
               [(2%Z, 1 # 2); (3%Z, - (1 # 2))]].

Definition D_segment : SparseMatrix :=
  match ComputeDiscreteUpwindingMatrix K_segment
          (Upwinding.smap_of K_segment) K_segment with
  | Ok D' => D'
  | Fatal _ => K_segment
  end.

(** the same two elements closed to a ring: both vertices are shared *)
Definition periodic2 : Mesh := {|
  Dimension := 1;
  GetNE := 2;
  GetElementVertices := fun el => if (el =? 0)%Z then [0; 1]%Z else [1; 0]%Z;
  GetElementEdges := fun _ => [];
  GetElementFaces := fun _ => [];
  GetFaceElementTransformations := fun _ => {| Elem1No := 0; Elem2No := 1 |}
|}.

Definition NbrDof_of (mesh : Mesh) : Z -> Z -> Z -> Z :=
  DofInfo.FillNeighborDofs mesh (VertexBounds.BdrDofs_segment 1) 2 1 2 1
    (fun _ _ _ => 0%Z).

Definition bdrInt_segment : DTensor :=
  Assembly.Assembly_bdrInt 0 (VertexBounds.BdrDofs_segment 1) 2 2 1
    (Assembly.segment_points 1) ResDist false.

(** the low-order update of the uniform state [x = [1,1,1,1]] with zero
    boundary load *)
Definition segment_low_order (MonoType : MONOTYPE) (OptScheme : bool)
  (mesh : Mesh) : outcome low_order :=
  ComputeLowOrderSolution 0 MonoType OptScheme 2 2 2 1 1 2
    (VertexBounds.BdrDofs_segment 1) (NbrDof_of mesh)
    (fun m j => (m + j)%Z) bdrInt_segment (fun _ _ _ => 0)
    K_segment K_segment (Upwinding.smap_of K_segment) D_segment
    (fun _ => 1 # 4) (fun _ => 0) (fun _ => 1)
    (fun _ => PInf) (fun _ => MInf).

Example periodic_rates :
  match segment_low_order ResDist false periodic2 with
  | Value r => map (y r) [0; 1; 2; 3]%Z
  | _ => []
  end = [0; 0; 0; 0].
Proof. vm_compute. reflexivity. Qed.

Example inflow_rates :
  match segment_low_order ResDist false VertexBounds.segment2 with
  | Value r => map (y r) [0; 1; 2; 3]%Z
  | _ => []
  end = [- (4); 0; 0; 0].
Proof. vm_compute. reflexivity. Qed.

(** C9 as stated fails: on the two-element segment with exterior ends the
    left end is an inflow boundary, and the low-order rate of the uniform
    state at the first dof is [-4]. *)
Lemma uniform_state_inflow_counterexample :
  exists r, segment_low_order ResDist false VertexBounds.segment2 = Value r
            /\ ~ (y r 0%Z == 0).
Proof.
  eexists. split; [reflexivity|]. vm_compute. discriminate.
Qed.

Lemma segment_BdrDofs_in_range :
  BdrDofs_in_range 2 2 1 (VertexBounds.BdrDofs_segment 1).
Proof.
  intros i j Hi Hj. unfold VertexBounds.BdrDofs_segment.
  destruct (i =? 0)%Z; lia.
Qed.

Lemma periodic2_no_exterior_slot :
  no_exterior_slot 2 2 2 1 (NbrDof_of periodic2).
Proof.
  intros k i j Hk Hi Hj.
  assert (Hk' : k = 0%Z \/ k = 1%Z) by lia.
  assert (Hi' : i = 0%Z \/ i = 1%Z) by lia.
  assert (j = 0%Z) by lia. subst j.
  destruct Hk' as [-> | ->], Hi' as [-> | ->];
    (split; [apply Z.leb_le | apply Z.ltb_lt]); vm_compute; reflexivity.
Qed.

Lemma K_segment_zero_row_sums : zero_row_sums 2 2 K_segment.
Proof.
  split; [reflexivity|]. split.
  - apply Upwinding.finalizedb_sound. vm_compute. reflexivity.
  - intros i Hi. change (Z.of_nat (Size K_segment)) with 4%Z in Hi.
    assert (Hi' : i = 0%Z \/ i = 1%Z \/ i = 2%Z \/ i = 3%Z) by lia.
    destruct Hi' as [-> | [-> | [-> | ->]]]; vm_compute; reflexivity.
Qed.

Lemma segment_lom_prepared :
  lom_prepared 0 true K_segment K_segment (Upwinding.smap_of K_segment)
    D_segment.
Proof.
  unfold lom_prepared, upwind_source. split; [|split].
  - apply Upwinding.diag_storedb_sound. vm_compute. reflexivity.
  - exists (fun _ => 0%Z). vm_compute. reflexivity.
  - right. split; [lia|]. exists K_segment.
    split; [apply Upwinding.same_pattern_refl | vm_compute; reflexivity].
Qed.

Lemma uniform_state_fixed_point_witness :
  (exists r, segment_low_order ResDist false periodic2 = Value r
             /\ zero_rate 2 2 (y r))
  /\ (exists r, segment_low_order DiscUpw true periodic2 = Value r
                /\ zero_rate 2 2 (y r)).
Proof.
  split; unfold segment_low_order;
    apply (uniform_state_fixed_point _ _ _ _ _ _ _ _ _ _ _ _ _ _ _ _ _ _ _ _
             (fun _ => 1) 1).
  - lia.
  - lia.
  - intros d _. reflexivity.
  - intros d _. reflexivity.
  - exact segment_BdrDofs_in_range.
  - exact periodic2_no_exterior_slot.
  - intros _. exact K_segment_zero_row_sums.
  - intros H. discriminate H.
  - lia.
  - lia.
  - intros d _. reflexivity.
  - intros d _. reflexivity.
  - exact segment_BdrDofs_in_range.
  - exact periodic2_no_exterior_slot.
  - intros H. discriminate H.
  - intros _. split; [exact K_segment_zero_row_sums|].
    exact segment_lom_prepared.
Defined.

(** a state that is not uniform, for the residual distribution with
    subcells *)
Definition ramp_x : Vector := FCT.vector_of [1; 2; 4; 3].

Example ramp_denominators :
  let s := rd_stats true 2 ramp_x (Mult K_segment ramp_x) 1 in
  e_max s = Fin 4 /\ e_min s = Fin 3
  /\ sumWeightsP_of 2 4 (xSum s) == 1 + eps
  /\ sumWeightsN_of 2 3 (xSum s) == - (1) - eps.
Proof. cbv zeta. repeat split; vm_compute; reflexivity. Qed.

End LowOrder.

(** * Further properties of the code

    The offset map and the upwinding matrix, the common-neighbour lookup, the
    contributor map, the neighbour-dof and subcell tables, the face-flux
    stencil and its lumping, the mass solve, the low-order, high-order and
    flux-corrected updates, the evolution operator, and the parameter check
    of [main]. *)

(** ** More on the symmetric offset map *)

Module SmapFacts.
Import Sparse SparseFacts.

(** The sparsity pattern is symmetric: with [(i, j)] the matrix stores
    [(j, i)]. *)
Definition symmetric_pattern (M : SparseMatrix) : Prop :=
  forall i k, (0 <= i < Z.of_nat (Size M))%Z -> in_row M i k ->
    exists k', in_row M (J M k) k' /\ J M k' = i.

Definition symmetric_patternb (M : SparseMatrix) : bool :=
  forallb (fun i =>
    forallb (fun k =>
      existsb (fun k' => (J M k' =? i)%Z)
        (positions (I M (J M k)) (I M (J M k + 1)%Z)))
      (positions (I M i) (I M (i + 1)%Z)))
    (zrange (Size M)).

Lemma symmetric_patternb_sound M :
  symmetric_patternb M = true -> symmetric_pattern M.
Proof.
  unfold symmetric_patternb. rewrite forallb_forall. intros H i k Hi Hk.
  specialize (H i (proj2 (in_zrange _ _) Hi)). rewrite forallb_forall in H.
  specialize (H k (proj2 (in_positions _ _ _) Hk)).
  apply existsb_exists in H. destruct H as (k' & Hk' & Hj).
  exists k'. split; [now apply in_positions | now apply Z.eqb_eq].
Qed.

Lemma find_sym_total (Jp : Z -> Z) (row : Z) (cands : list Z) (k' : Z) :
  In k' cands -> Jp k' = row -> exists _j, find_sym Jp row cands = Ok _j.
Proof.
  induction cands as [|c cands IH]; intros Hin Hj; [destruct Hin|].
  cbn [find_sym]. destruct (Z.eqb_spec (Jp c) row) as [_|Hne].
  - now exists c.
  - destruct Hin as [->|Hin]; [contradiction | now apply IH].
Qed.

Lemma smap_row_total (M : SparseMatrix) (row : Z) (js : list Z)
  (smap : Z -> Z) :
  (forall q, In q js -> exists k', in_row M (J M q) k' /\ J M k' = row) ->
  exists smap', smap_row M row js smap = Ok smap'.
Proof.
  revert smap. induction js as [|j js IH]; intros smap H; cbn [smap_row].
  - now exists smap.
  - cbv zeta. destruct (H j (or_introl eq_refl)) as (k' & Hk' & Hj).
    destruct (find_sym_total (J M) row
                (positions (I M (J M j)) (I M (J M j + 1))) k') as (_j & ->);
      [now apply in_positions | exact Hj |].
    cbn [mbind result_bind]. apply IH. intros q Hq. apply H. now right.
Qed.

(** Every fatal error of the construction carries the same message. *)
Lemma find_sym_message (Jp : Z -> Z) (row : Z) (cands : list Z) (msg : string) :
  find_sym Jp row cands = Fatal msg -> msg = "SparseMatrix_Build_smap"%string.
Proof.
  induction cands as [|c cands IH]; cbn [find_sym].
  - unfold mfem_error. now intros [= <-].
  - destruct (Jp c =? row)%Z; [discriminate | exact IH].
Qed.

Lemma smap_row_message (M : SparseMatrix) (row : Z) (js : list Z)
  (smap : Z -> Z) (msg : string) :
  smap_row M row js smap = Fatal msg -> msg = "SparseMatrix_Build_smap"%string.
Proof.
  revert smap. induction js as [|j js IH]; intros smap; cbn [smap_row];
    [discriminate|].
  cbv zeta. destruct (find_sym (J M) row _) as [_j|msg'] eqn:E;
    cbn [mbind result_bind].
  - apply IH.
  - intros [= <-]. now apply find_sym_message in E.
Qed.

Lemma Build_smap_message (M : SparseMatrix) (smap0 : Z -> Z) (msg : string) :
  SparseMatrix_Build_smap M smap0 = Fatal msg ->
  msg = "SparseMatrix_Build_smap"%string.
Proof.
  unfold SparseMatrix_Build_smap. generalize 0%Z as k. revert smap0.
  induction (zrange (Size M)) as [|r rows IH]; intros smap0 k; cbn [walk];
    [discriminate|].
  cbv zeta. destruct (smap_row M r _ smap0) as [s|msg'] eqn:E;
    cbn [mbind result_bind].
  - apply IH.
  - intros [= <-]. now apply smap_row_message in E.
Qed.

(** X1. For a finalized matrix with a symmetric sparsity pattern
    [SparseMatrix_Build_smap] succeeds; [smap[k]] is the offset of the
    transposed entry, the map is an involution on the stored offsets, and it
    fixes the offsets of the diagonal entries. *)
Theorem Build_smap_involution (M : SparseMatrix) (smap0 : Z -> Z) :
  finalized M -> symmetric_pattern M ->
  exists smap, SparseMatrix_Build_smap M smap0 = Ok smap
    /\ forall i k, (0 <= i < Z.of_nat (Size M))%Z -> in_row M i k ->
         in_row M (J M k) (smap k) /\ J M (smap k) = i
         /\ smap (smap k) = k
         /\ (J M k = i -> smap k = k).
Proof.
  intros Hfin Hpat.
  destruct (walk_total M Hfin (fun _ _ => True) (smap_row M) smap0 Logic.I)
    as (smap & Hrun & _).
  { intros r s Hr _.
    destruct (smap_row_total M r (positions (I M r) (I M (r + 1))) s)
      as (s' & Hs').
    - intros q Hq. apply in_positions in Hq. now apply (Hpat r).
    - exists s'. now split. }
  exists smap. split; [exact Hrun|].
  pose proof (Build_smap_symmetric M Hfin smap0 smap Hrun) as Hsym.
  intros i k Hi Hk. destruct (Hsym i k Hi Hk) as [Hrow Hcol].
  split; [exact Hrow|]. split; [exact Hcol|]. split.
  - apply (smap_involutive M Hfin smap Hsym i k Hi Hk).
  - intros Hj. apply (smap_diag M Hfin smap Hsym i k Hi Hk Hj).
Qed.

Lemma Build_smap_involution_witness :
  exists smap, SparseMatrix_Build_smap Upwinding.K_neg (fun _ => 0%Z) = Ok smap
    /\ smap (smap 1%Z) = 1%Z.
Proof.
  destruct (Build_smap_involution Upwinding.K_neg (fun _ => 0%Z))
    as (smap & Hrun & Hall).
  - apply Upwinding.finalizedb_sound. vm_compute. reflexivity.
  - apply symmetric_patternb_sound. vm_compute. reflexivity.
  - exists smap. split; [exact Hrun|].
    destruct (Hall 0%Z 1%Z) as (_ & _ & Hinv & _).
    + vm_compute. split; [discriminate | reflexivity].
    + unfold in_row. split; [vm_compute; discriminate | vm_compute; reflexivity].
    + exact Hinv.
Defined.

(** [[ 1  2 ]
     [ .  4 ]]: the entry [(0, 1)] is stored, [(1, 0)] is not *)
Definition K_upper : SparseMatrix :=
  csr_of_rows [[(0%Z, 1); (1%Z, 2)]; [(1%Z, 4)]].

(** X2. When a finalized matrix stores an entry [(i, j)] without storing
    [(j, i)], [SparseMatrix_Build_smap] ends in the fatal error
    "SparseMatrix_Build_smap". *)
Theorem Build_smap_fatal (M : SparseMatrix) (smap0 : Z -> Z) (i k : Z) :
  finalized M ->
  (0 <= i < Z.of_nat (Size M))%Z -> in_row M i k ->
  (forall k', in_row M (J M k) k' -> J M k' <> i) ->
  SparseMatrix_Build_smap M smap0 = Fatal "SparseMatrix_Build_smap".
Proof.
  intros Hfin Hi Hk Hmiss.
  destruct (SparseMatrix_Build_smap M smap0) as [smap|msg] eqn:E.
  - exfalso.
    destruct (Build_smap_symmetric M Hfin smap0 smap E i k Hi Hk) as [Hrow Hcol].
    exact (Hmiss (smap k) Hrow Hcol).
  - f_equal. exact (Build_smap_message M smap0 msg E).
Qed.

Lemma Build_smap_fatal_witness :
  SparseMatrix_Build_smap K_upper (fun _ => 0%Z)
  = Fatal "SparseMatrix_Build_smap".
Proof.
  apply (Build_smap_fatal K_upper (fun _ => 0%Z) 0%Z 1%Z).
  - apply Upwinding.finalizedb_sound. vm_compute. reflexivity.
  - vm_compute. split; [discriminate | reflexivity].
  - unfold in_row. split; [vm_compute; discriminate | vm_compute; reflexivity].
  - intros k' [H1 H2].
    change (J K_upper 1%Z) with 1%Z in H1, H2.
    change (I K_upper 1%Z) with 2%Z in H1.
    change (I K_upper (1 + 1)%Z) with 3%Z in H2.
    assert (k' = 2%Z) by lia. subst k'. vm_compute. discriminate.
Defined.

End SmapFacts.

(** ** More on the discrete upwinding matrix *)

Module UpwindingFacts.
Import Sparse SparseFacts Upwinding.

(** X3. The artificial diffusion that [ComputeDiscreteUpwindingMatrix] adds
    is symmetric and non-negative off the diagonal: for a stored
    off-diagonal entry [(i, j)], [D_ij - K_ij = D_ji - K_ji >= 0]. *)
Theorem upwind_diffusion_symmetric (K D : SparseMatrix) (smap : Z -> Z) :
  finalized K -> symmetric_map K smap -> diag_stored K -> same_pattern K D ->
  exists D', ComputeDiscreteUpwindingMatrix K smap D = Ok D'
    /\ forall i j k, (0 <= i < Z.of_nat (Size K))%Z ->
         stored_at K i j k -> j <> i ->
         stored_at K j i (smap k)
         /\ A D' k - A K k == A D' (smap k) - A K (smap k)
         /\ 0 <= A D' k - A K k.
Proof.
  intros Hfin Hsym Hdiag Hpat.
  destruct (upwind_walk K D smap Hfin Hsym Hdiag Hpat) as (Dp & Hwalk & Hdone).
  unfold ComputeDiscreteUpwindingMatrix. rewrite Hwalk.
  cbn [mbind result_bind]. eexists. split; [reflexivity|].
  destruct Hdone as [Hoff _]. cbn [A].
  intros i j k Hi [Hk Hj] Hne. subst j.
  destruct (Hsym i k Hi Hk) as [Hsrow Hscol].
  pose proof (fin_cols K Hfin i k Hi Hk) as Hjr.
  split; [split; assumption|].
  assert (Hv : Dp k == A K k + dij K smap k).
  { apply (Hoff i k Hi Hk Hne). left.
    pose proof (row_in_range K Hfin i k Hi Hk). lia. }
  assert (Hv' : Dp (smap k) == A K (smap k) + dij K smap (smap k)).
  { apply (Hoff (J K k) (smap k) Hjr Hsrow); [congruence|]. left.
    pose proof (row_in_range K Hfin (J K k) (smap k) Hjr Hsrow). lia. }
  rewrite (dij_sym K smap Hfin Hsym i k Hi Hk) in Hv'.
  assert (Hd : 0 <= dij K smap k) by (unfold dij; qminmax; lra).
  split; lra.
Qed.

Lemma smap_of_symmetric (M : SparseMatrix) (smap : Z -> Z) :
  finalized M -> SparseMatrix_Build_smap M (fun _ => 0%Z) = Ok smap ->
  symmetric_map M (smap_of M).
Proof.
  intros Hfin H. unfold smap_of. rewrite H.
  exact (Build_smap_symmetric M Hfin (fun _ => 0%Z) smap H).
Qed.

Lemma K_neg_finalized : finalized K_neg.
Proof. apply finalizedb_sound. vm_compute. reflexivity. Qed.

Lemma K_pos_finalized : finalized K_pos.
Proof. apply finalizedb_sound. vm_compute. reflexivity. Qed.

Lemma upwind_diffusion_symmetric_witness :
  exists D', ComputeDiscreteUpwindingMatrix K_neg (smap_of K_neg) K_neg = Ok D'
    /\ A D' 1%Z - A K_neg 1%Z == A D' 2%Z - A K_neg 2%Z.
Proof.
  destruct (upwind_diffusion_symmetric K_neg K_neg (smap_of K_neg))
    as (D' & HD & Hall).
  - exact K_neg_finalized.
  - eapply smap_of_symmetric; [exact K_neg_finalized | vm_compute; reflexivity].
  - apply diag_storedb_sound. vm_compute. reflexivity.
  - apply same_pattern_refl.
  - exists D'. split; [exact HD|].
    destruct (Hall 0%Z 1%Z 1%Z) as (_ & H & _).
    + vm_compute. split; [discriminate | reflexivity].
    + split; [|reflexivity]. unfold in_row.
      split; [vm_compute; discriminate | vm_compute; reflexivity].
    + discriminate.
    + exact H.
Defined.

(** X4. A matrix whose stored off-diagonal entries are all non-negative is
    left as it is: every stored entry of the result equals the entry of
    [K]. *)
Theorem upwind_monotone_unchanged (K D : SparseMatrix) (smap : Z -> Z) :
  finalized K -> symmetric_map K smap -> diag_stored K -> same_pattern K D ->
  (forall i k, (0 <= i < Z.of_nat (Size K))%Z -> in_row K i k ->
     J K k <> i -> 0 <= A K k) ->
  exists D', ComputeDiscreteUpwindingMatrix K smap D = Ok D'
    /\ forall i k, (0 <= i < Z.of_nat (Size K))%Z -> in_row K i k ->
         A D' k == A K k.
Proof.
  intros Hfin Hsym Hdiag Hpat Hpos.
  destruct (upwind_walk K D smap Hfin Hsym Hdiag Hpat) as (Dp & Hwalk & Hdone).
  unfold ComputeDiscreteUpwindingMatrix. rewrite Hwalk.
  cbn [mbind result_bind]. eexists. split; [reflexivity|].
  destruct Hdone as [Hoff Hdg]. cbn [A].
  assert (Hd0 : forall i k, (0 <= i < Z.of_nat (Size K))%Z -> in_row K i k ->
            J K k <> i -> dij K smap k == 0).
  { intros i k Hi Hk Hne.
    destruct (Hsym i k Hi Hk) as [Hsrow Hscol].
    pose proof (fin_cols K Hfin i k Hi Hk) as Hjr.
    pose proof (Hpos i k Hi Hk Hne) as H1.
    assert (H2 : 0 <= A K (smap k))
      by (apply (Hpos (J K k) (smap k) Hjr Hsrow); congruence).
    unfold dij. qminmax; lra. }
  intros i k Hi Hk. destruct (Z.eq_dec (J K k) i) as [Heq|Hne].
  - rewrite (Hdg i k Hi Hk Heq).
    assert (H0 : off_diffusion K smap i == 0).
    { unfold off_diffusion. apply qsum_zero. intros q Hq.
      apply in_positions in Hq.
      destruct (Z.eqb_spec i (J K q)) as [_|Hq']; [reflexivity|].
      cbn [negb]. apply (Hd0 i q Hi Hq). congruence. }
    rewrite H0. lra.
  - rewrite (Hoff i k Hi Hk Hne).
    + rewrite (Hd0 i k Hi Hk Hne). lra.
    + left. pose proof (row_in_range K Hfin i k Hi Hk). lia.
Qed.

Lemma upwind_monotone_unchanged_witness :
  exists D', ComputeDiscreteUpwindingMatrix K_pos (smap_of K_pos) K_pos = Ok D'
    /\ A D' 0%Z == A K_pos 0%Z.
Proof.
  destruct (upwind_monotone_unchanged K_pos K_pos (smap_of K_pos))
    as (D' & HD & Hall).
  - exact K_pos_finalized.
  - eapply smap_of_symmetric; [exact K_pos_finalized | vm_compute; reflexivity].
  - apply diag_storedb_sound. vm_compute. reflexivity.
  - apply same_pattern_refl.
  - intros i k Hi [H1 H2] _.
    change (Z.of_nat (Size K_pos)) with 2%Z in Hi.
    assert (Hi' : i = 0%Z \/ i = 1%Z) by lia.
    destruct Hi' as [-> | ->].
    + change (I K_pos 0%Z) with 0%Z in H1.
      change (I K_pos (0 + 1)%Z) with 2%Z in H2.
      assert (Hk : k = 0%Z \/ k = 1%Z) by lia.
      destruct Hk as [-> | ->]; vm_compute; discriminate.
    + change (I K_pos 1%Z) with 2%Z in H1.
      change (I K_pos (1 + 1)%Z) with 4%Z in H2.
      assert (Hk : k = 2%Z \/ k = 3%Z) by lia.
      destruct Hk as [-> | ->]; vm_compute; discriminate.
  - exists D'. split; [exact HD|]. apply (Hall 0%Z 0%Z).
    + vm_compute. split; [discriminate | reflexivity].
    + unfold in_row. split; [vm_compute; discriminate | vm_compute; reflexivity].
Defined.

Lemma qsum_nonpos {A : Type} (f : A -> Q) (l : list A) :
  (forall a, In a l -> f a <= 0) -> qsum f l <= 0.
Proof.
  induction l as [|a l IH]; intros H.
  - rewrite qsum_nil. lra.
  - rewrite qsum_cons.
    assert (f a <= 0) by (apply H; now left).
    assert (qsum f l <= 0) by (apply IH; intros; apply H; now right).
    lra.
Qed.

(** the product of the upwinded matrix with a vector, row by row *)
Lemma upwind_product (K D : SparseMatrix) (smap : Z -> Z) (Dp : Vector)
  (x : Vector) (i : Z) :
  finalized K -> diag_stored K -> same_pattern K D ->
  rows_done K smap (Z.of_nat (Size K)) Dp ->
  (forall i, (0 <= i < Z.of_nat (Size K))%Z -> row_sum K i == 0) ->
  (0 <= i < Z.of_nat (Size K))%Z ->
  Mult {| Size := Size D; I := I D; J := J D; A := Dp |} x i
  == qsum (fun k => Dp k * (x (J K k) - x i)) (positions (I K i) (I K (i + 1))).
Proof.
  intros Hfin Hdiag Hpat Hdone Hzero Hi. destruct Hpat as (HS & HI & HJ).
  unfold Mult. cbn [A I J]. rewrite (HI i), (HI (i + 1)%Z) by lia.
  pose proof (rows_done_row_sum K smap Hfin Hdiag Dp i Hdone Hi) as Hrow.
  rewrite (Hzero i Hi) in Hrow.
  rewrite (qsum_ext _ (fun k => Dp k * (x (J K k) - x i) + Dp k * x i)).
  - rewrite qsum_plus, qsum_scale, Hrow. lra.
  - intros k Hk. apply in_positions in Hk.
    rewrite HJ by (apply (row_in_range K Hfin i k Hi Hk)). ring.
Qed.

(** X5. The upwinded matrix of a matrix with zero row sums is local
    extremum diminishing: where [x(i)] is a maximum over the columns that row
    [i] stores, [(D x)(i) <= 0]; where it is a minimum, [(D x)(i) >= 0]. *)
Theorem upwind_extremum_diminishing (K D : SparseMatrix) (smap : Z -> Z) :
  finalized K -> symmetric_map K smap -> diag_stored K -> same_pattern K D ->
  (forall i, (0 <= i < Z.of_nat (Size K))%Z -> row_sum K i == 0) ->
  exists D', ComputeDiscreteUpwindingMatrix K smap D = Ok D'
    /\ forall (x : Vector) i, (0 <= i < Z.of_nat (Size K))%Z ->
         ((forall k, in_row K i k -> x (J K k) <= x i) -> Mult D' x i <= 0)
         /\ ((forall k, in_row K i k -> x i <= x (J K k)) -> 0 <= Mult D' x i).
Proof.
  intros Hfin Hsym Hdiag Hpat Hzero.
  destruct (upwind_walk K D smap Hfin Hsym Hdiag Hpat) as (Dp & Hwalk & Hdone).
  unfold ComputeDiscreteUpwindingMatrix. rewrite Hwalk.
  cbn [mbind result_bind]. eexists. split; [reflexivity|].
  intros x i Hi.
  rewrite (upwind_product K D smap Dp x i Hfin Hdiag Hpat Hdone Hzero Hi).
  destruct Hdone as [Hoff _].
  assert (Hsign : forall k, in_row K i k -> J K k <> i -> 0 <= Dp k).
  { intros k Hk Hne. rewrite (Hoff i k Hi Hk Hne).
    - apply dij_nonneg.
    - left. pose proof (row_in_range K Hfin i k Hi Hk). lia. }
  split; intros Hx.
  - apply qsum_nonpos. intros k Hk. apply in_positions in Hk.
    destruct (Z.eq_dec (J K k) i) as [->|Hne]; [lra|].
    pose proof (Hsign k Hk Hne). pose proof (Hx k Hk). nra.
  - apply qsum_nonneg. intros k Hk. apply in_positions in Hk.
    destruct (Z.eq_dec (J K k) i) as [->|Hne]; [lra|].
    pose proof (Hsign k Hk Hne). pose proof (Hx k Hk). nra.
Qed.

(** [[ 1 -1 ]
     [ 2 -2 ]]: zero row sums *)
Definition K_zero : SparseMatrix :=
  csr_of_rows [[(0%Z, 1); (1%Z, - (1))]; [(0%Z, 2); (1%Z, - (2))]].

Lemma upwind_extremum_diminishing_witness :
  exists D', ComputeDiscreteUpwindingMatrix K_zero (smap_of K_zero) K_zero = Ok D'
    /\ Mult D' (fun i => if (i =? 0)%Z then 3 else 1) 0%Z <= 0.
Proof.
  destruct (upwind_extremum_diminishing K_zero K_zero (smap_of K_zero))
    as (D' & HD & Hall).
  - apply finalizedb_sound. vm_compute. reflexivity.
  - eapply smap_of_symmetric;
      [apply finalizedb_sound; vm_compute; reflexivity | vm_compute; reflexivity].
  - apply diag_storedb_sound. vm_compute. reflexivity.
  - apply same_pattern_refl.
  - intros i Hi. change (Z.of_nat (Size K_zero)) with 2%Z in Hi.
    assert (Hi' : i = 0%Z \/ i = 1%Z) by lia.
    destruct Hi' as [-> | ->]; vm_compute; reflexivity.
  - exists D'. split; [exact HD|].
    apply (Hall (fun i => if (i =? 0)%Z then 3 else 1) 0%Z).
    + vm_compute. split; [discriminate | reflexivity].
    + intros k [H1 H2].
      change (I K_zero 0%Z) with 0%Z in H1.
      change (I K_zero (0 + 1)%Z) with 2%Z in H2.
      assert (Hk : k = 0%Z \/ k = 1%Z) by lia.
      destruct Hk as [-> | ->]; vm_compute; discriminate.
Defined.

End UpwindingFacts.

(** ** More on [GetCommonElem] *)

Module CommonElemFacts.
Import DofInfo CommonElem.
Local Open Scope Z_scope.

Lemma settle_None (L : list (Z * Z)) :
  settle None L
  = match L with
    | [] => Ok None
    | [c] => Ok (Some (fst c))
    | _ :: _ :: _ => Fatal "Found multiple common neighbor elements."
    end.
Proof. destruct L as [|c [|c' L]]; reflexivity. Qed.

Lemma is_match_swap (el a b : Z) : is_match el (a, b) = is_match el (b, a).
Proof.
  rewrite !is_match_pair, (Z.eqb_sym b a).
  destruct (Z.eqb_spec a b) as [->|Hne].
  - reflexivity.
  - now rewrite !andb_false_r.
Qed.

Lemma is_match_inv (el a b : Z) :
  is_match el (a, b) = true -> 0 <= a /\ a = b /\ a <> el.
Proof.
  rewrite is_match_pair. intros H.
  apply andb_prop in H. destruct H as [H Hel].
  apply andb_prop in H. destruct H as [H Hab].
  apply andb_prop in H. destruct H as [Ha _].
  apply Z.leb_le in Ha. apply Z.eqb_eq in Hab.
  apply negb_true_iff, Z.eqb_neq in Hel. auto.
Qed.

Lemma is_match_diag (el a : Z) : 0 <= a -> a <> el -> is_match el (a, a) = true.
Proof.
  intros Ha Hne. rewrite is_match_pair.
  rewrite (proj2 (Z.leb_le 0 a) Ha), Z.eqb_refl.
  now rewrite (proj2 (Z.eqb_neq a el) Hne).
Qed.

Lemma count_column (el a : Z) (l : list Z) :
  length (List.filter (is_match el) (map (fun b => (a, b)) l))
  = length (List.filter (is_match el) (map (fun b => (b, a)) l)).
Proof.
  induction l as [|b l IH]; [reflexivity|].
  cbn [map List.filter]. rewrite (is_match_swap el a b).
  destruct (is_match el (b, a)); cbn [length]; now rewrite IH.
Qed.

Lemma count_cons_r (el b : Z) (l1 l2 : list Z) :
  length (List.filter (is_match el) (list_prod l1 (b :: l2)))
  = (length (List.filter (is_match el) (map (fun a => (a, b)) l1))
     + length (List.filter (is_match el) (list_prod l1 l2)))%nat.
Proof.
  induction l1 as [|a l1 IH]; [reflexivity|].
  cbn [list_prod map]. rewrite !List.filter_app. cbn [List.filter].
  destruct (is_match el (a, b)); rewrite !length_app, IH; cbn [length]; lia.
Qed.

Lemma count_swap (el : Z) (l1 l2 : list Z) :
  length (matching_slots el l1 l2) = length (matching_slots el l2 l1).
Proof.
  unfold matching_slots. induction l1 as [|a l1 IH].
  - cbn [list_prod List.filter length].
    induction l2 as [|b l2 IH2]; [reflexivity | exact IH2].
  - rewrite count_cons_r. cbn [list_prod].
    rewrite List.filter_app, length_app, IH, count_column. reflexivity.
Qed.

Lemma in_matching_slots (el : Z) (l1 l2 : list Z) (a b : Z) :
  In (a, b) (matching_slots el l1 l2)
  <-> In a l1 /\ In b l2 /\ 0 <= a /\ a = b /\ a <> el.
Proof.
  unfold matching_slots. rewrite List.filter_In, in_prod_iff. split.
  - intros [[H1 H2] Hm]. apply is_match_inv in Hm. tauto.
  - intros (H1 & H2 & Ha & <- & Hne). split; [tauto|].
    now apply is_match_diag.
Qed.

(** X6. [GetCommonElem(el, el1, el2)] does not depend on the order of
    [el1] and [el2]: the result, fatal error included, is the same. *)
Theorem GetCommonElem_sym (mesh : Mesh) (numBdrs : nat) (el el1 el2 : Z) :
  GetCommonElem mesh numBdrs el el1 el2 = GetCommonElem mesh numBdrs el el2 el1.
Proof.
  unfold GetCommonElem. rewrite (Z.min_comm el2 el1).
  destruct (Z.min el1 el2 <? 0); [reflexivity|].
  rewrite !common_outer_settle, !settle_None.
  set (N1 := NbrEl mesh numBdrs el1). set (N2 := NbrEl mesh numBdrs el2).
  pose proof (count_swap el N1 N2) as Hlen.
  destruct (matching_slots el N1 N2) as [|[a b] [|c L]] eqn:E1;
    destruct (matching_slots el N2 N1) as [|[a' b'] [|c' L']] eqn:E2;
    cbn [length] in Hlen; try discriminate Hlen; try reflexivity.
  cbn [mbind result_bind fst]. f_equal.
  assert (H1 : In (a, b) (matching_slots el N1 N2)) by (rewrite E1; now left).
  apply in_matching_slots in H1. destruct H1 as (Ha & Hb & H0 & <- & Hne).
  assert (H2 : In (a, a) (matching_slots el N2 N1))
    by (apply in_matching_slots; tauto).
  rewrite E2 in H2. destruct H2 as [H2|[]]. congruence.
Qed.

(** X7. A result of [GetCommonElem(el, el1, el2)] is [-1] or an element
    number [c >= 0] other than [el] that lies across a boundary slot of
    [el1] and across one of [el2]; in the second case [el1], [el2] are
    themselves elements, and [c] is the only such element. *)
Theorem GetCommonElem_result (mesh : Mesh) (numBdrs : nat) (el el1 el2 c : Z) :
  GetCommonElem mesh numBdrs el el1 el2 = Ok c ->
  c = -1
  \/ (0 <= c /\ c <> el /\ 0 <= el1 /\ 0 <= el2
      /\ face_adjacent mesh numBdrs c el1
      /\ face_adjacent mesh numBdrs c el2
      /\ forall e, e <> el -> face_adjacent mesh numBdrs e el1 ->
           face_adjacent mesh numBdrs e el2 -> e = c).
Proof.
  unfold GetCommonElem.
  destruct (Z.ltb_spec (Z.min el1 el2) 0) as [Hneg|Hpos].
  - intros [= <-]. now left.
  - rewrite common_outer_settle, settle_None.
    set (N1 := NbrEl mesh numBdrs el1). set (N2 := NbrEl mesh numBdrs el2).
    destruct (matching_slots el N1 N2) as [|[a b] [|c' L]] eqn:E;
      cbn [mbind result_bind fst]; [intros [= <-]; now left| |discriminate].
    intros [= <-]. right.
    assert (H1 : In (a, b) (matching_slots el N1 N2)) by (rewrite E; now left).
    apply in_matching_slots in H1. destruct H1 as (Ha & Hb & H0 & <- & Hne).
    unfold face_adjacent. fold N1 N2.
    repeat (split; [first [assumption | lia | (split; assumption)]|]).
    intros e He [He0 H1] [_ H2].
    assert (Hin : In (e, e) (matching_slots el N1 N2))
      by (apply in_matching_slots; tauto).
    rewrite E in Hin. destruct Hin as [Hin|[]]. congruence.
Qed.

(** A mesh of 2 x 2 quadrilaterals, element [2*r + c] in row [r] and column
    [c]; the edges [0..5] are the horizontal ones (row by row), [6..11] the
    vertical ones; an element lists its edges bottom, right, top, left. *)
Definition quad2x2 : Mesh := {|
  Dimension := 2;
  GetNE := 4;
  GetElementVertices := fun _ => [];
  GetElementEdges := fun el =>
    nth (Z.to_nat el)
      [[0; 7; 2; 6]; [1; 8; 3; 7]; [2; 10; 4; 9]; [3; 11; 5; 10]] [];
  GetElementFaces := fun _ => [];
  GetFaceElementTransformations := fun e =>
    let '(e1, e2) :=
      nth (Z.to_nat e)
        [(0, -1); (1, -1); (0, 2); (1, 3); (2, -1); (3, -1);
         (0, -1); (0, 1); (1, -1); (2, -1); (2, 3); (3, -1)] (0, -1) in
    {| Elem1No := e1; Elem2No := e2 |}
|}.

Example quad2x2_corner : GetCommonElem quad2x2 4 0 1 2 = Ok 3.
Proof. vm_compute. reflexivity. Qed.

Lemma GetCommonElem_result_witness :
  3 = -1
  \/ (0 <= 3 /\ 3 <> 0 /\ 0 <= 1 /\ 0 <= 2
      /\ face_adjacent quad2x2 4 3 1 /\ face_adjacent quad2x2 4 3 2
      /\ forall e, e <> 0 -> face_adjacent quad2x2 4 e 1 ->
           face_adjacent quad2x2 4 e 2 -> e = 3).
Proof.
  apply (GetCommonElem_result quad2x2 4 0 1 2 3). vm_compute. reflexivity.
Defined.

End CommonElemFacts.

(** ** More on the contributor map of the vertex bounds *)

Module BoundsMapFacts.
Import DofInfo VertexBounds.
Local Open Scope Z_scope.
Local Coercion Z.of_nat : nat >-> Z.

(** every contributor of every dof is an element number, never the [-1] of
    a missing neighbour *)
Definition contributors_nonneg (m : gmap Z (list Z)) : Prop :=
  forall d e, In e (bounds_of m d) -> 0 <= e.

Lemma nonneg_push_back m d e :
  0 <= e -> contributors_nonneg m -> contributors_nonneg (push_back m d e).
Proof.
  intros He Hm d' e' Hin. destruct (Z.eq_dec d d') as [<-|Hne].
  - rewrite bounds_of_push_back_eq in Hin. apply in_app_or in Hin.
    destruct Hin as [Hin|[<-|[]]]; [now apply (Hm d) | exact He].
  - rewrite bounds_of_push_back_ne in Hin by exact Hne. now apply (Hm d').
Qed.

Lemma nonneg_push_if_nbr nbr m d :
  contributors_nonneg m -> contributors_nonneg (push_if_nbr nbr m d).
Proof.
  intros Hm. unfold push_if_nbr. destruct (Z.leb_spec 0 nbr); [|exact Hm].
  now apply nonneg_push_back.
Qed.

Lemma at_map_zrange (f : Z -> Z) (n : nat) (i : Z) :
  0 <= i < n -> at_ (map f (zrange n)) i = f i.
Proof.
  intros Hi. unfold at_.
  rewrite (nth_indep _ 0 (f 0)) by (rewrite length_map, FCT.length_zrange; lia).
  rewrite map_nth. f_equal. unfold zrange.
  change 0 with (Z.of_nat 0) at 1. rewrite map_nth, seq_nth by lia. lia.
Qed.

Section Construction.

Variable mesh : Mesh.
Variable BdrDofs : Z -> Z -> Z.
Variables numBdrs numDofs nd p : nat.

Ltac next_call H :=
  match type of H with
  | context [GetCommonElem ?a ?b ?c ?d ?e] =>
      destruct (GetCommonElem a b c d e); cbn [mbind result_bind] in H;
      [|discriminate H]
  end.

Lemma bounds_map_element_nonneg m k m' :
  0 <= k -> contributors_nonneg m ->
  bounds_map_element mesh BdrDofs numBdrs numDofs nd p m k = Ok m' ->
  contributors_nonneg m'.
Proof.
  intros Hk Hm. unfold bounds_map_element. cbv zeta.
  assert (H1 : contributors_nonneg (include_own nd k m)).
  { unfold include_own. apply Assembly.fold_left_invariant; [exact Hm|].
    intros m1 i _ Hm1. now apply nonneg_push_back. }
  assert (H2 : contributors_nonneg
                 (include_face_nbrs mesh BdrDofs numBdrs numDofs nd k
                    (include_own nd k m))).
  { unfold include_face_nbrs. apply Assembly.fold_left_invariant; [exact H1|].
    intros m1 i _ Hm1. cbv zeta.
    destruct (Z.ltb_spec (at_ (NbrElem mesh numBdrs k) i) 0); [exact Hm1|].
    apply Assembly.fold_left_invariant; [exact Hm1|].
    intros m2 j _ Hm2. now apply nonneg_push_back. }
  revert H2.
  generalize (include_face_nbrs mesh BdrDofs numBdrs numDofs nd k
                (include_own nd k m)).
  intros m2 H2 H. destruct (dim mesh =? 2).
  - unfold include_corners_2D in H. cbv zeta in H. unfold mbind in H.
    do 4 next_call H. injection H as <-.
    repeat apply nonneg_push_if_nbr. exact H2.
  - destruct (dim mesh =? 3).
    + unfold mbind in H.
      destruct (EdgeNbrs mesh numBdrs k) as [E|]; cbn [result_bind] in H;
        [|discriminate H].
      assert (H3 : contributors_nonneg
                     (fold_left (include_edges_3D_body nd p k E)
                        (zrange (S p)) m2)).
      { apply Assembly.fold_left_invariant; [exact H2|].
        intros m3 j _ Hm3. unfold include_edges_3D_body. cbv zeta.
        repeat apply nonneg_push_if_nbr. exact Hm3. }
      revert H3 H. generalize (fold_left (include_edges_3D_body nd p k E)
                                 (zrange (S p)) m2).
      intros m3 H3 H.
      unfold include_corners_3D in H. cbv zeta in H. unfold mbind in H.
      do 8 next_call H. injection H as <-.
      repeat apply nonneg_push_if_nbr. exact H3.
    + now injection H as <-.
Qed.

Lemma include_face_nbrs_has k m i j :
  0 <= i < numBdrs -> 0 <= j < numDofs ->
  let nbr := nbr_across mesh k (at_ (element_bdrs mesh k) i) in
  0 <= nbr ->
  In nbr (bounds_of (include_face_nbrs mesh BdrDofs numBdrs numDofs nd k m)
            (k * nd + BdrDofs j i)).
Proof.
  intros Hi Hj nbr Hnbr. unfold include_face_nbrs.
  assert (Hin : In i (zrange numBdrs)) by now apply in_zrange.
  assert (Hsub : forall i', In i' (zrange numBdrs) -> 0 <= i' < numBdrs)
    by (intros; now apply in_zrange).
  revert m Hin Hsub. generalize (zrange numBdrs) as l.
  induction l as [|i0 l IH]; intros m Hin Hsub; [destruct Hin|].
  cbn [fold_left]. cbv zeta.
  destruct (in_dec Z.eq_dec i l) as [Hl|Hl].
  - apply IH; [exact Hl | intros; apply Hsub; now right].
  - destruct Hin as [->|Hin]; [|contradiction].
    match goal with
    | |- In _ (bounds_of (fold_left ?f l ?m1) _) =>
        apply (grows_fold_left f l m1)
    end.
    + intros m1 i1. destruct (_ <? 0); [apply grows_refl|].
      apply grows_fold_left. intros; apply grows_push_back.
    + unfold NbrElem. rewrite at_map_zrange by exact Hi. fold nbr.
      destruct (Z.ltb_spec nbr 0); [lia|].
      assert (Hjin : In j (zrange numDofs)) by now apply in_zrange.
      revert m Hjin. generalize (zrange numDofs) as l2.
      induction l2 as [|j0 l2 IH2]; intros m Hjin; [destruct Hjin|].
      cbn [fold_left]. destruct Hjin as [->|Hjin].
      * match goal with
        | |- In _ (bounds_of (fold_left ?f l2 ?m1) _) =>
            apply (grows_fold_left f l2 m1)
        end.
        -- intros; apply grows_push_back.
        -- apply in_push_back.
      * now apply IH2.
Qed.

Lemma bounds_map_loop_facts ks m m' :
  (forall k, In k ks -> 0 <= k) -> contributors_nonneg m ->
  bounds_map_loop mesh BdrDofs numBdrs numDofs nd p ks m = Ok m' ->
  contributors_nonneg m'
  /\ forall k i j, In k ks -> 0 <= i < numBdrs -> 0 <= j < numDofs ->
       0 <= nbr_across mesh k (at_ (element_bdrs mesh k) i) ->
       In (nbr_across mesh k (at_ (element_bdrs mesh k) i))
          (bounds_of m' (k * nd + BdrDofs j i)).
Proof.
  revert m. induction ks as [|k ks IH]; intros m Hks Hm H;
    cbn [bounds_map_loop] in H.
  - injection H as <-. split; [exact Hm | intros k i j []].
  - unfold mbind in H.
    destruct (bounds_map_element mesh BdrDofs numBdrs numDofs nd p m k)
      as [m1|] eqn:E; cbn [result_bind] in H; [|discriminate H].
    pose proof (bounds_map_element_nonneg m k m1
                  (Hks k (or_introl eq_refl)) Hm E) as Hm1.
    destruct (IH m1 (fun k' Hk' => Hks k' (or_intror Hk')) Hm1 H)
      as [Hm' Hrest].
    split; [exact Hm'|].
    intros k' i j [<-|Hin] Hi Hj Hnbr; [|now apply Hrest].
    destruct (bounds_map_loop_spec mesh BdrDofs numBdrs numDofs nd p ks m1 m' H)
      as [Hg _].
    apply Hg. clear Hg Hrest Hm' H IH.
    unfold bounds_map_element in E. cbv zeta in E.
    assert (Hhas := include_face_nbrs_has k (include_own nd k m) i j Hi Hj Hnbr).
    revert Hhas E.
    generalize (include_face_nbrs mesh BdrDofs numBdrs numDofs nd k
                  (include_own nd k m)).
    intros m2 Hhas E.
    assert (Hg : grows m2 m1).
    { destruct (dim mesh =? 2).
      - eapply include_corners_2D_grows; exact E.
      - destruct (dim mesh =? 3).
        + unfold mbind in E.
          destruct (EdgeNbrs mesh numBdrs k) as [Ed|]; cbn [result_bind] in E;
            [|discriminate E].
          apply include_corners_3D_grows in E.
          eapply grows_trans; [|exact E].
          apply grows_fold_left. intros; apply include_edges_3D_body_grows.
        + injection E as <-. apply grows_refl. }
    apply Hg, Hhas.
Qed.

End Construction.

(** X8. In the map that [GetVertexBoundsMap] builds, every contributor of
    every dof is a non-negative element number: the [-1] of an exterior slot
    or of a missing corner or edge neighbour is never stored. *)
Theorem GetVertexBoundsMap_nonneg (mesh : Mesh) (BdrDofs : Z -> Z -> Z)
  (numBdrs numDofs nd p : nat) (m : gmap Z (list Z)) :
  GetVertexBoundsMap mesh BdrDofs numBdrs numDofs nd p = Ok m ->
  forall d e, In e (bounds_of m d) -> 0 <= e.
Proof.
  intros Hmap. unfold GetVertexBoundsMap in Hmap.
  refine (proj1 (bounds_map_loop_facts mesh BdrDofs numBdrs numDofs nd p
                   (zrange (ne mesh)) ∅ m _ _ Hmap)).
  - intros k Hk. apply in_zrange in Hk. lia.
  - intros d e Hin. unfold bounds_of in Hin. rewrite lookup_empty in Hin.
    destruct Hin.
Qed.

(** X9. For every element [k], boundary slot [i] with a neighbour element
    [nbr >= 0] across it, and boundary dof [j] of the slot, [nbr] is a
    contributor of the dof [k*nd + BdrDofs(j, i)]. *)
Theorem GetVertexBoundsMap_face_neighbours (mesh : Mesh)
  (BdrDofs : Z -> Z -> Z) (numBdrs numDofs nd p : nat)
  (m : gmap Z (list Z)) (k i j : Z) :
  GetVertexBoundsMap mesh BdrDofs numBdrs numDofs nd p = Ok m ->
  0 <= k < GetNE mesh -> 0 <= i < numBdrs -> 0 <= j < numDofs ->
  let nbr := nbr_across mesh k (at_ (element_bdrs mesh k) i) in
  0 <= nbr -> In nbr (bounds_of m (k * nd + BdrDofs j i)).
Proof.
  intros Hmap Hk Hi Hj nbr Hnbr. unfold GetVertexBoundsMap in Hmap.
  refine (proj2 (bounds_map_loop_facts mesh BdrDofs numBdrs numDofs nd p
                   (zrange (ne mesh)) ∅ m _ _ Hmap) k i j _ Hi Hj Hnbr).
  - intros k' Hk'. apply in_zrange in Hk'. lia.
  - intros d e Hin. unfold bounds_of in Hin. rewrite lookup_empty in Hin.
    destruct Hin.
  - now apply in_zrange.
Qed.

(** [BdrDofs] of a quadrilateral of order 1: the dofs [0 1 / 2 3] (row by
    row), the edges bottom, right, top, left run counterclockwise. *)
Definition BdrDofs_quad1 : Z -> Z -> Z :=
  fun j slot => nth (Z.to_nat j)
                  (nth (Z.to_nat slot) [[0; 1]; [1; 3]; [3; 2]; [2; 0]] []) 0.

Definition quad2x2_map : gmap Z (list Z) :=
  match GetVertexBoundsMap CommonElemFacts.quad2x2 BdrDofs_quad1 4 2 4 1 with
  | Ok m => m
  | Fatal _ => ∅
  end.

Lemma quad2x2_map_ok :
  GetVertexBoundsMap CommonElemFacts.quad2x2 BdrDofs_quad1 4 2 4 1
  = Ok quad2x2_map.
Proof. vm_compute. reflexivity. Qed.

(** the dof at the centre of the mesh sees all four elements *)
Example quad2x2_map_centre : bounds_of quad2x2_map 3 = [0; 1; 2; 3].
Proof. vm_compute. reflexivity. Qed.

Lemma GetVertexBoundsMap_nonneg_witness :
  In 2 (bounds_of quad2x2_map 3) /\ 0 <= 2.
Proof.
  assert (Hin : In 2 (bounds_of quad2x2_map 3))
    by (vm_compute; right; right; left; reflexivity).
  split; [exact Hin|].
  exact (GetVertexBoundsMap_nonneg CommonElemFacts.quad2x2 BdrDofs_quad1
           4 2 4 1 quad2x2_map quad2x2_map_ok 3 2 Hin).
Defined.

Lemma GetVertexBoundsMap_face_neighbours_witness :
  In 1 (bounds_of quad2x2_map (0 * 4%nat + BdrDofs_quad1 0 1)).
Proof.
  apply (GetVertexBoundsMap_face_neighbours CommonElemFacts.quad2x2
           BdrDofs_quad1 4 2 4 1 quad2x2_map 0 1 0).
  - exact quad2x2_map_ok.
  - simpl. lia.
  - lia.
  - lia.
  - vm_compute. discriminate.
Defined.

Lemma bounds_map_loop_element (mesh : Mesh) (BdrDofs : Z -> Z -> Z)
  (numBdrs numDofs nd p : nat) (ks : list Z) (m m' : gmap Z (list Z)) (k : Z) :
  bounds_map_loop mesh BdrDofs numBdrs numDofs nd p ks m = Ok m' ->
  In k ks ->
  exists m0 m1,
    bounds_map_element mesh BdrDofs numBdrs numDofs nd p m0 k = Ok m1
    /\ grows m1 m'.
Proof.
  revert m. induction ks as [|k0 ks IH]; intros m H Hin; [destruct Hin|].
  cbn [bounds_map_loop] in H. unfold mbind in H.
  destruct (bounds_map_element mesh BdrDofs numBdrs numDofs nd p m k0)
    as [m1|] eqn:E; cbn [result_bind] in H; [|discriminate H].
  destruct (in_dec Z.eq_dec k ks) as [Hks|Hks]; [now apply (IH m1)|].
  destruct Hin as [->|Hin]; [|contradiction].
  exists m, m1. split; [exact E|].
  exact (proj1 (bounds_map_loop_spec mesh BdrDofs numBdrs numDofs nd p
                  ks m1 m' H)).
Qed.

Lemma in_push_if_nbr (nbr : Z) (m : gmap Z (list Z)) (d : Z) :
  0 <= nbr -> In nbr (bounds_of (push_if_nbr nbr m d) d).
Proof.
  intros H. unfold push_if_nbr. destruct (Z.leb_spec 0 nbr); [|lia].
  apply in_push_back.
Qed.

(** the corner lookups of a quadrilateral: the two boundary slots that meet
    at the corner and the local dof of the corner *)
Definition corners_2D (p : Z) : list (Z * Z * Z) :=
  [(3, 0, 0); (0, 1, p); (1, 2, (p + 1) * (p + 1) - 1); (2, 3, p * (p + 1))].

(** X10. In two dimensions, with [nd = (p+1)^2] dofs per element, the
    construction looks up, for each of the four corners of an element [k],
    the common neighbour of the two face neighbours that meet there; when
    the map is built each lookup has succeeded, and a common neighbour
    [c >= 0] is a contributor of the corner dof. *)
Theorem GetVertexBoundsMap_corners_2D (mesh : Mesh) (BdrDofs : Z -> Z -> Z)
  (numBdrs numDofs nd p : nat) (m : gmap Z (list Z)) (k a b loc : Z) :
  dim mesh = 2 -> Z.of_nat nd = (p + 1) * (p + 1) ->
  GetVertexBoundsMap mesh BdrDofs numBdrs numDofs nd p = Ok m ->
  0 <= k < GetNE mesh ->
  In (a, b, loc) (corners_2D p) ->
  let N := at_ (NbrElem mesh numBdrs k) in
  exists c, GetCommonElem mesh numBdrs k (N a) (N b) = Ok c
            /\ (0 <= c -> In c (bounds_of m (k * nd + loc))).
Proof.
  intros Hdim Hnd Hmap Hk Hin N. unfold GetVertexBoundsMap in Hmap.
  destruct (bounds_map_loop_element mesh BdrDofs numBdrs numDofs nd p
              (zrange (ne mesh)) ∅ m k Hmap) as (m0 & m1 & E & Hg);
    [now apply in_zrange|].
  unfold bounds_map_element in E. cbv zeta in E. rewrite Hdim in E.
  cbn [Z.eqb Pos.eqb] in E. revert E.
  generalize (include_face_nbrs mesh BdrDofs numBdrs numDofs nd k
                (include_own nd k m0)).
  intros m2 E. unfold include_corners_2D in E. cbv zeta in E.
  unfold mbind in E. fold N in E.
  destruct (GetCommonElem mesh numBdrs k (N 3) (N 0)) as [c0|] eqn:E0;
    cbn [result_bind] in E; [|discriminate E].
  destruct (GetCommonElem mesh numBdrs k (N 0) (N 1)) as [c1|] eqn:E1;
    cbn [result_bind] in E; [|discriminate E].
  destruct (GetCommonElem mesh numBdrs k (N 1) (N 2)) as [c2|] eqn:E2;
    cbn [result_bind] in E; [|discriminate E].
  destruct (GetCommonElem mesh numBdrs k (N 2) (N 3)) as [c3|] eqn:E3;
    cbn [result_bind] in E; [|discriminate E].
  injection E as <-.
  replace ((k + 1) * nd - 1) with (k * nd + ((p + 1) * (p + 1) - 1)) in Hg
    by lia.
  destruct Hin as [[= <- <- <-]|[[= <- <- <-]|[[= <- <- <-]|[[= <- <- <-]|[]]]]].
  - exists c0. split; [exact E0|]. intros Hc. apply Hg.
    do 3 apply grows_push_if_nbr. rewrite Z.add_0_r. now apply in_push_if_nbr.
  - exists c1. split; [exact E1|]. intros Hc. apply Hg.
    do 2 apply grows_push_if_nbr. now apply in_push_if_nbr.
  - exists c2. split; [exact E2|]. intros Hc. apply Hg.
    apply grows_push_if_nbr. now apply in_push_if_nbr.
  - exists c3. split; [exact E3|]. intros Hc. apply Hg.
    now apply in_push_if_nbr.
Qed.

Lemma GetVertexBoundsMap_corners_2D_witness :
  exists c,
    GetCommonElem CommonElemFacts.quad2x2 4 0
      (at_ (NbrElem CommonElemFacts.quad2x2 4 0) 1)
      (at_ (NbrElem CommonElemFacts.quad2x2 4 0) 2) = Ok c
    /\ (0 <= c ->
        In c (bounds_of quad2x2_map
                (0 * 4%nat + ((1%nat + 1) * (1%nat + 1) - 1)))).
Proof.
  apply (GetVertexBoundsMap_corners_2D CommonElemFacts.quad2x2
           BdrDofs_quad1 4 2 4 1 quad2x2_map
           0 1 2 ((1%nat + 1) * (1%nat + 1) - 1)).
  - reflexivity.
  - reflexivity.
  - exact quad2x2_map_ok.
  - simpl. lia.
  - right. right. left. reflexivity.
Defined.

End BoundsMapFacts.

(** ** More on the neighbour-dof table *)

Module NeighborDofsFacts.
Import DofInfo NeighborDofs.
Local Open Scope Z_scope.
Local Coercion Z.of_nat : nat >-> Z.

Section Fill.

Variable mesh : Mesh.
Variable BdrDofs : Z -> Z -> Z.
Variables numBdrs numDofs nd p : nat.

(** the offset within the neighbour's block that the three-dimensional
    branch stores for face [i] and face dof [j] *)
Definition offset_3D (i j : Z) : Z :=
  if i =? 0 then (p+1)*(p+1)*p + j
  else if i =? 1 then (j / (p+1))*(p+1)*(p+1) + (p+1)*p + (j mod (p+1))
  else if i =? 2 then j*(p+1)
  else if i =? 3 then (j / (p+1))*(p+1)*(p+1) + (j mod (p+1))
  else if i =? 4 then (j+1)*(p+1) - 1
  else j.

Definition entry_3D (k i j : Z) : Z :=
  nbr_across mesh k (at_ (GetElementFaces mesh k) i) * nd + offset_3D i j.

Lemma fill_3D_entry_in (T : Tensor) (k i j : Z) :
  0 <= i < 6 -> 0 <= j < numDofs ->
  fill_3D mesh numDofs nd p k T k i j = entry_3D k i j.
Proof.
  intros Hi Hj. unfold fill_3D. cbv zeta.
  rewrite (fold_left_entry _ (Z.eqb j) (entry_3D k i j) _ T k i j).
  - now rewrite existsb_zrange.
  - intros T1 j0. unfold tset, entry_3D, offset_3D.
    rewrite !Z.eqb_refl. cbn [andb].
    assert (Hi' : i = 0 \/ i = 1 \/ i = 2 \/ i = 3 \/ i = 4 \/ i = 5) by lia.
    destruct (Z.eqb_spec j j0) as [->|Hne];
      destruct Hi' as [-> | [-> | [-> | [-> | [-> | ->]]]]];
      cbn [Z.eqb Pos.eqb andb]; try reflexivity; ring.
Qed.

Lemma offset_3D_range (i j : Z) :
  0 <= i < 6 -> 0 <= j < (p + 1) * (p + 1) ->
  0 <= offset_3D i j < (p + 1) * (p + 1) * (p + 1).
Proof.
  intros Hi Hj. unfold offset_3D.
  assert (HP : 1 <= p + 1) by lia.
  assert (Hp : Z.of_nat p = (p + 1) - 1) by lia.
  revert Hj HP Hp. generalize (Z.of_nat p + 1) as P.
  generalize (Z.of_nat p) as p'. intros p' P Hj HP ->.
  pose proof (Z.div_mod j P ltac:(lia)) as Hdm.
  pose proof (Z.mod_pos_bound j P ltac:(lia)) as Hr.
  assert (Hq : 0 <= j / P < P).
  { split; [apply Z.div_pos; lia|]. apply Z.div_lt_upper_bound; lia. }
  revert Hdm Hr Hq. generalize (j / P) as q, (j mod P) as r.
  intros q r Hdm Hr Hq.
  assert (Hq2 : 0 <= q * P * P <= (P - 1) * P * P) by nia.
  assert (HP2 : 0 <= P * P) by nia.
  destruct (i =? 0); [|destruct (i =? 1); [|destruct (i =? 2);
    [|destruct (i =? 3); [|destruct (i =? 4)]]]]; nia.
Qed.

Lemma FillNeighborDofs_3D (NbrDof0 : Tensor) (k i j : Z) :
  dim mesh = 3 ->
  0 <= k < ne mesh -> 0 <= i < 6 -> 0 <= j < numDofs ->
  FillNeighborDofs mesh BdrDofs numBdrs numDofs nd p NbrDof0 k i j
  = entry_3D k i j.
Proof.
  intros Hdim Hk Hi Hj. unfold FillNeighborDofs.
  assert (Hks : In k (zrange (ne mesh))) by now apply in_zrange.
  revert NbrDof0 Hks. induction (zrange (ne mesh)) as [|k0 ks IH];
    intros T Hks; [destruct Hks|].
  cbn [fold_left].
  destruct (in_dec Z.eq_dec k ks) as [Hin|Hnin]; [now apply IH|].
  destruct Hks as [->|Hks]; [|contradiction].
  rewrite fill_loop_other by exact Hnin.
  unfold fill_element. rewrite Hdim. cbn.
  now apply fill_3D_entry_in.
Qed.

(** the entry the one-dimensional branch stores *)
Definition entry_1D (k i : Z) : Z :=
  nbr_across mesh k (at_ (GetElementVertices mesh k) i) * nd
  + BdrDofs 0 ((i + 1) mod 2).

Lemma FillNeighborDofs_1D (NbrDof0 : Tensor) (k i : Z) :
  dim mesh = 1 ->
  0 <= k < ne mesh -> 0 <= i < numBdrs ->
  FillNeighborDofs mesh BdrDofs numBdrs numDofs nd p NbrDof0 k i 0
  = entry_1D k i.
Proof.
  intros Hdim Hk Hi. unfold FillNeighborDofs.
  assert (Hks : In k (zrange (ne mesh))) by now apply in_zrange.
  revert NbrDof0 Hks. induction (zrange (ne mesh)) as [|k0 ks IH];
    intros T Hks; [destruct Hks|].
  cbn [fold_left].
  destruct (in_dec Z.eq_dec k ks) as [Hin|Hnin]; [now apply IH|].
  destruct Hks as [->|Hks]; [|contradiction].
  rewrite fill_loop_other by exact Hnin.
  unfold fill_element. rewrite Hdim. cbn. unfold fill_1D. cbv zeta.
  rewrite (fold_left_entry _ (Z.eqb i) (entry_1D k i) _ T k i 0).
  - now rewrite existsb_zrange.
  - intros T1 i0. unfold tset, entry_1D. rewrite !Z.eqb_refl.
    destruct (Z.eqb_spec i i0) as [->|Hne]; cbn [andb]; reflexivity.
Qed.

(** the first slot of the neighbour that lists the face *)
Lemma find_ind_spec (NbrBdrs : list Z) (face : Z) (inds : list Z) (ind : Z) :
  In ind inds -> at_ NbrBdrs ind = face ->
  let r := find_ind numBdrs NbrBdrs face inds in
  In r inds /\ at_ NbrBdrs r = face.
Proof.
  induction inds as [|a inds IH]; intros Hin Hat; [destruct Hin|].
  cbn [find_ind]. destruct (Z.eqb_spec (at_ NbrBdrs a) face) as [Heq|Hne].
  - split; [now left | exact Heq].
  - destruct Hin as [->|Hin]; [contradiction|].
    destruct (IH Hin Hat) as [H1 H2]. split; [now right | exact H2].
Qed.

End Fill.

(** X11. In three dimensions, with [(p+1)^2] dofs on a face and
    [nd = (p+1)^3] dofs in an element, the table entry for face [i] of
    element [k] is a dof number of the block of the element [nbr] across the
    face, [nbr*nd <= NbrDof(k,i,j) < (nbr+1)*nd]; so the entry is negative
    exactly when the face is exterior, which is what the test [idx < 0] of
    [LinearFluxLumping] relies on. *)
Theorem FillNeighborDofs_block_3D (mesh : Mesh) (BdrDofs : Z -> Z -> Z)
  (numBdrs numDofs nd p : nat) (NbrDof0 : Tensor) (k i j : Z) :
  dim mesh = 3 ->
  Z.of_nat numDofs = (p + 1) * (p + 1) ->
  Z.of_nat nd = (p + 1) * (p + 1) * (p + 1) ->
  0 <= k < GetNE mesh -> 0 <= i < 6 -> 0 <= j < numDofs ->
  let v := FillNeighborDofs mesh BdrDofs numBdrs numDofs nd p NbrDof0 k i j in
  let nbr := nbr_across mesh k (at_ (GetElementFaces mesh k) i) in
  nbr * nd <= v < (nbr + 1) * nd
  /\ (v < 0 <-> exterior mesh k i).
Proof.
  intros Hdim HnumDofs Hnd Hk Hi Hj v nbr.
  assert (Hv : v = nbr * nd + offset_3D p i j).
  { unfold v. now rewrite FillNeighborDofs_3D. }
  pose proof (offset_3D_range p i j Hi ltac:(lia)) as Hoff.
  rewrite <- Hnd in Hoff.
  assert (Hext : exterior mesh k i <-> nbr < 0).
  { unfold exterior, element_bdrs. fold (dim mesh). rewrite Hdim.
    cbn [Z.eqb Pos.eqb]. reflexivity. }
  rewrite Hext, Hv. split; [nia|]. split; intros H; nia.
Qed.

Lemma FillNeighborDofs_block_3D_witness :
  let v := FillNeighborDofs hex1 (fun _ _ => 0) 6 4 8 1 (fun _ _ _ => 0) 0 0 0 in
  let nbr := nbr_across hex1 0 (at_ (GetElementFaces hex1 0) 0) in
  nbr * 8%nat <= v < (nbr + 1) * 8%nat /\ (v < 0 <-> exterior hex1 0 0).
Proof.
  apply (FillNeighborDofs_block_3D hex1 (fun _ _ => 0) 6 4 8 1
           (fun _ _ _ => 0) 0 0 0); try reflexivity; simpl; lia.
Defined.

(** X12. In two dimensions the table entry of an exterior edge is [-1];
    for an edge shared with an element [nbr] that lists the edge in its slot
    [ind] (the first such slot), the entry is the dof
    [nbr*nd + BdrDofs(numDofs-1-j, ind)]: the neighbour's dof on that edge,
    counted in the opposite direction. *)
Theorem FillNeighborDofs_entry_2D (mesh : Mesh) (BdrDofs : Z -> Z -> Z)
  (numBdrs numDofs nd p : nat) (NbrDof0 : Tensor) (k i j : Z) :
  dim mesh = 2 ->
  0 <= k < GetNE mesh -> 0 <= i < numBdrs -> 0 <= j < numDofs ->
  let v := FillNeighborDofs mesh BdrDofs numBdrs numDofs nd p NbrDof0 k i j in
  let edge := at_ (GetElementEdges mesh k) i in
  let nbr := nbr_across mesh k edge in
  (nbr < 0 -> v = -1)
  /\ (0 <= nbr ->
      (exists ind, 0 <= ind < numBdrs
                   /\ at_ (GetElementEdges mesh nbr) ind = edge) ->
      exists ind, 0 <= ind < numBdrs
        /\ at_ (GetElementEdges mesh nbr) ind = edge
        /\ v = nbr * nd + BdrDofs (numDofs - 1 - j) ind).
Proof.
  intros Hdim Hk Hi Hj v edge nbr.
  assert (Hv : v = entry_2D mesh BdrDofs numBdrs numDofs nd k i j).
  { unfold v. now apply FillNeighborDofs_2D. }
  unfold entry_2D in Hv. cbv zeta in Hv. fold edge nbr in Hv. split.
  - intros Hneg. destruct (Z.leb_spec 0 nbr); [lia | exact Hv].
  - intros Hpos (ind & Hind & Hat).
    destruct (Z.leb_spec 0 nbr); [|lia].
    destruct (find_ind_spec numBdrs (GetElementEdges mesh nbr) edge
                (zrange numBdrs) ind (proj2 (in_zrange _ _) Hind) Hat)
      as [Hr Hrat].
    eexists. split; [apply in_zrange; exact Hr|]. split; [exact Hrat|].
    exact Hv.
Qed.

Lemma FillNeighborDofs_entry_2D_witness :
  exists ind, 0 <= ind < 4%nat
    /\ at_ (GetElementEdges CommonElemFacts.quad2x2 1) ind = 7
    /\ FillNeighborDofs CommonElemFacts.quad2x2 BoundsMapFacts.BdrDofs_quad1
         4 2 4 1 (fun _ _ _ => 0) 0 1 0
       = 1 * 4%nat + BoundsMapFacts.BdrDofs_quad1 (2%nat - 1 - 0) ind.
Proof.
  destruct (FillNeighborDofs_entry_2D CommonElemFacts.quad2x2
              BoundsMapFacts.BdrDofs_quad1 4 2 4 1 (fun _ _ _ => 0) 0 1 0)
    as [_ Hint]; try reflexivity; try (simpl; lia).
  apply Hint.
  - vm_compute. discriminate.
  - exists 3. split; [simpl; lia | reflexivity].
Defined.

Example quad2x2_NbrDof :
  FillNeighborDofs CommonElemFacts.quad2x2 BoundsMapFacts.BdrDofs_quad1
    4 2 4 1 (fun _ _ _ => 0) 0 1 0 = 4.
Proof. vm_compute. reflexivity. Qed.

(** X13. In one dimension the entry of end [i] of element [k] is
    [nbr*nd + BdrDofs(0, (i+1) mod 2)], the dof of the neighbour at its other
    end; when that boundary dof is a local dof number, [0 <= . < nd], the
    entry is negative exactly when the end is exterior. *)
Theorem FillNeighborDofs_entry_1D (mesh : Mesh) (BdrDofs : Z -> Z -> Z)
  (numBdrs numDofs nd p : nat) (NbrDof0 : Tensor) (k i : Z) :
  dim mesh = 1 ->
  0 <= k < GetNE mesh -> 0 <= i < numBdrs ->
  0 <= BdrDofs 0 ((i + 1) mod 2) < nd ->
  let v := FillNeighborDofs mesh BdrDofs numBdrs numDofs nd p NbrDof0 k i 0 in
  let nbr := nbr_across mesh k (at_ (GetElementVertices mesh k) i) in
  v = nbr * nd + BdrDofs 0 ((i + 1) mod 2)
  /\ (v < 0 <-> exterior mesh k i).
Proof.
  intros Hdim Hk Hi Hb v nbr.
  assert (Hv : v = nbr * nd + BdrDofs 0 ((i + 1) mod 2)).
  { unfold v. now rewrite FillNeighborDofs_1D. }
  assert (Hext : exterior mesh k i <-> nbr < 0).
  { unfold exterior, element_bdrs. fold (dim mesh). rewrite Hdim.
    cbn [Z.eqb Pos.eqb]. reflexivity. }
  split; [exact Hv|]. rewrite Hext, Hv. split; intros H; nia.
Qed.

Lemma FillNeighborDofs_entry_1D_witness :
  let v := FillNeighborDofs VertexBounds.segment2
             (VertexBounds.BdrDofs_segment 1) 2 1 2 1 (fun _ _ _ => 0) 0 1 0 in
  v = 2 /\ (v < 0 <-> exterior VertexBounds.segment2 0 1).
Proof.
  apply (FillNeighborDofs_entry_1D VertexBounds.segment2
           (VertexBounds.BdrDofs_segment 1) 2 1 2 1 (fun _ _ _ => 0) 0 1).
  - reflexivity.
  - simpl. lia.
  - simpl. lia.
  - vm_compute. split; [discriminate | reflexivity].
Defined.

End NeighborDofsFacts.

(** ** FillSubcell2CellDof: the dofs of the subcells *)

Module Subcell2CellDof.
Local Open Scope Z_scope.

(** [Sub2Ind(m, j)], an [Array2D<int>] *)
Definition Table : Type := Z -> Z -> Z.

Definition mset (T : Table) (m j v : Z) : Table :=
  fun m' j' => if (m' =? m) && (j' =? j) then v else T m' j'.

Section Fill.

(** [dim] and [p = dummy.GetOrder()] *)
Variables dim p : Z.

(** [numSubcells] and [numDofsSubcell]; in a dimension other than 1, 2, 3
    the members keep the values they had *)
Definition subcell_counts (old : Z * Z) : Z * Z :=
  if dim =? 1 then (p, 2)
  else if dim =? 2 then (p * p, 4)
  else if dim =? 3 then (p * p * p, 8)
  else old.

(** What is assigned to [Sub2Ind(m, j)]; [old] is the value the entry keeps
    when no case of the [switch] applies.  The division of two [int]s
    truncates. *)
Definition sub_value (m j old : Z) : Z :=
  if dim =? 1 then m + j
  else if dim =? 2 then
    let aux := m + (m ÷ p) in
    if j =? 0 then aux
    else if j =? 1 then aux + 1
    else if j =? 2 then aux + p + 1
    else if j =? 3 then aux + p + 2
    else old
  else if dim =? 3 then
    let aux := m + (m ÷ p) + (p + 1) * (m ÷ (p * p)) in
    if j =? 0 then aux
    else if j =? 1 then aux + 1
    else if j =? 2 then aux + p + 1
    else if j =? 3 then aux + p + 2
    else if j =? 4 then aux + (p + 1) * (p + 1)
    else if j =? 5 then aux + (p + 1) * (p + 1) + 1
    else if j =? 6 then aux + (p + 1) * (p + 1) + p + 1
    else if j =? 7 then aux + (p + 1) * (p + 1) + p + 2
    else old
  else old.

(** The sizes and the table; [Sub2Ind0] is the freshly sized table. *)
Definition FillSubcell2CellDof (old : Z * Z) (Sub2Ind0 : Table)
  : Z * Z * Table :=
  let numSubcells := fst (subcell_counts old) in
  let numDofsSubcell := snd (subcell_counts old) in
  (numSubcells, numDofsSubcell,
   fold_left
     (fun T m =>
        fold_left (fun T j => mset T m j (sub_value m j (T m j)))
                  (zrange (Z.to_nat numDofsSubcell)) T)
     (zrange (Z.to_nat numSubcells)) Sub2Ind0).

(** the dofs per element of the tensor-product element of order [p] *)
Definition element_dofs : Z := if dim =? 1 then p + 1
                               else if dim =? 2 then (p + 1) * (p + 1)
                               else (p + 1) * (p + 1) * (p + 1).

Lemma fold_left_cell {A : Type} (f : Table -> A -> Table) (g : A -> bool)
  (v : Z) (l : list A) (T : Table) (m j : Z) :
  (forall T a, f T a m j = if g a then v else T m j) ->
  fold_left f l T m j = if existsb g l then v else T m j.
Proof.
  intros Hf. revert T. induction l as [|a l IH]; intros T; cbn [fold_left existsb].
  - reflexivity.
  - rewrite IH, Hf. destruct (g a), (existsb g l); reflexivity.
Qed.

Lemma sub_value_old (m j old old' : Z) :
  1 <= dim <= 3 -> 0 <= j < snd (subcell_counts (0, 0)) ->
  sub_value m j old = sub_value m j old'.
Proof.
  unfold subcell_counts, sub_value. intros Hdim.
  destruct (Z.eqb_spec dim 1); [reflexivity|].
  destruct (Z.eqb_spec dim 2).
  - cbn [snd]. cbv zeta. intros Hj.
    assert (Hj' : j = 0 \/ j = 1 \/ j = 2 \/ j = 3) by lia.
    destruct Hj' as [-> | [-> | [-> | ->]]]; reflexivity.
  - destruct (Z.eqb_spec dim 3); [|lia]. cbn [snd]. cbv zeta. intros Hj.
    assert (Hj' : j = 0 \/ j = 1 \/ j = 2 \/ j = 3 \/ j = 4 \/ j = 5 \/ j = 6
                  \/ j = 7) by lia.
    destruct Hj' as [-> | [-> | [-> | [-> | [-> | [-> | [-> | ->]]]]]]];
      reflexivity.
Qed.

Lemma counts_any (old : Z * Z) :
  1 <= dim <= 3 -> subcell_counts old = subcell_counts (0, 0).
Proof.
  intros Hdim. unfold subcell_counts.
  destruct (Z.eqb_spec dim 1); [reflexivity|].
  destruct (Z.eqb_spec dim 2); [reflexivity|].
  destruct (Z.eqb_spec dim 3); [reflexivity | lia].
Qed.

(** every in-range entry of the table is what the loop body assigns *)
Lemma FillSubcell2CellDof_entry (old : Z * Z) (Sub2Ind0 : Table) (m j : Z) :
  1 <= dim <= 3 ->
  0 <= m < fst (subcell_counts (0, 0)) ->
  0 <= j < snd (subcell_counts (0, 0)) ->
  snd (FillSubcell2CellDof old Sub2Ind0) m j = sub_value m j 0.
Proof.
  intros Hdim Hm Hj. unfold FillSubcell2CellDof. cbv zeta. cbn [snd].
  rewrite (counts_any old Hdim).
  set (nS := fst (subcell_counts (0, 0))) in *.
  set (nD := snd (subcell_counts (0, 0))) in *.
  rewrite (fold_left_cell _
             (fun m0 => (m =? m0) && existsb (Z.eqb j) (zrange (Z.to_nat nD)))
             (sub_value m j 0) _ Sub2Ind0 m j).
  - replace (existsb _ (zrange (Z.to_nat nS))) with true; [reflexivity|].
    symmetry. apply existsb_exists. exists m.
    split; [apply in_zrange; lia|]. rewrite Z.eqb_refl. cbn [andb].
    apply NeighborDofs.existsb_zrange. lia.
  - intros T m0.
    rewrite (fold_left_cell _ (fun j0 => (m =? m0) && (j =? j0))
               (sub_value m j 0) _ T m j).
    + destruct (m =? m0); cbn [andb]; [reflexivity|].
      now rewrite NeighborDofs.existsb_never.
    + intros T1 j0. unfold mset.
      destruct (Z.eqb_spec m m0) as [->|]; [|reflexivity].
      destruct (Z.eqb_spec j j0) as [->|]; [|reflexivity].
      cbn [andb]. now apply sub_value_old.
Qed.

End Fill.

(** X14. For a segment, quadrilateral or hexahedron of order [p >= 1],
    every entry [Sub2Ind(m, j)] of the table ([m < numSubcells],
    [j < numDofsSubcell]) is a local dof number of the element:
    [0 <= Sub2Ind(m, j) < (p+1)^dim]. *)
Theorem Sub2Ind_in_range (dim p : Z) (old : Z * Z) (Sub2Ind0 : Table)
  (m j : Z) :
  1 <= dim <= 3 -> 1 <= p ->
  let r := FillSubcell2CellDof dim p old Sub2Ind0 in
  let numSubcells := fst (fst r) in
  let numDofsSubcell := snd (fst r) in
  let Sub2Ind := snd r in
  0 <= m < numSubcells -> 0 <= j < numDofsSubcell ->
  0 <= Sub2Ind m j < element_dofs dim p.
Proof.
  intros Hdim Hp r numSubcells numDofsSubcell Sub2Ind.
  pose proof (FillSubcell2CellDof_entry dim p old Sub2Ind0 m j Hdim) as He.
  subst numSubcells numDofsSubcell Sub2Ind r.
  unfold FillSubcell2CellDof at 1 2. cbv zeta. cbn [fst snd].
  rewrite (counts_any dim p old Hdim).
  intros Hm Hj. rewrite (He Hm Hj). clear He.
  unfold subcell_counts in Hm, Hj. unfold sub_value, element_dofs.
  destruct (Z.eqb_spec dim 1); [cbn [fst snd] in *; lia|].
  destruct (Z.eqb_spec dim 2).
  - cbn [fst snd] in *. cbv zeta.
    rewrite Z.quot_div_nonneg by lia.
    assert (Hq : 0 <= m / p < p).
    { split; [apply Z.div_pos; lia | apply Z.div_lt_upper_bound; lia]. }
    revert Hq. generalize (m / p). intros q Hq.
    assert (Hj' : j = 0 \/ j = 1 \/ j = 2 \/ j = 3) by lia.
    destruct Hj' as [-> | [-> | [-> | ->]]]; cbn [Z.eqb Pos.eqb]; nia.
  - destruct (Z.eqb_spec dim 3); [|lia]. cbn [fst snd] in *. cbv zeta.
    rewrite !Z.quot_div_nonneg by nia.
    assert (Hq : 0 <= m / p < p * p).
    { split; [apply Z.div_pos; lia | apply Z.div_lt_upper_bound; nia]. }
    assert (Hr : 0 <= m / (p * p) < p).
    { split; [apply Z.div_pos; nia | apply Z.div_lt_upper_bound; nia]. }
    revert Hq Hr. generalize (m / p), (m / (p * p)). intros q r Hq Hr.
    assert (Hj' : j = 0 \/ j = 1 \/ j = 2 \/ j = 3 \/ j = 4 \/ j = 5 \/ j = 6
                  \/ j = 7) by lia.
    assert (Hr' : 0 <= (p + 1) * r <= (p + 1) * (p - 1)) by nia.
    destruct Hj' as [-> | [-> | [-> | [-> | [-> | [-> | [-> | ->]]]]]]];
      cbn [Z.eqb Pos.eqb]; nia.
Qed.

Lemma Sub2Ind_in_range_witness :
  0 <= snd (FillSubcell2CellDof 2 2 (0, 0) (fun _ _ => 0)) 3 3
  < element_dofs 2 2.
Proof.
  apply (Sub2Ind_in_range 2 2 (0, 0) (fun _ _ => 0) 3 3);
    try lia; vm_compute; split; (discriminate || reflexivity).
Defined.

(** the local dof number of the node [(a, b, c)] of the lattice of
    [(p+1)^3] nodes *)
Definition node (p a b c : Z) : Z := (c * (p + 1) + b) * (p + 1) + a.

(** X15. The subcells tile the lattice of the nodes of the element: the
    subcell in column [col], row [row] and layer [lay] has the number
    [(lay*p + row)*p + col], and its dof [dx + 2*dy + 4*dz]
    ([dx, dy, dz] in [{0, 1}]) is the node
    [(col + dx, row + dy, lay + dz)].  In two dimensions the same holds
    with one layer, in one dimension with one row and one layer. *)
Theorem Sub2Ind_lattice (dim p : Z) (old : Z * Z) (Sub2Ind0 : Table)
  (col row lay dx dy dz : Z) :
  1 <= dim <= 3 -> 1 <= p ->
  0 <= col < p -> 0 <= row < p -> 0 <= lay < p ->
  (dim < 2 -> row = 0) -> (dim < 3 -> lay = 0) ->
  0 <= dx <= 1 -> 0 <= dy <= 1 -> 0 <= dz <= 1 ->
  (dim < 2 -> dy = 0) -> (dim < 3 -> dz = 0) ->
  snd (FillSubcell2CellDof dim p old Sub2Ind0)
    ((lay * p + row) * p + col) (dx + 2 * dy + 4 * dz)
  = node p (col + dx) (row + dy) (lay + dz).
Proof.
  intros Hdim Hp Hcol Hrow Hlay Hrow0 Hlay0 Hdx Hdy Hdz Hdy0 Hdz0.
  rewrite FillSubcell2CellDof_entry; [|exact Hdim| |].
  - unfold sub_value, node. remember (dx + 2 * dy + 4 * dz) as j eqn:Ej.
    destruct (Z.eqb_spec dim 1).
    { subst j. rewrite Hrow0, Hlay0, Hdy0, Hdz0 by lia. ring. }
    destruct (Z.eqb_spec dim 2).
    { rewrite Hlay0 by lia. rewrite Hdz0 in * by lia. cbv zeta.
      replace ((0 * p + row) * p + col) with (col + row * p) by ring.
      rewrite Z.quot_div_nonneg by nia.
      rewrite Z.div_add by lia. rewrite (Z.div_small col p) by lia.
      assert (Hdx' : dx = 0 \/ dx = 1) by lia.
      assert (Hdy' : dy = 0 \/ dy = 1) by lia.
      destruct Hdx' as [-> | ->], Hdy' as [-> | ->]; vm_compute in Ej; subst j;
        cbn [Z.eqb Pos.eqb]; ring. }
    destruct (Z.eqb_spec dim 3); [|lia]. cbv zeta.
    rewrite !Z.quot_div_nonneg by nia.
    replace ((lay * p + row) * p + col) with (col + (lay * p + row) * p)
      by ring.
    rewrite Z.div_add by lia. rewrite (Z.div_small col p) by lia.
    replace (col + (lay * p + row) * p) with ((col + row * p) + lay * (p * p))
      by ring.
    rewrite Z.div_add by nia. rewrite (Z.div_small (col + row * p) (p * p))
      by nia.
    assert (Hdx' : dx = 0 \/ dx = 1) by lia.
    assert (Hdy' : dy = 0 \/ dy = 1) by lia.
    assert (Hdz' : dz = 0 \/ dz = 1) by lia.
    destruct Hdx' as [-> | ->], Hdy' as [-> | ->], Hdz' as [-> | ->];
      vm_compute in Ej; subst j; cbn [Z.eqb Pos.eqb]; ring.
  - unfold subcell_counts.
    destruct (Z.eqb_spec dim 1); [cbn [fst]; rewrite Hrow0, Hlay0 by lia; lia|].
    destruct (Z.eqb_spec dim 2); [cbn [fst]; rewrite Hlay0 by lia; nia|].
    destruct (Z.eqb_spec dim 3); [|lia]. cbn [fst]. nia.
  - unfold subcell_counts.
    destruct (Z.eqb_spec dim 1); [cbn [snd]; rewrite Hdy0, Hdz0 by lia; lia|].
    destruct (Z.eqb_spec dim 2); [cbn [snd]; rewrite Hdz0 by lia; lia|].
    destruct (Z.eqb_spec dim 3); [|lia]. cbn [snd]. lia.
Qed.

Lemma Sub2Ind_lattice_witness :
  snd (FillSubcell2CellDof 3 2 (0, 0) (fun _ _ => 0))
    ((1 * 2 + 0) * 2 + 1) (1 + 2 * 1 + 4 * 1)
  = node 2 (1 + 1) (0 + 1) (1 + 1).
Proof.
  apply (Sub2Ind_lattice 3 2 (0, 0) (fun _ _ => 0) 1 0 1 1 1 1); lia.
Defined.

End Subcell2CellDof.

(** ** More on the face-flux stencil *)

Module FluxFacts.
Import Assembly.

(** A loop whose passes each subtract an amount from one entry *)
Lemma fold_left_subtract {A : Type} (f : DTensor -> A -> DTensor)
  (val : A -> Q) (l : list A) (T : DTensor) (k s idx : Z) :
  (forall T a, In a l -> f T a k s idx == T k s idx - val a) ->
  fold_left f l T k s idx == T k s idx - qsum val l.
Proof.
  revert T. induction l as [|a l IH]; intros T Hf; cbn [fold_left].
  - rewrite qsum_nil. lra.
  - rewrite IH by (intros; apply Hf; now right).
    rewrite Hf by now left. rewrite qsum_cons. lra.
Qed.

Lemma fold_left_untouched {A : Type} (f : DTensor -> A -> DTensor)
  (l : list A) (T : DTensor) (k s idx : Z) :
  (forall T a, f T a k s idx = T k s idx) ->
  fold_left f l T k s idx = T k s idx.
Proof.
  intros Hf. revert T. induction l as [|a l IH]; intros T; cbn [fold_left].
  - reflexivity.
  - now rewrite IH, Hf.
Qed.

(** a sum with one term that is not zero *)
Lemma qsum_single (f : Z -> Q) (a0 : Z) (l : list Z) :
  List.NoDup l -> In a0 l ->
  (forall a, In a l -> a <> a0 -> f a == 0) ->
  qsum f l == f a0.
Proof.
  intros Hnd Hin Hz.
  rewrite (SparseFacts.qsum_pick f a0 l Hnd Hin).
  rewrite (qsum_zero (fun k => if (k =? a0)%Z then 0 else f k)).
  - lra.
  - intros a Ha. destruct (Z.eqb_spec a a0); [reflexivity | now apply Hz].
Qed.

Section FluxTerms.

Variable exec_mode : Z.
Variable BdrDofs : Z -> Z -> Z.
Variables ne numBdrs numDofs : nat.
Variable points : Z -> Z -> list FacePoint.

Local Abbreviation n := (Z.of_nat numDofs).

(** what one quadrature point takes off the entry [(i, j)] of the slot *)
Definition point_term (BdrID : Z) (pt : FacePoint) (i j : Z) : Q :=
  weight pt * face_weight pt * shape pt (BdrDofs i BdrID)
  * normal_velocity exec_mode pt * shape pt (BdrDofs j BdrID).

Lemma flux_point_other (k BdrID : Z) (T : DTensor) (pt : FacePoint)
  (k' s' idx : Z) :
  (k', s') <> (k, BdrID) ->
  flux_point exec_mode BdrDofs numDofs k BdrID T pt k' s' idx = T k' s' idx.
Proof.
  intros Hne. unfold flux_point. cbv zeta.
  apply fold_left_untouched. intros T1 i.
  apply fold_left_untouched. intros T2 j. unfold dtset.
  destruct (Z.eqb_spec k' k) as [->|]; [|reflexivity].
  destruct (Z.eqb_spec s' BdrID) as [->|]; [|reflexivity].
  now contradiction Hne.
Qed.

Lemma flux_point_entry (k BdrID : Z) (T : DTensor) (pt : FacePoint) (i j : Z) :
  (0 <= i < n)%Z -> (0 <= j < n)%Z ->
  flux_point exec_mode BdrDofs numDofs k BdrID T pt k BdrID (i * n + j)%Z
  == T k BdrID (i * n + j)%Z - point_term BdrID pt i j.
Proof.
  intros Hi Hj. unfold flux_point. cbv zeta.
  rewrite (fold_left_subtract _
             (fun i0 => if (i0 =? i)%Z then point_term BdrID pt i j else 0)).
  - rewrite (qsum_single _ i (zrange numDofs) (NoDup_zrange _)
               (proj2 (in_zrange _ _) Hi)).
    + rewrite Z.eqb_refl. reflexivity.
    + intros a _ Ha. destruct (Z.eqb_spec a i); [contradiction | reflexivity].
  - intros T1 i0 Hi0. apply in_zrange in Hi0.
    rewrite (fold_left_subtract _
               (fun j0 => if ((i0 =? i) && (j0 =? j))%Z
                          then point_term BdrID pt i j else 0)).
    + destruct (Z.eqb_spec i0 i) as [->|Hne]; cbn [andb].
      * rewrite (qsum_single _ j (zrange numDofs) (NoDup_zrange _)
                   (proj2 (in_zrange _ _) Hj)).
        -- rewrite Z.eqb_refl. reflexivity.
        -- intros a _ Ha.
           destruct (Z.eqb_spec a j); [contradiction | reflexivity].
      * rewrite qsum_zero by reflexivity. reflexivity.
    + intros T2 j0 Hj0. apply in_zrange in Hj0.
      unfold dtset. rewrite !Z.eqb_refl. cbn [andb].
      destruct (Z.eqb_spec i0 i) as [->|Hne]; cbn [andb].
      * destruct (Z.eqb_spec j0 j) as [->|Hne].
        -- rewrite Z.eqb_refl. unfold point_term. ring.
        -- destruct (Z.eqb_spec (i * n + j) (i * n + j0))%Z; [lia | lra].
      * destruct (Z.eqb_spec (i * n + j) (i0 * n + j0))%Z as [Heq|]; [|lra].
        exfalso. apply Hne. nia.
Qed.

(** the stencil of a slot is symmetric in its two dof indices *)
Definition symmetric_stencil (T : DTensor) : Prop :=
  forall k s i j, (0 <= i < n)%Z -> (0 <= j < n)%Z ->
    T k s (i * n + j)%Z == T k s (j * n + i)%Z.

Lemma point_term_sym (BdrID : Z) (pt : FacePoint) (i j : Z) :
  point_term BdrID pt i j == point_term BdrID pt j i.
Proof. unfold point_term. ring. Qed.

Lemma flux_point_symmetric (k BdrID : Z) (T : DTensor) (pt : FacePoint) :
  symmetric_stencil T ->
  symmetric_stencil (flux_point exec_mode BdrDofs numDofs k BdrID T pt).
Proof.
  intros HT k' s' i j Hi Hj.
  destruct (Z.eq_dec k' k) as [->|Hk].
  - destruct (Z.eq_dec s' BdrID) as [->|Hs].
    + rewrite !flux_point_entry by assumption.
      rewrite (HT k BdrID i j Hi Hj), (point_term_sym BdrID pt i j). reflexivity.
    + rewrite !flux_point_other by congruence. now apply HT.
  - rewrite !flux_point_other by congruence. now apply HT.
Qed.

Lemma flux_loops_symmetric (T : DTensor) :
  symmetric_stencil T ->
  symmetric_stencil (flux_loops exec_mode BdrDofs ne numBdrs numDofs points T).
Proof.
  intros HT. unfold flux_loops.
  apply fold_left_invariant; [exact HT|]. intros T1 k _ HT1.
  apply fold_left_invariant; [exact HT1|]. intros T2 i _ HT2.
  unfold ComputeFluxTerms.
  apply fold_left_invariant; [exact HT2|]. intros T3 pt _ HT3.
  now apply flux_point_symmetric.
Qed.

End FluxTerms.

(** X16. One call of [ComputeFluxTerms(k, BdrID)] takes
    [Σ_l w_l |F_l| φ_i(x_l) vn_l φ_j(x_l)] (the sum over the face quadrature
    points) off the entry [(k, BdrID, i*numDofs + j)], and leaves the entries
    of every other element and of every other slot as they are. *)
Theorem ComputeFluxTerms_entry (exec_mode : Z) (BdrDofs : Z -> Z -> Z)
  (numDofs : nat) (points : Z -> Z -> list FacePoint) (k BdrID : Z)
  (T : DTensor) (i j : Z) :
  (0 <= i < Z.of_nat numDofs)%Z -> (0 <= j < Z.of_nat numDofs)%Z ->
  let T' := ComputeFluxTerms exec_mode BdrDofs numDofs points k BdrID T in
  T' k BdrID (i * Z.of_nat numDofs + j)%Z
  == T k BdrID (i * Z.of_nat numDofs + j)%Z
     - qsum (fun pt =>
               weight pt * face_weight pt * shape pt (BdrDofs i BdrID)
               * normal_velocity exec_mode pt * shape pt (BdrDofs j BdrID))
            (points k BdrID)
  /\ forall k' s' idx, (k', s') <> (k, BdrID) -> T' k' s' idx = T k' s' idx.
Proof.
  intros Hi Hj T'. subst T'. unfold ComputeFluxTerms. split.
  - apply (fold_left_subtract _
             (fun pt => point_term exec_mode BdrDofs BdrID pt i j)).
    intros T1 pt _. now apply flux_point_entry.
  - intros k' s' idx Hne. apply fold_left_untouched.
    intros T1 pt. now apply flux_point_other.
Qed.

Lemma ComputeFluxTerms_entry_witness :
  let T' := ComputeFluxTerms 0 (VertexBounds.BdrDofs_segment 1) 1
              (segment_points 1) 0 0 zero_tensor in
  T' 0%Z 0%Z (0 * Z.of_nat 1 + 0)%Z
  == zero_tensor 0%Z 0%Z (0 * Z.of_nat 1 + 0)%Z
     - qsum (fun pt =>
               weight pt * face_weight pt
               * shape pt (VertexBounds.BdrDofs_segment 1 0 0)
               * normal_velocity 0 pt
               * shape pt (VertexBounds.BdrDofs_segment 1 0 0))
            (segment_points 1 0%Z 0%Z)
  /\ forall k' s' idx,
       (k', s') <> (0%Z, 0%Z) -> T' k' s' idx = zero_tensor k' s' idx.
Proof.
  apply (ComputeFluxTerms_entry 0 (VertexBounds.BdrDofs_segment 1) 1
           (segment_points 1) 0 0 zero_tensor 0 0); simpl; lia.
Defined.

(** X17. The stencil is symmetric in the two dof indices of a slot,
    [bdrInt(k, s, i*numDofs + j) = bdrInt(k, s, j*numDofs + i)], when the
    constructor of [Assembly] returns and after every reassembly in
    [Mult]. *)
Theorem bdrInt_symmetric (exec_mode : Z) (BdrDofs : Z -> Z -> Z)
  (ne numBdrs numDofs : nat) (points : Z -> Z -> list FacePoint)
  (MonoType : MONOTYPE) (OptScheme : bool) (k s i j : Z) :
  (0 <= i < Z.of_nat numDofs)%Z -> (0 <= j < Z.of_nat numDofs)%Z ->
  let bdrInt0 :=
    Assembly_bdrInt exec_mode BdrDofs ne numBdrs numDofs points
      MonoType OptScheme in
  bdrInt0 k s (i * Z.of_nat numDofs + j)%Z
  == bdrInt0 k s (j * Z.of_nat numDofs + i)%Z
  /\ forall bdrInt, symmetric_stencil numDofs bdrInt ->
       let bdrInt1 := Mult_bdrInt exec_mode BdrDofs ne numBdrs numDofs points
                        MonoType OptScheme bdrInt in
       bdrInt1 k s (i * Z.of_nat numDofs + j)%Z
       == bdrInt1 k s (j * Z.of_nat numDofs + i)%Z.
Proof.
  intros Hi Hj bdrInt0.
  assert (Hz : symmetric_stencil numDofs zero_tensor)
    by (intros ? ? ? ? ? ?; reflexivity).
  assert (Hl : symmetric_stencil numDofs
                 (flux_loops exec_mode BdrDofs ne numBdrs numDofs points
                    zero_tensor)) by now apply flux_loops_symmetric.
  split.
  - unfold bdrInt0, Assembly_bdrInt.
    destruct (NeedBdr MonoType OptScheme); [|now apply Hz].
    destruct (exec_mode =? 0)%Z; [now apply Hl | now apply Hz].
  - intros bdrInt Hb bdrInt1. unfold bdrInt1, Mult_bdrInt.
    destruct ((exec_mode =? 1)%Z && NeedBdr MonoType OptScheme);
      [now apply Hl | now apply Hb].
Qed.

(** two dofs on the slot and two quadrature points, for a stencil with
    entries off the diagonal *)
Definition pair_points : Z -> Z -> list FacePoint :=
  fun _ _ =>
    [{| weight := 1 # 2; face_weight := 1;
        shape := fun d => if (d =? 0)%Z then 3 # 4 else 1 # 4;
        v_dot_n := - (1) |};
     {| weight := 1 # 2; face_weight := 1;
        shape := fun d => if (d =? 0)%Z then 1 # 4 else 3 # 4;
        v_dot_n := - (2) |}].

Lemma bdrInt_symmetric_witness :
  Assembly_bdrInt 0 (fun j _ => j) 1 1 2 pair_points ResDist false
    0%Z 0%Z (0 * Z.of_nat 2 + 1)%Z
  == Assembly_bdrInt 0 (fun j _ => j) 1 1 2 pair_points ResDist false
       0%Z 0%Z (1 * Z.of_nat 2 + 0)%Z.
Proof.
  refine (proj1 (bdrInt_symmetric 0 (fun j _ => j) 1 1 2 pair_points ResDist
                   false 0 0 0 1 _ _)); simpl; lia.
Defined.

Example pair_stencil :
  Assembly_bdrInt 0 (fun j _ => j) 1 1 2 pair_points ResDist false 0%Z 0%Z 1%Z
  == 9 # 32.
Proof. vm_compute. reflexivity. Qed.

(** A slot through which nothing flows in adds nothing: in transport mode
    when [v.n >= 0] at every quadrature point of the slot, in remap mode when
    [v.n <= 0] there. *)
Lemma no_inflow_unchanged (exec_mode : Z) (BdrDofs : Z -> Z -> Z)
  (numDofs : nat) (points : Z -> Z -> list FacePoint) (k BdrID : Z)
  (T : DTensor) :
  (forall pt, In pt (points k BdrID) ->
     if (exec_mode =? 0)%Z then 0 <= v_dot_n pt else v_dot_n pt <= 0) ->
  forall k' s' idx,
    ComputeFluxTerms exec_mode BdrDofs numDofs points k BdrID T k' s' idx
    == T k' s' idx.
Proof.
  intros Hout. unfold ComputeFluxTerms.
  apply (fold_left_invariant
           (fun T' => forall k' s' idx, T' k' s' idx == T k' s' idx)).
  - reflexivity.
  - intros T1 pt Hpt HT1. unfold flux_point. cbv zeta.
    assert (Hvn : normal_velocity exec_mode pt == 0).
    { specialize (Hout pt Hpt). unfold normal_velocity.
      destruct (exec_mode =? 0)%Z.
      - apply Q.min_l. exact Hout.
      - rewrite (Q.max_l 0 (v_dot_n pt) Hout). ring. }
    apply (fold_left_invariant
             (fun T' => forall k' s' idx, T' k' s' idx == T k' s' idx));
      [exact HT1|].
    intros T2 i _ HT2.
    apply (fold_left_invariant
             (fun T' => forall k' s' idx, T' k' s' idx == T k' s' idx));
      [exact HT2|].
    intros T3 j _ HT3 k' s' idx. unfold dtset.
    destruct ((k' =? k) && (s' =? BdrID)
              && (idx =? i * Z.of_nat numDofs + j))%Z eqn:E; [|apply HT3].
    apply andb_prop in E. destruct E as [E E3].
    apply andb_prop in E. destruct E as [E1 E2].
    apply Z.eqb_eq in E1, E2, E3. subst k' s' idx.
    rewrite Hvn, <- (HT3 k BdrID (i * Z.of_nat numDofs + j)%Z). ring.
Qed.

(** in transport mode the assembled stencil of an outflow slot is zero *)
Lemma outflow_stencil_zero (BdrDofs : Z -> Z -> Z)
  (ne numBdrs numDofs : nat) (points : Z -> Z -> list FacePoint)
  (MonoType : MONOTYPE) (OptScheme : bool) (k s : Z) :
  (forall pt, In pt (points k s) -> 0 <= v_dot_n pt) ->
  forall idx,
    Assembly_bdrInt 0 BdrDofs ne numBdrs numDofs points MonoType OptScheme
      k s idx == 0.
Proof.
  intros Hout. unfold Assembly_bdrInt.
  destruct (NeedBdr MonoType OptScheme); [|reflexivity].
  cbn [Z.eqb]. unfold flux_loops.
  apply (fold_left_invariant (fun T => forall idx, T k s idx == 0));
    [reflexivity|].
  intros T1 k0 _ HT1.
  apply (fold_left_invariant (fun T => forall idx, T k s idx == 0));
    [exact HT1|].
  intros T2 s0 _ HT2 idx.
  destruct (Z.eq_dec k0 k) as [->|Hk].
  - destruct (Z.eq_dec s0 s) as [->|Hs].
    + rewrite (no_inflow_unchanged 0 BdrDofs numDofs points k s T2 Hout).
      apply HT2.
    + unfold ComputeFluxTerms. rewrite fold_left_untouched; [apply HT2|].
      intros T3 pt. apply flux_point_other. congruence.
  - unfold ComputeFluxTerms. rewrite fold_left_untouched; [apply HT2|].
    intros T3 pt. apply flux_point_other. congruence.
Qed.

End FluxFacts.

(** ** More on LinearFluxLumping *)

Module LumpingFacts.
Import LowOrder.

(** A loop whose passes each add an amount to one entry of a vector *)
Lemma fold_left_add {A : Type} (f : Vector -> A -> Vector)
  (val : A -> Q) (l : list A) (y : Vector) (d : Z) :
  (forall y a, In a l -> f y a d == y d + val a) ->
  fold_left f l y d == y d + qsum val l.
Proof.
  revert y. induction l as [|a l IH]; intros y Hf; cbn [fold_left].
  - rewrite qsum_nil. lra.
  - rewrite IH by (intros; apply Hf; now right).
    rewrite Hf by now left. rewrite qsum_cons. lra.
Qed.

Lemma fold_left_keeps {A : Type} (f : Vector -> A -> Vector)
  (l : list A) (y : Vector) (d : Z) :
  (forall y a, In a l -> f y a d = y d) ->
  fold_left f l y d = y d.
Proof.
  revert y. induction l as [|a l IH]; intros y Hf; cbn [fold_left].
  - reflexivity.
  - rewrite IH by (intros; apply Hf; now right). apply Hf. now left.
Qed.

(** the order of a double sum *)
Lemma qsum_swap {A B : Type} (f : A -> B -> Q) (l1 : list A) (l2 : list B) :
  qsum (fun a => qsum (f a) l2) l1 == qsum (fun b => qsum (fun a => f a b) l1) l2.
Proof.
  induction l1 as [|a l1 IH].
  - rewrite qsum_nil. symmetry. apply qsum_zero. intros b _. apply qsum_nil.
  - assert (E : qsum (fun b => qsum (fun a0 => f a0 b) (a :: l1)) l2
                == qsum (fun b => f a b + qsum (fun a0 => f a0 b) l1) l2)
      by (apply qsum_ext; intros b _; apply (qsum_cons (fun a0 => f a0 b))).
    rewrite E, qsum_plus, qsum_cons, IH. reflexivity.
Qed.

Lemma qsum_antisymmetric {A : Type} (c : A -> A -> Q) (l : list A) :
  (forall a b, In a l -> In b l -> c a b == - c b a) ->
  qsum (fun a => qsum (c a) l) l == 0.
Proof.
  intros Hc.
  assert (H : qsum (fun a => qsum (c a) l) l
              == qsum (fun a => qsum (fun b => - c b a) l) l).
  { apply qsum_ext. intros a Ha. apply qsum_ext. intros b Hb. now apply Hc. }
  rewrite <- (qsum_swap (fun b a => - c b a) l l) in H.
  assert (H' : qsum (fun b => qsum (fun a => - c b a) l) l
               == - qsum (fun a => qsum (c a) l) l).
  { rewrite (qsum_ext (fun b => qsum (fun a => - c b a) l)
               (fun b => qsum (c b) l * - (1))).
    - rewrite qsum_scale. ring.
    - intros b _.
      rewrite (qsum_ext (fun a => - c b a) (fun a => c b a * - (1)))
        by (intros; ring).
      apply qsum_scale. }
  lra.
Qed.

Section Lumping.

Variables nd numDofs : nat.
Variable BdrDofs : Z -> Z -> Z.
Variable NbrDof : Z -> Z -> Z -> Z.
Variable bdrInt : DTensor.

Local Abbreviation n := (Z.of_nat numDofs).
Local Abbreviation dof k j := (k * Z.of_nat nd + j)%Z.
Local Abbreviation LFL := (LinearFluxLumping nd numDofs BdrDofs NbrDof bdrInt).
Local Abbreviation xD := (xDiff nd BdrDofs NbrDof).

(** what the pass [(i, j)] of the double loop adds to the dof of [i] *)
Definition lump_term (k BdrID : Z) (x alpha : Vector) (i j : Z) : Q :=
  bdrInt k BdrID (i * n + j)%Z
  * (xD k BdrID x i
     + (xD k BdrID x j - xD k BdrID x i)
       * alpha (BdrDofs i BdrID) * alpha (BdrDofs j BdrID)).

Lemma LinearFluxLumping_sum (k BdrID : Z) (x y alpha : Vector) (d : Z) :
  LFL k BdrID x y alpha d
  == y d + qsum (fun i => if (d =? dof k (BdrDofs i BdrID))%Z
                          then qsum (lump_term k BdrID x alpha i) (zrange numDofs)
                          else 0) (zrange numDofs).
Proof.
  unfold LinearFluxLumping. apply fold_left_add. intros y1 i _. cbv zeta.
  rewrite (fold_left_add _
             (fun j => if (d =? dof k (BdrDofs i BdrID))%Z
                       then lump_term k BdrID x alpha i j else 0)).
  - destruct (d =? dof k (BdrDofs i BdrID))%Z; [reflexivity|].
    rewrite qsum_zero by reflexivity. reflexivity.
  - intros y2 j _. unfold vset, lump_term.
    destruct (Z.eqb_spec d (dof k (BdrDofs i BdrID))) as [->|]; [reflexivity | lra].
Qed.

Lemma LinearFluxLumping_frame (k BdrID : Z) (x y alpha : Vector) (d : Z) :
  (forall i, (0 <= i < n)%Z -> d <> dof k (BdrDofs i BdrID)) ->
  LFL k BdrID x y alpha d = y d.
Proof.
  intros Hd. unfold LinearFluxLumping. apply fold_left_keeps.
  intros y1 i Hi. cbv zeta. apply fold_left_keeps. intros y2 j _.
  apply vset_ne. apply Hd. now apply in_zrange.
Qed.

(** the boundary dofs of the slot are distinct *)
Definition distinct_on_slot (BdrID : Z) : Prop :=
  forall i i', (0 <= i < n)%Z -> (0 <= i' < n)%Z ->
    BdrDofs i BdrID = BdrDofs i' BdrID -> i = i'.

Lemma LinearFluxLumping_dof (k BdrID : Z) (x y alpha : Vector) (i : Z) :
  distinct_on_slot BdrID -> (0 <= i < n)%Z ->
  LFL k BdrID x y alpha (dof k (BdrDofs i BdrID))
  == y (dof k (BdrDofs i BdrID))
     + qsum (lump_term k BdrID x alpha i) (zrange numDofs).
Proof.
  intros Hinj Hi. rewrite LinearFluxLumping_sum.
  rewrite (FluxFacts.qsum_single _ i (zrange numDofs) (NoDup_zrange _)
             (proj2 (in_zrange _ _) Hi)).
  - rewrite Z.eqb_refl. reflexivity.
  - intros a Ha Hne. apply in_zrange in Ha.
    destruct (Z.eqb_spec (dof k (BdrDofs i BdrID)) (dof k (BdrDofs a BdrID)))
      as [Heq|]; [|reflexivity].
    exfalso. apply Hne. symmetry. apply (Hinj i a Hi Ha). lia.
Qed.

End Lumping.

(** X18. [LinearFluxLumping(k, nd, BdrID, x, y, alpha)] changes [y] only at
    the boundary dofs [k*nd + BdrDofs(i, BdrID)] of the slot; when these are
    distinct, the dof of [i] receives
    [Σ_j bdrInt(k, BdrID, i*numDofs+j) * (xDiff(i) + (xDiff(j) - xDiff(i)) *
    alpha_i * alpha_j)]. *)
Theorem LinearFluxLumping_closed_form (nd numDofs : nat)
  (BdrDofs : Z -> Z -> Z) (NbrDof : Z -> Z -> Z -> Z) (bdrInt : DTensor)
  (k BdrID : Z) (x y alpha : Vector) :
  distinct_on_slot numDofs BdrDofs BdrID ->
  let y' := LinearFluxLumping nd numDofs BdrDofs NbrDof bdrInt k BdrID x y alpha in
  let xD := xDiff nd BdrDofs NbrDof k BdrID x in
  (forall i, (0 <= i < Z.of_nat numDofs)%Z ->
     y' (k * Z.of_nat nd + BdrDofs i BdrID)%Z
     == y (k * Z.of_nat nd + BdrDofs i BdrID)%Z
        + qsum (fun j =>
                  bdrInt k BdrID (i * Z.of_nat numDofs + j)%Z
                  * (xD i + (xD j - xD i)
                            * alpha (BdrDofs i BdrID) * alpha (BdrDofs j BdrID)))
               (zrange numDofs))
  /\ (forall d,
        (forall i, (0 <= i < Z.of_nat numDofs)%Z ->
           d <> (k * Z.of_nat nd + BdrDofs i BdrID)%Z) ->
        y' d = y d).
Proof.
  intros Hinj y' xD. split.
  - intros i Hi. unfold y'.
    now rewrite (LinearFluxLumping_dof nd numDofs BdrDofs NbrDof bdrInt
                   k BdrID x y alpha i Hinj Hi).
  - intros d Hd. now apply LinearFluxLumping_frame.
Qed.

(** X19. With [alpha = 0] (the low order solution) the dof of [i] receives
    the lumped flux [(Σ_j bdrInt(i,j)) * xDiff(i)], with [alpha = 1] (the
    Galerkin solution) the consistent flux [Σ_j bdrInt(i,j) * xDiff(j)]. *)
Theorem LinearFluxLumping_alpha (nd numDofs : nat)
  (BdrDofs : Z -> Z -> Z) (NbrDof : Z -> Z -> Z -> Z) (bdrInt : DTensor)
  (k BdrID : Z) (x y : Vector) (i : Z) :
  distinct_on_slot numDofs BdrDofs BdrID ->
  (0 <= i < Z.of_nat numDofs)%Z ->
  let d := (k * Z.of_nat nd + BdrDofs i BdrID)%Z in
  let xD := xDiff nd BdrDofs NbrDof k BdrID x in
  let b := fun j => bdrInt k BdrID (i * Z.of_nat numDofs + j)%Z in
  LinearFluxLumping nd numDofs BdrDofs NbrDof bdrInt k BdrID x y (fun _ => 0) d
  == y d + qsum b (zrange numDofs) * xD i
  /\ LinearFluxLumping nd numDofs BdrDofs NbrDof bdrInt k BdrID x y (fun _ => 1) d
     == y d + qsum (fun j => b j * xD j) (zrange numDofs).
Proof.
  intros Hinj Hi d xD b. unfold d. split.
  - rewrite (LinearFluxLumping_dof nd numDofs BdrDofs NbrDof bdrInt
               k BdrID x y (fun _ => 0) i Hinj Hi).
    rewrite <- qsum_scale.
    rewrite (qsum_ext (lump_term nd numDofs BdrDofs NbrDof bdrInt k BdrID x
                         (fun _ => 0) i)
               (fun j => b j * xD i)); [reflexivity|].
    intros j _. unfold lump_term, b, xD. ring.
  - rewrite (LinearFluxLumping_dof nd numDofs BdrDofs NbrDof bdrInt
               k BdrID x y (fun _ => 1) i Hinj Hi).
    rewrite (qsum_ext (lump_term nd numDofs BdrDofs NbrDof bdrInt k BdrID x
                         (fun _ => 1) i)
               (fun j => b j * xD j)); [reflexivity|].
    intros j _. unfold lump_term, b, xD. ring.
Qed.

(** X20. The limiter [alpha] moves flux between the dofs of a slot but does
    not change its total: for a stencil that is symmetric on the slot, the
    sum over the boundary dofs of what [LinearFluxLumping] adds is
    [Σ_i Σ_j bdrInt(i,j) * xDiff(i)], whatever [alpha] is. *)
Theorem LinearFluxLumping_total (nd numDofs : nat)
  (BdrDofs : Z -> Z -> Z) (NbrDof : Z -> Z -> Z -> Z) (bdrInt : DTensor)
  (k BdrID : Z) (x y alpha : Vector) :
  distinct_on_slot numDofs BdrDofs BdrID ->
  (forall i j, (0 <= i < Z.of_nat numDofs)%Z -> (0 <= j < Z.of_nat numDofs)%Z ->
     bdrInt k BdrID (i * Z.of_nat numDofs + j)%Z
     == bdrInt k BdrID (j * Z.of_nat numDofs + i)%Z) ->
  let y' := LinearFluxLumping nd numDofs BdrDofs NbrDof bdrInt k BdrID x y alpha in
  let xD := xDiff nd BdrDofs NbrDof k BdrID x in
  qsum (fun i => y' (k * Z.of_nat nd + BdrDofs i BdrID)%Z
                 - y (k * Z.of_nat nd + BdrDofs i BdrID)%Z) (zrange numDofs)
  == qsum (fun i =>
             qsum (fun j => bdrInt k BdrID (i * Z.of_nat numDofs + j)%Z * xD i)
                  (zrange numDofs))
          (zrange numDofs).
Proof.
  intros Hinj Hsym y' xD.
  set (c := fun i j =>
              bdrInt k BdrID (i * Z.of_nat numDofs + j)%Z
              * ((xD j - xD i) * alpha (BdrDofs i BdrID)
                 * alpha (BdrDofs j BdrID))).
  assert (Hc : qsum (fun i => qsum (c i) (zrange numDofs)) (zrange numDofs) == 0).
  { apply qsum_antisymmetric. intros i j Hi Hj. apply in_zrange in Hi, Hj.
    unfold c. rewrite (Hsym i j Hi Hj). ring. }
  rewrite (qsum_ext _
             (fun i =>
                qsum (fun j => bdrInt k BdrID (i * Z.of_nat numDofs + j)%Z * xD i)
                     (zrange numDofs)
                + qsum (c i) (zrange numDofs))).
  - rewrite qsum_plus, Hc. lra.
  - intros i Hi. apply in_zrange in Hi. unfold y'.
    rewrite (LinearFluxLumping_dof nd numDofs BdrDofs NbrDof bdrInt
               k BdrID x y alpha i Hinj Hi).
    rewrite <- qsum_plus.
    assert (E : qsum (lump_term nd numDofs BdrDofs NbrDof bdrInt k BdrID x alpha i)
                  (zrange numDofs)
                == qsum (fun j =>
                           bdrInt k BdrID (i * Z.of_nat numDofs + j)%Z * xD i
                           + c i j) (zrange numDofs)).
    { apply qsum_ext. intros j _. unfold lump_term, c, xD. ring. }
    rewrite E. ring.
Qed.

(** a symmetric stencil on a slot with two dofs *)
Definition stencil2 : DTensor :=
  fun _ _ idx => nth (Z.to_nat idx) [1; 1 # 2; 1 # 2; 2] 0.

Definition ramp : Vector := fun d => inject_Z d.

Lemma distinct_identity (numDofs : nat) (BdrID : Z) :
  distinct_on_slot numDofs (fun j _ => j) BdrID.
Proof. intros i i' _ _ H. exact H. Qed.

Lemma LinearFluxLumping_closed_form_witness :
  let y' := LinearFluxLumping 2 2 (fun j _ => j) (fun _ _ _ => (-1)%Z) stencil2
              0 0 ramp (fun _ => 0) (fun _ => 1 # 2) in
  let xD := xDiff 2 (fun j _ => j) (fun _ _ _ => (-1)%Z) 0 0 ramp in
  y' (0 * Z.of_nat 2 + 1)%Z
  == 0 + qsum (fun j =>
                 stencil2 0%Z 0%Z (1 * Z.of_nat 2 + j)%Z
                 * (xD 1%Z + (xD j - xD 1%Z) * (1 # 2) * (1 # 2)))
              (zrange 2)
  /\ y' 7%Z = 0.
Proof.
  destruct (LinearFluxLumping_closed_form 2 2 (fun j _ => j)
              (fun _ _ _ => (-1)%Z) stencil2 0 0 ramp (fun _ => 0)
              (fun _ => 1 # 2) (distinct_identity 2 0)) as [Hin Hout].
  split.
  - apply (Hin 1%Z). simpl. lia.
  - apply (Hout 7%Z). intros i Hi. simpl in Hi. lia.
Defined.

Lemma LinearFluxLumping_alpha_witness :
  LinearFluxLumping 2 2 (fun j _ => j) (fun _ _ _ => (-1)%Z) stencil2
    0 0 ramp (fun _ => 0) (fun _ => 0) (0 * Z.of_nat 2 + 1)%Z
  == 0 + qsum (fun j => stencil2 0%Z 0%Z (1 * Z.of_nat 2 + j)%Z) (zrange 2)
         * xDiff 2 (fun j _ => j) (fun _ _ _ => (-1)%Z) 0 0 ramp 1.
Proof.
  refine (proj1 (LinearFluxLumping_alpha 2 2 (fun j _ => j)
                   (fun _ _ _ => (-1)%Z) stencil2 0 0 ramp (fun _ => 0) 1
                   (distinct_identity 2 0) _)).
  simpl. lia.
Defined.

Lemma stencil2_symmetric (i j : Z) :
  (0 <= i < Z.of_nat 2)%Z -> (0 <= j < Z.of_nat 2)%Z ->
  stencil2 0%Z 0%Z (i * Z.of_nat 2 + j)%Z
  == stencil2 0%Z 0%Z (j * Z.of_nat 2 + i)%Z.
Proof.
  intros Hi Hj.
  assert (Hi' : i = 0%Z \/ i = 1%Z) by lia.
  assert (Hj' : j = 0%Z \/ j = 1%Z) by lia.
  destruct Hi' as [-> | ->], Hj' as [-> | ->]; reflexivity.
Qed.

Lemma LinearFluxLumping_total_witness :
  let y' := LinearFluxLumping 2 2 (fun j _ => j) (fun _ _ _ => (-1)%Z) stencil2
              0 0 ramp (fun _ => 0) (fun _ => 1 # 2) in
  let xD := xDiff 2 (fun j _ => j) (fun _ _ _ => (-1)%Z) 0 0 ramp in
  qsum (fun i => y' (0 * Z.of_nat 2 + i)%Z - 0) (zrange 2)
  == qsum (fun i =>
             qsum (fun j => stencil2 0%Z 0%Z (i * Z.of_nat 2 + j)%Z * xD i)
                  (zrange 2))
          (zrange 2).
Proof.
  exact (LinearFluxLumping_total 2 2 (fun j _ => j) (fun _ _ _ => (-1)%Z)
           stencil2 0 0 ramp (fun _ => 0) (fun _ => 1 # 2)
           (distinct_identity 2 0) stencil2_symmetric).
Defined.

(** X21. An outflow slot adds nothing to the update: in transport mode,
    when [v.n >= 0] at every quadrature point of slot [s] of element [k],
    [LinearFluxLumping] with the stencil the constructor of [Assembly] has
    assembled leaves [y] as it is, for every [alpha] and whatever the
    neighbour table holds for the slot. *)
Theorem outflow_slot_no_flux (BdrDofs : Z -> Z -> Z)
  (ne numBdrs numDofs nd : nat) (points : Z -> Z -> list Assembly.FacePoint)
  (MonoType : MONOTYPE) (OptScheme : bool) (NbrDof : Z -> Z -> Z -> Z)
  (k s : Z) (x y alpha : Vector) :
  (forall pt, In pt (points k s) -> 0 <= Assembly.v_dot_n pt) ->
  let bdrInt :=
    Assembly.Assembly_bdrInt 0 BdrDofs ne numBdrs numDofs points
      MonoType OptScheme in
  forall d,
    LinearFluxLumping nd numDofs BdrDofs NbrDof bdrInt k s x y alpha d == y d.
Proof.
  intros Hout bdrInt d. rewrite LinearFluxLumping_sum.
  rewrite qsum_zero; [lra|]. intros i _.
  destruct (d =? k * Z.of_nat nd + BdrDofs i s)%Z; [|reflexivity].
  apply qsum_zero. intros j _. unfold lump_term.
  unfold bdrInt.
  rewrite (FluxFacts.outflow_stencil_zero BdrDofs ne numBdrs numDofs points
             MonoType OptScheme k s Hout). ring.
Qed.

Lemma outflow_slot_no_flux_witness :
  LinearFluxLumping 2 1 (VertexBounds.BdrDofs_segment 1) (NbrDof_of periodic2)
    bdrInt_segment 0 1 ramp (fun _ => 0) (fun _ => 0) 1%Z == 0.
Proof.
  refine (outflow_slot_no_flux (VertexBounds.BdrDofs_segment 1) 2 2 1 2
            (Assembly.segment_points 1) ResDist false (NbrDof_of periodic2)
            0 1 ramp (fun _ => 0) (fun _ => 0) _ 1%Z).
  intros pt [<-|[]]. vm_compute. discriminate.
Defined.

End LumpingFacts.

(** ** More on the mass solve *)

Module NeumannFacts.
Import Sparse Neumann.

Lemma Mult_zero (M : SparseMatrix) (i : Z) : Mult M (fun _ => 0) i == 0.
Proof. unfold Mult. apply qsum_zero. intros k _. ring. Qed.

Lemma Norml2_sq_ext (n : nat) (y y' : Vector) :
  (forall i, (0 <= i < Z.of_nat n)%Z -> y i == y' i) ->
  Norml2_sq n y == Norml2_sq n y'.
Proof.
  intros H. unfold Norml2_sq. apply qsum_ext. intros i Hi.
  apply in_zrange in Hi. rewrite (H i Hi). reflexivity.
Qed.

Lemma converged_iff (n : nat) (y : Vector) :
  converged n y = true <-> Norml2_sq n y <= abs_tol * abs_tol.
Proof. unfold converged. apply Qle_bool_iff. Qed.

Lemma neumann_loop_S (M : SparseMatrix) (lumpedM : Vector) (n : nat)
  (f : Vector) (r : nat) (iter : Z) (x : Vector) :
  neumann_loop M lumpedM n f (S r) iter x
  = if converged n (residual M f x) then (iter, x)
    else neumann_loop M lumpedM n f r (iter + 1)%Z
           (update lumpedM n x (residual M f x)).
Proof. reflexivity. Qed.

Lemma first_residual (M : SparseMatrix) (n : nat) (f : Vector) :
  Norml2_sq n (residual M f (fun _ => 0)) == Norml2_sq n f.
Proof.
  unfold Norml2_sq. apply qsum_ext. intros i _. unfold residual.
  rewrite (Mult_zero M i). ring.
Qed.

(** X22. When the right-hand side is within the tolerance,
    [||f|| <= 1e-4], and in particular for [f = 0], [NeumannSolve] returns
    in its first pass with [x = 0]. *)
Theorem NeumannSolve_small_rhs (M : SparseMatrix) (lumpedM : Vector)
  (n : nat) (f : Vector) :
  Norml2_sq n f <= abs_tol * abs_tol ->
  NeumannSolve M lumpedM n f = (1%Z, fun _ => 0).
Proof.
  intros Hf. unfold NeumannSolve, max_iter. rewrite neumann_loop_S.
  replace (converged n (residual M f (fun _ => 0))) with true; [reflexivity|].
  symmetry. apply converged_iff. now rewrite first_residual.
Qed.

Lemma NeumannSolve_small_rhs_witness :
  NeumannSolve Upwinding.K_pos (fun _ => 1) 2 (fun _ => 0) = (1%Z, fun _ => 0).
Proof.
  apply (NeumannSolve_small_rhs Upwinding.K_pos (fun _ => 1) 2 (fun _ => 0)).
  vm_compute. discriminate.
Defined.

End NeumannFacts.

(** ** More on the low-order update *)

Module LowOrderFacts.
Import Sparse LowOrder.

(** The running maximum and minimum of the values visited so far, from the
    seeds [-infinity] and [+infinity]: once a value has been visited they
    are values of the list and enclose all of it. *)
Definition extremes (vals : list Q) (mx mn : ext) : Prop :=
  match vals with
  | [] => mx = MInf /\ mn = PInf
  | _ :: _ =>
      exists M m, mx = Fin M /\ mn = Fin m /\ In M vals /\ In m vals
        /\ forall v, In v vals -> m <= v <= M
  end.

Lemma Qmax_cases (a b : Q) : Qmax a b = a \/ Qmax a b = b.
Proof.
  unfold Qmax, GenericMinMax.gmax. destruct (a ?= b); auto.
Qed.

Lemma Qmin_cases (a b : Q) : Qmin a b = a \/ Qmin a b = b.
Proof.
  unfold Qmin, GenericMinMax.gmin. destruct (a ?= b); auto.
Qed.

Lemma extremes_step (vals : list Q) (mx mn : ext) (v : Q) :
  extremes vals mx mn ->
  extremes (vals ++ [v]) (emax mx (Fin v)) (emin mn (Fin v)).
Proof.
  destruct vals as [|v0 vals]; cbn [extremes app].
  - intros (-> & ->). exists v, v.
    split; [reflexivity|]. split; [reflexivity|].
    split; [now left|]. split; [now left|].
    intros v' [<-|[]]. split; lra.
  - intros (M & m & -> & -> & HM & Hm & Hall).
    exists (Qmax M v), (Qmin m v). rewrite emax_fin, emin_fin.
    split; [reflexivity|]. split; [reflexivity|].
    change (v0 :: vals ++ [v]) with ((v0 :: vals) ++ [v]).
    split; [|split].
    + apply in_or_app. destruct (Qmax_cases M v) as [-> | ->];
        [now left | right; now left].
    + apply in_or_app. destruct (Qmin_cases m v) as [-> | ->];
        [now left | right; now left].
    + pose proof (Q.le_max_l M v). pose proof (Q.le_max_r M v).
      pose proof (Q.le_min_l m v). pose proof (Q.le_min_r m v).
      intros v' Hv. apply in_app_or in Hv. destruct Hv as [Hv|[<-|[]]].
      * specialize (Hall v' Hv). lra.
      * lra.
Qed.

(** the element bounds as a statement about the dofs of the element *)
Definition encloses (nd : nat) (x : Vector) (k : Z) (lo hi : ext) : Prop :=
  exists l h j1 j2,
    lo = Fin l /\ hi = Fin h
    /\ (0 <= j1 < Z.of_nat nd)%Z /\ (0 <= j2 < Z.of_nat nd)%Z
    /\ l = x (k * Z.of_nat nd + j1)%Z /\ h = x (k * Z.of_nat nd + j2)%Z
    /\ forall j, (0 <= j < Z.of_nat nd)%Z ->
         l <= x (k * Z.of_nat nd + j)%Z <= h.

Lemma extremes_encloses (nd : nat) (x : Vector) (k : Z) (mx mn : ext) :
  (1 <= nd)%nat ->
  extremes (map (fun j => x (k * Z.of_nat nd + j)%Z) (zrange nd)) mx mn ->
  encloses nd x k mn mx.
Proof.
  intros Hnd H.
  destruct (map _ (zrange nd)) as [|v0 vals] eqn:E.
  - exfalso. revert E. now apply zrange_values_nonempty.
  - cbn [extremes] in H. destruct H as (M & m & -> & -> & HM & Hm & Hall).
    rewrite <- E in HM, Hm, Hall.
    apply in_map_iff in HM. destruct HM as (j2 & <- & Hj2).
    apply in_map_iff in Hm. destruct Hm as (j1 & <- & Hj1).
    apply in_zrange in Hj1, Hj2.
    eexists _, _, j1, j2. repeat (split; [first [reflexivity | assumption]|]).
    intros j Hj. apply Hall. apply in_map_iff. exists j.
    split; [reflexivity | now apply in_zrange].
Qed.

Section Evaluate.

Variable exec_mode : Z.
Variable MonoType : MONOTYPE.
Variable OptScheme : bool.
Variables ne nd numBdrs numDofs numSubcells numDofsSubcell : nat.
Variable BdrDofs : Z -> Z -> Z.
Variable NbrDof : Z -> Z -> Z -> Z.
Variable Sub2Ind : Z -> Z -> Z.
Variable bdrInt : DTensor.
Variable SubcellWeights : DTensor.
Variables K pk : SparseMatrix.
Variable smap : Z -> Z.
Variable D0 : SparseMatrix.
Variables lumpedM b : Vector.

Local Abbreviation dof k j := (k * Z.of_nat nd + j)%Z.
Local Abbreviation du_element' :=
  (du_element OptScheme nd numBdrs numDofs BdrDofs NbrDof bdrInt lumpedM).
Local Abbreviation rd_element' :=
  (rd_element OptScheme nd numBdrs numDofs numSubcells numDofsSubcell
     BdrDofs NbrDof Sub2Ind bdrInt SubcellWeights lumpedM).

(** *** the discrete upwinding branch *)

Lemma du_dofs_extremes (x : Vector) (k : Z) (y1 : Vector) :
  let st := fold_left (du_dof nd lumpedM x k) (zrange nd) (MInf, PInf, y1) in
  extremes (map (fun j => x (dof k j)) (zrange nd)) (fst (fst st)) (snd (fst st)).
Proof.
  cbv zeta.
  apply (fold_left_prefix
           (fun pre (st : ext * ext * Vector) =>
              extremes (map (fun j => x (dof k j)) pre)
                (fst (fst st)) (snd (fst st)))).
  - cbn. split; reflexivity.
  - intros pre j [[mx mn] y2] H. rewrite map_app. cbn [map].
    cbn [du_dof fst snd] in *. now apply extremes_step.
Qed.

Lemma du_element_bounds (x : Vector) (st : low_order) (k : Z) :
  let st' := du_element' x st k in
  exists mx mn,
    extremes (map (fun j => x (dof k j)) (zrange nd)) mx mn
    /\ xe_min st' = aset (xe_min st) k mn
    /\ xe_max st' = aset (xe_max st) k mx.
Proof.
  cbv zeta. unfold du_element. cbv zeta.
  match goal with
  | |- context [fold_left (du_dof nd lumpedM x k) (zrange nd) (MInf, PInf, ?y1)] =>
      pose proof (du_dofs_extremes x k y1) as H; cbv zeta in H;
      destruct (fold_left (du_dof nd lumpedM x k) (zrange nd) (MInf, PInf, y1))
        as [[mx mn] y2]
  end.
  exists mx, mn. cbn [fst snd xe_min xe_max] in *. now split.
Qed.

Lemma du_loop_bounds (x : Vector) (ks : list Z) (st : low_order) (k : Z) :
  (1 <= nd)%nat -> In k ks ->
  let st' := fold_left (du_element' x) ks st in
  encloses nd x k (xe_min st' k) (xe_max st' k).
Proof.
  intros Hnd. cbv zeta. revert st.
  induction ks as [|k0 ks IH]; intros st Hin; [destruct Hin|].
  cbn [fold_left].
  destruct (in_dec Z.eq_dec k ks) as [Hks|Hks]; [now apply IH|].
  destruct Hin as [->|Hin]; [|contradiction].
  destruct (du_element_bounds x st k) as (mx & mn & Hex & Hmin & Hmax).
  assert (Hkeep : forall l st1,
            ~ In k l ->
            xe_min (fold_left (du_element' x) l st1) k = xe_min st1 k
            /\ xe_max (fold_left (du_element' x) l st1) k = xe_max st1 k).
  { induction l as [|k1 l IHl]; intros st1 Hnin; [now split|].
    cbn [fold_left].
    destruct (IHl (du_element' x st1 k1)) as [H1 H2];
      [intros H; apply Hnin; now right|].
    destruct (du_element_bounds x st1 k1) as (mx1 & mn1 & _ & Hmin1 & Hmax1).
    rewrite H1, H2, Hmin1, Hmax1. unfold aset.
    destruct (Z.eqb_spec k k1) as [->|]; [|now split].
    exfalso. apply Hnin. now left. }
  destruct (Hkeep ks (du_element' x st k) Hks) as [-> ->].
  rewrite Hmin, Hmax. unfold aset. rewrite Z.eqb_refl.
  now apply extremes_encloses.
Qed.

(** *** the residual distribution branch *)

Lemma rd_stats_extremes (x z : Vector) (k : Z) :
  let s := rd_stats OptScheme nd x z k in
  extremes (map (fun j => x (dof k j)) (zrange nd)) (e_max s) (e_min s).
Proof.
  cbv zeta. unfold rd_stats.
  apply (fold_left_prefix
           (fun pre s =>
              extremes (map (fun j => x (dof k j)) pre) (e_max s) (e_min s))).
  - cbn. split; reflexivity.
  - intros pre j s H. rewrite map_app. cbn [map].
    unfold rd_stats_dof. cbn [e_max e_min]. now apply extremes_step.
Qed.

Lemma rd_element_bounds (x z : Vector) (st st' : low_order) (k : Z) :
  rd_element' x z st k = Some st' ->
  xe_min st' = aset (xe_min st) k (e_min (rd_stats OptScheme nd x z k))
  /\ xe_max st' = aset (xe_max st) k (e_max (rd_stats OptScheme nd x z k)).
Proof.
  unfold rd_element. cbv zeta.
  destruct (fin (e_max _)); [|discriminate].
  destruct (fin (e_min _)); [|discriminate].
  destruct (if OptScheme then _ else _); [|discriminate].
  intros [= <-]. cbn [xe_min xe_max]. now split.
Qed.

Lemma rd_loop_bounds (x z : Vector) (ks : list Z) (st st' : low_order) (k : Z) :
  (1 <= nd)%nat -> In k ks ->
  ofold (rd_element' x z) ks st = Some st' ->
  encloses nd x k (xe_min st' k) (xe_max st' k).
Proof.
  intros Hnd.
  assert (Hkeep : forall l st1 st2,
            ~ In k l -> ofold (rd_element' x z) l st1 = Some st2 ->
            xe_min st2 k = xe_min st1 k /\ xe_max st2 k = xe_max st1 k).
  { induction l as [|k1 l IHl]; intros st1 st2 Hnin H; cbn [ofold] in H.
    - injection H as <-. now split.
    - destruct (rd_element' x z st1 k1) as [st1'|] eqn:E; [|discriminate H].
      destruct (IHl st1' st2) as [H1 H2];
        [intros H'; apply Hnin; now right | exact H |].
      destruct (rd_element_bounds x z st1 st1' k1 E) as [Hmin Hmax].
      rewrite H1, H2, Hmin, Hmax. unfold aset.
      destruct (Z.eqb_spec k k1) as [->|]; [|now split].
      exfalso. apply Hnin. now left. }
  revert st. induction ks as [|k0 ks IH]; intros st Hin H; [destruct Hin|].
  cbn [ofold] in H.
  destruct (rd_element' x z st k0) as [st1|] eqn:E; [|discriminate H].
  destruct (in_dec Z.eq_dec k ks) as [Hks|Hks]; [now apply (IH st1)|].
  destruct Hin as [->|Hin]; [|contradiction].
  destruct (Hkeep ks st1 st' Hks H) as [-> ->].
  destruct (rd_element_bounds x z st st1 k E) as [-> ->].
  unfold aset. rewrite Z.eqb_refl.
  apply extremes_encloses; [exact Hnd | apply rd_stats_extremes].
Qed.

Lemma low_order_encloses (x : Vector) (xe_min0 xe_max0 : Z -> ext)
  (r : low_order) (k : Z) :
  (1 <= nd)%nat -> (0 <= k < Z.of_nat ne)%Z ->
  ComputeLowOrderSolution exec_mode MonoType OptScheme ne nd numBdrs numDofs
    numSubcells numDofsSubcell BdrDofs NbrDof Sub2Ind bdrInt SubcellWeights
    K pk smap D0 lumpedM b x xe_min0 xe_max0 = Value r ->
  encloses nd x k (xe_min r k) (xe_max r k).
Proof.
  intros Hnd Hk. unfold ComputeLowOrderSolution.
  destruct (MONOTYPE_eqb MonoType DiscUpw || MONOTYPE_eqb MonoType DiscUpw_FCT).
  - unfold LowOrder_DiscUpw.
    destruct (upwind_matrix _ _ _ _ _ _) as [D'|]; cbn [mbind result_bind of_result];
      [|discriminate].
    intros [= <-]. apply du_loop_bounds; [exact Hnd | now apply in_zrange].
  - unfold LowOrder_ResDist.
    destruct (ofold _ _ _) as [r'|] eqn:E; cbn [of_option]; [|discriminate].
    intros [= <-].
    eapply rd_loop_bounds; [exact Hnd | apply in_zrange; exact Hk | exact E].
Qed.

(** *** the rate of the discrete upwinding branch *)

Lemma du_dof_rate (x : Vector) (k : Z) (st : ext * ext * Vector) (j : Z) :
  snd (du_dof nd lumpedM x k st j)
  = vset (snd st) (dof k j) (snd st (dof k j) / lumpedM (dof k j)).
Proof. destruct st as [[mx mn] y1]. reflexivity. Qed.

Lemma du_dofs_rate (x : Vector) (k : Z) (js : list Z)
  (st : ext * ext * Vector) :
  List.NoDup js ->
  let r := fold_left (du_dof nd lumpedM x k) js st in
  (forall j, In j js ->
     snd r (dof k j) = snd st (dof k j) / lumpedM (dof k j))
  /\ (forall d, (forall j, In j js -> d <> dof k j) -> snd r d = snd st d).
Proof.
  revert st. induction js as [|j0 js IH]; intros st Hnd; cbn [fold_left].
  - cbv zeta. split; [intros j [] | reflexivity].
  - apply List.NoDup_cons_iff in Hnd. destruct Hnd as [Hnin Hnd].
    destruct (IH (du_dof nd lumpedM x k st j0) Hnd) as [Hin Hout].
    cbv zeta. split.
    + intros j [<-|Hj].
      * rewrite Hout, du_dof_rate; [apply vset_eq|].
        intros j Hj Heq. apply Hnin. replace j0 with j by lia. exact Hj.
      * rewrite (Hin j Hj), du_dof_rate. rewrite vset_ne; [reflexivity|].
        intros Heq. apply Hnin. replace j0 with j by lia. exact Hj.
    + intros d Hd. rewrite Hout by (intros j Hj; apply Hd; now right).
      rewrite du_dof_rate. apply vset_ne. apply Hd. now left.
Qed.

Lemma du_element_rate (x : Vector) (st : low_order) (k : Z) :
  OptScheme = false ->
  let st' := du_element' x st k in
  D st' = D st
  /\ (forall j, (0 <= j < Z.of_nat nd)%Z ->
        y st' (dof k j) = y st (dof k j) / lumpedM (dof k j))
  /\ (forall d, (forall j, (0 <= j < Z.of_nat nd)%Z -> d <> dof k j) ->
        y st' d = y st d).
Proof.
  intros Hopt. cbv zeta. unfold du_element. rewrite Hopt. cbv zeta.
  pose proof (du_dofs_rate x k (zrange nd) (MInf, PInf, y st)
                (NoDup_zrange nd)) as H.
  cbv zeta in H. cbn [snd] in H.
  destruct (fold_left (du_dof nd lumpedM x k) (zrange nd) (MInf, PInf, y st))
    as [[mx mn] y2].
  cbn [snd] in H. destruct H as [Hin Hout]. cbn [D y].
  split; [reflexivity|]. split.
  - intros j Hj. apply Hin. now apply in_zrange.
  - intros d Hd. apply Hout. intros j Hj. apply Hd. now apply in_zrange.
Qed.

Lemma du_loop_rate (x : Vector) (ks : list Z) (st : low_order) :
  OptScheme = false -> List.NoDup ks ->
  let st' := fold_left (du_element' x) ks st in
  D st' = D st
  /\ (forall k j, In k ks -> (0 <= j < Z.of_nat nd)%Z ->
        y st' (dof k j) = y st (dof k j) / lumpedM (dof k j))
  /\ (forall d, (forall k j, In k ks -> (0 <= j < Z.of_nat nd)%Z ->
                   d <> dof k j) -> y st' d = y st d).
Proof.
  intros Hopt. revert st.
  induction ks as [|k0 ks IH]; intros st Hnd; cbn [fold_left].
  - cbv zeta. split; [reflexivity|].
    split; [intros k j [] | reflexivity].
  - apply List.NoDup_cons_iff in Hnd. destruct Hnd as [Hnin Hnd].
    destruct (IH (du_element' x st k0) Hnd) as (HD & Hin & Hout).
    destruct (du_element_rate x st k0 Hopt) as (HD0 & Hin0 & Hout0).
    cbv zeta. split; [congruence|]. split.
    + intros k j [<-|Hk] Hj.
      * rewrite Hout; [now apply Hin0|].
        intros k j' Hk Hj' Heq.
        apply FCT.dof_block_disjoint in Heq; [|exact Hj|exact Hj'].
        destruct Heq as [-> _]. contradiction.
      * rewrite (Hin k j Hk Hj). rewrite Hout0; [reflexivity|].
        intros j' Hj' Heq.
        apply FCT.dof_block_disjoint in Heq; [|exact Hj|exact Hj'].
        destruct Heq as [-> _]. contradiction.
    + intros d Hd. rewrite Hout by (intros k j Hk Hj; apply Hd; [now right|exact Hj]).
      apply Hout0. intros j Hj. apply Hd; [now left | exact Hj].
Qed.

End Evaluate.

(** X24. When [ComputeLowOrderSolution] returns, in the discrete upwinding
    and in the residual distribution branch alike, the element bounds it
    leaves in [dofs] are finite for every element [k] with at least one dof:
    [xe_min(k)] and [xe_max(k)] are values of [x] at dofs of the element, and
    [xe_min(k) <= x(k*nd + j) <= xe_max(k)] for every dof [j] of it. *)
Theorem ComputeLowOrderSolution_bounds (exec_mode : Z) (MonoType : MONOTYPE)
  (OptScheme : bool)
  (ne nd numBdrs numDofs numSubcells numDofsSubcell : nat)
  (BdrDofs : Z -> Z -> Z) (NbrDof : Z -> Z -> Z -> Z) (Sub2Ind : Z -> Z -> Z)
  (bdrInt SubcellWeights : DTensor) (K pk : SparseMatrix) (smap : Z -> Z)
  (D0 : SparseMatrix) (lumpedM b x : Vector) (xe_min0 xe_max0 : Z -> ext)
  (r : low_order) (k : Z) :
  (1 <= nd)%nat -> (0 <= k < Z.of_nat ne)%Z ->
  ComputeLowOrderSolution exec_mode MonoType OptScheme ne nd numBdrs numDofs
    numSubcells numDofsSubcell BdrDofs NbrDof Sub2Ind bdrInt SubcellWeights
    K pk smap D0 lumpedM b x xe_min0 xe_max0 = Value r ->
  exists lo hi j1 j2,
    xe_min r k = Fin lo /\ xe_max r k = Fin hi
    /\ (0 <= j1 < Z.of_nat nd)%Z /\ (0 <= j2 < Z.of_nat nd)%Z
    /\ lo = x (k * Z.of_nat nd + j1)%Z /\ hi = x (k * Z.of_nat nd + j2)%Z
    /\ forall j, (0 <= j < Z.of_nat nd)%Z ->
         lo <= x (k * Z.of_nat nd + j)%Z <= hi.
Proof.
  intros Hnd Hk Hrun.
  exact (low_order_encloses exec_mode MonoType OptScheme ne nd numBdrs numDofs
           numSubcells numDofsSubcell BdrDofs NbrDof Sub2Ind bdrInt
           SubcellWeights K pk smap D0 lumpedM b x xe_min0 xe_max0 r k
           Hnd Hk Hrun).
Qed.

(** the low-order update of the ramp [x = [1, 2, 4, 3]] on the ring of two
    elements *)
Definition ramp_low_order (MonoType : MONOTYPE) : outcome low_order :=
  ComputeLowOrderSolution 0 MonoType false 2 2 2 1 1 2
    (VertexBounds.BdrDofs_segment 1) (NbrDof_of periodic2)
    (fun m j => (m + j)%Z) bdrInt_segment (fun _ _ _ => 0)
    K_segment K_segment (Upwinding.smap_of K_segment) D_segment
    (fun _ => 1 # 4) (fun _ => 0) ramp_x
    (fun _ => PInf) (fun _ => MInf).

Definition ramp_result (MonoType : MONOTYPE) : low_order :=
  match ramp_low_order MonoType with
  | Value r => r
  | _ => {| y := fun _ => 0; xe_min := fun _ => PInf; xe_max := fun _ => MInf;
            D := K_segment |}
  end.

Lemma ramp_low_order_value (MonoType : MONOTYPE) :
  ramp_low_order MonoType = Value (ramp_result MonoType).
Proof. destruct MonoType; vm_compute; reflexivity. Qed.

Lemma ComputeLowOrderSolution_bounds_witness :
  exists lo hi j1 j2,
    xe_min (ramp_result DiscUpw) 1%Z = Fin lo
    /\ xe_max (ramp_result DiscUpw) 1%Z = Fin hi
    /\ (0 <= j1 < Z.of_nat 2)%Z /\ (0 <= j2 < Z.of_nat 2)%Z
    /\ lo = ramp_x (1 * Z.of_nat 2 + j1)%Z /\ hi = ramp_x (1 * Z.of_nat 2 + j2)%Z
    /\ forall j, (0 <= j < Z.of_nat 2)%Z ->
         lo <= ramp_x (1 * Z.of_nat 2 + j)%Z <= hi.
Proof.
  apply (ComputeLowOrderSolution_bounds 0 DiscUpw false 2 2 2 1 1 2
           (VertexBounds.BdrDofs_segment 1) (NbrDof_of periodic2)
           (fun m j => (m + j)%Z) bdrInt_segment (fun _ _ _ => 0)
           K_segment K_segment (Upwinding.smap_of K_segment) D_segment
           (fun _ => 1 # 4) (fun _ => 0) ramp_x
           (fun _ => PInf) (fun _ => MInf) (ramp_result DiscUpw) 1).
  - lia.
  - simpl. lia.
  - exact (ramp_low_order_value DiscUpw).
Defined.

(** X25. In the discrete upwinding branch without the optimized scheme, the
    rate is [y = M_L^{-1} (D x + b)] at every dof of the mesh, [D] being the
    matrix the call leaves in [lom.D]: the one it found in transport mode,
    the one it has just recomputed in remap mode. *)
Theorem DiscUpw_rate (exec_mode : Z) (MonoType : MONOTYPE)
  (ne nd numBdrs numDofs numSubcells numDofsSubcell : nat)
  (BdrDofs : Z -> Z -> Z) (NbrDof : Z -> Z -> Z -> Z) (Sub2Ind : Z -> Z -> Z)
  (bdrInt SubcellWeights : DTensor) (K pk : SparseMatrix) (smap : Z -> Z)
  (D0 : SparseMatrix) (lumpedM b x : Vector) (xe_min0 xe_max0 : Z -> ext)
  (r : low_order) :
  is_DiscUpw MonoType = true ->
  ComputeLowOrderSolution exec_mode MonoType false ne nd numBdrs numDofs
    numSubcells numDofsSubcell BdrDofs NbrDof Sub2Ind bdrInt SubcellWeights
    K pk smap D0 lumpedM b x xe_min0 xe_max0 = Value r ->
  (exec_mode <> 1%Z -> D r = D0)
  /\ (exec_mode = 1%Z -> ComputeDiscreteUpwindingMatrix K smap D0 = Ok (D r))
  /\ forall k j, (0 <= k < Z.of_nat ne)%Z -> (0 <= j < Z.of_nat nd)%Z ->
       let d := (k * Z.of_nat nd + j)%Z in
       y r d = (Mult (D r) x d + b d) / lumpedM d.
Proof.
  intros HDU. unfold ComputeLowOrderSolution. fold (is_DiscUpw MonoType).
  rewrite HDU. unfold LowOrder_DiscUpw, upwind_matrix, upwind_source.
  destruct (if (exec_mode =? 1)%Z then _ else _) as [D'|] eqn:E;
    cbn [mbind result_bind of_result]; [|discriminate].
  intros [= <-].
  match goal with
  | |- context [fold_left ?f (zrange ne) ?st0] =>
      destruct (du_loop_rate false nd numBdrs numDofs BdrDofs NbrDof bdrInt
                  lumpedM x (zrange ne) st0 eq_refl (NoDup_zrange ne))
        as (HD & Hin & _)
  end.
  cbn [D y] in HD, Hin. rewrite HD.
  split; [|split].
  - intros Hmode. destruct (Z.eqb_spec exec_mode 1); [contradiction|].
    now injection E as <-.
  - intros Hmode. destruct (Z.eqb_spec exec_mode 1); [exact E | contradiction].
  - intros k j Hk Hj. cbv zeta.
    apply Hin; [now apply in_zrange | exact Hj].
Qed.

Lemma DiscUpw_rate_witness :
  y (ramp_result DiscUpw) (1 * Z.of_nat 2 + 0)%Z
  = (Mult (D (ramp_result DiscUpw)) ramp_x (1 * Z.of_nat 2 + 0)%Z + 0) / (1 # 4).
Proof.
  refine (proj2 (proj2 (DiscUpw_rate 0 DiscUpw 2 2 2 1 1 2
           (VertexBounds.BdrDofs_segment 1) (NbrDof_of periodic2)
           (fun m j => (m + j)%Z) bdrInt_segment (fun _ _ _ => 0)
           K_segment K_segment (Upwinding.smap_of K_segment) D_segment
           (fun _ => 1 # 4) (fun _ => 0) ramp_x
           (fun _ => PInf) (fun _ => MInf) (ramp_result DiscUpw)
           eq_refl (ramp_low_order_value DiscUpw))) 1%Z 0%Z _ _);
    simpl; lia.
Defined.

End LowOrderFacts.

(** ** More on the flux-corrected blend *)

Module FCTFacts.
Import DofInfo FCT.




(** a pair of rates on the two-element segment that moves mass within the
    first element only *)
Definition swap_yH : Vector := vector_of [1; - (1); 0; 0].



End FCTFacts.

(** ** The high-order update and the evolution operator *)

Module Evolution.
Import Sparse LowOrder.

(** the values of the enumerators of [MONOTYPE] *)
Definition MONOTYPE_code (m : MONOTYPE) : Z :=
  match m with
  | None_ => 0
  | DiscUpw => 1
  | DiscUpw_FCT => 2
  | ResDist => 3
  | ResDist_FCT => 4
  end%Z.

(** What a call of [FE_Evolution::Mult] reads and leaves behind, besides
    its argument [x]: the rate [y], the element and vertex bounds kept in
    [dofs], the upwinding matrix [lom.D], and the stencil [asmbl.bdrInt]. *)
Record evolution : Type := {
  rate : Vector;
  dofs_xe_min : Z -> ext;
  dofs_xe_max : Z -> ext;
  dofs_xi_min : Z -> ext;
  dofs_xi_max : Z -> ext;
  lom_D : SparseMatrix;
  asmbl_bdrInt : DTensor
}.

Section Operator.

Variable exec_mode : Z.
Variable MonoType : MONOTYPE.
Variable OptScheme : bool.
Variables ne nd numBdrs numDofs numSubcells numDofsSubcell : nat.
Variable BdrDofs : Z -> Z -> Z.
Variable NbrDof : Z -> Z -> Z -> Z.
Variable Sub2Ind : Z -> Z -> Z.
Variable map_for_bounds : gmap Z (list Z).
(** the face quadrature points, for the reassembly of the stencil *)
Variable points : Z -> Z -> list Assembly.FacePoint.
Variable SubcellWeights : DTensor.
(** the mass matrix [M], the advection matrix [K], [lom.pk->SpMat()] and the
    lumped mass vector (in remap mode: as the library has just reassembled
    them on the moved mesh) *)
Variables M K pk : SparseMatrix.
Variable smap : Z -> Z.
Variables lumpedM b : Vector.
Variable dt : Q.

(** [alpha = 1.] *)
Definition alpha1 : Vector := fun _ => 1.

(** the loop over the elements and their boundary slots *)
Definition lump_all (bdrInt : DTensor) (x z : Vector) : Vector :=
  fold_left
    (fun z k =>
       fold_left
         (fun z i =>
            LinearFluxLumping nd numDofs BdrDofs NbrDof bdrInt k i x z alpha1)
         (zrange numBdrs) z)
    (zrange ne) z.

(** [z = K x + b], the flux terms, and the mass solve; [z] has the size of
    [M], the number of dofs. *)
Definition ComputeHighOrderSolution (bdrInt : DTensor) (x : Vector) : Vector :=
  let z := fun i => Mult K x i + b i in
  let z := if negb (MONOTYPE_eqb MonoType DiscUpw_FCT) || OptScheme
           then lump_all bdrInt x z else z in
  snd (Neumann.NeumannSolve M lumpedM (ne * nd) z).

Definition low_order_of (s0 : evolution) (bdrInt : DTensor) (x : Vector)
  : outcome low_order :=
  ComputeLowOrderSolution exec_mode MonoType OptScheme ne nd numBdrs numDofs
    numSubcells numDofsSubcell BdrDofs NbrDof Sub2Ind bdrInt SubcellWeights
    K pk smap (lom_D s0) lumpedM b x (dofs_xe_min s0) (dofs_xe_max s0).

(** [FE_Evolution::Mult(x, y)] *)
Definition Mult (x : Vector) (s0 : evolution) : outcome evolution :=
  let bdrInt :=
    Assembly.Mult_bdrInt exec_mode BdrDofs ne numBdrs numDofs points
      MonoType OptScheme (asmbl_bdrInt s0) in
  if (MONOTYPE_code MonoType =? 0)%Z then
    Value {| rate := ComputeHighOrderSolution bdrInt x;
             dofs_xe_min := dofs_xe_min s0; dofs_xe_max := dofs_xe_max s0;
             dofs_xi_min := dofs_xi_min s0; dofs_xi_max := dofs_xi_max s0;
             lom_D := lom_D s0; asmbl_bdrInt := bdrInt |}
  else if (MONOTYPE_code MonoType mod 2 =? 1)%Z then
    match low_order_of s0 bdrInt x with
    | Value r =>
        Value {| rate := y r;
                 dofs_xe_min := xe_min r; dofs_xe_max := xe_max r;
                 dofs_xi_min := dofs_xi_min s0; dofs_xi_max := dofs_xi_max s0;
                 lom_D := D r; asmbl_bdrInt := bdrInt |}
    | Aborted msg => Aborted msg
    | NotFinite => NotFinite
    end
  else if (MONOTYPE_code MonoType mod 2 =? 0)%Z then
    match low_order_of s0 bdrInt x with
    | Value r =>
        let yL := y r in
        let yH := ComputeHighOrderSolution bdrInt x in
        match FCT.ComputeFCTSolution map_for_bounds (xe_min r) (xe_max r)
                lumpedM dt ne nd x yH yL
                {| FCT.xi_min := dofs_xi_min s0; FCT.xi_max := dofs_xi_max s0;
                   FCT.y := rate s0 |} with
        | Some st =>
            Value {| rate := FCT.y st;
                     dofs_xe_min := xe_min r; dofs_xe_max := xe_max r;
                     dofs_xi_min := FCT.xi_min st;
                     dofs_xi_max := FCT.xi_max st;
                     lom_D := D r; asmbl_bdrInt := bdrInt |}
        | None => NotFinite
        end
    | Aborted msg => Aborted msg
    | NotFinite => NotFinite
    end
  else Value s0.

(** every dof of the mesh has a contributor, and the contributors are
    elements of the mesh *)
Definition map_covers : Prop :=
  forall d, (0 <= d < ndofs ne nd)%Z ->
    DofInfo.bounds_of map_for_bounds d <> []
    /\ forall e, In e (DofInfo.bounds_of map_for_bounds d) ->
         (0 <= e < Z.of_nat ne)%Z.

(** *** A uniform state on a mesh without exterior slots *)

Section Uniform.

Variable x : Vector.
Variable c : Q.
Hypothesis Hx : forall d, (0 <= d < ndofs ne nd)%Z -> x d == c.
Hypothesis HBdr : BdrDofs_in_range nd numBdrs numDofs BdrDofs.
Hypothesis HNbr : no_exterior_slot ne nd numBdrs numDofs NbrDof.
Hypothesis Hb : zero_rate ne nd b.
Hypothesis HK : zero_row_sums ne nd K.

Lemma lumping_same (bdrInt : DTensor) (alpha : Vector) (k i : Z)
  (y0 : Vector) (d : Z) :
  (0 <= k < Z.of_nat ne)%Z -> (0 <= i < Z.of_nat numBdrs)%Z ->
  LinearFluxLumping nd numDofs BdrDofs NbrDof bdrInt k i x y0 alpha d == y0 d.
Proof.
  intros Hk Hi. rewrite LumpingFacts.LinearFluxLumping_sum.
  rewrite qsum_zero; [lra|]. intros i0 Hi0. apply in_zrange in Hi0.
  destruct (d =? k * Z.of_nat nd + BdrDofs i0 i)%Z; [|reflexivity].
  apply qsum_zero. intros j0 Hj0. apply in_zrange in Hj0.
  unfold LumpingFacts.lump_term.
  rewrite (xDiff_zero ne nd numBdrs numDofs BdrDofs NbrDof x c Hx HBdr HNbr
             k i i0 Hk Hi Hi0).
  rewrite (xDiff_zero ne nd numBdrs numDofs BdrDofs NbrDof x c Hx HBdr HNbr
             k i j0 Hk Hi Hj0).
  ring.
Qed.

Lemma lump_all_same (bdrInt : DTensor) (z : Vector) (d : Z) :
  lump_all bdrInt x z d == z d.
Proof.
  unfold lump_all. revert d.
  apply (Assembly.fold_left_invariant (fun z' => forall d, z' d == z d));
    [reflexivity|].
  intros z1 k Hk Hz1. apply in_zrange in Hk.
  apply (Assembly.fold_left_invariant (fun z' => forall d, z' d == z d));
    [exact Hz1|].
  intros z2 i Hi Hz2 d. apply in_zrange in Hi.
  rewrite (lumping_same bdrInt alpha1 k i z2 d Hk Hi). apply Hz2.
Qed.

Lemma K_annihilates : Upwinding.annihilates_constants K (ndofs ne nd).
Proof.
  destruct HK as (HS & Hfin & Hzero).
  assert (Hn : Z.of_nat (Size K) = ndofs ne nd)
    by (rewrite HS; unfold ndofs; lia).
  rewrite <- Hn. now apply Upwinding.zero_rows_annihilate.
Qed.

Lemma high_order_uniform (bdrInt : DTensor) :
  ComputeHighOrderSolution bdrInt x = fun _ => 0.
Proof.
  unfold ComputeHighOrderSolution. cbv zeta.
  set (z0 := fun i => Sparse.Mult K x i + b i).
  set (z := if negb (MONOTYPE_eqb MonoType DiscUpw_FCT) || OptScheme
            then lump_all bdrInt x z0 else z0).
  assert (Hz0 : zero_rate ne nd z0).
  { intros d Hd. unfold z0. rewrite (K_annihilates x c Hx d Hd), (Hb d Hd). lra. }
  assert (Hz : forall d, (0 <= d < Z.of_nat (ne * nd))%Z -> z d == 0).
  { intros d Hd. rewrite Nat2Z.inj_mul in Hd. unfold z.
    destruct (negb (MONOTYPE_eqb MonoType DiscUpw_FCT) || OptScheme);
      [rewrite lump_all_same|]; now apply Hz0. }
  unfold Neumann.NeumannSolve, Neumann.max_iter.
  rewrite NeumannFacts.neumann_loop_S.
  replace (Neumann.converged (ne * nd)
             (Neumann.residual M z (fun _ => 0))) with true; [reflexivity|].
  symmetry. apply NeumannFacts.converged_iff.
  rewrite NeumannFacts.first_residual.
  rewrite (NeumannFacts.Norml2_sq_ext (ne * nd) z (fun _ => 0) Hz).
  unfold Neumann.Norml2_sq. rewrite qsum_zero by (intros; ring).
  vm_compute. discriminate.
Qed.

Hypothesis Hnd : (1 <= nd)%nat.
Hypothesis Hsub : (1 <= numDofsSubcell)%nat.

Lemma low_order_uniform (s0 : evolution) (bdrInt : DTensor) :
  (is_DiscUpw MonoType = true ->
     zero_row_sums ne nd (upwind_source OptScheme K pk)
     /\ lom_prepared exec_mode OptScheme K pk smap (lom_D s0)) ->
  exists r, low_order_of s0 bdrInt x = Value r /\ zero_rate ne nd (y r).
Proof.
  intros HDU. unfold low_order_of, ComputeLowOrderSolution.
  fold (is_DiscUpw MonoType). destruct (is_DiscUpw MonoType).
  - destruct (HDU eq_refl)
      as ((HS & Hfin & Hzero) & Hdiag & (smap0 & Hsmap) & HD).
    pose proof (SparseFacts.Build_smap_symmetric _ Hfin smap0 smap Hsmap)
      as Hsym.
    assert (Hn : Z.of_nat (Size (upwind_source OptScheme K pk)) = ndofs ne nd)
      by (rewrite HS; unfold ndofs; lia).
    assert (HD' : exists D',
              upwind_matrix exec_mode OptScheme K pk smap (lom_D s0) = Ok D'
              /\ Upwinding.annihilates_constants D' (ndofs ne nd)).
    { unfold upwind_matrix. rewrite <- Hn.
      destruct HD as [(Hmode & Hpat)|(Hmode & Din & Hpat & HDin)].
      - rewrite Hmode. cbn [Z.eqb Pos.eqb].
        apply (Upwinding.upwind_annihilates _ (lom_D s0) smap
                 Hfin Hsym Hdiag Hpat Hzero).
      - destruct (Z.eqb_spec exec_mode 1) as [|_]; [contradiction|].
        destruct (Upwinding.upwind_annihilates _ Din smap
                    Hfin Hsym Hdiag Hpat Hzero) as (D' & HD' & Hann).
        rewrite HDin in HD'. injection HD' as <-.
        exists (lom_D s0). now split. }
    destruct HD' as (D' & HD' & Hann).
    destruct (LowOrder_DiscUpw_zero exec_mode OptScheme ne nd numBdrs numDofs
                BdrDofs NbrDof bdrInt K pk smap (lom_D s0) lumpedM b x c
                Hx HBdr HNbr (dofs_xe_min s0) (dofs_xe_max s0) D' HD' Hann Hb)
      as (r & Hr & Hy).
    exists r. rewrite Hr. now split.
  - destruct (LowOrder_ResDist_zero OptScheme ne nd numBdrs numDofs
                numSubcells numDofsSubcell BdrDofs NbrDof Sub2Ind bdrInt
                SubcellWeights K (lom_D s0) lumpedM b x c Hx HBdr HNbr
                (dofs_xe_min s0) (dofs_xe_max s0) Hnd Hsub K_annihilates Hb)
      as (r & Hr & Hy).
    exists r. rewrite Hr. now split.
Qed.

(** a finite double equal to [c] *)
Definition at_c (e : ext) : Prop := exists v, e = Fin v /\ v == c.

Lemma vertex_bounds_at_c (xe_min xe_max : Z -> ext) (d : Z) :
  map_covers -> (0 <= d < ndofs ne nd)%Z ->
  (forall k, (0 <= k < Z.of_nat ne)%Z -> at_c (xe_min k) /\ at_c (xe_max k)) ->
  let bd := DofInfo.ComputeVertexBounds map_for_bounds xe_min xe_max d in
  at_c (fst bd) /\ at_c (snd bd).
Proof.
  intros Hmap Hd Hxe bd. destruct (Hmap d Hd) as [Hne Hin].
  unfold bd, DofInfo.ComputeVertexBounds.
  set (contrib := DofInfo.bounds_of map_for_bounds d) in *.
  pose proof (VertexBounds.vertex_bounds_loop_bounds xe_min xe_max contrib
                (PInf, MInf)) as [_ Hbd].
  pose proof (VertexBounds.vertex_bounds_loop_attained xe_min xe_max contrib
                (PInf, MInf)) as [Hmin Hmax].
  cbv zeta in Hbd, Hmin, Hmax. cbn [fst snd] in Hmin, Hmax.
  destruct contrib as [|e0 rest] eqn:E; [contradiction|].
  rewrite <- E in *.
  assert (He0 : In e0 contrib) by (rewrite E; now left).
  destruct (Hxe e0 (Hin e0 He0)) as [(v0 & Hv0 & _) (w0 & Hw0 & _)].
  destruct (Hbd e0 He0) as [Hlo Hhi]. split.
  - destruct Hmin as [Hmin|(e & He & Hmin)].
    + rewrite Hmin, Hv0 in Hlo. discriminate Hlo.
    + rewrite Hmin. apply (Hxe e (Hin e He)).
  - destruct Hmax as [Hmax|(e & He & Hmax)].
    + rewrite Hmax, Hw0 in Hhi. discriminate Hhi.
    + rewrite Hmax. apply (Hxe e (Hin e He)).
Qed.

Lemma fct_uniform (xe_min xe_max : Z -> ext) (yL : Vector) (st : FCT.state) :
  map_covers ->
  (forall k, (0 <= k < Z.of_nat ne)%Z -> at_c (xe_min k) /\ at_c (xe_max k)) ->
  zero_rate ne nd yL ->
  exists st',
    FCT.ComputeFCTSolution map_for_bounds xe_min xe_max lumpedM dt ne nd x
      (fun _ => 0) yL st = Some st'
    /\ zero_rate ne nd (FCT.y st').
Proof.
  intros Hmap Hxe HyL.
  assert (Hclip : forall d, (0 <= d < ndofs ne nd)%Z ->
            exists u,
              FCT.uClipped_of map_for_bounds xe_min xe_max dt x (fun _ => 0) d
              = Some u /\ u == c).
  { intros d Hd. unfold FCT.uClipped_of. cbv zeta.
    destruct (vertex_bounds_at_c xe_min xe_max d Hmap Hd Hxe)
      as [(lo & -> & Hlo) (hi & -> & Hhi)].
    rewrite emax_fin, emin_fin. eexists. split; [reflexivity|].
    rewrite (Hx d Hd), Hlo, Hhi.
    assert (E : c + dt * 0 == c) by ring. rewrite E.
    rewrite (Q.max_l c c) by lra. apply Q.min_l. lra. }
  assert (Hflux : forall d, (0 <= d < ndofs ne nd)%Z ->
            FCT.flux map_for_bounds xe_min xe_max lumpedM dt x (fun _ => 0) yL d
            == 0).
  { intros d Hd. destruct (Hclip d Hd) as (u & Hu & Huc).
    unfold FCT.flux. rewrite Hu, Huc, (Hx d Hd), (HyL d Hd).
    unfold Qdiv. ring. }
  destruct (FCT.fct_loop_spec map_for_bounds xe_min xe_max lumpedM dt nd x
              (fun _ => 0) yL (zrange ne) st) as (st' & Hrun & Hw & _).
  { intros k j Hk Hj. apply in_zrange in Hk.
    destruct (Hclip _ (dof_in_range ne nd k j Hk Hj)) as (u & Hu & _).
    now exists u. }
  exists st'. split; [exact Hrun|].
  intros d Hd.
  assert (Hkj : exists k j, (0 <= k < Z.of_nat ne)%Z
                  /\ (0 <= j < Z.of_nat nd)%Z /\ d = (k * Z.of_nat nd + j)%Z).
  { exists (d / Z.of_nat nd)%Z, (d mod Z.of_nat nd)%Z.
    unfold ndofs in Hd.
    pose proof (Z.div_mod d (Z.of_nat nd) ltac:(lia)) as Hdm.
    pose proof (Z.mod_pos_bound d (Z.of_nat nd) ltac:(lia)) as Hr.
    split; [|split; [exact Hr | lia]].
    split; [apply Z.div_pos; lia | apply Z.div_lt_upper_bound; nia]. }
  destruct Hkj as (k & j & Hk & Hj & ->).
  destruct (Hw k (proj2 (in_zrange _ _) Hk)) as (sP & sN & HP & HN & Hdof).
  destruct (Hdof j Hj) as (Hy & _). rewrite Hy.
  assert (HsP : sP == 0).
  { rewrite HP. apply qsum_zero. intros j0 Hj0. apply in_zrange in Hj0.
    rewrite (Hflux _ (dof_in_range ne nd k j0 Hk Hj0)). reflexivity. }
  assert (HsN : sN == 0).
  { rewrite HN. apply qsum_zero. intros j0 Hj0. apply in_zrange in Hj0.
    rewrite (Hflux _ (dof_in_range ne nd k j0 Hk Hj0)). reflexivity. }
  pose proof eps_pos as He.
  destruct (FCT.rescale_cases sP sN
              (FCT.flux map_for_bounds xe_min xe_max lumpedM dt x (fun _ => 0)
                 yL (k * Z.of_nat nd + j)))
    as [(H1 & _)|[(H1 & _)|(_ & _ & ->)]]; [lra | lra |].
  rewrite (Hflux _ (dof_in_range ne nd k j Hk Hj)), (HyL _ Hd).
  unfold Qdiv. ring.
Qed.

Lemma Mult_uniform (s0 : evolution) :
  (is_DiscUpw MonoType = true ->
     zero_row_sums ne nd (upwind_source OptScheme K pk)
     /\ lom_prepared exec_mode OptScheme K pk smap (lom_D s0)) ->
  (MONOTYPE_code MonoType mod 2 = 0 -> map_covers)%Z ->
  exists s, Mult x s0 = Value s /\ zero_rate ne nd (rate s).
Proof.
  intros HDU Hmap. unfold Mult. cbv zeta.
  set (bdrInt := Assembly.Mult_bdrInt exec_mode BdrDofs ne numBdrs numDofs
                   points MonoType OptScheme (asmbl_bdrInt s0)).
  destruct (Z.eqb_spec (MONOTYPE_code MonoType) 0) as [H0|H0].
  - eexists. split; [reflexivity|]. cbn [rate].
    rewrite high_order_uniform. intros d _. reflexivity.
  - destruct (low_order_uniform s0 bdrInt HDU) as (r & Hr & Hy).
    destruct (Z.eqb_spec (MONOTYPE_code MonoType mod 2) 1) as [H1|H1].
    + rewrite Hr. eexists. split; [reflexivity|]. exact Hy.
    + destruct (Z.eqb_spec (MONOTYPE_code MonoType mod 2) 0) as [H2|H2].
      * rewrite Hr. cbv zeta. rewrite high_order_uniform.
        destruct (fct_uniform (xe_min r) (xe_max r) (y r)
                    {| FCT.xi_min := dofs_xi_min s0;
                       FCT.xi_max := dofs_xi_max s0;
                       FCT.y := rate s0 |} (Hmap H2))
          as (st' & Hst' & Hzero); [|exact Hy|].
        -- intros k Hk.
           destruct (LowOrderFacts.low_order_encloses exec_mode MonoType
                       OptScheme ne nd numBdrs numDofs numSubcells
                       numDofsSubcell BdrDofs NbrDof Sub2Ind bdrInt
                       SubcellWeights K pk smap (lom_D s0) lumpedM b x
                       (dofs_xe_min s0) (dofs_xe_max s0) r k Hnd Hk Hr)
             as (l & h & j1 & j2 & Hl & Hh & Hj1 & Hj2 & -> & -> & _).
           split; eexists; (split; [eassumption|]);
             apply Hx; now apply dof_in_range.
        -- rewrite Hst'. eexists. split; [reflexivity|]. exact Hzero.
      * exfalso.
        destruct MonoType;
          first [now apply H0 | now apply H1 | now apply H2].
Qed.

End Uniform.

End Operator.

(** X27. For a uniform state on a mesh without exterior boundary slots,
    with zero boundary load and an advection matrix with zero row sums,
    [ComputeHighOrderSolution] returns the zero rate: the right-hand side
    [K x + b] with its flux terms vanishes on the dofs, and the mass solve
    stops in its first pass. *)
Theorem ComputeHighOrderSolution_uniform (MonoType : MONOTYPE)
  (OptScheme : bool) (ne nd numBdrs numDofs : nat) (BdrDofs : Z -> Z -> Z)
  (NbrDof : Z -> Z -> Z -> Z) (M K : SparseMatrix) (lumpedM b : Vector)
  (bdrInt : DTensor) (x : Vector) (c : Q) :
  (forall d, (0 <= d < ndofs ne nd)%Z -> x d == c) ->
  BdrDofs_in_range nd numBdrs numDofs BdrDofs ->
  no_exterior_slot ne nd numBdrs numDofs NbrDof ->
  zero_rate ne nd b ->
  zero_row_sums ne nd K ->
  forall d,
    ComputeHighOrderSolution MonoType OptScheme ne nd numBdrs numDofs BdrDofs
      NbrDof M K lumpedM b bdrInt x d = 0.
Proof.
  intros Hx HBdr HNbr Hb HK d.
  now rewrite (high_order_uniform MonoType OptScheme ne nd numBdrs numDofs
                 BdrDofs NbrDof M K lumpedM b x c Hx HBdr HNbr Hb HK bdrInt).
Qed.

Lemma ComputeHighOrderSolution_uniform_witness :
  ComputeHighOrderSolution None_ false 2 2 2 1
    (VertexBounds.BdrDofs_segment 1) (NbrDof_of periodic2)
    K_segment K_segment (fun _ => 1 # 4) (fun _ => 0) bdrInt_segment
    (fun _ => 1) 2%Z = 0.
Proof.
  refine (ComputeHighOrderSolution_uniform None_ false 2 2 2 1
            (VertexBounds.BdrDofs_segment 1) (NbrDof_of periodic2)
            K_segment K_segment (fun _ => 1 # 4) (fun _ => 0) bdrInt_segment
            (fun _ => 1) 1 _ _ _ _ _ 2%Z).
  - intros d _. reflexivity.
  - exact segment_BdrDofs_in_range.
  - exact periodic2_no_exterior_slot.
  - intros d _. reflexivity.
  - exact K_segment_zero_row_sums.
Defined.

(** X28. A uniform state is a fixed point of the evolution operator for
    every choice of [MonoType]: on a mesh without exterior boundary slots,
    with zero boundary load and matrices with zero row sums,
    [FE_Evolution::Mult] returns with a rate that vanishes on every dof; for
    the two FCT types every dof has to have contributors among the elements
    of the mesh. *)
Theorem Mult_uniform_state (exec_mode : Z) (MonoType : MONOTYPE)
  (OptScheme : bool)
  (ne nd numBdrs numDofs numSubcells numDofsSubcell : nat)
  (BdrDofs : Z -> Z -> Z) (NbrDof : Z -> Z -> Z -> Z) (Sub2Ind : Z -> Z -> Z)
  (map_for_bounds : gmap Z (list Z))
  (points : Z -> Z -> list Assembly.FacePoint) (SubcellWeights : DTensor)
  (M K pk : SparseMatrix) (smap : Z -> Z) (lumpedM b : Vector) (dt : Q)
  (x : Vector) (c : Q) (s0 : evolution) :
  (1 <= nd)%nat -> (1 <= numDofsSubcell)%nat ->
  (forall d, (0 <= d < ndofs ne nd)%Z -> x d == c) ->
  zero_rate ne nd b ->
  BdrDofs_in_range nd numBdrs numDofs BdrDofs ->
  no_exterior_slot ne nd numBdrs numDofs NbrDof ->
  zero_row_sums ne nd K ->
  (is_DiscUpw MonoType = true ->
     zero_row_sums ne nd (upwind_source OptScheme K pk)
     /\ lom_prepared exec_mode OptScheme K pk smap (lom_D s0)) ->
  ((MONOTYPE_code MonoType mod 2)%Z = 0%Z -> map_covers ne nd map_for_bounds) ->
  exists s,
    Mult exec_mode MonoType OptScheme ne nd numBdrs numDofs numSubcells
      numDofsSubcell BdrDofs NbrDof Sub2Ind map_for_bounds points
      SubcellWeights M K pk smap lumpedM b dt x s0 = Value s
    /\ zero_rate ne nd (rate s).
Proof.
  intros Hnd Hsub Hx Hb HBdr HNbr HK HDU Hmap.
  exact (Mult_uniform exec_mode MonoType OptScheme ne nd numBdrs numDofs
           numSubcells numDofsSubcell BdrDofs NbrDof Sub2Ind map_for_bounds
           points SubcellWeights M K pk smap lumpedM b dt x c Hx HBdr HNbr Hb
           HK Hnd Hsub s0 HDU Hmap).
Qed.

(** the contributor map of the ring of two elements *)
Definition periodic2_map : gmap Z (list Z) :=
  match DofInfo.GetVertexBoundsMap periodic2 (VertexBounds.BdrDofs_segment 1)
          2 1 2 1 with
  | Ok m => m
  | Fatal _ => ∅
  end.

Lemma periodic2_map_covers : map_covers 2 2 periodic2_map.
Proof.
  intros d Hd. unfold ndofs in Hd.
  assert (Hd' : d = 0%Z \/ d = 1%Z \/ d = 2%Z \/ d = 3%Z) by lia.
  destruct Hd' as [-> | [-> | [-> | ->]]];
    (split; [vm_compute; discriminate|]);
    intros e He; vm_compute in He;
    repeat (destruct He as [<-|He]; [lia|]); destruct He.
Qed.

Definition segment_start : evolution :=
  {| rate := fun _ => 0;
     dofs_xe_min := fun _ => PInf; dofs_xe_max := fun _ => MInf;
     dofs_xi_min := fun _ => PInf; dofs_xi_max := fun _ => MInf;
     lom_D := D_segment; asmbl_bdrInt := bdrInt_segment |}.

Lemma Mult_uniform_state_witness :
  exists s,
    Mult 0 ResDist_FCT false 2 2 2 1 1 2 (VertexBounds.BdrDofs_segment 1)
      (NbrDof_of periodic2) (fun m j => (m + j)%Z) periodic2_map
      (Assembly.segment_points 1) (fun _ _ _ => 0) K_segment K_segment
      K_segment (Upwinding.smap_of K_segment) (fun _ => 1 # 4) (fun _ => 0)
      (1 # 10) (fun _ => 1) segment_start = Value s
    /\ zero_rate 2 2 (rate s).
Proof.
  apply (Mult_uniform_state 0 ResDist_FCT false 2 2 2 1 1 2
           (VertexBounds.BdrDofs_segment 1) (NbrDof_of periodic2)
           (fun m j => (m + j)%Z) periodic2_map (Assembly.segment_points 1)
           (fun _ _ _ => 0) K_segment K_segment K_segment
           (Upwinding.smap_of K_segment) (fun _ => 1 # 4) (fun _ => 0)
           (1 # 10) (fun _ => 1) 1 segment_start).
  - lia.
  - lia.
  - intros d _. reflexivity.
  - intros d _. reflexivity.
  - exact segment_BdrDofs_in_range.
  - exact periodic2_no_exterior_slot.
  - exact K_segment_zero_row_sums.
  - intros H. discriminate H.
  - intros _. exact periodic2_map_covers.
Defined.

(** the lumped mass matrix [diag(1/4)] of the four dofs *)
Definition M_lumped4 : SparseMatrix :=
  csr_of_rows [[(0%Z, 1 # 4)]; [(1%Z, 1 # 4)]; [(2%Z, 1 # 4)]; [(3%Z, 1 # 4)]].

(** the ramp [x = [1, 2, 4, 3]] is not a fixed point *)
Example Mult_ramp_rates :
  match Mult 0 ResDist_FCT false 2 2 2 1 1 2 (VertexBounds.BdrDofs_segment 1)
          (NbrDof_of periodic2) (fun m j => (m + j)%Z) periodic2_map
          (Assembly.segment_points 1) (fun _ _ _ => 0) M_lumped4 K_segment
          K_segment (Upwinding.smap_of K_segment) (fun _ => 1 # 4)
          (fun _ => 0) (1 # 10) ramp_x segment_start with
  | Value s => map (fun d => Qred (rate s d)) [0; 1; 2; 3]%Z
  | _ => []
  end = [6; - (2); - (6); 2].
Proof. vm_compute. reflexivity. Qed.

End Evolution.

(** ** The parameter check of [main] *)

Module Config.
Local Open Scope Z_scope.

(** The check for meaningful combinations of parameters.  [MonoType] is the
    [int] read from the command line into the enumeration, [btype] the basis
    type ([BasisType::Positive] is 2).  The result is [None] when [main]
    returns 5, and otherwise the [MonoType] and [OptScheme] the run goes on
    with.  The first test of the source, [(int)MonoType != MonoType], compares
    a value with itself and never holds. *)
Definition check_parameters (MonoType btype order : Z) (OptScheme : bool)
  : option (Z * bool) :=
  let '(fail, MonoType, OptScheme) :=
    if negb (MonoType =? 0) then
      let fail := (MonoType <? 0) || (4 <? MonoType) in
      let fail := if negb (btype =? 2) then true else fail in
      if order =? 0 then (fail, 0, false) else (fail, MonoType, OptScheme)
    else (false, MonoType, false) in
  let OptScheme :=
    if (2 <? MonoType) && (order =? 1) && OptScheme then false
    else OptScheme in
  if fail then None else Some (MonoType, OptScheme).

(** [NeedSubcells = lom.OptScheme && (MonoType == ResDist || MonoType ==
    ResDist_FCT)] *)
Definition NeedSubcells (MonoType : Z) (OptScheme : bool) : bool :=
  OptScheme && ((MonoType =? 3) || (MonoType =? 4)).

(** X29. When the parameter check of [main] lets the run go on, the
    monotonicity type is one of the five enumerators; a type other than
    [None] is the one asked for and comes with the Bernstein basis; the
    optimized scheme is on only with a monotonicity type and an order other
    than 0; and the subcell scheme ([NeedSubcells]) is never used with order
    0 or 1. *)
Theorem check_parameters_sound (MonoType btype order : Z) (OptScheme : bool)
  (mt : Z) (opt : bool) :
  check_parameters MonoType btype order OptScheme = Some (mt, opt) ->
  0 <= mt <= 4
  /\ (mt <> 0 -> mt = MonoType /\ btype = 2 /\ order <> 0)
  /\ (opt = true -> OptScheme = true /\ mt <> 0)
  /\ (NeedSubcells mt opt = true -> order <> 0 /\ order <> 1).
Proof.
  unfold check_parameters, NeedSubcells. destruct OptScheme;
    repeat match goal with
    | |- context [Z.ltb ?a ?b] => destruct (Z.ltb_spec a b)
    | |- context [Z.eqb ?a ?b] => destruct (Z.eqb_spec a b)
    end; cbn [negb orb andb]; try discriminate;
    intros [= <- <-]; cbn [andb];
    repeat split; intros; try lia; try congruence; try discriminate;
    repeat match goal with
    | H : context [Z.ltb ?a ?b] |- _ =>
        destruct (Z.ltb_spec a b); cbn [andb] in H
    end; try discriminate; try lia.
Qed.

Lemma check_parameters_sound_witness :
  0 <= 4 <= 4
  /\ (4 <> 0 -> 4 = 4 /\ 2 = 2 /\ 3 <> 0)
  /\ (true = true -> true = true /\ 4 <> 0)
  /\ (NeedSubcells 4 true = true -> 3 <> 0 /\ 3 <> 1).
Proof.
  apply (check_parameters_sound 4 2 3 true 4 true). reflexivity.
Defined.

(** the subcell scheme asked for with linear elements is switched off *)
Example check_parameters_linear :
  check_parameters 3 2 1 true = Some (3, false).
Proof. reflexivity. Qed.

(** a monotonicity type that does not exist stops the run *)
Example check_parameters_unsupported :
  check_parameters 7 2 3 false = None.
Proof. reflexivity. Qed.

End Config.

(** ** The initial condition: unions of indicator functions *)

Module InitialCondition.

(** [get_cross(rect1, rect2)]: the union of two indicators *)
Definition get_cross (rect1 rect2 : Q) : Q :=
  let intersection := rect1 * rect2 in
  rect1 + rect2 - intersection.

(** X30. On the values 0 and 1 that [box] and [box3D] return, [get_cross]
    is the logical or: the result is again 0 or 1, and it is 1 exactly when
    one of the arguments is.  It is commutative and associative, so the
    nested call of the three-dimensional cross does not depend on the
    order. *)
Theorem get_cross_union (r1 r2 r3 : Q) :
  (r1 == 0 \/ r1 == 1) -> (r2 == 0 \/ r2 == 1) ->
  (get_cross r1 r2 == 0 \/ get_cross r1 r2 == 1)
  /\ (get_cross r1 r2 == 1 <-> r1 == 1 \/ r2 == 1)
  /\ get_cross r1 r2 == get_cross r2 r1
  /\ get_cross (get_cross r1 r2) r3 == get_cross r1 (get_cross r2 r3).
Proof.
  intros H1 H2. unfold get_cross. cbv zeta.
  split; [|split; [|split; ring]].
  - destruct H1 as [-> | ->], H2 as [-> | ->]; [left | right | right | right];
      ring.
  - split.
    + intros H. destruct H1 as [H1|H1]; [|now left].
      destruct H2 as [H2|H2]; [|now right].
      rewrite H1, H2 in H. exfalso. revert H. vm_compute. discriminate.
    + intros [H|H]; rewrite H; ring.
Qed.

Lemma get_cross_union_witness :
  (get_cross 1 0 == 0 \/ get_cross 1 0 == 1)
  /\ (get_cross 1 0 == 1 <-> 1 == 1 \/ 0 == 1)
  /\ get_cross 1 0 == get_cross 0 1
  /\ get_cross (get_cross 1 0) 1 == get_cross 1 (get_cross 0 1).
Proof.
  apply (get_cross_union 1 0 1); [right | left]; reflexivity.
Defined.

End InitialCondition.

(** * Rounding: the code in exact and in binary64 arithmetic

    The modules above read a [double] as an exact rational.  The limiter of
    [ComputeFCTSolution] and the denominators of the residual distribution
    are stated against a tolerance [eps = 1.E-15] that is of the size of one
    rounding error, so what they guarantee depends on the arithmetic.  Here
    the same code is written once over an abstract arithmetic and run in two
    of them: [exact], the rationals with the special values of IEEE 754, and
    [binary64], the doubles of the machine. *)

Module Arith.

(** What the code asks of [double]: the literals it writes, the conversion
    of an [int], the four operations, unary minus and [<].  [a > b] is
    [b < a]. *)
Record arith : Type := {
  num : Type;
  of_int : Z -> num;
  eps_lit : num;
  infinity : num;
  opp : num -> num;
  add : num -> num -> num;
  sub : num -> num -> num;
  mul : num -> num -> num;
  div : num -> num -> num;
  ltb : num -> num -> bool
}.

(** [std::max(a, b)] is [(a < b) ? b : a] and [std::min(a, b)] is
    [(b < a) ? b : a], whatever the values are. *)
Definition amax (A : arith) (a b : num A) : num A :=
  if ltb A a b then b else a.
Definition amin (A : arith) (a b : num A) : num A :=
  if ltb A b a then b else a.

(** [Σ_{j in js} f j], accumulated from the left as a loop does *)
Definition asum (A : arith) (f : Z -> num A) (js : list Z) (init : num A)
  : num A :=
  fold_left (fun acc j => add A acc (f j)) js init.

(** a literal [n/d] of the program text, [n] and [d] below [2^53]: in a
    rounding arithmetic the number nearest to it *)
Definition lit (A : arith) (n d : Z) : num A :=
  div A (of_int A n) (of_int A d).

(** a vector given by its entries *)
Definition vec (A : arith) (l : list (num A)) : Z -> num A :=
  fun i => nth (Z.to_nat i) l (of_int A 0).

(** ** Exact arithmetic with the special values

    A finite value is a rational and no operation rounds or overflows; the
    infinities and NaN behave as IEEE 754 says.  There is one zero: it
    stands for [+0.0], whose sign shows only when it divides a non-zero
    value. *)
Inductive xreal : Type :=
| XNaN
| XMInf
| XFin (q : Q)
| XPInf.

Definition xopp (a : xreal) : xreal :=
  match a with
  | XNaN => XNaN
  | XMInf => XPInf
  | XFin q => XFin (- q)
  | XPInf => XMInf
  end.

Definition xadd (a b : xreal) : xreal :=
  match a, b with
  | XNaN, _ | _, XNaN => XNaN
  | XPInf, XMInf | XMInf, XPInf => XNaN
  | XPInf, _ | _, XPInf => XPInf
  | XMInf, _ | _, XMInf => XMInf
  | XFin p, XFin q => XFin (p + q)
  end.

Definition xsub (a b : xreal) : xreal :=
  match a, b with
  | XNaN, _ | _, XNaN => XNaN
  | XPInf, XPInf | XMInf, XMInf => XNaN
  | XPInf, _ | _, XMInf => XPInf
  | XMInf, _ | _, XPInf => XMInf
  | XFin p, XFin q => XFin (p - q)
  end.

(** an infinity of the sign of [s * q], NaN for [q = 0] *)
Definition xinf_times (positive : bool) (q : Q) : xreal :=
  match Qcompare q 0 with
  | Eq => XNaN
  | Gt => if positive then XPInf else XMInf
  | Lt => if positive then XMInf else XPInf
  end.

Definition xmul (a b : xreal) : xreal :=
  match a, b with
  | XNaN, _ | _, XNaN => XNaN
  | XPInf, XPInf | XMInf, XMInf => XPInf
  | XPInf, XMInf | XMInf, XPInf => XMInf
  | XPInf, XFin q | XFin q, XPInf => xinf_times true q
  | XMInf, XFin q | XFin q, XMInf => xinf_times false q
  | XFin p, XFin q => XFin (p * q)
  end.

Definition xdiv (a b : xreal) : xreal :=
  match a, b with
  | XNaN, _ | _, XNaN => XNaN
  | XPInf, XFin q =>
      match Qcompare q 0 with Lt => XMInf | _ => XPInf end
  | XMInf, XFin q =>
      match Qcompare q 0 with Lt => XPInf | _ => XMInf end
  | XFin _, XPInf | XFin _, XMInf => XFin 0
  | XFin p, XFin q =>
      match Qcompare q 0 with
      | Eq => match Qcompare p 0 with
              | Eq => XNaN
              | Gt => XPInf
              | Lt => XMInf
              end
      | _ => XFin (p / q)
      end
  | _, _ => XNaN
  end.

Definition xltb (a b : xreal) : bool :=
  match a, b with
  | XNaN, _ | _, XNaN => false
  | XMInf, XMInf => false
  | XMInf, _ => true
  | XFin _, XMInf => false
  | XFin p, XFin q => match Qcompare p q with Lt => true | _ => false end
  | XFin _, XPInf => true
  | XPInf, _ => false
  end.

(** [a <= b] on doubles: false when one of them is NaN *)
Definition xleb (a b : xreal) : bool :=
  match a, b with
  | XNaN, _ | _, XNaN => false
  | _, _ => negb (xltb b a)
  end.

Definition exact : arith := {|
  num := xreal;
  of_int := fun z => XFin (inject_Z z);
  eps_lit := XFin eps;
  infinity := XPInf;
  opp := xopp;
  add := xadd;
  sub := xsub;
  mul := xmul;
  div := xdiv;
  ltb := xltb
|}.

(** ** The doubles of the machine: IEEE 754 binary64, round to nearest even *)

(** an [int] of the code converted to [double]; exact below [2^53] *)
Definition float_of_int (z : Z) : float :=
  match z with
  | Z0 => PrimFloat.zero
  | Zpos _ => PrimFloat.of_uint63 (Uint63.of_Z z)
  | Zneg p => PrimFloat.opp (PrimFloat.of_uint63 (Uint63.of_Z (Zpos p)))
  end.

(** the double nearest to [1.E-15] *)
Definition eps64 : float := 0x1.203af9ee75616p-50%float.

Definition binary64 : arith := {|
  num := float;
  of_int := float_of_int;
  eps_lit := eps64;
  infinity := PrimFloat.infinity;
  opp := PrimFloat.opp;
  add := PrimFloat.add;
  sub := PrimFloat.sub;
  mul := PrimFloat.mul;
  div := PrimFloat.div;
  ltb := PrimFloat.ltb
|}.

(** the value of a double, exactly *)
Definition to_exact (f : float) : xreal :=
  match Prim2SF f with
  | S754_zero _ => XFin 0
  | S754_infinity false => XPInf
  | S754_infinity true => XMInf
  | S754_nan => XNaN
  | S754_finite s m e =>
      let v := inject_Z (Z.pos m) * Qpower 2 e in
      XFin (if s then - v else v)
  end.

Definition xeqb (a b : xreal) : bool :=
  match a, b with
  | XNaN, XNaN | XMInf, XMInf | XPInf, XPInf => true
  | XFin p, XFin q => Qeq_bool p q
  | _, _ => false
  end.

(** [eps64] is the double nearest to [10^-15]: the quotient of the doubles
    [1] and [10^15], which are exact, rounded once. *)
Example eps64_nearest :
  PrimFloat.eqb eps64
    (PrimFloat.div (float_of_int 1) (float_of_int 1000000000000000)) = true.
Proof. vm_compute. reflexivity. Qed.

(** Where binary64 does not round, the two arithmetics agree, the special
    values included: all pairs of a few doubles whose sums, differences,
    products and quotients are doubles. *)
Definition samples : list float :=
  [PrimFloat.nan; PrimFloat.neg_infinity; (-4)%float; (-0.5)%float;
   PrimFloat.zero; 0.5%float; 2%float; PrimFloat.infinity].

Definition agree_on (op64 : float -> float -> float)
  (opx : xreal -> xreal -> xreal) : bool :=
  forallb (fun a =>
    forallb (fun b =>
      xeqb (to_exact (op64 a b)) (opx (to_exact a) (to_exact b))) samples)
    samples.

Example exact_agrees_with_binary64 :
  agree_on PrimFloat.add xadd = true
  /\ agree_on PrimFloat.sub xsub = true
  /\ agree_on PrimFloat.mul xmul = true
  /\ agree_on PrimFloat.div xdiv = true
  /\ forallb (fun a => xeqb (to_exact (PrimFloat.opp a)) (xopp (to_exact a)))
       samples = true
  /\ forallb (fun a =>
       forallb (fun b =>
         Bool.eqb (PrimFloat.ltb a b) (xltb (to_exact a) (to_exact b))
         && Bool.eqb (PrimFloat.leb a b) (xleb (to_exact a) (to_exact b)))
         samples) samples = true.
Proof. vm_compute. repeat split; reflexivity. Qed.

(** ** Finite values in the exact arithmetic *)

Lemma xltb_fin (a b : Q) : xltb (XFin a) (XFin b) = Qltb a b.
Proof.
  cbn [xltb]. destruct (Qcompare a b) eqn:C; symmetry.
  - apply Qeq_alt in C. destruct (Qltb a b) eqn:E; [|reflexivity].
    apply Qltb_lt in E. lra.
  - apply Qlt_alt in C. now apply Qltb_lt.
  - apply Qgt_alt in C. destruct (Qltb a b) eqn:E; [|reflexivity].
    apply Qltb_lt in E. lra.
Qed.

Lemma xleb_fin (a b : Q) : xleb (XFin a) (XFin b) = true <-> a <= b.
Proof.
  cbn [xleb]. rewrite xltb_fin, negb_true_iff. split.
  - intros H. now apply Qltb_ge.
  - intros H. destruct (Qltb b a) eqn:E; [|reflexivity].
    apply Qltb_lt in E. lra.
Qed.

Lemma amax_fin (a b : Q) : amax exact (XFin a) (XFin b) = XFin (Qmax a b).
Proof.
  unfold amax, Qmax, GenericMinMax.gmax. cbn [ltb exact xltb].
  now destruct (Qcompare a b).
Qed.

Lemma amin_fin (a b : Q) : amin exact (XFin a) (XFin b) = XFin (Qmin a b).
Proof.
  unfold amin, Qmin, GenericMinMax.gmin. cbn [ltb exact xltb].
  rewrite <- (Qcompare_antisym a b).
  now destruct (Qcompare a b).
Qed.

Lemma xdiv_fin (a b : Q) : ~ b == 0 -> xdiv (XFin a) (XFin b) = XFin (a / b).
Proof.
  intros Hb. cbn [xdiv]. destruct (Qcompare b 0) eqn:C; try reflexivity.
  apply Qeq_alt in C. contradiction.
Qed.

(** a running extremum as a value of the exact arithmetic *)
Definition of_ext (e : ext) : xreal :=
  match e with
  | MInf => XMInf
  | Fin q => XFin q
  | PInf => XPInf
  end.

Lemma xltb_of_ext (a b : ext) : xltb (of_ext a) (of_ext b) = ext_ltb a b.
Proof. destruct a, b; reflexivity. Qed.

Lemma amax_of_ext (a b : ext) :
  amax exact (of_ext a) (of_ext b) = of_ext (emax a b).
Proof.
  unfold amax, emax. cbn [ltb exact]. rewrite xltb_of_ext.
  now destruct (ext_ltb a b).
Qed.

Lemma amin_of_ext (a b : ext) :
  amin exact (of_ext a) (of_ext b) = of_ext (emin a b).
Proof.
  unfold amin, emin. cbn [ltb exact]. rewrite xltb_of_ext.
  now destruct (ext_ltb b a).
Qed.

Lemma fold_left_lift {S T B : Type} (lift : S -> T) (f : S -> B -> S)
  (g : T -> B -> T) (l : list B) (s : S) :
  (forall s b, g (lift s) b = lift (f s b)) ->
  fold_left g l (lift s) = lift (fold_left f l s).
Proof.
  intros H. revert s. induction l as [|b l IH]; intros s; cbn [fold_left];
    [reflexivity|].
  rewrite H. apply IH.
Qed.

End Arith.

(** ** ComputeFCTSolution over an arithmetic *)

Module FCTNum.
Import Arith.

Section Blend.

Variable A : arith.
Local Abbreviation D := (num A).

Variable map_for_bounds : gmap Z (list Z).
(** the element bounds the low-order pass left in [dofs] *)
Variables xe_min xe_max : Z -> D.
Variable lumpedM : Z -> D.
Variable dt : D.
(** the number of elements and the dofs per element *)
Variables ne nd : nat.
Variables x yH yL : Z -> D.

Local Abbreviation zero := (of_int A 0).
Local Abbreviation eps := (eps_lit A).
Local Abbreviation dof k j := (k * Z.of_nat nd + j)%Z.

(** [dofs.xi_min], [dofs.xi_max] and [y]: what the call reads and writes *)
Record state : Type := {
  xi_min : Z -> D;
  xi_max : Z -> D;
  y : Z -> D
}.

(** the locals of one pass of the loop over the elements *)
Record locals : Type := {
  fClipped : Z -> D;
  sumPos : D;
  sumNeg : D
}.

(** [dofs.ComputeVertexBounds(x, dofInd)]: the values it stores in
    [xi_min(dofInd)] and [xi_max(dofInd)] *)
Definition ComputeVertexBounds (dofInd : Z) : D * D :=
  fold_left
    (fun b e => (amin A (fst b) (xe_min e), amax A (snd b) (xe_max e)))
    (DofInfo.bounds_of map_for_bounds dofInd)
    (infinity A, opp A (infinity A)).

(** [uClipped(j) = min(xi_max(dofInd), max(x(dofInd) + dt*yH(dofInd),
    xi_min(dofInd)))] *)
Definition uClipped_of (dofInd : Z) : D :=
  let b := ComputeVertexBounds dofInd in
  amin A (snd b)
    (amax A (add A (x dofInd) (mul A dt (yH dofInd))) (fst b)).

(** [fClipped(j) = lumpedM(dofInd) / dt
                   * (uClipped(j) - (x(dofInd) + dt * yL(dofInd)))] *)
Definition flux (dofInd : Z) : D :=
  mul A (div A (lumpedM dofInd) dt)
    (sub A (uClipped_of dofInd)
       (add A (x dofInd) (mul A dt (yL dofInd)))).

(** the body of the first loop over [j] *)
Definition clip_dof (k : Z) (s : state * locals) (j : Z) : state * locals :=
  let dofInd := dof k j in
  let b := ComputeVertexBounds dofInd in
  let f := flux dofInd in
  ({| xi_min := aset (xi_min (fst s)) dofInd (fst b);
      xi_max := aset (xi_max (fst s)) dofInd (snd b);
      y := y (fst s) |},
   {| fClipped := aset (fClipped (snd s)) j f;
      sumPos := add A (sumPos (snd s)) (amax A f zero);
      sumNeg := add A (sumNeg (snd s)) (amin A f zero) |}).

(** the two rescaling tests of the second loop *)
Definition rescale (sumPos sumNeg f : D) : D :=
  let f := if ltb A eps (add A sumPos sumNeg) && ltb A eps f
           then mul A f (div A (opp A sumNeg) sumPos) else f in
  let f := if ltb A (add A sumPos sumNeg) (opp A eps) && ltb A f (opp A eps)
           then mul A f (div A (opp A sumPos) sumNeg) else f in
  f.

(** the body of the second loop over [j] *)
Definition limit_dof (k : Z) (sumPos sumNeg : D)
  (s : (Z -> D) * (Z -> D)) (j : Z) : (Z -> D) * (Z -> D) :=
  let f := rescale sumPos sumNeg (fst s j) in
  let dofInd := dof k j in
  (aset (fst s) j f,
   aset (snd s) dofInd (add A (yL dofInd) (div A f (lumpedM dofInd)))).

(** One pass of the loop over the elements: the new state, and the locals
    [fClipped] (rescaled), [sumPos], [sumNeg] as they are at its end. *)
Definition fct_element (k : Z) (st : state) : state * locals :=
  let s1 := fold_left (clip_dof k) (zrange nd)
              (st, {| fClipped := fun _ => zero;
                      sumPos := zero; sumNeg := zero |}) in
  let r := fold_left (limit_dof k (sumPos (snd s1)) (sumNeg (snd s1)))
             (zrange nd) (fClipped (snd s1), y (fst s1)) in
  ({| xi_min := xi_min (fst s1); xi_max := xi_max (fst s1); y := snd r |},
   {| fClipped := fst r;
      sumPos := sumPos (snd s1); sumNeg := sumNeg (snd s1) |}).

Definition ComputeFCTSolution (st : state) : state :=
  fold_left (fun st k => fst (fct_element k st)) (zrange ne) st.

(** *** The loops, whatever the arithmetic *)

Lemma aset_eq {T : Type} (v : Z -> T) (i : Z) (a : T) : aset v i a i = a.
Proof. unfold aset. now rewrite Z.eqb_refl. Qed.

Lemma aset_ne {T : Type} (v : Z -> T) (i i' : Z) (a : T) :
  i' <> i -> aset v i a i' = v i'.
Proof. unfold aset. intros H. now destruct (Z.eqb_spec i' i). Qed.

(** the sums of the positive and of the negative fluxes of element [k] *)
Definition sumPos_of (k : Z) : D :=
  asum A (fun j => amax A (flux (dof k j)) zero) (zrange nd) zero.
Definition sumNeg_of (k : Z) : D :=
  asum A (fun j => amin A (flux (dof k j)) zero) (zrange nd) zero.

Lemma clip_loop_any (k : Z) (js : list Z) (s0 : state * locals) :
  let s1 := fold_left (clip_dof k) js s0 in
  (forall j, In j js -> fClipped (snd s1) j = flux (dof k j))
  /\ (forall j, ~ In j js -> fClipped (snd s1) j = fClipped (snd s0) j)
  /\ sumPos (snd s1)
     = asum A (fun j => amax A (flux (dof k j)) zero) js (sumPos (snd s0))
  /\ sumNeg (snd s1)
     = asum A (fun j => amin A (flux (dof k j)) zero) js (sumNeg (snd s0))
  /\ (forall j, In j js ->
        xi_min (fst s1) (dof k j) = fst (ComputeVertexBounds (dof k j))
        /\ xi_max (fst s1) (dof k j) = snd (ComputeVertexBounds (dof k j)))
  /\ (forall d, (forall j, In j js -> d <> dof k j) ->
        xi_min (fst s1) d = xi_min (fst s0) d
        /\ xi_max (fst s1) d = xi_max (fst s0) d)
  /\ y (fst s1) = y (fst s0).
Proof.
  revert s0. induction js as [|j0 js IH]; intros s0; cbn [fold_left].
  - cbv zeta. unfold asum. cbn [fold_left].
    repeat split; try reflexivity;
      try (intros ? []);
      try match goal with H : In _ [] |- _ => destruct H end.
  - specialize (IH (clip_dof k s0 j0)). cbv zeta in IH |- *.
    destruct IH as (Hf & Hfout & HP & HN & Hb & Hbout & Hy).
    set (s1 := fold_left (clip_dof k) js (clip_dof k s0 j0)) in *.
    split; [|split; [|split; [|split; [|split; [|split]]]]].
    + intros j Hj. destruct (in_dec Z.eq_dec j js) as [Hin|Hnin];
        [now apply Hf|].
      destruct Hj as [<-|Hj]; [|contradiction].
      rewrite Hfout by exact Hnin. cbn [clip_dof snd fClipped].
      apply aset_eq.
    + intros j Hj. rewrite Hfout by (intros H; apply Hj; now right).
      cbn [clip_dof snd fClipped]. apply aset_ne. intros ->. apply Hj. now left.
    + rewrite HP. reflexivity.
    + rewrite HN. reflexivity.
    + intros j Hj. destruct (in_dec Z.eq_dec j js) as [Hin|Hnin];
        [now apply Hb|].
      destruct Hj as [<-|Hj]; [|contradiction].
      destruct (Hbout (dof k j0)) as [H1 H2].
      { intros j Hj Heq. apply Hnin. replace j0 with j by lia. exact Hj. }
      rewrite H1, H2. cbn [clip_dof fst xi_min xi_max].
      rewrite !aset_eq. split; reflexivity.
    + intros d Hd. destruct (Hbout d) as [H1 H2].
      { intros j Hj. apply Hd. now right. }
      rewrite H1, H2. cbn [clip_dof fst xi_min xi_max].
      rewrite !aset_ne by (apply Hd; now left). split; reflexivity.
    + rewrite Hy. reflexivity.
Qed.

Lemma limit_dof_any (k : Z) (sP sN : D) (fC y0 : Z -> D) (j : Z) :
  limit_dof k sP sN (fC, y0) j
  = (aset fC j (rescale sP sN (fC j)),
     aset y0 (dof k j)
       (add A (yL (dof k j))
          (div A (rescale sP sN (fC j)) (lumpedM (dof k j))))).
Proof. reflexivity. Qed.

Lemma limit_loop_any (k : Z) (sP sN : D) (js : list Z)
  (fC y0 : Z -> D) :
  List.NoDup js ->
  let r := fold_left (limit_dof k sP sN) js (fC, y0) in
  (forall j, In j js -> fst r j = rescale sP sN (fC j))
  /\ (forall j, ~ In j js -> fst r j = fC j)
  /\ (forall j, In j js ->
        snd r (dof k j)
        = add A (yL (dof k j))
            (div A (rescale sP sN (fC j)) (lumpedM (dof k j))))
  /\ (forall d, (forall j, In j js -> d <> dof k j) -> snd r d = y0 d).
Proof.
  revert fC y0. induction js as [|j0 js IH]; intros fC y0 Hnd; cbn [fold_left].
  - cbv zeta. cbn [fst snd].
    repeat split; try reflexivity;
      first [intros ? [] | intros; reflexivity].
  - apply List.NoDup_cons_iff in Hnd. destruct Hnd as [Hnin Hnd].
    rewrite limit_dof_any.
    match goal with
    | |- context [fold_left _ js (?a, ?b)] =>
        destruct (IH a b Hnd) as (Hf & Hfout & Hy & Hyout)
    end.
    cbv zeta. split; [|split; [|split]].
    + intros j [<-|Hj].
      * rewrite Hfout by exact Hnin. apply aset_eq.
      * rewrite (Hf j Hj). rewrite aset_ne; [reflexivity|].
        intros ->. contradiction.
    + intros j Hj. rewrite Hfout by (intros H; apply Hj; now right).
      apply aset_ne. intros ->. apply Hj. now left.
    + intros j [<-|Hj].
      * rewrite Hyout.
        -- apply aset_eq.
        -- intros j Hj Heq. apply Hnin. replace j0 with j by lia. exact Hj.
      * rewrite (Hy j Hj). rewrite aset_ne; [reflexivity|].
        intros ->. contradiction.
    + intros d Hd. rewrite Hyout by (intros j Hj; apply Hd; now right).
      apply aset_ne. apply Hd. now left.
Qed.

(** what one pass of the element loop leaves behind *)
Lemma fct_element_any (k : Z) (st : state) :
  let r := fct_element k st in
  sumPos (snd r) = sumPos_of k
  /\ sumNeg (snd r) = sumNeg_of k
  /\ (forall j, (0 <= j < Z.of_nat nd)%Z ->
        fClipped (snd r) j
        = rescale (sumPos_of k) (sumNeg_of k) (flux (dof k j))
        /\ y (fst r) (dof k j)
           = add A (yL (dof k j))
               (div A (rescale (sumPos_of k) (sumNeg_of k) (flux (dof k j)))
                  (lumpedM (dof k j)))
        /\ xi_min (fst r) (dof k j) = fst (ComputeVertexBounds (dof k j))
        /\ xi_max (fst r) (dof k j) = snd (ComputeVertexBounds (dof k j)))
  /\ (forall d, (forall j, (0 <= j < Z.of_nat nd)%Z -> d <> dof k j) ->
        y (fst r) d = y st d /\ xi_min (fst r) d = xi_min st d
        /\ xi_max (fst r) d = xi_max st d).
Proof.
  cbv zeta. unfold fct_element. cbv zeta.
  pose proof (clip_loop_any k (zrange nd)
                (st, {| fClipped := fun _ => zero;
                        sumPos := zero; sumNeg := zero |})) as H1.
  cbv zeta in H1.
  set (s1 := fold_left (clip_dof k) (zrange nd) _) in *.
  destruct H1 as (Hf & _ & HP & HN & Hb & Hbout & Hy0).
  cbn [fst snd sumPos sumNeg y xi_min xi_max] in HP, HN, Hbout, Hy0.
  pose proof (limit_loop_any k (sumPos (snd s1)) (sumNeg (snd s1))
                (zrange nd) (fClipped (snd s1)) (y (fst s1))
                (NoDup_zrange nd)) as H2.
  cbv zeta in H2. destruct H2 as (Hr & _ & Hy & Hyout).
  cbn [fst snd sumPos sumNeg fClipped y xi_min xi_max].
  fold (sumPos_of k) in HP. fold (sumNeg_of k) in HN.
  rewrite HP, HN in *.
  split; [reflexivity|]. split; [reflexivity|]. split.
  - intros j Hj. apply in_zrange in Hj.
    rewrite (Hr j Hj), (Hy j Hj), (Hf j Hj).
    destruct (Hb j Hj) as [Hb1 Hb2]. repeat split; assumption.
  - intros d Hd.
    assert (Hd' : forall j, In j (zrange nd) -> d <> dof k j)
      by (intros j Hj; apply Hd; now apply in_zrange).
    destruct (Hbout d Hd') as [Hb1 Hb2].
    rewrite (Hyout d Hd'), Hy0. repeat split; assumption.
Qed.

Lemma dof_blocks_disjoint (k k' j j' : Z) :
  (0 <= j < Z.of_nat nd)%Z -> (0 <= j' < Z.of_nat nd)%Z ->
  dof k j = dof k' j' -> k = k' /\ j = j'.
Proof. intros Hj Hj' Heq. assert (k = k') by nia. subst k'. split; lia. Qed.

(** what the loop over the elements [ks] leaves at a dof of one of them *)
Lemma fct_loop_any (ks : list Z) (st : state) (k j : Z) :
  In k ks -> (0 <= j < Z.of_nat nd)%Z ->
  let st' := fold_left (fun st k => fst (fct_element k st)) ks st in
  y st' (dof k j)
  = add A (yL (dof k j))
      (div A (rescale (sumPos_of k) (sumNeg_of k) (flux (dof k j)))
         (lumpedM (dof k j)))
  /\ xi_min st' (dof k j) = fst (ComputeVertexBounds (dof k j))
  /\ xi_max st' (dof k j) = snd (ComputeVertexBounds (dof k j)).
Proof.
  intros Hk Hj. cbv zeta.
  assert (Hframe : forall ks st,
            ~ In k ks ->
            let st' := fold_left (fun st k => fst (fct_element k st)) ks st in
            y st' (dof k j) = y st (dof k j)
            /\ xi_min st' (dof k j) = xi_min st (dof k j)
            /\ xi_max st' (dof k j) = xi_max st (dof k j)).
  { clear ks st Hk. induction ks as [|k0 ks IH]; intros st Hnin;
      cbn [fold_left]; [repeat split|].
    destruct (IH (fst (fct_element k0 st)))
      as (H1 & H2 & H3); [intros H; apply Hnin; now right|].
    pose proof (fct_element_any k0 st) as Hs. cbv zeta in Hs.
    destruct Hs as (_ & _ & _ & Hout).
    destruct (Hout (dof k j)) as (H4 & H5 & H6).
    { intros j' Hj' Heq. apply dof_blocks_disjoint in Heq; [|exact Hj|exact Hj'].
      destruct Heq as [-> _]. apply Hnin. now left. }
    cbv zeta. rewrite H1, H2, H3. repeat split; assumption. }
  revert st. induction ks as [|k0 ks IH]; intros st; [destruct Hk|].
  cbn [fold_left].
  destruct (in_dec Z.eq_dec k ks) as [Hin|Hnin]; [now apply IH|].
  destruct Hk as [->|Hk]; [|contradiction].
  destruct (Hframe ks (fst (fct_element k st)) Hnin) as (H1 & H2 & H3).
  pose proof (fct_element_any k st) as Hs. cbv zeta in Hs.
  destruct Hs as (_ & _ & Hin & _).
  destruct (Hin j Hj) as (_ & H4 & H5 & H6).
  rewrite H1, H2, H3. repeat split; assumption.
Qed.

End Blend.

Arguments xi_min {A} s.
Arguments xi_max {A} s.
Arguments y {A} s.
Arguments fClipped {A} l.
Arguments sumPos {A} l.
Arguments sumNeg {A} l.

End FCTNum.

(** ** The limiter in exact arithmetic *)

Module FCTExact.
Import Arith FCTNum.

(** *** The sums of the positive and of the negative fluxes

    Whatever the fluxes are, [sumPos] is a non-negative number, [+infinity]
    or NaN, and [sumNeg] a non-positive number, [-infinity] or NaN. *)
Definition nonneg_sum (a : xreal) : Prop :=
  match a with
  | XNaN | XPInf => True
  | XFin q => 0 <= q
  | XMInf => False
  end.

Definition nonpos_sum (a : xreal) : Prop :=
  match a with
  | XNaN | XMInf => True
  | XFin q => q <= 0
  | XPInf => False
  end.

Lemma amax_zero_nonneg (f : xreal) : nonneg_sum (amax exact f (XFin 0)).
Proof.
  destruct f as [| |q|]; unfold amax; cbn [ltb exact xltb nonneg_sum];
    try exact Logic.I; try lra.
  destruct (Qcompare q 0) eqn:C; cbn [nonneg_sum]; try lra.
  - apply Qeq_alt in C. lra.
  - apply Qgt_alt in C. lra.
Qed.

Lemma amin_zero_nonpos (f : xreal) : nonpos_sum (amin exact f (XFin 0)).
Proof.
  destruct f as [| |q|]; unfold amin; cbn [ltb exact xltb nonpos_sum];
    try exact Logic.I; try lra.
  destruct (Qcompare 0 q) eqn:C; cbn [nonpos_sum]; try lra.
  - apply Qeq_alt in C. lra.
  - apply Qgt_alt in C. lra.
Qed.

Lemma xadd_nonneg (a b : xreal) :
  nonneg_sum a -> nonneg_sum b -> nonneg_sum (xadd a b).
Proof.
  destruct a as [| |p|], b as [| |q|]; cbn [xadd nonneg_sum];
    try tauto. intros; lra.
Qed.

Lemma xadd_nonpos (a b : xreal) :
  nonpos_sum a -> nonpos_sum b -> nonpos_sum (xadd a b).
Proof.
  destruct a as [| |p|], b as [| |q|]; cbn [xadd nonpos_sum];
    try tauto. intros; lra.
Qed.

Lemma asum_invariant (P : xreal -> Prop) (f : Z -> xreal) (js : list Z)
  (init : xreal) :
  P init -> (forall a j, P a -> P (xadd a (f j))) ->
  P (asum exact f js init).
Proof.
  intros H0 Hstep. unfold asum. revert init H0.
  induction js as [|j js IH]; intros init H0; cbn [fold_left]; [exact H0|].
  apply IH. now apply Hstep.
Qed.

Section Sums.

Variable map_for_bounds : gmap Z (list Z).
Variables xe_min xe_max lumpedM : Z -> xreal.
Variable dt : xreal.
Variable nd : nat.
Variables x yH yL : Z -> xreal.

Local Abbreviation flux_of :=
  (flux exact map_for_bounds xe_min xe_max lumpedM dt x yH yL).

Lemma sumPos_nonneg (k : Z) :
  nonneg_sum (sumPos_of exact map_for_bounds xe_min xe_max lumpedM dt nd
                x yH yL k).
Proof.
  unfold sumPos_of. apply asum_invariant.
  - change (0 <= 0). lra.
  - intros a j Ha. apply xadd_nonneg; [exact Ha|]. apply amax_zero_nonneg.
Qed.

Lemma sumNeg_nonpos (k : Z) :
  nonpos_sum (sumNeg_of exact map_for_bounds xe_min xe_max lumpedM dt nd
                x yH yL k).
Proof.
  unfold sumNeg_of. apply asum_invariant.
  - change (0 <= 0). lra.
  - intros a j Ha. apply xadd_nonpos; [exact Ha|]. apply amin_zero_nonpos.
Qed.

End Sums.

(** *** The rescaling *)

(** On finite sums the rescaling is the one of the rational model. *)
Lemma rescale_fin (p n q : Q) :
  0 <= p -> n <= 0 ->
  rescale exact (XFin p) (XFin n) (XFin q) = XFin (FCT.rescale p n q).
Proof.
  intros Hp Hn. pose proof eps_pos as He.
  unfold rescale, FCT.rescale. cbv zeta.
  cbn [ltb add opp mul div eps_lit exact xadd xopp].
  rewrite !xltb_fin.
  destruct (Qltb eps (p + n)) eqn:E1; cbn [andb].
  - apply Qltb_lt in E1.
    destruct (Qltb eps q) eqn:E2.
    + rewrite (xdiv_fin (- n) p) by lra. cbn [xmul]. rewrite xltb_fin.
      destruct (Qltb (p + n) (- eps)) eqn:E3; cbn [andb];
        [apply Qltb_lt in E3; lra | reflexivity].
    + rewrite xltb_fin.
      destruct (Qltb (p + n) (- eps)) eqn:E3; cbn [andb];
        [apply Qltb_lt in E3; lra | reflexivity].
  - rewrite xltb_fin.
    destruct (Qltb (p + n) (- eps)) eqn:E3; cbn [andb];
      [|reflexivity].
    apply Qltb_lt in E3.
    destruct (Qltb q (- eps)) eqn:E4; [|reflexivity].
    rewrite (xdiv_fin (- p) n) by lra. reflexivity.
Qed.

(** Whatever the sums are, a finite flux is multiplied by a factor between
    0 and 1: by 0 when the sum it is scaled against is infinite. *)
Lemma rescale_exact_factor (sP sN : xreal) (q : Q) :
  nonneg_sum sP -> nonpos_sum sN ->
  exists r c, rescale exact sP sN (XFin q) = XFin r
              /\ 0 <= c <= 1 /\ r == c * q.
Proof.
  intros HP HN.
  destruct sP as [| |p|], sN as [| |n|]; cbn [nonneg_sum nonpos_sum] in HP, HN;
    try contradiction.
  - exists q, 1. split; [reflexivity|]. split; lra.
  - exists q, 1. split; [reflexivity|]. split; lra.
  - exists q, 1. split; [reflexivity|]. split; lra.
  - exists q, 1. split; [reflexivity|]. split; lra.
  - (* a finite [sumPos] against [sumNeg = -infinity] *)
    unfold rescale. cbv zeta.
    cbn [ltb add opp mul div eps_lit exact xadd xopp xltb andb xdiv].
    destruct (Qcompare q (- eps)).
    + exists q, 1. split; [reflexivity|]. split; lra.
    + exists (q * 0), 0. split; [reflexivity|]. split; lra.
    + exists q, 1. split; [reflexivity|]. split; lra.
  - destruct (FCT.rescale_factor p n q HP HN) as (c & Hc & HR).
    exists (FCT.rescale p n q), c.
    split; [now apply rescale_fin|]. split; assumption.
  - exists q, 1. split; [reflexivity|]. split; lra.
  - exists q, 1. split; [reflexivity|]. split; lra.
  - (* [sumPos = +infinity] against a finite [sumNeg] *)
    unfold rescale. cbv zeta.
    cbn [ltb add opp mul div eps_lit exact xadd xopp xltb andb xdiv].
    destruct (Qcompare eps q).
    + exists q, 1. split; [reflexivity|]. split; lra.
    + exists (q * 0), 0. cbn [xmul]. split; [reflexivity|]. split; lra.
    + exists q, 1. split; [reflexivity|]. split; lra.
Qed.

(** *** Clipping keeps a value between the bounds *)

Lemma clip_between (lo hi : xreal) (w h : Q) :
  xleb lo (XFin w) = true -> xleb (XFin w) hi = true ->
  exists u, amin exact hi (amax exact (XFin h) lo) = XFin u
            /\ xleb lo (XFin u) = true /\ xleb (XFin u) hi = true.
Proof.
  intros Hlo Hhi.
  destruct lo as [| |l|]; try discriminate Hlo;
    destruct hi as [| |t|]; try discriminate Hhi.
  - change (amax exact (XFin h) XMInf) with (XFin h).
    rewrite amin_fin. eexists. split; [reflexivity|]. split; [reflexivity|].
    apply xleb_fin. apply Q.le_min_l.
  - exists h. split; [reflexivity|]. split; reflexivity.
  - rewrite amax_fin, amin_fin. apply xleb_fin in Hlo, Hhi.
    eexists. split; [reflexivity|]. split; apply xleb_fin.
    + apply Q.min_glb; [lra | apply Q.le_max_r].
    + apply Q.le_min_l.
  - rewrite amax_fin. eexists. split; [reflexivity|].
    split; [|reflexivity]. apply xleb_fin. apply Q.le_max_r.
Qed.

Lemma between_bounds (lo hi : xreal) (a b v : Q) :
  xleb lo (XFin a) = true -> xleb lo (XFin b) = true ->
  xleb (XFin a) hi = true -> xleb (XFin b) hi = true ->
  (a <= v <= b \/ b <= v <= a) ->
  xleb lo (XFin v) = true /\ xleb (XFin v) hi = true.
Proof.
  intros Hla Hlb Hah Hbh Hv. split.
  - destruct lo as [| |l|]; try discriminate Hla; [reflexivity|].
    apply xleb_fin in Hla, Hlb. apply xleb_fin. lra.
  - destruct hi as [| |t|]; try discriminate Hah; [|reflexivity].
    apply xleb_fin in Hah, Hbh. apply xleb_fin. lra.
Qed.

(** C1 (as amended). In exact arithmetic the limiter keeps every dof within
    its bounds.  For every element [k] and local dof [j], with finite
    [x(d)], [yH(d)], [yL(d)], [lumpedM(d) > 0] at the dof [d = k*nd + j] and
    a finite [dt > 0]: when the low-order value [x(d) + dt*yL(d)] lies in
    [[xi_min(d), xi_max(d)]], the bounds that [ComputeVertexBounds] stores
    for [d] during the call, the rate that [ComputeFCTSolution] writes is a
    finite number with [xi_min(d) <= x(d) + dt*y(d) <= xi_max(d)].  Nothing
    is assumed of the other dofs: their values and bounds may be infinite
    or NaN. *)
Theorem ComputeFCTSolution_bounded_exact (map_for_bounds : gmap Z (list Z))
  (xe_min xe_max lumpedM : Z -> xreal) (dt : xreal) (ne nd : nat)
  (x yH yL : Z -> xreal) (st : state exact) (k j : Z) (dtq m xd h l : Q) :
  (0 <= k < Z.of_nat ne)%Z -> (0 <= j < Z.of_nat nd)%Z ->
  let d := (k * Z.of_nat nd + j)%Z in
  dt = XFin dtq -> lumpedM d = XFin m ->
  x d = XFin xd -> yH d = XFin h -> yL d = XFin l ->
  0 < dtq -> 0 < m ->
  let b := ComputeVertexBounds exact map_for_bounds xe_min xe_max d in
  xleb (fst b) (XFin (xd + dtq * l)) = true ->
  xleb (XFin (xd + dtq * l)) (snd b) = true ->
  let st' := ComputeFCTSolution exact map_for_bounds xe_min xe_max lumpedM dt
               ne nd x yH yL st in
  xi_min st' d = fst b /\ xi_max st' d = snd b
  /\ exists v, y st' d = XFin v
       /\ xleb (xi_min st' d) (XFin (xd + dtq * v)) = true
       /\ xleb (XFin (xd + dtq * v)) (xi_max st' d) = true.
Proof.
  intros Hk Hj d Hdt HlM Hx HyH HyL Hdtq Hm b Hlo Hhi st'.
  destruct (fct_loop_any exact map_for_bounds xe_min xe_max lumpedM dt nd
              x yH yL (zrange ne) st k j (proj2 (in_zrange _ _) Hk) Hj)
    as (Hy & Hmin & Hmax).
  fold d in Hy, Hmin, Hmax. fold b in Hmin, Hmax.
  change (fold_left _ (zrange ne) st) with st' in Hy, Hmin, Hmax.
  split; [exact Hmin|]. split; [exact Hmax|]. rewrite Hmin, Hmax.
  destruct (clip_between (fst b) (snd b) (xd + dtq * l) (xd + dtq * h) Hlo Hhi)
    as (u & Hu & Hulo & Huhi).
  assert (Hflux : flux exact map_for_bounds xe_min xe_max lumpedM dt x yH yL d
                  = XFin (m / dtq * (u - (xd + dtq * l)))).
  { unfold flux, uClipped_of. cbv zeta. fold b.
    rewrite Hdt, HlM, Hx, HyH, HyL.
    cbn [add sub mul div exact xadd xmul]. rewrite Hu.
    rewrite (xdiv_fin m dtq) by lra. reflexivity. }
  destruct (rescale_exact_factor _ _ (m / dtq * (u - (xd + dtq * l)))
              (sumPos_nonneg map_for_bounds xe_min xe_max lumpedM dt nd
                 x yH yL k)
              (sumNeg_nonpos map_for_bounds xe_min xe_max lumpedM dt nd
                 x yH yL k))
    as (r & c & HR & Hc & Hrc).
  rewrite Hflux, HR, HyL, HlM in Hy.
  cbn [add div exact] in Hy. rewrite (xdiv_fin r m) in Hy by lra.
  cbn [xadd] in Hy.
  exists (l + r / m). split; [exact Hy|].
  assert (Hval : xd + dtq * (l + r / m)
                 == (xd + dtq * l) + c * (u - (xd + dtq * l))).
  { rewrite Hrc. field. split; lra. }
  apply (between_bounds (fst b) (snd b) (xd + dtq * l) u); try assumption.
  rewrite Hval. destruct (Qlt_le_dec u (xd + dtq * l)); [right|left]; nra.
Qed.

(** *** Conservation *)

(** the value of a finite double *)
Definition xval (a : xreal) : Q :=
  match a with
  | XFin q => q
  | _ => 0
  end.

Lemma xadd_fin_inv (a b : xreal) (s : Q) :
  xadd a b = XFin s -> exists p q, a = XFin p /\ b = XFin q /\ s = p + q.
Proof.
  destruct a as [| |p|], b as [| |q|]; cbn [xadd]; try discriminate.
  intros [= <-]. now exists p, q.
Qed.

(** a finite sum has finite terms *)
Lemma asum_fin_inv (f : Z -> xreal) (js : list Z) (init : xreal) (s : Q) :
  asum exact f js init = XFin s ->
  (exists a, init = XFin a) /\ forall j, In j js -> exists q, f j = XFin q.
Proof.
  unfold asum. revert init. induction js as [|j0 js IH]; intros init H;
    cbn [fold_left] in H.
  - split; [now exists s | intros j []].
  - destruct (IH _ H) as [(a & Ha) Hall].
    cbn [add exact] in Ha. apply xadd_fin_inv in Ha.
    destruct Ha as (p & q & Hp & Hq & _).
    split; [now exists p|]. intros j [<-|Hj]; [now exists q | now apply Hall].
Qed.

(** a sum of finite terms is the rational sum *)
Lemma asum_fin (f : Z -> xreal) (g : Z -> Q) (js : list Z) (a : Q) :
  (forall j, In j js -> f j = XFin (g j)) ->
  asum exact f js (XFin a) = XFin (fold_left (fun acc j => acc + g j) js a).
Proof.
  unfold asum. revert a. induction js as [|j0 js IH]; intros a H;
    cbn [fold_left]; [reflexivity|].
  rewrite (H j0 (or_introl eq_refl)). cbn [add exact xadd].
  apply IH. intros j Hj. apply H. now right.
Qed.

Lemma amax_zero_fin_inv (f : xreal) (p n : Q) :
  amax exact f (XFin 0) = XFin p -> amin exact f (XFin 0) = XFin n ->
  exists q, f = XFin q.
Proof.
  destruct f as [| |q|]; unfold amax, amin; cbn [ltb exact xltb];
    try discriminate.
  intros _ _. now exists q.
Qed.

(** An element's rescaled fluxes, in rationals: what is left over after the
    positive and the negative part have been balanced is the part of the
    small fluxes that the tests against [eps] leave unscaled. *)
Lemma rescale_sum_bound (fl : Z -> Q) (n : nat) (sP sN : Q) :
  sP == qsum (fun j => Qmax (fl j) 0) (zrange n) ->
  sN == qsum (fun j => Qmin (fl j) 0) (zrange n) ->
  eps < sP + sN \/ sP + sN < - eps ->
  Qabs (qsum (fun j => FCT.rescale sP sN (fl j)) (zrange n))
  <= inject_Z (Z.of_nat n) * eps.
Proof.
  intros HP HN Hnet.
  assert (HsP : 0 <= sP).
  { rewrite HP. apply qsum_nonneg. intros; apply Q.le_max_r. }
  assert (HsN : sN <= 0) by (rewrite HN; apply (FCT.qsum_min_nonpos fl)).
  pose proof eps_pos as He.
  assert (HP' : qsum (fun j => Qmax (fl j) 0) (zrange n) == sP)
    by (symmetry; exact HP).
  assert (HN' : qsum (fun j => Qmin (fl j) 0) (zrange n) == sN)
    by (symmetry; exact HN).
  apply Qabs_Qle_condition.
  destruct Hnet as [Hpos|Hneg].
  - set (c := - sN / sP).
    set (e := fun j => FCT.rescale sP sN (fl j)
                       - (c * Qmax (fl j) 0 + Qmin (fl j) 0)).
    assert (He' : forall j, In j (zrange n) -> 0 <= e j <= eps).
    { intros j _.
      apply (proj1 (FCT.rescale_residue sP sN (fl j) HsP HsN) Hpos). }
    destruct (FCT.qsum_bounds e 0 eps (zrange n) He') as [Hlo Hhi].
    rewrite FCT.length_zrange in Hlo, Hhi.
    rewrite (qsum_ext _ (fun j => (Qmax (fl j) 0 * c + Qmin (fl j) 0) + e j))
      by (intros; unfold e; lra).
    rewrite !qsum_plus, qsum_scale, HP', HN'.
    assert (Hc : sP * c == - sN) by (unfold c; field; lra).
    split; nra.
  - set (c := - sP / sN).
    set (e := fun j => FCT.rescale sP sN (fl j)
                       - (Qmax (fl j) 0 + c * Qmin (fl j) 0)).
    assert (He' : forall j, In j (zrange n) -> - eps <= e j <= 0).
    { intros j _.
      apply (proj2 (FCT.rescale_residue sP sN (fl j) HsP HsN) Hneg). }
    destruct (FCT.qsum_bounds e (- eps) 0 (zrange n) He')
      as [Hlo Hhi].
    rewrite FCT.length_zrange in Hlo, Hhi.
    rewrite (qsum_ext _ (fun j => (Qmax (fl j) 0 + Qmin (fl j) 0 * c) + e j))
      by (intros; unfold e; lra).
    rewrite !qsum_plus, qsum_scale, HP', HN'.
    assert (Hc : sN * c == - sP) by (unfold c; field; lra).
    split; nra.
Qed.

(** C2 (as amended). In exact arithmetic the rescaling balances the fluxes
    of an element: in one pass of the element loop of [ComputeFCTSolution],
    when the net flux [sumPos + sumNeg] is a finite number beyond [eps] in
    absolute value, the rescaled fluxes [fClipped(j)] of the element are
    finite and their sum is zero up to the number of dofs times [eps] (the
    part of the fluxes of size at most [eps], which the tests leave
    unscaled).  Only the side that outweighs the other is scaled: with a
    positive net flux every flux that is not above [eps] is left as it was
    clipped, and with a negative one every flux that is not below [-eps].
    The inputs are arbitrary. *)
Theorem fct_element_conservation_exact (map_for_bounds : gmap Z (list Z))
  (xe_min xe_max lumpedM : Z -> xreal) (dt : xreal) (nd : nat)
  (x yH yL : Z -> xreal) (k : Z) (st : state exact) (s : Q) :
  let loc := snd (fct_element exact map_for_bounds xe_min xe_max lumpedM dt
                    nd x yH yL k st) in
  xadd (sumPos loc) (sumNeg loc) = XFin s ->
  eps < s \/ s < - eps ->
  (exists t, asum exact (fClipped loc) (zrange nd) (XFin 0) = XFin t
             /\ Qabs t <= inject_Z (Z.of_nat nd) * eps)
  /\ forall j, (0 <= j < Z.of_nat nd)%Z ->
       exists q q',
         flux exact map_for_bounds xe_min xe_max lumpedM dt x yH yL
           (k * Z.of_nat nd + j)%Z = XFin q
         /\ fClipped loc j = XFin q'
         /\ (eps < s -> q <= eps -> q' = q)
         /\ (s < - eps -> - eps <= q -> q' = q).
Proof.
  intros loc Hs Hnet.
  pose proof (fct_element_any exact map_for_bounds xe_min xe_max lumpedM dt
                nd x yH yL k st) as Hspec.
  cbv zeta in Hspec. fold loc in Hspec.
  destruct Hspec as (HP & HN & Hin & _).
  set (fl := flux exact map_for_bounds xe_min xe_max lumpedM dt x yH yL) in *.
  apply xadd_fin_inv in Hs. destruct Hs as (p & n & Hp & Hn & ->).
  rewrite HP in Hp. rewrite HN in Hn. rewrite Hp, Hn in Hin.
  unfold sumPos_of in Hp. unfold sumNeg_of in Hn. fold fl in Hp, Hn.
  change (of_int exact 0%Z) with (XFin 0) in Hp, Hn.
  destruct (asum_fin_inv _ _ _ _ Hp) as [_ HallP].
  destruct (asum_fin_inv _ _ _ _ Hn) as [_ HallN].
  set (fq := fun j => xval (fl (k * Z.of_nat nd + j)%Z)).
  assert (Hfl : forall j, In j (zrange nd) ->
            fl (k * Z.of_nat nd + j)%Z = XFin (fq j)).
  { intros j Hj. destruct (HallP j Hj) as (a & Ha).
    destruct (HallN j Hj) as (b & Hb).
    destruct (amax_zero_fin_inv _ _ _ Ha Hb) as (q & Hq).
    unfold fq. now rewrite Hq. }
  assert (HpQ : p = qsum (fun j => Qmax (fq j) 0) (zrange nd)).
  { rewrite (asum_fin _ (fun j => Qmax (fq j) 0)) in Hp.
    - now injection Hp as <-.
    - intros j Hj. rewrite (Hfl j Hj). apply amax_fin. }
  assert (HnQ : n = qsum (fun j => Qmin (fq j) 0) (zrange nd)).
  { rewrite (asum_fin _ (fun j => Qmin (fq j) 0)) in Hn.
    - now injection Hn as <-.
    - intros j Hj. rewrite (Hfl j Hj). apply amin_fin. }
  assert (Hp0 : 0 <= p).
  { rewrite HpQ. apply qsum_nonneg. intros; apply Q.le_max_r. }
  assert (Hn0 : n <= 0) by (rewrite HnQ; apply (FCT.qsum_min_nonpos fq)).
  assert (Hres : forall j, In j (zrange nd) ->
            fClipped loc j = XFin (FCT.rescale p n (fq j))).
  { intros j Hj. destruct (Hin j (proj1 (in_zrange _ _) Hj)) as [-> _].
    rewrite (Hfl j Hj). now apply rescale_fin. }
  split.
  - exists (qsum (fun j => FCT.rescale p n (fq j)) (zrange nd)). split.
    + now apply (asum_fin _ (fun j => FCT.rescale p n (fq j))).
    + apply rescale_sum_bound; [rewrite HpQ | rewrite HnQ | exact Hnet];
        reflexivity.
  - intros j Hj. apply in_zrange in Hj.
    exists (fq j), (FCT.rescale p n (fq j)).
    split; [now apply Hfl|]. split; [now apply Hres|].
    pose proof eps_pos as He.
    destruct (FCT.rescale_cases p n (fq j))
      as [(H1 & H2 & _)|[(H1 & H2 & _)|(_ & _ & ->)]].
    + split; intros; lra.
    + split; intros; lra.
    + split; reflexivity.
Qed.

End FCTExact.

(** ** The rational model of the limiter is the exact arithmetic on finite
    values

    The module [FCT] reads the limiter over the rationals and stops with
    [None] at a clipped value that is not finite.  Where it returns, it
    returns the rates of the exact arithmetic. *)

Module FCTRational.
Import Arith FCTNum FCTExact.

Section Blend.

Variable map_for_bounds : gmap Z (list Z).
Variables xe_min xe_max : Z -> ext.
Variable lumpedM : Vector.
Variable dt : Q.
Variables ne nd : nat.
Variables x yH yL : Vector.

(** the inputs as values of the exact arithmetic *)
Local Abbreviation low := (fun e => of_ext (xe_min e)).
Local Abbreviation high := (fun e => of_ext (xe_max e)).
Local Abbreviation lM := (fun i => XFin (lumpedM i)).
Local Abbreviation xs := (fun i => XFin (x i)).
Local Abbreviation yHs := (fun i => XFin (yH i)).
Local Abbreviation yLs := (fun i => XFin (yL i)).
Local Abbreviation dof k j := (k * Z.of_nat nd + j)%Z.

Local Abbreviation qflux :=
  (FCT.flux map_for_bounds xe_min xe_max lumpedM dt x yH yL).
Local Abbreviation qfinite :=
  (FCT.finite_clip map_for_bounds xe_min xe_max dt x yH).

Lemma ComputeVertexBounds_exact (d : Z) :
  let b := DofInfo.ComputeVertexBounds map_for_bounds xe_min xe_max d in
  ComputeVertexBounds exact map_for_bounds low high d
  = (of_ext (fst b), of_ext (snd b)).
Proof.
  cbv zeta.
  unfold ComputeVertexBounds, DofInfo.ComputeVertexBounds,
    DofInfo.vertex_bounds_loop.
  change (infinity exact, opp exact (infinity exact))
    with ((fun b : ext * ext => (of_ext (fst b), of_ext (snd b))) (PInf, MInf)).
  apply (fold_left_lift (fun b : ext * ext => (of_ext (fst b), of_ext (snd b)))).
  intros b e. cbn [fst snd]. now rewrite amin_of_ext, amax_of_ext.
Qed.

Lemma flux_exact (d : Z) :
  ~ dt == 0 -> qfinite d ->
  flux exact map_for_bounds low high lM (XFin dt) xs yHs yLs d
  = XFin (qflux d).
Proof.
  intros Hdt (u & Hu). unfold flux, uClipped_of, FCT.flux. cbv zeta.
  rewrite Hu. unfold FCT.uClipped_of in Hu. cbv zeta in Hu.
  rewrite ComputeVertexBounds_exact. cbn [fst snd].
  cbn [add sub mul div exact xadd xmul].
  change (XFin (x d + dt * yH d)) with (of_ext (Fin (x d + dt * yH d))).
  rewrite amax_of_ext, amin_of_ext.
  destruct (emin _ _) as [|q|]; try discriminate Hu.
  injection Hu as ->. cbn [of_ext xsub].
  rewrite (xdiv_fin (lumpedM d) dt Hdt). reflexivity.
Qed.

Lemma rescale_proper (sP sP' sN sN' f : Q) :
  sP == sP' -> sN == sN' -> 0 <= sP -> sN <= 0 ->
  FCT.rescale sP sN f == FCT.rescale sP' sN' f.
Proof.
  intros HP HN HP0 HN0. pose proof eps_pos as He.
  destruct (FCT.rescale_cases sP sN f)
    as [(H1 & H2 & ->)|[(H1 & H2 & ->)|(H1 & H2 & ->)]];
    destruct (FCT.rescale_cases sP' sN' f)
      as [(H3 & H4 & ->)|[(H3 & H4 & ->)|(H3 & H4 & ->)]];
    repeat match goal with
           | H : _ \/ _ |- _ => destruct H
           end;
    first [lra | rewrite HP, HN; reflexivity].
Qed.

Lemma run_finite (ks : list Z) (st st' : FCT.state) :
  ofold (fun st k =>
           option_map fst
             (FCT.fct_element map_for_bounds xe_min xe_max lumpedM dt nd
                x yH yL k st)) ks st = Some st' ->
  forall k j, In k ks -> (0 <= j < Z.of_nat nd)%Z -> qfinite (dof k j).
Proof.
  revert st. induction ks as [|k0 ks IH]; intros st H k j Hk Hj;
    [destruct Hk|].
  cbn [ofold] in H.
  destruct (FCT.fct_element map_for_bounds xe_min xe_max lumpedM dt nd
              x yH yL k0 st) as [[st1 loc]|] eqn:E; [|discriminate H].
  cbn [option_map fst] in H.
  destruct Hk as [<-|Hk].
  - eapply FCT.fct_element_finite; eassumption.
  - eapply IH; eassumption.
Qed.

(** Where the rational model returns, every rate it returns is the rate of
    the exact arithmetic ([dt] and the lumped masses being non-zero). *)
Lemma rational_model_exact (st : FCT.state) (st' : FCT.state)
  (st0 : state exact) (k j : Z) :
  ~ dt == 0 ->
  (0 <= k < Z.of_nat ne)%Z -> (0 <= j < Z.of_nat nd)%Z ->
  ~ lumpedM (dof k j) == 0 ->
  FCT.ComputeFCTSolution map_for_bounds xe_min xe_max lumpedM dt ne nd
    x yH yL st = Some st' ->
  let new := ComputeFCTSolution exact map_for_bounds low high lM (XFin dt)
               ne nd xs yHs yLs st0 in
  xi_min new (dof k j) = of_ext (FCT.xi_min st' (dof k j))
  /\ xi_max new (dof k j) = of_ext (FCT.xi_max st' (dof k j))
  /\ exists v, y new (dof k j) = XFin v /\ v == FCT.y st' (dof k j).
Proof.
  intros Hdt Hk Hj HlM Hrun new.
  pose proof (run_finite _ _ _ Hrun) as Hfin.
  destruct (FCT.fct_loop_spec map_for_bounds xe_min xe_max lumpedM dt nd
              x yH yL (zrange ne) st) as (st2 & Hrun2 & Hw & _).
  { intros k' j' Hk' Hj'. now apply Hfin. }
  unfold FCT.ComputeFCTSolution in Hrun. rewrite Hrun in Hrun2.
  injection Hrun2 as <-.
  destruct (Hw k (proj2 (in_zrange _ _) Hk)) as (sP & sN & HP & HN & Hdof).
  destruct (Hdof j Hj) as (Hy & Hmin & Hmax).
  destruct (fct_loop_any exact map_for_bounds low high lM (XFin dt) nd
              xs yHs yLs (zrange ne) st0 k j (proj2 (in_zrange _ _) Hk) Hj)
    as (Hy' & Hmin' & Hmax').
  change (fold_left _ (zrange ne) st0) with new in Hy', Hmin', Hmax'.
  rewrite ComputeVertexBounds_exact in Hmin', Hmax'. cbn [fst snd] in Hmin', Hmax'.
  rewrite Hmin, Hmax. split; [exact Hmin'|]. split; [exact Hmax'|].
  set (P := qsum (fun j => Qmax (qflux (dof k j)) 0) (zrange nd)) in *.
  set (N := qsum (fun j => Qmin (qflux (dof k j)) 0) (zrange nd)) in *.
  assert (HsumP : sumPos_of exact map_for_bounds low high lM (XFin dt) nd
                    xs yHs yLs k = XFin P).
  { unfold sumPos_of. change (of_int exact 0%Z) with (XFin 0).
    apply (asum_fin _ (fun j => Qmax (qflux (dof k j)) 0)).
    intros j' Hj'. apply in_zrange in Hj'.
    rewrite flux_exact
      by first [exact Hdt | apply Hfin; [now apply in_zrange | exact Hj']].
    apply amax_fin. }
  assert (HsumN : sumNeg_of exact map_for_bounds low high lM (XFin dt) nd
                    xs yHs yLs k = XFin N).
  { unfold sumNeg_of. change (of_int exact 0%Z) with (XFin 0).
    apply (asum_fin _ (fun j => Qmin (qflux (dof k j)) 0)).
    intros j' Hj'. apply in_zrange in Hj'.
    rewrite flux_exact
      by first [exact Hdt | apply Hfin; [now apply in_zrange | exact Hj']].
    apply amin_fin. }
  assert (HP0 : 0 <= P).
  { unfold P. apply qsum_nonneg. intros; apply Q.le_max_r. }
  assert (HN0 : N <= 0).
  { unfold N. apply (FCT.qsum_min_nonpos (fun j => qflux (dof k j))). }
  rewrite HsumP, HsumN in Hy'.
  rewrite flux_exact in Hy'
    by first [exact Hdt | apply Hfin; [now apply in_zrange | exact Hj]].
  rewrite (rescale_fin P N _ HP0 HN0) in Hy'.
  cbn [add div exact] in Hy'. rewrite (xdiv_fin _ _ HlM) in Hy'.
  cbn [xadd] in Hy'.
  eexists. split; [exact Hy'|]. rewrite Hy.
  rewrite (rescale_proper P sP N sN); [reflexivity | | | assumption..].
  - symmetry. exact HP.
  - symmetry. exact HN.
Qed.

End Blend.

End FCTRational.

(** ** Two runs on the two-element segment, in both arithmetics *)

Module FCTRuns.
Import Arith FCTNum FCTExact.

Section Inputs.

Variable A : arith.

Local Abbreviation lit := (Arith.lit A).
Local Abbreviation vec := (Arith.vec A).

(** the state before the call: the bounds are refreshed by the call, and
    [y] is overwritten on every dof *)
Definition blank : state A :=
  {| xi_min := fun _ => infinity A;
     xi_max := fun _ => opp A (infinity A);
     y := fun _ => of_int A 0 |}.

(** A swap: [x = [0.1, 0.9, 2.6, 2.6]] with the element bounds of [x], a
    high-order rate that moves the first element far beyond them, a zero
    low-order rate, [lumpedM = 1] and [dt = 0.1]. *)
Definition swap_x : Z -> num A :=
  vec [lit 1 10; lit 9 10; lit 26 10; lit 26 10].
Definition swap_yH : Z -> num A :=
  vec [of_int A 100; of_int A (-100); of_int A 0; of_int A 0].
Definition swap_yL : Z -> num A := fun _ => of_int A 0.
Definition swap_lumpedM : Z -> num A := fun _ => of_int A 1.
Definition swap_dt : num A := lit 1 10.

Definition swap : state A :=
  ComputeFCTSolution A VertexBounds.segment2_map
    (vec [lit 1 10; lit 26 10]) (vec [lit 9 10; lit 26 10])
    swap_lumpedM swap_dt 2 2 swap_x swap_yH swap_yL blank.

(** A surge: [x = [2.8, 0, 5, 5]] with the element bounds of [x],
    [yH = [-10^9, 10^9, 0, 0]], [yL = 0], [lumpedM = 1] and [dt = 10^-6].
    In the first element the clipped fluxes are [-2.8*10^6] and [5*10^6],
    so the positive one is rescaled by [0.56]. *)
Definition surge_xe_min : Z -> num A := vec [of_int A 0; of_int A 5].
Definition surge_xe_max : Z -> num A := vec [lit 28 10; of_int A 5].
Definition surge_x : Z -> num A :=
  vec [lit 28 10; of_int A 0; of_int A 5; of_int A 5].
Definition surge_yH : Z -> num A :=
  vec [of_int A (-1000000000); of_int A 1000000000; of_int A 0; of_int A 0].
Definition surge_dt : num A := lit 1 1000000.

Definition surge_element0 : state A * locals A :=
  fct_element A VertexBounds.segment2_map surge_xe_min surge_xe_max
    (fun _ => of_int A 1) surge_dt 2 surge_x surge_yH (fun _ => of_int A 0)
    0 blank.

Definition surge : state A :=
  ComputeFCTSolution A VertexBounds.segment2_map surge_xe_min surge_xe_max
    (fun _ => of_int A 1) surge_dt 2 2 surge_x surge_yH (fun _ => of_int A 0)
    blank.

End Inputs.

(** In exact arithmetic the surge leaves the second dof at [2.8], strictly
    inside its bounds [[0, 5]], with the rate [2.8*10^6] of the rescaled
    flux. *)
Example surge_exact_rate :
  xeqb (y (surge exact) 1%Z) (XFin 2800000) = true
  /\ xeqb (xi_min (surge exact) 1%Z) (XFin 0) = true
  /\ xeqb (xi_max (surge exact) 1%Z) (XFin 5) = true.
Proof. vm_compute. repeat split; reflexivity. Qed.

Lemma ComputeFCTSolution_bounded_exact_witness :
  xi_min (surge exact) 1%Z
  = fst (ComputeVertexBounds exact VertexBounds.segment2_map
           (surge_xe_min exact) (surge_xe_max exact) 1%Z)
  /\ xi_max (surge exact) 1%Z
     = snd (ComputeVertexBounds exact VertexBounds.segment2_map
              (surge_xe_min exact) (surge_xe_max exact) 1%Z)
  /\ exists v, y (surge exact) 1%Z = XFin v
       /\ xleb (xi_min (surge exact) 1%Z)
            (XFin (0 + (1 # 1000000) * v)) = true
       /\ xleb (XFin (0 + (1 # 1000000) * v))
            (xi_max (surge exact) 1%Z) = true.
Proof.
  refine (ComputeFCTSolution_bounded_exact VertexBounds.segment2_map
            (surge_xe_min exact) (surge_xe_max exact) (fun _ => XFin 1)
            (surge_dt exact) 2 2 (surge_x exact) (surge_yH exact)
            (fun _ => XFin 0) (blank exact) 0 1
            (1 # 1000000) 1 0 1000000000 0 _ _ _ _ _ _ _ _ _ _ _).
  - simpl. lia.
  - simpl. lia.
  - vm_compute. reflexivity.
  - reflexivity.
  - vm_compute. reflexivity.
  - vm_compute. reflexivity.
  - reflexivity.
  - reflexivity.
  - reflexivity.
  - vm_compute. reflexivity.
  - vm_compute. reflexivity.
Defined.

(** In the first element of the surge both signs are present, the net flux
    is [2.2*10^6], and the rescaled fluxes cancel. *)
Example surge_exact_sums :
  xeqb (sumPos (snd (surge_element0 exact))) (XFin 5000000) = true
  /\ xeqb (sumNeg (snd (surge_element0 exact))) (XFin (-2800000)) = true
  /\ xeqb (fClipped (snd (surge_element0 exact)) 0%Z) (XFin (-2800000)) = true
  /\ xeqb (fClipped (snd (surge_element0 exact)) 1%Z) (XFin 2800000) = true.
Proof. vm_compute. repeat split; reflexivity. Qed.

Lemma fct_element_conservation_exact_witness :
  exists t,
    asum exact (fClipped (snd (surge_element0 exact))) (zrange 2) (XFin 0)
    = XFin t
    /\ Qabs t <= inject_Z (Z.of_nat 2) * eps.
Proof.
  refine (proj1 (fct_element_conservation_exact VertexBounds.segment2_map
                   (surge_xe_min exact) (surge_xe_max exact) (fun _ => XFin 1)
                   (surge_dt exact) 2 (surge_x exact) (surge_yH exact)
                   (fun _ => XFin 0) 0 (blank exact) _ _ _)).
  - vm_compute. reflexivity.
  - left. vm_compute. reflexivity.
Defined.

(** A dof without contributors keeps the seeds [+infinity], [-infinity] as
    its bounds, and its flux is infinite: on the segment without the map
    entry of the first dof, the first dof of the surge ends with a NaN rate
    while the second one is left with its unscaled flux, within its
    bounds. *)
Example surge_beside_infinite_flux :
  let st := ComputeFCTSolution exact (delete 0%Z VertexBounds.segment2_map)
              (surge_xe_min exact) (surge_xe_max exact) (fun _ => XFin 1)
              (surge_dt exact) 2 2 (surge_x exact) (surge_yH exact)
              (fun _ => XFin 0) (blank exact) in
  xeqb (y st 0%Z) XNaN = true
  /\ xeqb (y st 1%Z) (XFin 5000000) = true
  /\ xeqb (xi_max st 1%Z) (XFin 5) = true.
Proof. vm_compute. repeat split; reflexivity. Qed.

(** *** The same runs in binary64 *)

Local Open Scope float_scope.

(** C1 as stated fails in double precision.  In the swap the second dof has
    [dt > 0], [lumpedM > 0] and its low-order value [0.9] within its
    bounds [[0.1, 2.6]]; its high-order value is clipped to [0.1], the flux
    [10 * (0.1 - 0.9)] rounds to [-8], and [x + dt*y = 0.9 + 0.1 * (-8)] is
    below [xi_min = 0.1]: by one unit in the last place when it is computed
    in doubles, and also when it is computed exactly from the doubles
    [x], [dt] and [y]. *)
Lemma FCT_bounded_counterexample :
  let st := swap binary64 in
  let d := 1%Z in
  let x := swap_x binary64 d in
  let yL := swap_yL binary64 d in
  let dt := swap_dt binary64 in
  PrimFloat.ltb 0 dt = true
  /\ PrimFloat.ltb 0 (swap_lumpedM binary64 d) = true
  /\ PrimFloat.leb (xi_min st d) (x + dt * yL) = true
  /\ PrimFloat.leb (x + dt * yL) (xi_max st d) = true
  /\ PrimFloat.eqb (xi_min st d) (lit binary64 1 10) = true
  /\ PrimFloat.eqb (y st d) (-8) = true
  /\ PrimFloat.ltb (x + dt * y st d) (xi_min st d) = true
  /\ xltb (xadd (to_exact x) (xmul (to_exact dt) (to_exact (y st d))))
       (to_exact (xi_min st d)) = true.
Proof. vm_compute. repeat split; reflexivity. Qed.

(** In exact arithmetic the same dof ends on its lower bound. *)
Example swap_exact_on_the_bound :
  xeqb (xadd (swap_x exact 1%Z)
          (xmul (swap_dt exact) (y (swap exact) 1%Z)))
    (xi_min (swap exact) 1%Z) = true.
Proof. vm_compute. reflexivity. Qed.

(** C2 as stated fails in double precision.  In the first element of the
    surge the net flux is beyond [eps], and the rescaled fluxes are
    [-2800000] and [2800000.0000000005]: their sum is [2^-31], about
    [4.7*10^-10], more than [10^5] times the number of dofs times [eps],
    whether it is added up in doubles or exactly. *)
Lemma FCT_conservation_counterexample :
  let loc := snd (surge_element0 binary64) in
  let bound := float_of_int 100000 * (float_of_int 2 * eps64) in
  PrimFloat.ltb eps64 (sumPos loc + sumNeg loc) = true
  /\ PrimFloat.ltb bound
       (PrimFloat.abs (asum binary64 (fClipped loc) (zrange 2) 0)) = true
  /\ xltb (to_exact bound)
       (asum exact (fun j => to_exact (fClipped loc j)) (zrange 2) (XFin 0))
     = true.
Proof. vm_compute. repeat split; reflexivity. Qed.

End FCTRuns.

(** ** The element contributions of the residual distribution over an
    arithmetic *)

Module ResDistNum.
Import Arith.

Section Element.

Variable A : arith.
Local Abbreviation D := (num A).

(** [lom.OptScheme] *)
Variable OptScheme : bool.
(** [dummy->GetDof()] and the sizes kept in [dofs] *)
Variables nd numSubcells numDofsSubcell : nat.
Variable Sub2Ind : Z -> Z -> Z.
(** [asmbl.SubcellWeights] *)
Variable SubcellWeights : Z -> Z -> Z -> D.
(** the state [x] and [z = K x] *)
Variables x z : Z -> D.

Local Abbreviation zero := (of_int A 0).
Local Abbreviation one := (of_int A 1).
Local Abbreviation eps := (eps_lit A).
Local Abbreviation dof k j := (k * Z.of_nat nd + j)%Z.

(** [gamma = 10.] *)
Definition gamma : D := of_int A 10.

(** the running values of the loop over the dofs of an element *)
Record elem_stats : Type := {
  e_max : D;
  e_min : D;
  xSum : D;
  rhoP : D;
  rhoN : D
}.

(** the running values of the loop over the dofs of a subcell *)
Record subcell_stats : Type := {
  fluct : D;
  s_max : D;
  s_min : D;
  s_sum : D
}.

(** the subcell vectors and sums of one element *)
Record subcells : Type := {
  xMaxSubcell : Z -> D;
  xMinSubcell : Z -> D;
  sumWeightsSubcellP : Z -> D;
  sumWeightsSubcellN : Z -> D;
  fluctSubcellP : Z -> D;
  fluctSubcellN : Z -> D;
  sumFluctSubcellP : D;
  sumFluctSubcellN : D
}.

(** [sumWeightsP = nd*xe_max(k) - xSum + eps] and
    [sumWeightsN = nd*xe_min(k) - xSum - eps]; the same expressions give the
    subcell denominators. *)
Definition sumWeightsP_of (n : nat) (xmax xsum : D) : D :=
  add A (sub A (mul A (of_int A (Z.of_nat n)) xmax) xsum) eps.
Definition sumWeightsN_of (n : nat) (xmin xsum : D) : D :=
  sub A (sub A (mul A (of_int A (Z.of_nat n)) xmin) xsum) eps.

Definition rd_stats_dof (k : Z) (s : elem_stats) (j : Z) : elem_stats :=
  let dofInd := dof k j in
  {| e_max := amax A (e_max s) (x dofInd);
     e_min := amin A (e_min s) (x dofInd);
     xSum := add A (xSum s) (x dofInd);
     rhoP := if OptScheme then add A (rhoP s) (amax A zero (z dofInd))
             else rhoP s;
     rhoN := if OptScheme then add A (rhoN s) (amin A zero (z dofInd))
             else rhoN s |}.

Definition rd_stats (k : Z) : elem_stats :=
  fold_left (rd_stats_dof k) (zrange nd)
    {| e_max := opp A (infinity A); e_min := infinity A;
       xSum := zero; rhoP := zero; rhoN := zero |}.

Definition subcell_dof (k m : Z) (s : subcell_stats) (i : Z) : subcell_stats :=
  let dofInd := dof k (Sub2Ind m i) in
  {| fluct := add A (fluct s) (mul A (SubcellWeights k m i) (x dofInd));
     s_max := amax A (s_max s) (x dofInd);
     s_min := amin A (s_min s) (x dofInd);
     s_sum := add A (s_sum s) (x dofInd) |}.

Definition subcell (k m : Z) : subcell_stats :=
  fold_left (subcell_dof k m) (zrange numDofsSubcell)
    {| fluct := zero; s_max := opp A (infinity A); s_min := infinity A;
       s_sum := zero |}.

(** one pass of the first loop over the subcells *)
Definition subcell_pass (k : Z) (sc : subcells) (m : Z) : subcells :=
  let s := subcell k m in
  {| xMaxSubcell := aset (xMaxSubcell sc) m (s_max s);
     xMinSubcell := aset (xMinSubcell sc) m (s_min s);
     sumWeightsSubcellP :=
       aset (sumWeightsSubcellP sc) m
         (sumWeightsP_of numDofsSubcell (s_max s) (s_sum s));
     sumWeightsSubcellN :=
       aset (sumWeightsSubcellN sc) m
         (sumWeightsN_of numDofsSubcell (s_min s) (s_sum s));
     fluctSubcellP := aset (fluctSubcellP sc) m (amax A zero (fluct s));
     fluctSubcellN := aset (fluctSubcellN sc) m (amin A zero (fluct s));
     sumFluctSubcellP :=
       add A (sumFluctSubcellP sc) (amax A zero (fluct s));
     sumFluctSubcellN :=
       add A (sumFluctSubcellN sc) (amin A zero (fluct s)) |}.

Definition no_subcells : subcells :=
  {| xMaxSubcell := fun _ => zero; xMinSubcell := fun _ => zero;
     sumWeightsSubcellP := fun _ => zero; sumWeightsSubcellN := fun _ => zero;
     fluctSubcellP := fun _ => zero; fluctSubcellN := fun _ => zero;
     sumFluctSubcellP := zero; sumFluctSubcellN := zero |}.

Definition subcell_loop (k : Z) : subcells :=
  fold_left (subcell_pass k) (zrange numSubcells) no_subcells.

(** the second loop over the subcells: the nodal correction terms,
    eq. (10) and (11) *)
Definition nodal_dof (k : Z) (sc : subcells) (m : Z)
  (nw : (Z -> D) * (Z -> D)) (i : Z) : (Z -> D) * (Z -> D) :=
  let loc := Sub2Ind m i in
  let dofInd := dof k loc in
  (aset (fst nw) loc
     (add A (fst nw loc)
        (mul A (fluctSubcellP sc m)
           (div A (sub A (xMaxSubcell sc m) (x dofInd))
              (sumWeightsSubcellP sc m)))),
   aset (snd nw) loc
     (add A (snd nw loc)
        (mul A (fluctSubcellN sc m)
           (div A (sub A (xMinSubcell sc m) (x dofInd))
              (sumWeightsSubcellN sc m))))).

Definition nodal_loop (k : Z) (sc : subcells) : (Z -> D) * (Z -> D) :=
  fold_left
    (fun nw m => fold_left (nodal_dof k sc m) (zrange numDofsSubcell) nw)
    (zrange numSubcells) (fun _ => zero, fun _ => zero).

(** [weightP] and [weightN] of the dof [i] *)
Definition rd_weights (k : Z) (s : elem_stats) (sc : subcells)
  (nw : (Z -> D) * (Z -> D)) (i : Z) : D * D :=
  let dofInd := dof k i in
  let sumWeightsP := sumWeightsP_of nd (e_max s) (xSum s) in
  let sumWeightsN := sumWeightsN_of nd (e_min s) (xSum s) in
  let weightP := div A (sub A (e_max s) (x dofInd)) sumWeightsP in
  let weightN := div A (sub A (e_min s) (x dofInd)) sumWeightsN in
  if OptScheme then
    let aux := div A gamma (add A (rhoP s) eps) in
    let weightP :=
      mul A weightP
        (sub A one (amin A (mul A aux (sumFluctSubcellP sc)) one)) in
    let weightP :=
      add A weightP
        (mul A (amin A aux (div A one (add A (sumFluctSubcellP sc) eps)))
           (fst nw i)) in
    let aux := div A gamma (sub A (rhoN s) eps) in
    let weightN :=
      mul A weightN
        (sub A one (amin A (mul A aux (sumFluctSubcellN sc)) one)) in
    let weightN :=
      add A weightN
        (mul A (amax A aux (div A one (sub A (sumFluctSubcellN sc) eps)))
           (snd nw i)) in
    (weightP, weightN)
  else (weightP, weightN).

(** the weights of the dof [i] of element [k], from the state alone *)
Definition element_weights (k i : Z) : D * D :=
  let s := rd_stats k in
  let sc := if OptScheme then subcell_loop k else no_subcells in
  let nw := if OptScheme then nodal_loop k sc
            else (fun _ => zero, fun _ => zero) in
  rd_weights k s sc nw i.

End Element.

Arguments e_max {A} e.
Arguments e_min {A} e.
Arguments xSum {A} e.
Arguments rhoP {A} e.
Arguments rhoN {A} e.
Arguments fluct {A} s.
Arguments s_max {A} s.
Arguments s_min {A} s.
Arguments s_sum {A} s.
Arguments xMaxSubcell {A} s.
Arguments xMinSubcell {A} s.
Arguments sumWeightsSubcellP {A} s.
Arguments sumWeightsSubcellN {A} s.
Arguments fluctSubcellP {A} s.
Arguments fluctSubcellN {A} s.
Arguments sumFluctSubcellP {A} s.
Arguments sumFluctSubcellN {A} s.

End ResDistNum.

(** ** The denominators in exact arithmetic *)

Module ResDistExact.
Import Arith ResDistNum.

(** a finite number, and one on a side of a bound *)
Definition finite (a : xreal) : Prop := exists q, a = XFin q.
Definition at_least (c : Q) (a : xreal) : Prop :=
  exists q, a = XFin q /\ c <= q.
Definition at_most (c : Q) (a : xreal) : Prop :=
  exists q, a = XFin q /\ q <= c.

Section Element.

Variable OptScheme : bool.
Variables nd numSubcells numDofsSubcell : nat.
Variable Sub2Ind : Z -> Z -> Z.
Variable SubcellWeights : DTensor.
Variables x z : Vector.

(** the finite inputs as values of the exact arithmetic *)
Definition X : Z -> xreal := fun i => XFin (x i).
Definition Zv : Z -> xreal := fun i => XFin (z i).
Definition W : Z -> Z -> Z -> xreal := fun k m i => XFin (SubcellWeights k m i).

Local Abbreviation dof k j := (k * Z.of_nat nd + j)%Z.

(** *** The loops over the dofs are the ones of the rational model *)





(** *** The element denominators *)




(** *** The subcell denominators *)

(** the entries of subcell [m] after the first loop over the subcells *)
Definition subcell_ok (sc : subcells exact) (m : Z) : Prop :=
  finite (xMaxSubcell sc m) /\ finite (xMinSubcell sc m)
  /\ at_least eps (sumWeightsSubcellP sc m)
  /\ at_most (- eps) (sumWeightsSubcellN sc m)
  /\ finite (fluctSubcellP sc m) /\ finite (fluctSubcellN sc m).

Definition subcells_ok (ms : list Z) (sc : subcells exact) : Prop :=
  at_least 0 (sumFluctSubcellP sc) /\ at_most 0 (sumFluctSubcellN sc)
  /\ forall m, In m ms -> subcell_ok sc m.


(** *** The nodal weights *)




(** *** The weights *)



End Element.


End ResDistExact.

(** ** An element of eight dofs, in both arithmetics *)

Module ResDistRuns.
Import Arith ResDistNum ResDistExact.

(** a segment element with one subcell: [x = [1, 3]], [z = [2, -1]] *)
Definition pair_x : Vector := fun i => if (i =? 0)%Z then 1 else 3.
Definition pair_z : Vector := fun i => if (i =? 0)%Z then 2 else - (1).
Definition pair_weights : DTensor := fun _ _ i => if (i =? 0)%Z then - (1) else 1.

(** its first dof has [weightP = (3 - 1) / (2*3 - 4 + eps)] without the
    subcell terms *)
Example pair_weightP :
  xeqb (fst (element_weights exact false 2 1 2 (fun _ i => i)
               (W pair_weights) (X pair_x) (Zv pair_z) 0 0))
    (XFin (2 / (2 + eps))) = true.
Proof. vm_compute. reflexivity. Qed.


Section Inputs.

Variable A : arith.

(** seven dofs at [1.4] and one that is [2^-52] below *)
Definition near_uniform : Z -> num A :=
  fun i => if (i =? 7)%Z
           then sub A (lit A 14 10) (lit A 1 4503599627370496)
           else lit A 14 10.



End Inputs.

Local Open Scope float_scope.


(** With the same eight doubles added up exactly, the denominator is
    [2^-52 + eps] and the weight of the last dof is positive. *)
Example near_uniform_exact :
  let xs := fun i => to_exact (near_uniform binary64 i) in
  let s := rd_stats exact false 8 xs (fun _ => XFin 0) 0 in
  xltb (XFin eps) (sumWeightsP_of exact 8 (e_max s) (xSum s)) = true
  /\ xltb (XFin 0)
       (fst (element_weights exact false 8 0 0 (fun _ i => i)
               (fun _ _ _ => XFin 0) xs (fun _ => XFin 0) 0 7)) = true.
Proof. vm_compute. repeat split; reflexivity. Qed.

End ResDistRuns.
